(** * Verification model of the XSD back end (language/XSD.ts)

    The development embeds two parts of [XSD.ts]:
    - the type lowerer of [XSDRenderer] ([renderTypes], [renderArray],
      [renderClass], [renderUnion]) and the element resolver
      ([renderElements]), as explicit state passing over the renderer's maps
      and the schema builder;
    - the converter of [XSDTypes] / [XMLFormatConverterHandler]
      (primitive coercions, [parseUnion], [parseJSON], [parseXMLtoJSON]),
      as functions over JavaScript values with explicit failures. *)

From Stdlib Require Import List String Ascii ZArith Lia Bool Arith.
From Stdlib Require Import DecimalNat DecimalZ DecimalN NArith.
Import ListNotations.
Open Scope string_scope.

(** ** Outcomes of a computation: a result, a [panic] (or thrown error),
    or running out of the fuel that bounds the recursion of the model. *)
Inductive Outcome (A : Type) : Type :=
| Done (a : A)
| Panic (msg : string)
| OutOfFuel.
Arguments Done {A} a.
Arguments Panic {A} msg.
Arguments OutOfFuel {A}.

Definition obind {A B} (m : Outcome A) (k : A -> Outcome B) : Outcome B :=
  match m with
  | Done a => k a
  | Panic msg => Panic msg
  | OutOfFuel => OutOfFuel
  end.

Notation "x <- m ;; k" := (obind m (fun x => k))
  (at level 61, m at next level, right associativity).

(** ** Strings *)

(** Decimal text of a [Decimal.uint], as [Number.prototype.toString]
    prints a non-negative integer. *)
Fixpoint uint_to_string (d : Decimal.uint) : string :=
  match d with
  | Decimal.Nil => ""
  | Decimal.D0 d => String "0" (uint_to_string d)
  | Decimal.D1 d => String "1" (uint_to_string d)
  | Decimal.D2 d => String "2" (uint_to_string d)
  | Decimal.D3 d => String "3" (uint_to_string d)
  | Decimal.D4 d => String "4" (uint_to_string d)
  | Decimal.D5 d => String "5" (uint_to_string d)
  | Decimal.D6 d => String "6" (uint_to_string d)
  | Decimal.D7 d => String "7" (uint_to_string d)
  | Decimal.D8 d => String "8" (uint_to_string d)
  | Decimal.D9 d => String "9" (uint_to_string d)
  end.

Definition nat_to_string (n : nat) : string := uint_to_string (Nat.to_uint n).

(** [String.prototype.toUpperCase] on one ASCII character. *)
Definition ascii_upper (c : ascii) : ascii :=
  let n := nat_of_ascii c in
  if Nat.leb 97 n && Nat.leb n 122 then ascii_of_nat (n - 32) else c.

(** [key.charAt(0).toUpperCase() + key.slice(1)] *)
Definition capitalize (s : string) : string :=
  match s with
  | EmptyString => EmptyString
  | String c r => String (ascii_upper c) r
  end.

(** ** Association lists standing for JavaScript [Map]s: [set] keeps the
    position of an existing key and appends a new one, as [Map.set] does. *)
Fixpoint lookup_nat {A} (k : nat) (l : list (nat * A)) : option A :=
  match l with
  | [] => None
  | (k', v) :: t => if Nat.eqb k k' then Some v else lookup_nat k t
  end.

Fixpoint lookup_str {A} (k : string) (l : list (string * A)) : option A :=
  match l with
  | [] => None
  | (k', v) :: t => if String.eqb k k' then Some v else lookup_str k t
  end.

Fixpoint set_str {A} (k : string) (v : A) (l : list (string * A)) : list (string * A) :=
  match l with
  | [] => [(k, v)]
  | (k', v') :: t => if String.eqb k k' then (k, v) :: t else (k', v') :: set_str k v t
  end.

Definition default {A} (d : A) (o : option A) : A :=
  match o with Some a => a | None => d end.

(** ** The type graph consumed by the renderer *)

Inductive PrimitiveTypeKind : Type :=
| PK_none | PK_any | PK_null | PK_bool | PK_integer | PK_double | PK_string
| PK_date | PK_time | PK_date_time | PK_uuid | PK_uri
| PK_integer_string | PK_bool_string.

Inductive TypeKind : Type :=
| K_prim (p : PrimitiveTypeKind)
| K_array | K_class | K_map | K_object | K_enum | K_union.

(** A [TypeRef] is the identity of a node of the graph. *)
Definition TypeRef := nat.

Record ClassProperty := mkClassProperty {
  cp_type : TypeRef;
  cp_isOptional : bool
}.

(** Nodes of the type graph; children are named by their [TypeRef], so the
    graph may be cyclic. *)
Inductive Ty : Type :=
| T_prim (p : PrimitiveTypeKind)
| T_array (items : TypeRef)
| T_class (props : list (string * ClassProperty))
| T_map (values : TypeRef)
| T_object
| T_enum (cases : list string)
| T_union (members : list TypeRef).

Definition tyKind (t : Ty) : TypeKind :=
  match t with
  | T_prim p => K_prim p
  | T_array _ => K_array
  | T_class _ => K_class
  | T_map _ => K_map
  | T_object => K_object
  | T_enum _ => K_enum
  | T_union _ => K_union
  end.

(** [mapPrimitiveKindToXSDTypes] *)
Definition mapPrimitiveKindToXSDTypes (k : PrimitiveTypeKind) : option string :=
  match k with
  | PK_date => Some "dateType"
  | PK_time => Some "timeType"
  | PK_date_time => Some "dateTimeType"
  | PK_uri => Some "uriType"
  | PK_integer_string => Some "integerStringType"
  | PK_bool_string => Some "booleanStringType"
  | PK_string => Some "xsd:string"
  | PK_integer => Some "xsd:integer"
  | PK_double => Some "xsd:decimal"
  | PK_bool => Some "xsd:boolean"
  | PK_null => Some "nullType"
  | PK_none | PK_any | PK_uuid => None
  end.

(** ** The schema under construction *)

(** A schema builder handle: the root [<xsd:schema>] or the content node
    ([<all>], [<sequence>] or [<union>]) of a named definition. *)
Inductive Handle : Type :=
| RootSchema
| DefSchema (name : string).

Inductive DefSort : Type := Sort_all | Sort_sequence | Sort_union.

Definition Attrs := list (string * string).

Inductive SchemaNode : Type :=
| N_basic (name : string)
| N_def (sort : DefSort) (name : string)
| N_element (attrs : Attrs).

Inductive DefChild : Type :=
| C_element (attrs : Attrs)
| C_restriction (base : string).

Record RenderState := mkState {
  processedCustomTypes : list (TypeRef * string);
  typeRefsByElementName : list (string * list (TypeRef * list string));
  rootNodes : list SchemaNode;
  defBodies : list (string * list DefChild)
}.

(** [XSDSchemaWrapper.supportedBaseTypes] and the attribute rewrite of
    [XSDSchemaWrapper.ele]. *)
Definition supportedBaseTypes : list string :=
  ["string"; "integer"; "decimal"; "dateTime"; "date"; "time"; "boolean"].

Definition rewriteAttr (a : string * string) : string * string :=
  let '(k, v) := a in
  if (String.eqb k "base" || String.eqb k "type") && existsb (String.eqb v) supportedBaseTypes
  then (k, "xsd:" ++ v) else (k, v).

Definition wrapAttrs (attrs : Attrs) : Attrs := map rewriteAttr attrs.

Definition bodyOf (s : RenderState) (name : string) : list DefChild :=
  default [] (lookup_str name (defBodies s)).

(** [schema.ele('element', attrs)] *)
Definition emitElement (sch : Handle) (attrs : Attrs) (s : RenderState) : RenderState :=
  match sch with
  | RootSchema =>
      mkState (processedCustomTypes s) (typeRefsByElementName s)
        (rootNodes s ++ [N_element (wrapAttrs attrs)])%list (defBodies s)
  | DefSchema nm =>
      mkState (processedCustomTypes s) (typeRefsByElementName s) (rootNodes s)
        (set_str nm (bodyOf s nm ++ [C_element (wrapAttrs attrs)])%list (defBodies s))
  end.

(** [this.rootSchema.ele(sort, {name})]: a new named definition. *)
Definition emitDef (sort : DefSort) (nm : string) (s : RenderState) : RenderState :=
  mkState (processedCustomTypes s) (typeRefsByElementName s)
    (rootNodes s ++ [N_def sort nm])%list (defBodies s).

Definition emitRestriction (nm base : string) (s : RenderState) : RenderState :=
  mkState (processedCustomTypes s) (typeRefsByElementName s) (rootNodes s)
    (set_str nm (bodyOf s nm ++ [C_restriction base])%list (defBodies s)).

(** [this.processedCustomTypes.set(typeRef, newType)] *)
Definition setProcessed (r : TypeRef) (nm : string) (s : RenderState) : RenderState :=
  mkState (processedCustomTypes s ++ [(r, nm)])%list (typeRefsByElementName s)
    (rootNodes s) (defBodies s).

(** [`complexType${this.processedCustomTypes.size + 1}`] *)
Definition newTypeName (s : RenderState) : string :=
  "complexType" ++ nat_to_string (S (List.length (processedCustomTypes s))).

(** The element record shared by [renderArray], [renderClass] and
    [renderUnion]: [createElementCondition] and the push into
    [typeRefsByElementName]. *)
Definition recordElement (r : TypeRef) (prefixes : list string) (key : string)
    (createElement : bool) (processedType : option string) (s : RenderState)
    : RenderState :=
  let elementTypes := default [] (lookup_str key (typeRefsByElementName s)) in
  let cond := createElement &&
    match processedType with
    | Some _ => negb (existsb (fun e => Nat.eqb (fst e) r) elementTypes)
    | None => true
    end in
  if cond then
    mkState (processedCustomTypes s)
      (set_str key (elementTypes ++ [(r, prefixes)])%list (typeRefsByElementName s))
      (rootNodes s) (defBodies s)
  else s.

(** The start of [renderArray], [renderClass] and [renderUnion]: record the
    element, then [if (schema !== this.rootSchema)] emit the referencing
    element typed [processedType ?? newType]. *)
Definition customPrologue (r : TypeRef) (prefixes : list string) (sch : Handle)
    (key : string) (attrs : Attrs) (createElement : bool) (s : RenderState)
    : RenderState :=
  let newT := newTypeName s in
  let processedType := lookup_nat r (processedCustomTypes s) in
  let s1 := recordElement r prefixes key createElement processedType s in
  match sch with
  | RootSchema => s1
  | DefSchema _ => emitElement sch (attrs ++ [("name", key); ("type", default newT processedType)])%list s1
  end.

(** [renderNull], [renderBool], [renderInteger], [renderDouble],
    [renderString], [renderTransformedString]; [none] and [any] render
    nothing. *)
Definition renderPrimitive (p : PrimitiveTypeKind) (sch : Handle) (key : string)
    (attrs : Attrs) (s : RenderState) : Outcome RenderState :=
  let el t := Done (emitElement sch (attrs ++ [("name", key); ("type", t)])%list s) in
  match p with
  | PK_none | PK_any => Done s
  | PK_null => el "nullType"
  | PK_bool => el "boolean"
  | PK_integer => el "integer"
  | PK_double => el "decimal"
  | PK_string => el "string"
  | PK_date | PK_time | PK_date_time | PK_uuid | PK_uri
  | PK_integer_string | PK_bool_string =>
      match mapPrimitiveKindToXSDTypes p with
      | Some t => el t
      | None => Panic "defined"
      end
  end.

Definition classPropAttrs (cp : ClassProperty) : Attrs :=
  if cp_isOptional cp then [("minOccurs", "0")] else [].

Definition arrayItemAttrs : Attrs := [("maxOccurs", "unbounded"); ("minOccurs", "0")].

(** [key.charAt(0).toUpperCase() + key.slice(1)] appended to every old
    prefix, behind the key itself. *)
Definition classPrefixes (prefixes : list string) (key : string) : list string :=
  key :: map (fun p => p ++ capitalize key) prefixes.

Section Lowering.

Variable G : TypeRef -> Ty.

(** The members of a primitive union: one restriction per member. *)
Fixpoint renderUnionMembers (nm : string) (members : list TypeRef) (s : RenderState)
    : Outcome RenderState :=
  match members with
  | [] => Done s
  | m :: ms =>
      match tyKind (G m) with
      | K_prim p =>
          match mapPrimitiveKindToXSDTypes p with
          | Some x => renderUnionMembers nm ms (emitRestriction nm x s)
          | None => Panic "defined"
          end
      | _ => Panic "Union type with complex types not supported"
      end
  end.

(** The signature of [renderTypes] once [t] is given by its reference. *)
Definition RenderFn : Type :=
  TypeRef -> Handle -> list string -> string -> Attrs -> bool -> RenderState -> Outcome RenderState.

(** [type.getProperties().forEach(...)] in [renderClass]: every property is
    lowered into the class's [<all>], optional ones with [minOccurs="0"]. *)
Fixpoint renderClassProps (rt : RenderFn) (newT : string) (newPrefixes : list string)
    (ps : list (string * ClassProperty)) (st : RenderState) : Outcome RenderState :=
  match ps with
  | [] => Done st
  | (innerKey, cp) :: ps' =>
      st' <- rt (cp_type cp) (DefSchema newT) newPrefixes innerKey (classPropAttrs cp) true st ;;
      renderClassProps rt newT newPrefixes ps' st'
  end.

(** [renderTypes] with [renderArray], [renderClass] and [renderUnion]
    inlined; every call takes one unit of [fuel]. *)
Fixpoint renderTypes (fuel : nat) (r : TypeRef) (sch : Handle) (prefixes : list string)
    (key : string) (attrs : Attrs) (createElement : bool) (s : RenderState)
    {struct fuel} : Outcome RenderState :=
  match fuel with
  | O => OutOfFuel
  | S f =>
      match G r with
      | T_prim p => renderPrimitive p sch key attrs s
      | T_map _ | T_object | T_enum _ => Done s
      | T_array items =>
          let newT := newTypeName s in
          let s1 := customPrologue r prefixes sch key attrs createElement s in
          match lookup_nat r (processedCustomTypes s) with
          | Some _ => Done s1
          | None =>
              let s2 := emitDef Sort_sequence newT (setProcessed r newT s1) in
              renderTypes f items (DefSchema newT) prefixes (key ++ "Item")
                arrayItemAttrs false s2
          end
      | T_class props =>
          let newT := newTypeName s in
          let s1 := customPrologue r prefixes sch key attrs createElement s in
          match lookup_nat r (processedCustomTypes s) with
          | Some _ => Done s1
          | None =>
              let s2 := emitDef Sort_all newT (setProcessed r newT s1) in
              renderClassProps (renderTypes f) newT (classPrefixes prefixes key) props s2
          end
      | T_union members =>
          let newT := newTypeName s in
          let s1 := customPrologue r prefixes sch key attrs createElement s in
          match lookup_nat r (processedCustomTypes s) with
          | Some _ => Done s1
          | None =>
              renderUnionMembers newT members (emitDef Sort_union newT (setProcessed r newT s1))
          end
      end
  end.

End Lowering.

(** The schema after [prepareSchema]: the basic types only. *)
Definition initialState : RenderState :=
  mkState [] []
    [N_basic "dateType"; N_basic "timeType"; N_basic "booleanStringType";
     N_basic "integerStringType"; N_basic "uriType"; N_basic "nullType"] [].

(** [this.renderTypes(topLevelStructure, this.rootSchema, [], topLevelName)] *)
Definition lowerTopLevel (G : TypeRef -> Ty) (fuel : nat) (top : TypeRef) (topName : string)
    : Outcome RenderState :=
  renderTypes G fuel top RootSchema [] topName [] true initialState.

(** ** The element resolver: [renderElements] *)

Fixpoint last_opt {A} (l : list A) : option A :=
  match l with
  | [] => None
  | [x] => Some x
  | _ :: t => last_opt t
  end.

(** [const currentPrefix = elementPrefixes[prefixIndex] ?? arrayLast(elementPrefixes)];
    [currentPrefix ? `${currentPrefix}${Key}` : elementKey] (the empty
    string is falsy). *)
Definition candidateKey (elementKey : string) (elementPrefixes : list string) (i : nat) : string :=
  let currentPrefix :=
    match nth_error elementPrefixes i with
    | Some p => Some p
    | None => last_opt elementPrefixes
    end in
  match currentPrefix with
  | Some p => if String.eqb p "" then elementKey else p ++ capitalize elementKey
  | None => elementKey
  end.

(** One pass of the [do ... while (!success)] body: the [forEach] over the
    entries into the fresh map [typeRefsByNewElementKey]; a clash sets
    [success = false] and skips that entry. *)
Fixpoint assignKeys (elementKey : string) (i : nat) (entries : list (TypeRef * list string))
    (acc : list (string * TypeRef)) (success : bool) : list (string * TypeRef) * bool :=
  match entries with
  | [] => (acc, success)
  | (r, pre) :: t =>
      let k := candidateKey elementKey pre i in
      if existsb (fun e => String.eqb (fst e) k) acc
      then assignKeys elementKey i t acc false
      else assignKeys elementKey i t (acc ++ [(k, r)])%list success
  end.

(** The [do ... while] loop, [prefixIndex] counting from 0; [None] when the
    fuel runs out before a pass succeeds. *)
Fixpoint resolveLoop (fuel : nat) (elementKey : string) (entries : list (TypeRef * list string))
    (i : nat) : option (list (string * TypeRef)) :=
  match fuel with
  | O => None
  | S f =>
      let '(m, success) := assignKeys elementKey i entries [] true in
      if success then Some m else resolveLoop f elementKey entries (S i)
  end.

(** [renderSchemaElements]: one top-level element per entry of the map. *)
Fixpoint renderSchemaElements (m : list (string * TypeRef)) (s : RenderState) : Outcome RenderState :=
  match m with
  | [] => Done s
  | (k, r) :: t =>
      match lookup_nat r (processedCustomTypes s) with
      | Some ty => renderSchemaElements t (emitElement RootSchema [("name", k); ("type", ty)] s)
      | None => Panic "defined"
      end
  end.

(** The names chosen for one element tag. *)
Definition resolveElement (fuel : nat) (elementKey : string) (elementData : list (TypeRef * list string))
    : option (list (string * TypeRef)) :=
  match elementData with
  | [(r, _)] => Some [(elementKey, r)]
  | _ => resolveLoop fuel elementKey elementData 0
  end.

(** [renderElements]: [this.typeRefsByElementName.forEach(...)]. *)
Fixpoint renderElementsFrom (fuel : nat) (entries : list (string * list (TypeRef * list string)))
    (s : RenderState) : Outcome RenderState :=
  match entries with
  | [] => Done s
  | (elementKey, elementData) :: t =>
      match resolveElement fuel elementKey elementData with
      | None => OutOfFuel
      | Some m => s' <- renderSchemaElements m s ;; renderElementsFrom fuel t s'
      end
  end.

Definition renderElements (fuel : nat) (s : RenderState) : Outcome RenderState :=
  renderElementsFrom fuel (typeRefsByElementName s) s.

(** A graph where an array property [x] of class items sits next to a
    property named [xItem]: [Root{x: [C1{z: D1{p: integer}}], xItem: C2{z: D2{q: string}}}],
    the type graph inferred from [{"x":[{"z":{"p":1}}],"xItem":{"z":{"q":"s"}}}]. *)
Definition itemClashGraph (r : TypeRef) : Ty :=
  match r with
  | 0 => T_class [("x", mkClassProperty 1 false); ("xItem", mkClassProperty 3 false)]
  | 1 => T_array 2
  | 2 => T_class [("z", mkClassProperty 4 false)]
  | 3 => T_class [("z", mkClassProperty 5 false)]
  | 4 => T_class [("p", mkClassProperty 6 false)]
  | 5 => T_class [("q", mkClassProperty 7 false)]
  | 6 => T_prim PK_integer
  | _ => T_prim PK_string
  end.

Definition itemClashLowered : Outcome RenderState := lowerTopLevel itemClashGraph 10 0 "Root".

(** ** Vocabulary for the lowerer's invariants *)

(** The names [complexType1], ..., [complexType<n>]. *)
Definition allocatedNames (n : nat) : list string :=
  List.map (fun i => "complexType" ++ nat_to_string (S i)) (seq 0 n).

Definition typeNames (s : RenderState) : list string :=
  List.map snd (processedCustomTypes s).

(** The processed map has one entry per reference, its names are
    [complexType1 .. complexType<size>] in insertion order, and every named
    body belongs to an allocated name. *)
Definition LowerInv (s : RenderState) : Prop :=
  NoDup (List.map fst (processedCustomTypes s)) /\
  typeNames s = allocatedNames (List.length (processedCustomTypes s)) /\
  (forall y, lookup_str y (defBodies s) <> None -> In y (typeNames s)).

(** A builder handle points at the root or at an allocated definition. *)
Definition HandleOk (s : RenderState) (sch : Handle) : Prop :=
  match sch with
  | RootSchema => True
  | DefSchema y => In y (typeNames s)
  end.

(** The kinds for which [renderTypes] emits an element in its position
    (the callback of [matchTypeExhaustive] is not [null]). *)
Definition lowersToElement (t : Ty) : bool :=
  match t with
  | T_prim PK_none | T_prim PK_any | T_map _ | T_object | T_enum _ => false
  | _ => true
  end.

(** The kinds that receive a named definition. *)
Definition isCustom (t : Ty) : bool :=
  match t with
  | T_array _ | T_class _ | T_union _ => true
  | _ => false
  end.

Definition tyChildren (t : Ty) : list TypeRef :=
  match t with
  | T_array items => [items]
  | T_class props => List.map (fun p => cp_type (snd p)) props
  | T_map v => [v]
  | T_union members => members
  | _ => []
  end.

(** A finite type graph: the references below [N] only point below [N]. *)
Definition closedGraph (G : TypeRef -> Ty) (N : nat) : Prop :=
  forall r, r < N -> Forall (fun c => c < N) (tyChildren (G r)).

(** How many references below [N] have not been processed yet. *)
Definition unprocessedBelow (N : nat) (s : RenderState) : nat :=
  N - List.length (filter (fun k => Nat.ltb k N) (List.map fst (processedCustomTypes s))).

(** The property element a class emits for [cp] named [n] with type [T]. *)
Definition propElement (n : string) (cp : ClassProperty) (T : string) : DefChild :=
  C_element (wrapAttrs (classPropAttrs cp ++ [("name", n); ("type", T)])%list).

(** What a successful [renderTypes] call guarantees. *)
Definition RenderPost (G : TypeRef -> Ty) (r : TypeRef) (sch : Handle) (key : string)
    (attrs : Attrs) (s s' : RenderState) : Prop :=
  LowerInv s' /\
  (exists ext, processedCustomTypes s' = (processedCustomTypes s ++ ext)%list) /\
  (isCustom (G r) = true -> lookup_nat r (processedCustomTypes s') <> None) /\
  (forall y, In y (typeNames s) -> sch <> DefSchema y -> bodyOf s' y = bodyOf s y) /\
  (forall y, sch = DefSchema y ->
     if lowersToElement (G r)
     then exists T, bodyOf s' y =
            (bodyOf s y ++ [C_element (wrapAttrs (attrs ++ [("name", key); ("type", T)]))])%list
     else bodyOf s' y = bodyOf s y) /\
  (exists more, rootNodes s' = (rootNodes s ++ more)%list).

(** [rt] behaves as a successful [renderTypes] call must. *)
Definition RenderSpec (G : TypeRef -> Ty) (rt : RenderFn) : Prop :=
  forall r sch pre key attrs ce s s',
    LowerInv s -> HandleOk s sch -> rt r sch pre key attrs ce s = Done s' ->
    RenderPost G r sch key attrs s s'.

(** [closedGraph] as a test. *)
Definition closedGraphb (G : TypeRef -> Ty) (N : nat) : bool :=
  forallb (fun r => forallb (fun c => Nat.ltb c N) (tyChildren (G r))) (seq 0 N).

(** A cyclic type graph: [Node { next?: Node, items: Node[], n: integer }]. *)
Definition cyclicGraph (r : TypeRef) : Ty :=
  match r with
  | 0 => T_class [("next", mkClassProperty 0 true); ("items", mkClassProperty 1 false);
                  ("n", mkClassProperty 2 false)]
  | 1 => T_array 0
  | _ => T_prim PK_integer
  end.

(** [Root { a: integer, m: map of string }]. *)
Definition mapPropGraph (r : TypeRef) : Ty :=
  match r with
  | 0 => T_class [("a", mkClassProperty 1 false); ("m", mkClassProperty 2 false)]
  | 1 => T_prim PK_integer
  | 2 => T_map 3
  | _ => T_prim PK_string
  end.

(** The schema state after lowering [cyclicGraph] from [Node]. *)
Definition cyclicLowered : RenderState :=
  match lowerTopLevel cyclicGraph 4 0 "Node" with Done s => s | _ => initialState end.

(** The properties of [Node]. *)
Definition nodeProps : list (string * ClassProperty) :=
  [("next", mkClassProperty 0 true); ("items", mkClassProperty 1 false);
   ("n", mkClassProperty 2 false)].

(** * The converter *)

(** ** JavaScript numbers *)

(** A JavaScript number: [NaN], an infinity, or the finite value
    [m * 10 ^ e].  Finite numbers are kept as exact decimals (the model does
    not round to binary64).  The canonical form of a finite number has no
    trailing zero digit in its mantissa, and zero is [Fin 0 0]; [-0] is not
    distinguished from [0], which no printed form does either. *)
Inductive jsnum : Type :=
| NaN
| Infinity (neg : bool)
| Fin (m e : Z).

Definition is_digit (c : ascii) : bool :=
  Nat.leb 48 (nat_of_ascii c) && Nat.leb (nat_of_ascii c) 57.

Definition digit_val (c : ascii) : N := N.of_nat (nat_of_ascii c - 48).

Fixpoint digits_acc (s : string) (acc : N) : N :=
  match s with
  | EmptyString => acc
  | String c r => digits_acc r (acc * 10 + digit_val c)%N
  end.

(** Value of a string of decimal digits. *)
Definition digits_value (s : string) : N := digits_acc s 0.

(** Shortest decimal text of a natural number. *)
Definition N_to_string (a : N) : string := uint_to_string (N.to_uint a).

(** ECMAScript white space and line terminators, over one-byte code units. *)
Definition is_ws (c : ascii) : bool :=
  let n := nat_of_ascii c in
  (Nat.leb 9 n && Nat.leb n 13) || Nat.eqb n 32 || Nat.eqb n 160.

Fixpoint all_chars (p : ascii -> bool) (s : string) : bool :=
  match s with
  | EmptyString => true
  | String c r => p c && all_chars p r
  end.

Definition ws_only (s : string) : bool := all_chars is_ws s.

Fixpoint trim_start (s : string) : string :=
  match s with
  | EmptyString => EmptyString
  | String c r => if is_ws c then trim_start r else s
  end.

Fixpoint trim_end (s : string) : string :=
  match s with
  | EmptyString => EmptyString
  | String c r =>
      let r' := trim_end r in
      if String.eqb r' "" && is_ws c then "" else String c r'
  end.

(** The longest prefix of decimal digits, and the rest. *)
Fixpoint span_digits (s : string) : string * string :=
  match s with
  | EmptyString => ("", "")
  | String c r =>
      if is_digit c then let '(d, t) := span_digits r in (String c d, t) else ("", s)
  end.

(** Removes the trailing ['0'] digits of a digit string and counts them. *)
Fixpoint strip_zeros (s : string) : string * nat :=
  match s with
  | EmptyString => ("", 0)
  | String c r =>
      let '(r', k) := strip_zeros r in
      if String.eqb r' "" && Ascii.eqb c "0"%char then ("", S k) else (String c r', k)
  end.

(** The canonical number [+/- ds * 10 ^ e] for a digit string [ds]. *)
Definition mkFin (neg : bool) (ds : string) (e : Z) : jsnum :=
  let '(ds', k) := strip_zeros ds in
  let a := digits_value ds' in
  if N.eqb a 0 then Fin 0 0
  else Fin (if neg then (- Z.of_N a)%Z else Z.of_N a) (e + Z.of_nat k)%Z.

Definition radix_digit (c : ascii) : option N :=
  let n := nat_of_ascii c in
  if Nat.leb 48 n && Nat.leb n 57 then Some (N.of_nat (n - 48))
  else if Nat.leb 97 n && Nat.leb n 102 then Some (N.of_nat (n - 87))
  else if Nat.leb 65 n && Nat.leb n 70 then Some (N.of_nat (n - 55))
  else None.

Fixpoint radix_acc (r : N) (s : string) (acc : N) : option N :=
  match s with
  | EmptyString => Some acc
  | String c t =>
      match radix_digit c with
      | Some d => if N.ltb d r then radix_acc r t (acc * r + d)%N else None
      | None => None
      end
  end.

(** [0x..], [0o..], [0b..] literals (the part after the prefix). *)
Definition radixLiteral (r : N) (s : string) : jsnum :=
  match s with
  | EmptyString => NaN
  | _ => match radix_acc r s 0 with
         | Some a => mkFin false (N_to_string a) 0
         | None => NaN
         end
  end.

Definition splitSign (t : string) : bool * string :=
  match t with
  | String c r =>
      if Ascii.eqb c "+"%char then (false, r)
      else if Ascii.eqb c "-"%char then (true, r) else (false, t)
  | EmptyString => (false, t)
  end.

(** [SignedInteger] of an exponent part, which must end the text. *)
Definition signedInteger (t : string) : option Z :=
  let '(neg, u) := splitSign t in
  let '(d, rest) := span_digits u in
  if String.eqb d "" || negb (String.eqb rest "") then None
  else Some (if neg then (- Z.of_N (digits_value d))%Z else Z.of_N (digits_value d)).

Definition exponentPart (r : string) : option Z :=
  match r with
  | EmptyString => Some 0%Z
  | String c t =>
      if Ascii.eqb c "e"%char || Ascii.eqb c "E"%char then signedInteger t else None
  end.

(** [StrUnsignedDecimalLiteral] without its [Infinity] case. *)
Definition unsignedDecimal (neg : bool) (u : string) : jsnum :=
  let '(d1, r1) := span_digits u in
  let '(d2, r2) :=
    match r1 with
    | String c r => if Ascii.eqb c "."%char then span_digits r else ("", r1)
    | EmptyString => ("", "")
    end in
  if String.eqb (d1 ++ d2) "" then NaN
  else match exponentPart r2 with
       | Some ex => mkFin neg (d1 ++ d2) (ex - Z.of_nat (String.length d2))%Z
       | None => NaN
       end.

Definition decimalLiteral (t : string) : jsnum :=
  let '(neg, u) := splitSign t in
  if String.eqb u "Infinity" then Infinity neg else unsignedDecimal neg u.

(** [StringToNumber] (ECMAScript 7.1.4.1.1). *)
Definition StringToNumber (s : string) : jsnum :=
  let t := trim_end (trim_start s) in
  match t with
  | EmptyString => Fin 0 0
  | String c0 (String c r) =>
      if Ascii.eqb c0 "0"%char then
        if Ascii.eqb c "x"%char || Ascii.eqb c "X"%char then radixLiteral 16 r
        else if Ascii.eqb c "o"%char || Ascii.eqb c "O"%char then radixLiteral 8 r
        else if Ascii.eqb c "b"%char || Ascii.eqb c "B"%char then radixLiteral 2 r
        else decimalLiteral t
      else decimalLiteral t
  | _ => decimalLiteral t
  end.

Fixpoint zeros (n : nat) : string :=
  match n with
  | 0 => ""
  | S k => String "0" (zeros k)
  end.

Fixpoint str_take (n : nat) (s : string) : string :=
  match n, s with
  | 0, _ => ""
  | _, EmptyString => ""
  | S k, String c r => String c (str_take k r)
  end.

Fixpoint str_drop (n : nat) (s : string) : string :=
  match n, s with
  | 0, _ => s
  | _, EmptyString => ""
  | S k, String _ r => str_drop k r
  end.

(** [Number::toString(x, 10)] (ECMAScript 6.1.6.1.20): with [k] the number
    of digits of the mantissa and [n = e + k]. *)
Definition NumberToString (x : jsnum) : string :=
  match x with
  | NaN => "NaN"
  | Infinity false => "Infinity"
  | Infinity true => "-Infinity"
  | Fin m e =>
      if Z.eqb m 0 then "0" else
      let sign := if Z.ltb m 0 then "-" else "" in
      let ds := N_to_string (Z.abs_N m) in
      let k := Z.of_nat (String.length ds) in
      let n := (e + k)%Z in
      sign ++
      (if Z.leb k n && Z.leb n 21 then ds ++ zeros (Z.to_nat (n - k))
       else if Z.ltb 0 n && Z.leb n 21 then
         str_take (Z.to_nat n) ds ++ "." ++ str_drop (Z.to_nat n) ds
       else if Z.ltb (-6) n && Z.leb n 0 then "0." ++ zeros (Z.to_nat (- n)) ++ ds
       else
         let exs := (if Z.ltb (n - 1) 0 then "-" else "+") ++ N_to_string (Z.abs_N (n - 1)) in
         if Z.eqb k 1 then ds ++ "e" ++ exs
         else str_take 1 ds ++ "." ++ str_drop 1 ds ++ "e" ++ exs)
  end.

Definition isNaN (x : jsnum) : bool :=
  match x with NaN => true | _ => false end.

(** The canonical representation of a number (see [jsnum]). *)
Definition canonical (x : jsnum) : bool :=
  match x with
  | Fin m e => if Z.eqb m 0 then Z.eqb e 0 else negb (Z.eqb (Z.rem m 10) 0)
  | _ => true
  end.

(** ** JavaScript values *)

(** The values the converter handles; an object is the list of its own
    enumerable string-keyed properties, in property order. *)
Inductive jsval : Type :=
| JNull
| JBool (b : bool)
| JNum (x : jsnum)
| JStr (s : string)
| JArr (items : list jsval)
| JObj (fields : list (string * jsval)).

(** [ToString]; an array is joined with [","], [null] items printing as
    the empty string. *)
Fixpoint js_ToString (v : jsval) : string :=
  match v with
  | JNull => "null"
  | JBool b => if b then "true" else "false"
  | JNum x => NumberToString x
  | JStr s => s
  | JArr l =>
      let fix join (l : list jsval) : string :=
        match l with
        | [] => ""
        | [x] => match x with JNull => "" | _ => js_ToString x end
        | x :: t => match x with JNull => "" | _ => js_ToString x end ++ "," ++ join t
        end in
      join l
  | JObj _ => "[object Object]"
  end.

(** [ToNumber] ([+v] and [Number(v)]). *)
Definition ToNumber (v : jsval) : jsnum :=
  match v with
  | JNull => Fin 0 0
  | JBool b => if b then Fin 1 0 else Fin 0 0
  | JNum x => x
  | JStr s => StringToNumber s
  | JArr _ | JObj _ => StringToNumber (js_ToString v)
  end.

(** [typeof v === 'object'] *)
Definition is_object (v : jsval) : bool :=
  match v with JNull | JArr _ | JObj _ => true | _ => false end.

Definition is_boolean (v : jsval) : bool :=
  match v with JBool _ => true | _ => false end.

Definition is_str (v : jsval) (s : string) : bool :=
  match v with JStr t => String.eqb t s | _ => false end.

Definition TypeErrorNull : string := "TypeError: Cannot convert undefined or null to object".

(** [Object.keys(v).length] for a value of type ['object']. *)
Definition keys_length (v : jsval) : Outcome nat :=
  match v with
  | JNull => Panic TypeErrorNull
  | JArr l => Done (List.length l)
  | JObj fs => Done (List.length fs)
  | _ => Done 0
  end.

Definition objectPrototypeKeys : list string :=
  ["constructor"; "__defineGetter__"; "__defineSetter__"; "hasOwnProperty";
   "__lookupGetter__"; "__lookupSetter__"; "isPrototypeOf"; "propertyIsEnumerable";
   "toString"; "valueOf"; "__proto__"; "toLocaleString"].

Definition arrayPrototypeKeys : list string :=
  ["length"; "at"; "concat"; "copyWithin"; "fill"; "find"; "findIndex"; "findLast";
   "findLastIndex"; "lastIndexOf"; "pop"; "push"; "reverse"; "shift"; "unshift";
   "slice"; "sort"; "splice"; "includes"; "indexOf"; "join"; "keys"; "entries";
   "values"; "forEach"; "filter"; "flat"; "flatMap"; "map"; "every"; "some";
   "reduce"; "reduceRight"; "toReversed"; "toSorted"; "toSpliced"; "with"].

Definition str_mem (k : string) (l : list string) : bool := existsb (String.eqb k) l.

(** The number an array index key stands for: the canonical decimal text of
    an integer below [2^32 - 1]. *)
Definition arrayIndexOf (k : string) : option N :=
  if negb (String.eqb k "") && all_chars is_digit k
     && String.eqb (N_to_string (digits_value k)) k
     && N.ltb (digits_value k) 4294967295
  then Some (digits_value k) else None.

(** A new array index key goes after the smaller indices at the front. *)
Fixpoint insertIndexKey {A} (k : string) (n : N) (v : A) (l : list (string * A))
  : list (string * A) :=
  match l with
  | [] => [(k, v)]
  | (k', v') :: t =>
      match arrayIndexOf k' with
      | Some n' => if N.ltb n' n then (k', v') :: insertIndexKey k n v t else (k, v) :: l
      | None => (k, v) :: l
      end
  end.

(** [o[k] = v] creating or overwriting the own data property [k] of an
    ordinary object whose own properties [l] are listed as
    [[OwnPropertyKeys]] lists them: array indices in ascending order, then
    the other keys in creation order. *)
Definition js_set {A} (k : string) (v : A) (l : list (string * A)) : list (string * A) :=
  if str_mem k (map fst l) then set_str k v l
  else match arrayIndexOf k with
       | Some n => insertIndexKey k n v l
       | None => (l ++ [(k, v)])%list
       end.

(** [k in v]: own keys and the inherited names; a primitive throws. *)
Definition js_in (k : string) (v : jsval) : Outcome bool :=
  match v with
  | JObj fs => Done (str_mem k (map fst fs) || str_mem k objectPrototypeKeys)
  | JArr l =>
      Done (str_mem k (map nat_to_string (seq 0 (List.length l)))
            || str_mem k arrayPrototypeKeys || str_mem k objectPrototypeKeys)
  | _ => Panic "TypeError: Cannot use 'in' operator"
  end.

Definition startsWithAt (k : string) : bool :=
  match k with String c _ => Ascii.eqb c "@"%char | EmptyString => false end.

(** ** The type index of [XSDTypes] *)

Record ClassProp := mkClassProp {
  cpr_isOptional : bool;
  cpr_kind : TypeKind;
  cpr_type : string
}.

Record ArrayItem := mkArrayItem {
  ai_kind : TypeKind;
  ai_itemTag : string;
  ai_itemType : string
}.

(** The three maps by path ([Map]s: one entry per key). *)
Record XSDTypes := mkXSDTypes {
  objectTypesByPath : list (string * list (string * ClassProp));
  arrayTypesByPath : list (string * ArrayItem);
  unionTypesByPath : list (string * list PrimitiveTypeKind)
}.

Definition getClassType (X : XSDTypes) (p : string) := lookup_str p (objectTypesByPath X).
Definition getArrayType (X : XSDTypes) (p : string) := lookup_str p (arrayTypesByPath X).
Definition getUnionType (X : XSDTypes) (p : string) := lookup_str p (unionTypesByPath X).

Definition isSome {A} (o : option A) : bool := match o with Some _ => true | None => false end.

Definition isPrimitiveTypeKind (k : TypeKind) : bool :=
  match k with K_prim _ => true | _ => false end.

(** ** Paths: [currentPath] of the two converters *)

Definition childPath (path tag : string) : string :=
  if String.eqb path "" then tag else path ++ "." ++ tag.

Fixpoint lastIndexOf_from (c : ascii) (s : string) (i : Z) (best : Z) : Z :=
  match s with
  | EmptyString => best
  | String d r => lastIndexOf_from c r (i + 1) (if Ascii.eqb c d then i else best)
  end.

(** [s.lastIndexOf('.')] *)
Definition lastIndexOfDot (s : string) : Z := lastIndexOf_from "."%char s 0 (-1).

(** [s.slice(0, i)] *)
Definition slice0 (s : string) (i : Z) : string :=
  let len := Z.of_nat (String.length s) in
  let e := if Z.ltb i 0 then Z.max (len + i) 0 else Z.min i len in
  str_take (Z.to_nat e) s.

(** [currentPath.slice(0, currentPath.lastIndexOf('.'))] *)
Definition parentPath (s : string) : string := slice0 s (lastIndexOfDot s).

(** ** XML trees *)

Inductive xnode : Type :=
| XElem (tag : string) (atts : list (string * string)) (kids : list xnode)
| XText (s : string).

(** Consecutive entries of one key, grouped. *)
Fixpoint runs (l : list (string * jsval)) : list (string * list jsval) :=
  match l with
  | [] => []
  | (k, v) :: t =>
      match runs t with
      | (k', vs) :: r => if String.eqb k k' then (k, v :: vs) :: r else (k, [v]) :: (k', vs) :: r
      | [] => [(k, [v])]
      end
  end.

Definition runValue (vs : list jsval) : jsval :=
  match vs with [v] => v | _ => JArr vs end.

Fixpoint nodup_str (l : list string) : bool :=
  match l with
  | [] => true
  | k :: t => negb (str_mem k t) && nodup_str t
  end.

(** Modelled from xmlbuilder2's [convert(xml, { format: 'object' })] applied
    to the serialization of a tree: whitespace-only text is skipped
    ([skipWhitespaceOnlyText]); an element with no attribute and one text is
    that text; otherwise attributes become ["@name"] keys and children are
    keyed by tag (["#"] for text), consecutive children of one tag forming an
    array; children of one tag that are not consecutive make the ["#"] list
    form.  Text is assumed to pass the serializer and the parser unchanged. *)
Fixpoint xml_content (n : xnode) : jsval :=
  match n with
  | XText s => JStr s
  | XElem _ atts kids =>
      let fix entries (ks : list xnode) : list (string * jsval) :=
        match ks with
        | [] => []
        | XText s :: t => if ws_only s then entries t else ("#", JStr s) :: entries t
        | (XElem tg _ _ as k) :: t => (tg, xml_content k) :: entries t
        end in
      let es := entries kids in
      let attrs := map (fun '(k, v) => ("@" ++ k, JStr v)) atts in
      match atts, es with
      | [], [("#", JStr s)] => JStr s
      | _, _ =>
          let rs := runs es in
          if nodup_str (map fst rs) then JObj (attrs ++ map (fun '(k, vs) => (k, runValue vs)) rs)
          else JObj (attrs ++ [("#", JArr (map (fun '(k, vs) => JObj [(k, runValue vs)]) rs))])
      end
  end.

(** The entries of an element's children in [xml_content]. *)
Definition xmlEntries :=
  fix entries (ks : list xnode) : list (string * jsval) :=
  match ks with
  | [] => []
  | XText s :: t => if ws_only s then entries t else ("#", JStr s) :: entries t
  | (XElem tg _ _ as k) :: t => (tg, xml_content k) :: entries t
  end.

Definition xml_document_object (root : xnode) : jsval :=
  match root with
  | XElem tag _ _ => JObj [(tag, xml_content root)]
  | XText s => JStr s
  end.

Definition BASE_XMLNS : string := "http://www.w3.org/2001/XMLSchema".

(** ** The converter of [XSDTypes] and [XMLFormatConverterHandler] *)

Section Converter.

(** The date/time recognizer of the target language and [isURI]. *)
Variables isDate isTime isDateTime isURI : jsval -> bool.

(** [getPrimitiveKindXMLValue]; [None] is [undefined]. *)
Definition getPrimitiveKindXMLValue (v : jsval) (k : PrimitiveTypeKind) : option jsval :=
  match k with
  | PK_integer_string | PK_double | PK_integer =>
      if negb (isNaN (ToNumber v)) then Some (JStr (NumberToString (ToNumber v))) else None
  | PK_bool_string | PK_bool =>
      if is_boolean v || is_str v "true" || is_str v "false" then Some (JStr (js_ToString v))
      else None
  | PK_date => if isDate v then Some v else None
  | PK_time => if isTime v then Some v else None
  | PK_date_time => if isDateTime v then Some v else None
  | PK_uri => if isURI v then Some v else None
  | PK_any | PK_none => Some (JStr "")
  | PK_null => match v with JNull => Some (JStr "") | _ => None end
  | PK_string => match v with JStr _ => Some v | _ => None end
  | PK_uuid => None
  end.

(** [getPrimitiveKindJSONValue]; a thrown error is a [Panic]. *)
Definition getPrimitiveKindJSONValue (v : jsval) (k : PrimitiveTypeKind) : Outcome (option jsval) :=
  match k with
  | PK_double | PK_integer =>
      Done (if negb (isNaN (ToNumber v)) then Some (JNum (ToNumber v)) else None)
  | PK_integer_string =>
      Done (if negb (isNaN (ToNumber v)) then Some (JStr (NumberToString (ToNumber v))) else None)
  | PK_bool =>
      Done (if is_boolean v || is_str v "true" || is_str v "false" then
              Some (match v with JBool b => JBool b | _ => JBool (is_str v "true") end)
            else None)
  | PK_bool_string =>
      Done (if is_boolean v || is_str v "true" || is_str v "false" then Some (JStr (js_ToString v))
            else None)
  | PK_date => Done (if isDate v then Some v else None)
  | PK_time => Done (if isTime v then Some v else None)
  | PK_date_time => Done (if isDateTime v then Some v else None)
  | PK_uri => Done (if isURI v then Some v else None)
  | PK_any => Done (Some v)
  | PK_none | PK_null =>
      match v with
      | JNull => Done (Some JNull)
      | _ => if is_object v then
               n <- keys_length v ;; Done (if Nat.eqb n 0 then Some JNull else None)
             else Done None
      end
  | PK_string =>
      match v with
      | JStr _ => Done (Some v)
      | _ => if is_object v then
               n <- keys_length v ;; Done (if Nat.eqb n 0 then Some (JStr "") else None)
             else Done None
      end
  | PK_uuid => Done None
  end.

Inductive ConvertFormatType : Type := Fmt_XML | Fmt_JSON.

Definition getPrimitiveKindValue (fmt : ConvertFormatType) (v : jsval) (k : PrimitiveTypeKind)
  : Outcome (option jsval) :=
  match fmt with
  | Fmt_XML => Done (getPrimitiveKindXMLValue v k)
  | Fmt_JSON => getPrimitiveKindJSONValue v k
  end.

Definition parsePrimitiveKind (v : jsval) (k : PrimitiveTypeKind) (fmt : ConvertFormatType)
  : Outcome jsval :=
  r <- getPrimitiveKindValue fmt v k ;;
  match r with
  | Some x => Done x
  | None => Panic "Failed parse to XML with type"
  end.

(** [kinds.find(kind => getPrimitiveKindValue(value, kind) !== undefined)] *)
Fixpoint findKind (fmt : ConvertFormatType) (v : jsval) (ks : list PrimitiveTypeKind)
  : Outcome (option PrimitiveTypeKind) :=
  match ks with
  | [] => Done None
  | k :: t =>
      r <- getPrimitiveKindValue fmt v k ;;
      match r with
      | Some _ => Done (Some k)
      | None => findKind fmt v t
      end
  end.

Definition parseUnion (X : XSDTypes) (v : jsval) (unionPath : string) (fmt : ConvertFormatType)
  : Outcome jsval :=
  match getUnionType X unionPath with
  | None => Panic "defined"
  | Some ms =>
      ko <- findKind fmt v ms ;;
      match ko with
      | None => Panic "Failed parse to XML with type union"
      | Some k => parsePrimitiveKind v k fmt
      end
  end.

Definition propKindOk (X : XSDTypes) (propPath : string) (k : TypeKind) : bool :=
  match k with
  | K_union => isSome (getUnionType X propPath)
  | K_array => isSome (getArrayType X propPath)
  | K_class => isSome (getClassType X propPath)
  | _ => isPrimitiveTypeKind k
  end.

Definition isValidClassPropsInXMLObject (X : XSDTypes) (obj : jsval) (path : string)
  : Outcome bool :=
  match getClassType X path with
  | None => Done false
  | Some cps =>
      let fix every (l : list (string * ClassProp)) : Outcome bool :=
        match l with
        | [] => Done true
        | (n, pd) :: t =>
            present <- js_in n obj ;;
            if negb present && negb (cpr_isOptional pd) then Done false
            else if propKindOk X (path ++ "." ++ n) (cpr_kind pd) then every t
            else Done false
        end in
      every cps
  end.

Definition getXMLObjectKind (X : XSDTypes) (obj : jsval) (path : string)
  : Outcome (option TypeKind) :=
  if isSome (getUnionType X path) then Done (Some K_union) else
  hasItems <- match getArrayType X path with
              | Some ai => js_in (ai_itemTag ai) obj
              | None => Done false
              end ;;
  if hasItems then Done (Some K_array) else
  match getClassType X path with
  | Some _ => ok <- isValidClassPropsInXMLObject X obj path ;;
              Done (if ok then Some K_class else None)
  | None => Done None
  end.

(** [xsdTypes.parseXXX(...)?.toString() ?? ''] *)
Definition txt_of (t : jsval) : string :=
  match t with JNull => "" | _ => js_ToString t end.

(** [parseCurrentObject] of [parseJSON]: the element built for [v] under
    [tag], and [currentPath] after the call. *)
Fixpoint parseJSONNode (X : XSDTypes) (v : jsval) (tag : string) (kind : TypeKind)
  (path : string) {struct v} : Outcome (xnode * string) :=
  let cur := childPath path tag in
  let close (kids : list xnode) (cur' : string) := Done (XElem tag [] kids, parentPath cur') in
  match kind with
  | K_union => t <- parseUnion X v cur Fmt_XML ;; close [XText (txt_of t)] cur
  | _ =>
    match v, kind with
    | JArr l, K_array =>
        match getArrayType X cur with
        | None => Panic "Array with path not found"
        | Some ai =>
            let fix items (l : list jsval) (p : string) : Outcome (list xnode * string) :=
              match l with
              | [] => Done ([], p)
              | x :: t =>
                  r <- parseJSONNode X x (ai_itemTag ai) (ai_kind ai) p ;;
                  rs <- items t (snd r) ;;
                  Done (fst r :: fst rs, snd rs)
              end in
            rs <- items l cur ;; close (fst rs) (snd rs)
        end
    | _, K_class =>
        if is_object v then
          match getClassType X cur with
          | None => Panic "Object with path not found"
          | Some cps =>
              let prop (n : string) := match lookup_str n cps with
                                       | Some ps => Done ps
                                       | None => Panic "Failed to find property in object structure"
                                       end in
              match v with
              | JObj fs =>
                  let fix fields (fs : list (string * jsval)) (p : string)
                    : Outcome (list xnode * string) :=
                    match fs with
                    | [] => Done ([], p)
                    | (n, pv) :: t =>
                        ps <- prop n ;;
                        r <- parseJSONNode X pv n (cpr_kind ps) p ;;
                        rs <- fields t (snd r) ;;
                        Done (fst r :: fst rs, snd rs)
                    end in
                  rs <- fields fs cur ;; close (fst rs) (snd rs)
              | JArr l =>
                  let fix indexed (l : list jsval) (i : nat) (p : string)
                    : Outcome (list xnode * string) :=
                    match l with
                    | [] => Done ([], p)
                    | x :: t =>
                        ps <- prop (nat_to_string i) ;;
                        r <- parseJSONNode X x (nat_to_string i) (cpr_kind ps) p ;;
                        rs <- indexed t (S i) (snd r) ;;
                        Done (fst r :: fst rs, snd rs)
                    end in
                  rs <- indexed l 0 cur ;; close (fst rs) (snd rs)
              | _ => Panic TypeErrorNull
              end
          end
        else Panic "Failed to parse"
    | _, K_prim p => t <- parsePrimitiveKind v p Fmt_XML ;; close [XText (txt_of t)] cur
    | _, _ => Panic "Failed to parse"
    end
  end.

(** [parseJSON]: the XML document, as its root element. *)
Definition parseJSON (X : XSDTypes) (j : jsval) (topLevelTag xsdFileName : string)
  : Outcome xnode :=
  let topKind := match j with JArr _ => K_array | _ => K_class end in
  r <- parseJSONNode X j topLevelTag topKind "" ;;
  match fst r with
  | XElem t atts kids =>
      Done (XElem t (atts ++ [("xmlns:xsd", String.append BASE_XMLNS "-instance");
                              ("xsd:noNamespaceSchemaLocation", xsdFileName)])%list kids)
  | XText s => Done (XText s)
  end.

(** [parseCurrentObject] of [parseXMLtoJSON]: the JSON value of [v] under
    [tag], and [currentPath] after the call. The class loop writes
    [result[propKey] = ...] on a fresh object: the key goes to its own
    properties in the order of [js_set], except ["__proto__"], whose
    assignment reaches the setter of [Object.prototype] and adds no own
    property (the objects of xmlbuilder2 have distinct keys, so that key
    comes at most once per object). *)
Fixpoint parseXMLNode (X : XSDTypes) (v : jsval) (tag : string) (kind : option TypeKind)
  (path : string) {struct v} : Outcome (jsval * string) :=
  let cur := childPath path tag in
  let close (r : jsval) (cur' : string) := Done (r, parentPath cur') in
  match kind with
  | Some K_union => r <- parseUnion X v cur Fmt_JSON ;; close r cur
  | Some K_array =>
      if is_object v then
        match getArrayType X cur with
        | None => Panic "Failed to parse array by path"
        | Some ai =>
            let fix items (l : list jsval) (p : string) : Outcome (list jsval * string) :=
              match l with
              | [] => Done ([], p)
              | x :: t =>
                  r <- parseXMLNode X x (ai_itemTag ai) (Some (ai_kind ai)) p ;;
                  rs <- items t (snd r) ;;
                  Done (fst r :: fst rs, snd rs)
              end in
            match v with
            | JObj fs =>
                let fix find (fs : list (string * jsval)) : Outcome (jsval * string) :=
                  match fs with
                  | [] => Panic "Failed to parse array by path"
                  | (k, x) :: t =>
                      if String.eqb k (ai_itemTag ai) then
                        match x with
                        | JArr l => rs <- items l cur ;; close (JArr (fst rs)) (snd rs)
                        | _ => Panic "Failed to parse array by path"
                        end
                      else find t
                  end in
                find fs
            | JArr l0 =>
                let fix nth_find (l0 : list jsval) (i : nat) : Outcome (jsval * string) :=
                  match l0 with
                  | [] => Panic "Failed to parse array by path"
                  | x :: t =>
                      if String.eqb (ai_itemTag ai) (nat_to_string i) then
                        match x with
                        | JArr l => rs <- items l cur ;; close (JArr (fst rs)) (snd rs)
                        | _ => Panic "Failed to parse array by path"
                        end
                      else nth_find t (S i)
                  end in
                nth_find l0 0
            | _ => Panic "TypeError: Cannot read properties of null"
            end
        end
      else Panic "Failed to parse"
  | Some K_class =>
      if is_object v then
        match getClassType X cur with
        | None => Panic "Failed to parse class by path"
        | Some cps =>
            ok <- isValidClassPropsInXMLObject X v cur ;;
            if negb ok then Panic "Failed to parse class by path" else
            let step (k : string) (pv : jsval) (res : list (string * jsval)) (p : string)
                  (rec : TypeKind -> Outcome (jsval * string)) :=
              if startsWithAt k then Done (res, p) else
              match lookup_str k cps with
              | None => Done (res, p)
              | Some ps =>
                  r <- rec (cpr_kind ps) ;;
                  Done (if String.eqb k "__proto__" then res else js_set k (fst r) res, snd r)
              end in
            match v with
            | JObj fs =>
                let fix fields (fs : list (string * jsval)) (res : list (string * jsval)) (p : string)
                  : Outcome (list (string * jsval) * string) :=
                  match fs with
                  | [] => Done (res, p)
                  | (k, pv) :: t =>
                      r <- step k pv res p (fun kd => parseXMLNode X pv k (Some kd) p) ;;
                      fields t (fst r) (snd r)
                  end in
                rs <- fields fs [] cur ;; close (JObj (fst rs)) (snd rs)
            | JArr l =>
                let fix indexed (l : list jsval) (i : nat) (res : list (string * jsval)) (p : string)
                  : Outcome (list (string * jsval) * string) :=
                  match l with
                  | [] => Done (res, p)
                  | x :: t =>
                      r <- step (nat_to_string i) x res p
                             (fun kd => parseXMLNode X x (nat_to_string i) (Some kd) p) ;;
                      indexed t (S i) (fst r) (snd r)
                  end in
                rs <- indexed l 0 [] cur ;; close (JObj (fst rs)) (snd rs)
            | _ => Panic TypeErrorNull
            end
        end
      else Panic "Failed to parse"
  | Some (K_prim p) => r <- parsePrimitiveKind v p Fmt_JSON ;; close r cur
  | _ => Panic "Failed to parse"
  end.

(** [Object.entries(xmlObject)[0]] *)
Definition firstEntry (v : jsval) : Outcome (string * jsval) :=
  match v with
  | JObj ((k, x) :: _) => Done (k, x)
  | JArr (x :: _) => Done ("0", x)
  | JStr (String c _) => Done ("0", JStr (String c ""))
  | JNull => Panic TypeErrorNull
  | _ => Panic "defined"
  end.

(** [parseXMLtoJSON] *)
Definition parseXMLtoJSON (X : XSDTypes) (xmlObject : jsval) : Outcome jsval :=
  e <- firstEntry xmlObject ;;
  kind <- getXMLObjectKind X (snd e) (fst e) ;;
  r <- parseXMLNode X (snd e) (fst e) kind "" ;;
  Done (fst r).

(** *** The loops of the two converters, by name *)

(** The loop over the children of an array in [parseJSON]. *)
Definition jsonItems (X : XSDTypes) (ai : ArrayItem) :=
  fix items (l : list jsval) (p : string) : Outcome (list xnode * string) :=
  match l with
  | [] => Done ([], p)
  | x :: t =>
      r <- parseJSONNode X x (ai_itemTag ai) (ai_kind ai) p ;;
      rs <- items t (snd r) ;;
      Done (fst r :: fst rs, snd rs)
  end.

Definition jsonProp (cps : list (string * ClassProp)) (n : string) : Outcome ClassProp :=
  match lookup_str n cps with
  | Some ps => Done ps
  | None => Panic "Failed to find property in object structure"
  end.

(** The loop over the properties of an object in [parseJSON]. *)
Definition jsonFields (X : XSDTypes) (cps : list (string * ClassProp)) :=
  fix fields (fs : list (string * jsval)) (p : string) : Outcome (list xnode * string) :=
  match fs with
  | [] => Done ([], p)
  | (n, pv) :: t =>
      ps <- jsonProp cps n ;;
      r <- parseJSONNode X pv n (cpr_kind ps) p ;;
      rs <- fields t (snd r) ;;
      Done (fst r :: fst rs, snd rs)
  end.

(** The loop over the indices of an array converted as a class in [parseJSON]. *)
Definition jsonIndexed (X : XSDTypes) (cps : list (string * ClassProp)) :=
  fix indexed (l : list jsval) (i : nat) (p : string) : Outcome (list xnode * string) :=
  match l with
  | [] => Done ([], p)
  | x :: t =>
      ps <- jsonProp cps (nat_to_string i) ;;
      r <- parseJSONNode X x (nat_to_string i) (cpr_kind ps) p ;;
      rs <- indexed t (S i) (snd r) ;;
      Done (fst r :: fst rs, snd rs)
  end.

(** The loop of [isValidClassPropsInXMLObject]. *)
Definition classPropsEvery (X : XSDTypes) (obj : jsval) (path : string) :=
  fix every (l : list (string * ClassProp)) : Outcome bool :=
  match l with
  | [] => Done true
  | (n, pd) :: t =>
      present <- js_in n obj ;;
      if negb present && negb (cpr_isOptional pd) then Done false
      else if propKindOk X (path ++ "." ++ n) (cpr_kind pd) then every t
      else Done false
  end.

(** One property of the class loop of [parseXMLtoJSON]. *)
Definition xmlStep (cps : list (string * ClassProp)) (k : string) (res : list (string * jsval))
  (p : string) (rec : TypeKind -> Outcome (jsval * string))
  : Outcome (list (string * jsval) * string) :=
  if startsWithAt k then Done (res, p) else
  match lookup_str k cps with
  | None => Done (res, p)
  | Some ps =>
      r <- rec (cpr_kind ps) ;;
      Done (if String.eqb k "__proto__" then res else js_set k (fst r) res, snd r)
  end.

(** The loop over the entries of an object in [parseXMLtoJSON]. *)
Definition xmlFields (X : XSDTypes) (cps : list (string * ClassProp)) :=
  fix fields (fs : list (string * jsval)) (res : list (string * jsval)) (p : string)
    : Outcome (list (string * jsval) * string) :=
  match fs with
  | [] => Done (res, p)
  | (k, pv) :: t =>
      r <- xmlStep cps k res p (fun kd => parseXMLNode X pv k (Some kd) p) ;;
      fields t (fst r) (snd r)
  end.

(** The same loop over an array's indices. *)
Definition xmlIndexed (X : XSDTypes) (cps : list (string * ClassProp)) :=
  fix indexed (l : list jsval) (i : nat) (res : list (string * jsval)) (p : string)
    : Outcome (list (string * jsval) * string) :=
  match l with
  | [] => Done (res, p)
  | x :: t =>
      r <- xmlStep cps (nat_to_string i) res p
             (fun kd => parseXMLNode X x (nat_to_string i) (Some kd) p) ;;
      indexed t (S i) (fst r) (snd r)
  end.

(** The loop over the items of an array in [parseXMLtoJSON]. *)
Definition xmlItems (X : XSDTypes) (ai : ArrayItem) :=
  fix items (l : list jsval) (p : string) : Outcome (list jsval * string) :=
  match l with
  | [] => Done ([], p)
  | x :: t =>
      r <- parseXMLNode X x (ai_itemTag ai) (Some (ai_kind ai)) p ;;
      rs <- items t (snd r) ;;
      Done (fst r :: fst rs, snd rs)
  end.

(** The search for the item tag in [parseXMLtoJSON]. *)
Definition xmlFind (X : XSDTypes) (ai : ArrayItem) (cur : string) :=
  fix find (fs : list (string * jsval)) : Outcome (jsval * string) :=
  match fs with
  | [] => Panic "Failed to parse array by path"
  | (k, x) :: t =>
      if String.eqb k (ai_itemTag ai) then
        match x with
        | JArr l => rs <- xmlItems X ai l cur ;; Done (JArr (fst rs), parentPath (snd rs))
        | _ => Panic "Failed to parse array by path"
        end
      else find t
  end.

(** *** The documents the round trip carries, and what it gives back *)

(** A tag the round trip can carry: an XML element name (not empty, not
    starting with a digit, not ["#"], not starting with ['@']) without
    ['.'], other than ["__proto__"]. *)
Definition plainTag (n : string) : bool :=
  negb (String.eqb n "") && all_chars (fun c => negb (Ascii.eqb c "."%char)) n
  && negb (startsWithAt n) && negb (String.eqb n "#")
  && negb (String.eqb n "__proto__")
  && negb (match n with String c _ => is_digit c | EmptyString => false end).

(** The value xmlbuilder2 gives back for an element holding the text [t]. *)
Definition textValue (t : string) : jsval := if ws_only t then JObj [] else JStr t.

(** The result of the first member kind whose coercion [f] accepts. *)
Fixpoint firstAccepting (f : PrimitiveTypeKind -> option jsval) (ms : list PrimitiveTypeKind)
  : option jsval :=
  match ms with
  | [] => None
  | k :: t => match f k with Some r => Some r | None => firstAccepting f t end
  end.

Definition jsonCo (v : jsval) (k : PrimitiveTypeKind) : option jsval :=
  match getPrimitiveKindJSONValue v k with Done r => r | _ => None end.

(** A value at a union path comes back as the JSON coercion, by the first
    accepting member, of its XML text. *)
Definition unionRetype (ms : list PrimitiveTypeKind) (v : jsval) : option jsval :=
  match firstAccepting (getPrimitiveKindXMLValue v) ms with
  | Some t => firstAccepting (jsonCo (textValue (txt_of t))) ms
  | None => None
  end.

(** Structurally typed primitive data. *)
Definition primConforms (p : PrimitiveTypeKind) (v : jsval) : bool :=
  match p, v with
  | (PK_integer | PK_double), JNum x => negb (isNaN x) && canonical x
  | PK_integer_string, JStr s => negb (isNaN (StringToNumber s))
  | PK_bool, JBool _ => true
  | PK_bool_string, JStr s => String.eqb s "true" || String.eqb s "false"
  | PK_string, JStr _ => true
  | PK_date, JStr s => isDate v && negb (ws_only s)
  | PK_time, JStr s => isTime v && negb (ws_only s)
  | PK_date_time, JStr s => isDateTime v && negb (ws_only s)
  | PK_uri, JStr s => isURI v && negb (ws_only s)
  | PK_null, JNull => true
  | PK_none, (JNull | JObj []) => true
  | _, _ => false
  end.

(** What the round trip makes of primitive data: integer strings become
    canonical decimal strings, a whitespace-only string becomes [""], and a
    [none] value (null, or null as an empty object) is [null]. *)
Definition retypePrim (p : PrimitiveTypeKind) (v : jsval) : jsval :=
  match p, v with
  | PK_integer_string, JStr s => JStr (NumberToString (StringToNumber s))
  | PK_string, JStr s => if ws_only s then JStr "" else v
  | PK_none, _ => JNull
  | _, _ => v
  end.

(** [v] conforms to the index at [path] with kind [kind]. *)
Fixpoint conforms (X : XSDTypes) (path : string) (kind : TypeKind) (v : jsval) {struct v} : bool :=
  match kind with
  | K_prim p => primConforms p v
  | K_union =>
      match getUnionType X path with
      | Some ms => isSome (unionRetype ms v)
      | None => false
      end
  | K_array =>
      match v, getArrayType X path with
      | JArr l, Some ai =>
          plainTag (ai_itemTag ai) && Nat.leb 2 (List.length l) &&
          (fix all (l : list jsval) : bool :=
             match l with
             | [] => true
             | x :: t => conforms X (childPath path (ai_itemTag ai)) (ai_kind ai) x && all t
             end) l
      | _, _ => false
      end
  | K_class =>
      match v, getClassType X path with
      | JObj fs, Some cps =>
          nodup_str (map fst fs) &&
          forallb (fun '(n, pd) => (cpr_isOptional pd || str_mem n (map fst fs))
                                   && propKindOk X (childPath path n) (cpr_kind pd)) cps &&
          (fix all (fs : list (string * jsval)) : bool :=
             match fs with
             | [] => true
             | (n, pv) :: t =>
                 plainTag n &&
                 match lookup_str n cps with
                 | Some pd => conforms X (childPath path n) (cpr_kind pd) pv
                 | None => false
                 end && all t
             end) fs
      | _, _ => false
      end
  | _ => false
  end.

(** [j] up to the normalisations of the round trip. *)
Fixpoint retype (X : XSDTypes) (path : string) (kind : TypeKind) (v : jsval) {struct v} : jsval :=
  match kind with
  | K_prim p => retypePrim p v
  | K_union =>
      match getUnionType X path with
      | Some ms => default v (unionRetype ms v)
      | None => v
      end
  | K_array =>
      match v, getArrayType X path with
      | JArr l, Some ai =>
          JArr ((fix go (l : list jsval) : list jsval :=
                   match l with
                   | [] => []
                   | x :: t => retype X (childPath path (ai_itemTag ai)) (ai_kind ai) x :: go t
                   end) l)
      | _, _ => v
      end
  | K_class =>
      match v, getClassType X path with
      | JObj fs, Some cps =>
          JObj ((fix go (fs : list (string * jsval)) : list (string * jsval) :=
                   match fs with
                   | [] => []
                   | (n, pv) :: t =>
                       (n, match lookup_str n cps with
                           | Some pd => retype X (childPath path n) (cpr_kind pd) pv
                           | None => pv
                           end) :: go t
                   end) fs)
      | _, _ => v
      end
  | _ => v
  end.

(** The loops of [conforms] and [retype], by name. *)
Definition conformsItems (X : XSDTypes) (path : string) (ai : ArrayItem) :=
  fix all (l : list jsval) : bool :=
  match l with
  | [] => true
  | x :: t => conforms X (childPath path (ai_itemTag ai)) (ai_kind ai) x && all t
  end.

Definition conformsFields (X : XSDTypes) (path : string) (cps : list (string * ClassProp)) :=
  fix all (fs : list (string * jsval)) : bool :=
  match fs with
  | [] => true
  | (n, pv) :: t =>
      plainTag n &&
      match lookup_str n cps with
      | Some pd => conforms X (childPath path n) (cpr_kind pd) pv
      | None => false
      end && all t
  end.

Definition retypeItems (X : XSDTypes) (path : string) (ai : ArrayItem) :=
  fix go (l : list jsval) : list jsval :=
  match l with
  | [] => []
  | x :: t => retype X (childPath path (ai_itemTag ai)) (ai_kind ai) x :: go t
  end.

Definition retypeFields (X : XSDTypes) (path : string) (cps : list (string * ClassProp)) :=
  fix go (fs : list (string * jsval)) : list (string * jsval) :=
  match fs with
  | [] => []
  | (n, pv) :: t =>
      (n, match lookup_str n cps with
          | Some pd => retype X (childPath path n) (cpr_kind pd) pv
          | None => pv
          end) :: go t
  end.

Definition topKindOf (j : jsval) : TypeKind :=
  match j with JArr _ => K_array | _ => K_class end.

(** A document the round trip applies to: the top tag is plain, the top
    path is not a union path, a class document's path is not an array
    path, and the document conforms. *)
Definition conformsTop (X : XSDTypes) (top : string) (j : jsval) : bool :=
  plainTag top && negb (isSome (getUnionType X top)) &&
  match j with
  | JArr _ => true
  | _ => negb (isSome (getArrayType X top))
  end && conforms X top (topKindOf j) j.

End Converter.

(** The index with every class property's optional flag set to [b]. *)
Definition setOptional (b : bool) (X : XSDTypes) : XSDTypes :=
  mkXSDTypes
    (map (fun '(p, cps) =>
            (p, map (fun '(n, cp) => (n, mkClassProp b (cpr_kind cp) (cpr_type cp))) cps))
         (objectTypesByPath X))
    (arrayTypesByPath X) (unionTypesByPath X).

Definition attrEntries (atts : list (string * string)) : list (string * jsval) :=
  map (fun '(k, v) => ("@" ++ k, JStr v)) atts.

(** Induction over [jsval] through its lists. *)
Fixpoint jsval_ind' (P : jsval -> Prop)
  (fN : P JNull) (fB : forall b, P (JBool b)) (fX : forall x, P (JNum x))
  (fS : forall s, P (JStr s))
  (fA : forall l, Forall P l -> P (JArr l))
  (fO : forall fs, Forall (fun kv => P (snd kv)) fs -> P (JObj fs))
  (v : jsval) {struct v} : P v :=
  match v with
  | JNull => fN
  | JBool b => fB b
  | JNum x => fX x
  | JStr s => fS s
  | JArr l =>
      fA l ((fix go (l : list jsval) : Forall P l :=
               match l with
               | [] => Forall_nil _
               | x :: t => Forall_cons _ (jsval_ind' P fN fB fX fS fA fO x) (go t)
               end) l)
  | JObj fs =>
      fO fs ((fix go (fs : list (string * jsval)) : Forall (fun kv => P (snd kv)) fs :=
                match fs with
                | [] => Forall_nil _
                | (k, x) :: t => Forall_cons (P := fun kv => P (snd kv)) (k, x)
                                   (jsval_ind' P fN fB fX fS fA fO x) (go t)
                end) fs)
  end.

(** An index with one union path, [Root.u], of [string] then [null]. *)
Definition unionIndex_string_null : XSDTypes :=
  mkXSDTypes [] [] [("Root.u", [PK_string; PK_null])].

(** A schema with an array of a union of [integer] and [string] and a string
    property. *)
Definition X_ids : XSDTypes :=
  mkXSDTypes
    [("Root", [("ids", mkClassProp false K_array "ids");
               ("s", mkClassProp false (K_prim PK_string) "string")])]
    [("Root.ids", mkArrayItem K_union "idsItem" "ids")]
    [("Root.ids.idsItem", [PK_integer; PK_string])].

Definition j_ids : jsval :=
  JObj [("ids", JArr [JStr "7"; JStr "x"]); ("s", JStr " ")].

(** A schema with a nested class, an integer string, a [none] property and
    an integer array. *)
Definition X_rt : XSDTypes :=
  mkXSDTypes
    [("Doc", [("n", mkClassProp false (K_prim PK_integer_string) "integer");
              ("z", mkClassProp true (K_prim PK_none) "null");
              ("inner", mkClassProp false K_class "Inner")]);
     ("Doc.inner", [("k", mkClassProp false (K_prim PK_double) "double");
                    ("xs", mkClassProp true K_array "xs")])]
    [("Doc.inner.xs", mkArrayItem (K_prim PK_integer) "xsItem" "integer")]
    [].

Definition j_rt : jsval :=
  JObj [("n", JStr "007"); ("z", JObj []);
        ("inner", JObj [("k", JNum (Fin 25 (-1))); ("xs", JArr [JNum (Fin 1 0); JNum (Fin (-3) 2)])])].

(** ** Auxiliary definitions of the proofs *)

(** The characters of printed numbers. *)
Definition plain_char (c : ascii) : bool :=
  is_digit c || Ascii.eqb c "."%char || Ascii.eqb c "-"%char || Ascii.eqb c "+"%char
  || Ascii.eqb c "e"%char.

(** The class entries of [cps] with the optional flag set to [b]. *)
Definition optAll (b : bool) (cps : list (string * ClassProp)) : list (string * ClassProp) :=
  map (fun '(n, cp) => (n, mkClassProp b (cpr_kind cp) (cpr_type cp))) cps.

(** Elements without attributes, and the XML object entries they give. *)
Definition mkElem (nk : string * list xnode) : xnode := XElem (fst nk) [] (snd nk).
Definition mkEntry (nk : string * list xnode) : string * jsval :=
  (fst nk, xml_content (XElem (fst nk) [] (snd nk))).

(** The kinds converted to elements with children. *)
Definition composite (k : TypeKind) : bool :=
  match k with K_class | K_array => true | _ => false end.

(** The round trip of one node: [parseJSON] gives an element with the
    children [kids], which [parseXMLtoJSON] (given no attributes, or any for
    a class or array) reads back as the retyped value, and whose kind is
    recognised from the XML object. *)
Section NodeRoundTrip.
Variables isDate isTime isDateTime isURI : jsval -> bool.
Local Notation PJN := (parseJSONNode isDate isTime isDateTime isURI).
Local Notation PXN := (parseXMLNode isDate isTime isDateTime isURI).
Local Notation retype := (retype isDate isTime isDateTime isURI).

Definition NodeRT (X : XSDTypes) (path tag : string) (kind : TypeKind) (v : jsval) : Prop :=
  exists kids,
    PJN X v tag kind path = Done (XElem tag [] kids, parentPath (childPath path tag)) /\
    (forall atts, atts = [] \/ composite kind = true ->
       PXN X (xml_content (XElem tag atts kids)) tag (Some kind) path =
       Done (retype X (childPath path tag) kind v, parentPath (childPath path tag))) /\
    (composite kind = true -> getUnionType X (childPath path tag) = None ->
     (kind = K_class -> getArrayType X (childPath path tag) = None) ->
     forall atts, getXMLObjectKind X (xml_content (XElem tag atts kids)) (childPath path tag)
                  = Done (Some kind)).

End NodeRoundTrip.

(** Whether a computation ended with a result. *)
Definition succeeded {A} (o : Outcome A) : bool :=
  match o with Done _ => true | _ => false end.

(** A schema whose top class [Root] has one required property [xs], an
    array of integers under the item tag [item]. *)
Definition X_arr : XSDTypes :=
  mkXSDTypes [("Root", [("xs", mkClassProp false K_array "xs")])]
             [("Root.xs", mkArrayItem (K_prim PK_integer) "item" "integer")] [].

(** A schema whose top class [Root] has one required integer property [a]. *)
Definition X_req : XSDTypes :=
  mkXSDTypes [("Root", [("a", mkClassProp false (K_prim PK_integer) "integer")])] [] [].

(** The XML object of an element [Root] with an attribute [x], the declared
    child [a] and the undeclared child [b]. *)
Definition xml_c10 : jsval :=
  JObj [("@x", JStr "y"); ("a", JStr "1"); ("b", JStr "2")].

(** * The compressed JSON store (input/CompressedJSON.ts) *)

Module CompressedJSON.

Local Open Scope Z_scope.

(** ** Tagged values *)

(** [enum Tag]: a numeric enum, [Null] is [0] ... [Boolean] is [7]. *)
Inductive Tag : Type :=
| Tag_Null
| Tag_Integer
| Tag_Double
| Tag_InternedString
| Tag_Object
| Tag_Array
| Tag_StringFormat
| Tag_Boolean.

Definition tagNumber (t : Tag) : Z :=
  match t with
  | Tag_Null => 0
  | Tag_Integer => 1
  | Tag_Double => 2
  | Tag_InternedString => 3
  | Tag_Object => 4
  | Tag_Array => 5
  | Tag_StringFormat => 6
  | Tag_Boolean => 7
  end.

(** [ToInt32] of an integral number: the two's complement reading of its
    low 32 bits. *)
Definition ToInt32 (z : Z) : Z :=
  let m := z mod 2 ^ 32 in if m <? 2 ^ 31 then m else m - 2 ^ 32.

(** The shift count of [<<] and [>>]: the low five bits of the right operand. *)
Definition shiftCount (z : Z) : Z := Z.land z 31.

(** The bitwise operators [a << b], [a >> b], [a | b] and [a & b] on
    integral numbers. *)
Definition js_shl (a b : Z) : Z := ToInt32 (Z.shiftl (ToInt32 a) (shiftCount b)).
Definition js_sar (a b : Z) : Z := Z.shiftr (ToInt32 a) (shiftCount b).
Definition js_or (a b : Z) : Z := Z.lor (ToInt32 a) (ToInt32 b).
Definition js_and (a b : Z) : Z := Z.land (ToInt32 a) (ToInt32 b).

Definition TAG_BITS : Z := 4.
Definition TAG_MASK : Z := js_shl 1 TAG_BITS - 1.

(** A [Value] is a number; the model keeps the integral ones the code makes. *)
Definition Value := Z.

Definition makeValue (t : Tag) (index : Z) : Value :=
  js_or (tagNumber t) (js_shl index TAG_BITS).

Definition valueTag (v : Value) : Z := js_and v TAG_MASK.

(** [assert] of [support/Support] throws its message, by default
    ["Assertion failed"]. *)
Definition getIndex (v : Value) (tag : Tag) : Outcome Z :=
  if Z.eqb (valueTag v) (tagNumber tag) then Done (js_sar v TAG_BITS)
  else Panic "Trying to get index for value with invalid tag".

(** [a[i]] on an array: [undefined] ([None]) out of bounds. *)
Definition js_index {A} (l : list A) (i : Z) : option A :=
  if Z.leb 0 i then nth_error l (Z.to_nat i) else None.

(** ** The heap of the uncompressed copy *)

(** A JavaScript value as held in a variable or property: a primitive
    ([null], a boolean, a number or a string), or a reference to an object
    or array of the heap. *)
Inductive hval : Type :=
| HPrim (v : jsval)
| HRef (loc : nat).

(** The prototype of an ordinary object: [Object.prototype], [null], or an
    object or array of the heap. *)
Inductive proto : Type :=
| PDefault
| PNull
| PRef (loc : nat).

(** A heap cell: an ordinary object, with its own properties listed as
    [[OwnPropertyKeys]] lists them (see [js_set]) and its prototype, or an
    array, whose prototype is [Array.prototype]. *)
Inductive hcell : Type :=
| HObj (props : list (string * hval)) (pr : proto)
| HArr (items : list hval).

(** [typeof v === 'object'] *)
Definition typeofObject (v : hval) : bool :=
  match v with
  | HRef _ => true
  | HPrim p => is_object p
  end.

(** ** The parser's state *)

(** [type Context] *)
Record CJContext := mkContext {
  currentObject : option (list Value);
  currentArray : option (list Value);
  currentKey : option string;
  currentNumberChunk : option string;
  currentUncompressedObject : option hval
}.

Definition emptyContext : CJContext := mkContext None None None None None.

(** The fields of [CompressedJSON]; the context stack is kept with its top
    first. *)
Record CJState := mkCJ {
  rootValue : option Value;
  ctx : option CJContext;
  contextStack : list CJContext;
  strings : list string;
  stringIndexes : list (string * Z);
  objects : list (list Value);
  arrays : list (list Value);
  heap : list hcell;
  uncompressedSource : hval
}.

(** A new parser: [_uncompressedSource] is a fresh [{}]. *)
Definition initialCJ : CJState := mkCJ None None [] [] [] [] [] [HObj [] PDefault] (HRef 0).

Definition with_root (r : option Value) (s : CJState) : CJState :=
  mkCJ r (ctx s) (contextStack s) (strings s) (stringIndexes s) (objects s) (arrays s) (heap s) (uncompressedSource s).
Definition with_ctx (c : option CJContext) (s : CJState) : CJState :=
  mkCJ (rootValue s) c (contextStack s) (strings s) (stringIndexes s) (objects s) (arrays s) (heap s) (uncompressedSource s).
Definition with_stack (st : list CJContext) (s : CJState) : CJState :=
  mkCJ (rootValue s) (ctx s) st (strings s) (stringIndexes s) (objects s) (arrays s) (heap s) (uncompressedSource s).
Definition with_strings (l : list string) (ix : list (string * Z)) (s : CJState) : CJState :=
  mkCJ (rootValue s) (ctx s) (contextStack s) l ix (objects s) (arrays s) (heap s) (uncompressedSource s).
Definition with_objects (l : list (list Value)) (s : CJState) : CJState :=
  mkCJ (rootValue s) (ctx s) (contextStack s) (strings s) (stringIndexes s) l (arrays s) (heap s) (uncompressedSource s).
Definition with_arrays (l : list (list Value)) (s : CJState) : CJState :=
  mkCJ (rootValue s) (ctx s) (contextStack s) (strings s) (stringIndexes s) (objects s) l (heap s) (uncompressedSource s).
Definition with_heap (h : list hcell) (s : CJState) : CJState :=
  mkCJ (rootValue s) (ctx s) (contextStack s) (strings s) (stringIndexes s) (objects s) (arrays s) h (uncompressedSource s).
Definition with_source (v : hval) (s : CJState) : CJState :=
  mkCJ (rootValue s) (ctx s) (contextStack s) (strings s) (stringIndexes s) (objects s) (arrays s) (heap s) v.

(** ** A state and error monad over the parser *)

Definition CM (A : Type) : Type := CJState -> Outcome (A * CJState).

Definition cret {A} (a : A) : CM A := fun s => Done (a, s).
Definition cbind {A B} (m : CM A) (k : A -> CM B) : CM B :=
  fun s => r <- m s ;; k (fst r) (snd r).
Definition cfail {A} (msg : string) : CM A := fun _ => Panic msg.

Notation "x <~ m ;; k" := (cbind m (fun x => k))
  (at level 61, m at next level, right associativity).

(** [this.context]: [defined(this._ctx)]. *)
Definition context : CM CJContext :=
  fun s => match ctx s with Some c => Done (c, s) | None => Panic "defined" end.

(** Replace the current context (the object [this._ctx] refers to). *)
Definition setContext (c : CJContext) : CM unit := fun s => Done (tt, with_ctx (Some c) s).

Definition set_currentObject (o : option (list Value)) (c : CJContext) : CJContext :=
  mkContext o (currentArray c) (currentKey c) (currentNumberChunk c) (currentUncompressedObject c).
Definition set_currentArray (a : option (list Value)) (c : CJContext) : CJContext :=
  mkContext (currentObject c) a (currentKey c) (currentNumberChunk c) (currentUncompressedObject c).
Definition set_currentKey (k : option string) (c : CJContext) : CJContext :=
  mkContext (currentObject c) (currentArray c) k (currentNumberChunk c) (currentUncompressedObject c).
Definition set_currentNumberChunk (n : option string) (c : CJContext) : CJContext :=
  mkContext (currentObject c) (currentArray c) (currentKey c) n (currentUncompressedObject c).
Definition set_currentUncompressedObject (u : option hval) (c : CJContext) : CJContext :=
  mkContext (currentObject c) (currentArray c) (currentKey c) (currentNumberChunk c) u.

(** ** The heap operations *)

(** A fresh object or array. *)
Definition alloc (c : hcell) : CM hval :=
  fun s => Done (HRef (List.length (heap s)), with_heap (heap s ++ [c])%list s).

Fixpoint list_update {A} (n : nat) (f : A -> A) (l : list A) : list A :=
  match l, n with
  | [], _ => []
  | x :: t, O => f x :: t
  | x :: t, S n' => x :: list_update n' f t
  end.

Definition cellAt (s : CJState) (l : nat) : option hcell := nth_error (heap s) l.

(** [Array.isArray(v)] *)
Definition isArray (s : CJState) (v : hval) : bool :=
  match v with
  | HRef l => match cellAt s l with Some (HArr _) => true | _ => false end
  | HPrim _ => false
  end.

(** The [[Set]] of ["__proto__"] on an object without that own property
    walks its prototype chain [pr]: [true] when it reaches the accessor of
    [Object.prototype] (from [Object.prototype] itself, or from an array
    through [Array.prototype]), [false] when it meets an inherited data
    property ["__proto__"] or the end of the chain, either of which makes a
    new own property of the receiver. The parser only links an object to a
    cell allocated after it, so the heap's size is [fuel] enough; an
    exhausted [fuel] or a missing cell, which it never meets, count as
    reaching the accessor. *)
Fixpoint reachesProtoSetter (fuel : nat) (h : list hcell) (pr : proto) : bool :=
  match pr with
  | PDefault => true
  | PNull => false
  | PRef m =>
      match fuel with
      | O => true
      | S f =>
          match nth_error h m with
          | Some (HObj ps pr') =>
              if str_mem "__proto__" (map fst ps) then false else reachesProtoSetter f h pr'
          | _ => true
          end
      end
  end.

(** The setter of [Object.prototype.__proto__]: an object, an array or
    [null] becomes the prototype, another value is ignored. The value is a
    fresh [{}] or [[]] (see [pushObjectContext]) or a primitive, so
    [[SetPrototypeOf]] never meets a cycle here. *)
Definition setProtoOf (v : hval) (pr : proto) : proto :=
  match v with
  | HRef m => PRef m
  | HPrim JNull => PNull
  | HPrim _ => pr
  end.

(** [Object.assign(target, { [k]: v })] on the object at [l]: the [[Set]]
    of [k] with [target] as receiver. An own property [k] is overwritten in
    place. Otherwise ["__proto__"] goes to the setter when the walk of the
    chain reaches it, and any other key becomes a new own property (the
    chain of a parsed object holds no other setter and no read-only
    property). *)
Definition assignProperty (l : nat) (k : string) (v : hval) : CM unit :=
  fun s =>
    match cellAt s l with
    | Some (HObj ps pr) =>
        let put (c : hcell) := Done (tt, with_heap (list_update l (fun _ => c) (heap s)) s) in
        if String.eqb k "__proto__" && negb (str_mem k (map fst ps))
           && reachesProtoSetter (List.length (heap s)) (heap s) pr
        then put (HObj ps (setProtoOf v pr))
        else put (HObj (js_set k v ps) pr)
    | _ => Done (tt, s)
    end.

(** [setUncompressedObjectProperty] *)
Definition setUncompressedObjectProperty (currentUncompressedObject : hval)
  (parentStructure : option hval) (objectKey : option string) : CM hval :=
  fun s =>
    match parentStructure with
    | None =>
        if typeofObject currentUncompressedObject
        then Done (currentUncompressedObject, with_source currentUncompressedObject s)
        else Done (currentUncompressedObject, s)
    | Some p =>
        if isArray s p then
          match p with
          | HRef l =>
              Done (currentUncompressedObject,
                    with_heap (list_update l (fun c => match c with
                                                      | HArr xs => HArr (xs ++ [currentUncompressedObject])%list
                                                      | HObj _ _ => c
                                                      end) (heap s)) s)
          | HPrim _ => Done (currentUncompressedObject, s)
          end
        else
          match objectKey with
          | Some k =>
              if typeofObject p && negb (String.eqb k "") then
                match p with
                | HRef l => _ <~ assignProperty l k currentUncompressedObject ;;
                            cret currentUncompressedObject
                | HPrim _ => cfail TypeErrorNull
                end s
              else Done (currentUncompressedObject, s)
          | None => Done (currentUncompressedObject, s)
          end
    end.

(** [setUncompressedObjectSimpleProperty] *)
Definition setUncompressedObjectSimpleProperty (v : jsval) : CM hval :=
  fun s =>
    setUncompressedObjectProperty (HPrim v)
      (match ctx s with Some c => currentUncompressedObject c | None => None end)
      (match ctx s with Some c => currentKey c | None => None end) s.

(** ** The compressing parser *)

(** [this._stringIndexes[s] = index] on the plain object [_stringIndexes]:
    the key ["__proto__"] reaches the prototype setter, which ignores a
    number. *)
Definition setStringIndex (s : string) (index : Z) (ix : list (string * Z)) : list (string * Z) :=
  if String.eqb s "__proto__" then ix else set_str s index ix.

(** [internString] *)
Definition internString (s : string) : CM Z :=
  fun st =>
    match lookup_str s (stringIndexes st) with
    | Some i => Done (i, st)
    | None =>
        let index := Z.of_nat (List.length (strings st)) in
        Done (index, with_strings (strings st ++ [s])%list
                                  (setStringIndex s index (stringIndexes st)) st)
    end.

Definition makeString (s : string) : CM Value :=
  i <~ internString s ;; cret (makeValue Tag_InternedString i).

Definition internObject (obj : list Value) : CM Value :=
  fun st => Done (makeValue Tag_Object (Z.of_nat (List.length (objects st))),
                  with_objects (objects st ++ [obj])%list st).

Definition internArray (arr : list Value) : CM Value :=
  fun st => Done (makeValue Tag_Array (Z.of_nat (List.length (arrays st))),
                  with_arrays (arrays st ++ [arr])%list st).

(** [getStringForValue], [getObjectForValue], [getArrayForValue]; an index
    out of the table gives [undefined]. *)
Definition getStringForValue (st : CJState) (v : Value) : Outcome (option string) :=
  if Z.eqb (valueTag v) (tagNumber Tag_InternedString)
  then i <- getIndex v Tag_InternedString ;; Done (js_index (strings st) i)
  else Panic "Assertion failed".

Definition getObjectForValue (st : CJState) (v : Value) : Outcome (option (list Value)) :=
  i <- getIndex v Tag_Object ;; Done (js_index (objects st) i).

Definition getArrayForValue (st : CJState) (v : Value) : Outcome (option (list Value)) :=
  i <- getIndex v Tag_Array ;; Done (js_index (arrays st) i).

Definition isExpectingRef (st : CJState) : bool :=
  match ctx st with
  | Some c => match currentKey c with Some k => String.eqb k "$ref" | None => false end
  | None => false
  end.

(** [commitValue] *)
Definition commitValue (value : Value) : CM unit :=
  fun st =>
    match ctx st with
    | None =>
        match rootValue st with
        | None => Done (tt, with_root (Some value) st)
        | Some _ => Panic "Committing value but nowhere to commit to - root value still there."
        end
    | Some c =>
        match currentObject c with
        | Some obj =>
            match currentKey c with
            | None => Panic "Must have key and can't have string when committing"
            | Some k =>
                (kv <~ makeString k ;;
                 setContext (set_currentKey None (set_currentObject (Some (obj ++ [kv; value])%list) c))) st
            end
        | None =>
            match currentArray c with
            | Some arr => setContext (set_currentArray (Some (arr ++ [value])%list) c) st
            | None => Panic "Committing value but nowhere to commit to"
            end
        end
    end.

Definition commitNull : CM unit :=
  _ <~ setUncompressedObjectSimpleProperty JNull ;; commitValue (makeValue Tag_Null 0).

Definition commitBoolean (b : bool) : CM unit :=
  _ <~ setUncompressedObjectSimpleProperty (JBool b) ;; commitValue (makeValue Tag_Boolean 0).

Definition MAX_SAFE_INTEGER : Z := 2 ^ 53 - 1.

(** Whether [m * 10 ^ e] is an integer, and its value when it is. *)
Definition finIsIntegral (m e : Z) : bool :=
  if Z.leb 0 e then true else Z.eqb (Z.modulo m (10 ^ (- e))) 0.
Definition finIntegralValue (m e : Z) : Z :=
  if Z.leb 0 e then m * 10 ^ e else Z.div m (10 ^ (- e)).

(** [value !== Math.floor(value) || value < Number.MIN_SAFE_INTEGER ||
    value > Number.MAX_SAFE_INTEGER] ([NaN] differs from itself, an
    infinity is out of range). *)
Definition isIntegerLimitExceeded (x : jsnum) : bool :=
  match x with
  | Fin m e =>
      negb (finIsIntegral m e) || Z.ltb (finIntegralValue m e) (- MAX_SAFE_INTEGER)
      || Z.ltb MAX_SAFE_INTEGER (finIntegralValue m e)
  | NaN | Infinity _ => true
  end.

(** [value % 1] as a condition: a finite non-integer ([NaN % 1] is [NaN],
    which is falsy). *)
Definition modOneTruthy (x : jsnum) : bool :=
  match x with Fin m e => negb (finIsIntegral m e) | _ => false end.

Definition numberTag (x : jsnum) : Tag :=
  if isIntegerLimitExceeded x || modOneTruthy x then Tag_Double else Tag_Integer.

Definition commitNumber (x : jsnum) : CM unit :=
  _ <~ setUncompressedObjectSimpleProperty (JNum x) ;; commitValue (makeValue (numberTag x) 0).

(** [finish] *)
Definition finish : CM Value :=
  fun st =>
    match rootValue st with
    | None => Panic "Finished without root document"
    | Some v =>
        match ctx st, contextStack st with
        | None, [] => Done (v, with_root None st)
        | _, _ => Panic "Finished with contexts present"
        end
    end.

Definition pushContext : CM unit :=
  fun st =>
    let st' := match ctx st with Some c => with_stack (c :: contextStack st) st | None => st end in
    Done (tt, with_ctx (Some emptyContext) st').

Definition popContext : CM unit :=
  fun st =>
    match ctx st with
    | None => Panic "Popping context when there isn't one"
    | Some _ =>
        match contextStack st with
        | [] => Done (tt, with_ctx None st)
        | c :: t => Done (tt, with_stack t (with_ctx (Some c) st))
        end
    end.

Definition parentOf (st : CJState) : option hval * option string :=
  match ctx st with
  | Some c => (currentUncompressedObject c, currentKey c)
  | None => (None, None)
  end.

Definition pushObjectContext : CM unit :=
  fun st =>
    let '(parentStructure, objectKey) := parentOf st in
    (_ <~ pushContext ;;
     c <~ context ;;
     _ <~ setContext (set_currentObject (Some []) c) ;;
     o <~ alloc (HObj [] PDefault) ;;
     u <~ setUncompressedObjectProperty o parentStructure objectKey ;;
     c' <~ context ;;
     setContext (set_currentUncompressedObject (Some u) c')) st.

Definition setPropertyKey (key : string) : CM unit :=
  c <~ context ;; setContext (set_currentKey (Some key) c).

Definition finishObject : CM unit :=
  c <~ context ;;
  match currentObject c with
  | None => cfail "Object ended but not started"
  | Some obj => _ <~ popContext ;; v <~ internObject obj ;; commitValue v
  end.

Definition pushArrayContext : CM unit :=
  fun st =>
    let '(parentStructure, arrayKey) := parentOf st in
    (_ <~ pushContext ;;
     c <~ context ;;
     _ <~ setContext (set_currentArray (Some []) c) ;;
     o <~ alloc (HArr []) ;;
     u <~ setUncompressedObjectProperty o parentStructure arrayKey ;;
     c' <~ context ;;
     setContext (set_currentUncompressedObject (Some u) c')) st.

Definition finishArray : CM unit :=
  c <~ context ;;
  match currentArray c with
  | None => cfail "Array ended but not started"
  | Some arr => _ <~ popContext ;; v <~ internArray arr ;; commitValue v
  end.

Section Compressor.

(** [handleRefs], and [inferTransformedStringTypeKindForString] with the
    parser's date recognizer (a function of [attributes/StringTypes], which
    the model leaves open): the name of the transformed string kind of a
    string, or [undefined]. *)
Variable handleRefs : bool.
Variable inferFormat : string -> option string.

Definition commitString (s : string) : CM unit :=
  _ <~ setUncompressedObjectSimpleProperty (JStr s) ;;
  value <~ (fun st =>
              if handleRefs && isExpectingRef st then makeString s st
              else match inferFormat s with
                   | Some format => (i <~ internString format ;; cret (makeValue Tag_StringFormat i)) st
                   | None => makeString s st
                   end) ;;
  commitValue value.

(** [CompressedJSONFromString.process] *)
Fixpoint process (json : jsval) : CM unit :=
  match json with
  | JNull => commitNull
  | JBool b => commitBoolean b
  | JStr s => commitString s
  | JNum x => commitNumber x
  | JArr l =>
      _ <~ pushArrayContext ;;
      _ <~ (fix items (l : list jsval) : CM unit :=
              match l with
              | [] => cret tt
              | v :: t => _ <~ process v ;; items t
              end) l ;;
      finishArray
  | JObj fs =>
      _ <~ pushObjectContext ;;
      _ <~ (fix props (fs : list (string * jsval)) : CM unit :=
              match fs with
              | [] => cret tt
              | (key, v) :: t => _ <~ setPropertyKey key ;; _ <~ process v ;; props t
              end) fs ;;
      finishObject
  end.

(** The value [JSON.parse] returns, built in the heap. *)
Fixpoint allocValue (j : jsval) : CM hval :=
  match j with
  | JArr l =>
      xs <~ (fix items (l : list jsval) : CM (list hval) :=
               match l with
               | [] => cret []
               | v :: t => x <~ allocValue v ;; xs <~ items t ;; cret (x :: xs)
               end) l ;;
      alloc (HArr xs)
  | JObj fs =>
      ps <~ (fix props (fs : list (string * jsval)) : CM (list (string * hval)) :=
               match fs with
               | [] => cret []
               | (k, v) :: t => x <~ allocValue v ;; ps <~ props t ;; cret ((k, x) :: ps)
               end) fs ;;
      alloc (HObj ps PDefault)
  | _ => cret (HPrim j)
  end.

(** [makeUncompressedSource] with [JSON.parse(input)] giving [j]. *)
Definition makeUncompressedSource (j : jsval) : CM hval :=
  v <~ allocValue j ;; fun st => Done (v, with_source v st).

(** [CompressedJSONFromString.parseSync] on an input that [JSON.parse]
    reads as [j]. *)
Definition parseSync (j : jsval) : CM Value :=
  _ <~ makeUncompressedSource j ;; _ <~ process j ;; finish.

(** ** The stream parser (CompressedJSONFromStream.ts) *)

(** The events of [stream-json]'s [Parser] that [methodMap] names, and the
    others ([startKey], [stringChunk], [numberValue], ...). *)
Inductive jsonEvent : Type :=
| EvStartObject
| EvEndObject
| EvStartArray
| EvEndArray
| EvStartNumber
| EvNumberChunk (s : string)
| EvEndNumber
| EvKeyValue (key : string)
| EvStringValue (s : string)
| EvNullValue
| EvTrueValue
| EvFalseValue
| EvOther (name : string).

Definition handleStartNumber : CM unit :=
  c <~ context ;; setContext (set_currentNumberChunk (Some "") c).

(** [ctx.currentNumberChunk += s]: [undefined + s] is ["undefined" + s]. *)
Definition handleNumberChunk (s : string) : CM unit :=
  c <~ context ;;
  setContext (set_currentNumberChunk
                (Some (match currentNumberChunk c with Some t => t ++ s | None => "undefined" ++ s end)) c).

Definition handleEndNumber : CM unit :=
  c <~ context ;;
  match currentNumberChunk c with
  | None => cfail "defined"
  | Some numberChunk =>
      let value := StringToNumber numberChunk in
      c' <~ context ;;
      _ <~ setContext (set_currentNumberChunk None c') ;;
      commitNumber value
  end.

Definition handleBooleanValue (b : bool) : CM unit := commitBoolean b.

(** The [data] handler: the method [methodMap] names for the event. *)
Definition onData (ev : jsonEvent) : CM unit :=
  match ev with
  | EvStartObject => pushObjectContext
  | EvEndObject => finishObject
  | EvStartArray => pushArrayContext
  | EvEndArray => finishArray
  | EvStartNumber => handleStartNumber
  | EvNumberChunk s => handleNumberChunk s
  | EvEndNumber => handleEndNumber
  | EvKeyValue k => setPropertyKey k
  | EvStringValue s => commitString s
  | EvNullValue => commitNull
  | EvTrueValue => handleBooleanValue true
  | EvFalseValue => handleBooleanValue false
  | EvOther _ => cret tt
  end.

Fixpoint onEvents (evs : list jsonEvent) : CM unit :=
  match evs with
  | [] => cret tt
  | ev :: t => _ <~ onData ev ;; onEvents t
  end.

(** [CompressedJSONFromStream.parse]: the events, then [finish] at [end]. *)
Definition parseStream (evs : list jsonEvent) : CM Value :=
  _ <~ onEvents evs ;; finish.

End Compressor.

End CompressedJSON.

(** ** Reading a compressed value back *)

Module CompressedJSONRead.

Import CompressedJSON.
Local Open Scope Z_scope.

(** The index [v >> TAG_BITS] gives back: the low 28 bits of the packed
    index, read as a signed number. *)
Definition sext28 (i : Z) : Z :=
  let m := i mod 2 ^ 28 in if m <? 2 ^ 27 then m else m - 2 ^ 28.

(** The string table is consistent: every key of [_stringIndexes] names
    its own string, and ["__proto__"] is not an own key. *)
Definition StringsInv (st : CJState) : Prop :=
  (forall k i, lookup_str k (stringIndexes st) = Some i -> js_index (strings st) i = Some k) /\
  lookup_str "__proto__" (stringIndexes st) = None.

(** What a compressed value stands for, as the getters read it: the kind of
    each leaf ([null], a boolean, an integer, a double, a string with its
    text, a string of a transformed kind with the kind's name), and the
    structure of objects and arrays. *)
Inductive cval : Type :=
| CNull
| CBool
| CInteger
| CDouble
| CString (s : string)
| CFormat (kind : string)
| CObject (fields : list (string * cval))
| CArray (items : list cval).

(** A value read through [getStringForValue], [getObjectForValue],
    [getArrayForValue] and the string table lookup of
    [getStringFormatTypeKind], for the tag [valueTag] gives.  Objects are
    their flat lists [key, value, key, value, ...]. *)
Fixpoint decode (fuel : nat) (st : CJState) (v : Value) : Outcome cval :=
  match fuel with
  | O => OutOfFuel
  | S f =>
      let t := valueTag v in
      if Z.eqb t (tagNumber Tag_Null) then Done CNull
      else if Z.eqb t (tagNumber Tag_Boolean) then Done CBool
      else if Z.eqb t (tagNumber Tag_Integer) then Done CInteger
      else if Z.eqb t (tagNumber Tag_Double) then Done CDouble
      else if Z.eqb t (tagNumber Tag_InternedString) then
        s <- getStringForValue st v ;;
        match s with Some s => Done (CString s) | None => Panic "undefined" end
      else if Z.eqb t (tagNumber Tag_StringFormat) then
        i <- getIndex v Tag_StringFormat ;;
        match js_index (strings st) i with Some k => Done (CFormat k) | None => Panic "undefined" end
      else if Z.eqb t (tagNumber Tag_Object) then
        o <- getObjectForValue st v ;;
        match o with
        | None => Panic "undefined"
        | Some l =>
            let fix pairs (l : list Value) : Outcome (list (string * cval)) :=
              match l with
              | [] => Done []
              | kv :: x :: t =>
                  k <- getStringForValue st kv ;;
                  match k with
                  | None => Panic "undefined"
                  | Some k => c <- decode f st x ;; r <- pairs t ;; Done ((k, c) :: r)
                  end
              | [_] => Panic "undefined"
              end in
            fs <- pairs l ;; Done (CObject fs)
        end
      else if Z.eqb t (tagNumber Tag_Array) then
        a <- getArrayForValue st v ;;
        match a with
        | None => Panic "undefined"
        | Some l =>
            let fix items (l : list Value) : Outcome (list cval) :=
              match l with
              | [] => Done []
              | x :: t => c <- decode f st x ;; r <- items t ;; Done (c :: r)
              end in
            cs <- items l ;; Done (CArray cs)
        end
      else Panic "invalid tag"
  end.

Section Expected.

Variable handleRefs : bool.
Variable inferFormat : string -> option string.

(** What [process] stores for a document, [isRef] telling whether the value
    sits under the key ["$ref"]. *)
Fixpoint expected (isRef : bool) (j : jsval) : cval :=
  match j with
  | JNull => CNull
  | JBool _ => CBool
  | JNum x => match numberTag x with Tag_Integer => CInteger | _ => CDouble end
  | JStr s =>
      if handleRefs && isRef then CString s
      else match inferFormat s with Some k => CFormat k | None => CString s end
  | JArr l => CArray (map (expected false) l)
  | JObj fs => CObject (map (fun kv => (fst kv, expected (String.eqb (fst kv) "$ref") (snd kv))) fs)
  end.

End Expected.

(** The depth of a document. *)
Fixpoint depth (j : jsval) : nat :=
  match j with
  | JArr l => S (fold_right (fun x m => Nat.max (depth x) m) O l)
  | JObj fs => S (fold_right (fun kv m => Nat.max (depth (snd kv)) m) O fs)
  | _ => O
  end.

(** The loops of [process], [allocValue] and [decode] as functions of
    their own. *)
Definition processItems (handleRefs : bool) (inferFormat : string -> option string) :
    list jsval -> CM unit :=
  fix items (l : list jsval) : CM unit :=
    match l with
    | [] => cret tt
    | v :: t => _ <~ process handleRefs inferFormat v ;; items t
    end.

Definition processProps (handleRefs : bool) (inferFormat : string -> option string) :
    list (string * jsval) -> CM unit :=
  fix props (fs : list (string * jsval)) : CM unit :=
    match fs with
    | [] => cret tt
    | (key, v) :: t => _ <~ setPropertyKey key ;; _ <~ process handleRefs inferFormat v ;; props t
    end.

Definition decodePairs (f : nat) (st : CJState) : list Value -> Outcome (list (string * cval)) :=
  fix pairs (l : list Value) : Outcome (list (string * cval)) :=
    match l with
    | [] => Done []
    | kv :: x :: t =>
        k <- getStringForValue st kv ;;
        match k with
        | None => Panic "undefined"
        | Some k => c <- decode f st x ;; r <- pairs t ;; Done ((k, c) :: r)
        end
    | [_] => Panic "undefined"
    end.

Definition decodeItems (f : nat) (st : CJState) : list Value -> Outcome (list cval) :=
  fix items (l : list Value) : Outcome (list cval) :=
    match l with
    | [] => Done []
    | x :: t => c <- decode f st x ;; r <- items t ;; Done (c :: r)
    end.

(** A value of the tables stands for a [cval]: its tag and index name an
    entry of the tables that reads back as that [cval]. *)
Inductive Repr (st : CJState) : Value -> cval -> Prop :=
| R_null : Repr st (makeValue Tag_Null 0) CNull
| R_bool : Repr st (makeValue Tag_Boolean 0) CBool
| R_integer : Repr st (makeValue Tag_Integer 0) CInteger
| R_double : Repr st (makeValue Tag_Double 0) CDouble
| R_string i s : js_index (strings st) i = Some s ->
    Repr st (makeValue Tag_InternedString i) (CString s)
| R_format i k : js_index (strings st) i = Some k ->
    Repr st (makeValue Tag_StringFormat i) (CFormat k)
| R_object i l fs : js_index (objects st) i = Some l -> ReprPairs st l fs ->
    Repr st (makeValue Tag_Object i) (CObject fs)
| R_array i l cs : js_index (arrays st) i = Some l -> ReprList st l cs ->
    Repr st (makeValue Tag_Array i) (CArray cs)
with ReprPairs (st : CJState) : list Value -> list (string * cval) -> Prop :=
| RP_nil : ReprPairs st [] []
| RP_cons i k x c l fs : js_index (strings st) i = Some k -> Repr st x c ->
    ReprPairs st l fs -> ReprPairs st (makeValue Tag_InternedString i :: x :: l) ((k, c) :: fs)
with ReprList (st : CJState) : list Value -> list cval -> Prop :=
| RL_nil : ReprList st [] []
| RL_cons x c l cs : Repr st x c -> ReprList st l cs -> ReprList st (x :: l) (c :: cs).

(** The contexts the parser keeps: the uncompressed object of each is a
    reference, and there is no saved context without a current one. *)
Definition UOk (c : CJContext) : Prop :=
  match currentUncompressedObject c with
  | None | Some (HRef _) => True
  | Some (HPrim _) => False
  end.

Definition CtxOk (st : CJState) : Prop :=
  match ctx st with None => contextStack st = [] | Some c => UOk c end /\
  Forall UOk (contextStack st).

Definition Inv (st : CJState) : Prop := StringsInv st /\ CtxOk st.

(** The tables of [st'] extend those of [st]. *)
Definition Ext (st st' : CJState) : Prop :=
  (exists l, strings st' = (strings st ++ l)%list) /\
  (exists l, objects st' = (objects st ++ l)%list) /\
  (exists l, arrays st' = (arrays st ++ l)%list).

(** Every table index fits the 28 bits a value packs. *)
Definition Bounded (st : CJState) : Prop :=
  Z.of_nat (List.length (strings st)) <= 2 ^ 27 /\
  Z.of_nat (List.length (objects st)) <= 2 ^ 27 /\
  Z.of_nat (List.length (arrays st)) <= 2 ^ 27.

Scheme Repr_mut := Induction for Repr Sort Prop
  with ReprPairs_mut := Induction for ReprPairs Sort Prop
  with ReprList_mut := Induction for ReprList Sort Prop.

(** What [process] guarantees: it ends by committing a value that stands
    for the document, having only extended the tables and kept the
    contexts. *)
Definition ProcessOk (handleRefs : bool) (inferFormat : string -> option string)
    (j : jsval) (st : CJState) : Prop :=
  exists v st1,
    process handleRefs inferFormat j st = commitValue v st1 /\
    Repr st1 v (expected handleRefs inferFormat (isExpectingRef st) j) /\
    Ext st st1 /\ Inv st1 /\
    ctx st1 = ctx st /\ contextStack st1 = contextStack st /\ rootValue st1 = rootValue st.

Definition allocItems (l : list jsval) : CM (list hval) :=
  (fix items (l : list jsval) : CM (list hval) :=
     match l with
     | [] => cret []
     | v :: t => x <~ allocValue v ;; xs <~ items t ;; cret (x :: xs)
     end) l.

Definition allocProps (fs : list (string * jsval)) : CM (list (string * hval)) :=
  (fix props (fs : list (string * jsval)) : CM (list (string * hval)) :=
     match fs with
     | [] => cret []
     | (k, v) :: t => x <~ allocValue v ;; ps <~ props t ;; cret ((k, x) :: ps)
     end) fs.

(** The events [stream-json]'s [Parser] emits for a document, with
    [packKeys] and [packStrings] on and its default [packNumbers] and
    streaming of keys, strings and numbers; [numberChunks x] are the pieces
    in which the text of the number [x] arrives. *)
Fixpoint eventsOf (numberChunks : jsnum -> list string) (j : jsval) : list jsonEvent :=
  match j with
  | JNull => [EvNullValue]
  | JBool true => [EvTrueValue]
  | JBool false => [EvFalseValue]
  | JNum x =>
      (EvStartNumber :: map EvNumberChunk (numberChunks x) ++ [EvEndNumber; EvOther "numberValue"])%list
  | JStr s => [EvOther "startString"; EvOther "stringChunk"; EvOther "endString"; EvStringValue s]
  | JArr l =>
      (EvStartArray :: List.concat (map (eventsOf numberChunks) l) ++ [EvEndArray])%list
  | JObj fs =>
      (EvStartObject ::
       List.concat (map (fun kv => [EvOther "startKey"; EvOther "stringChunk"; EvOther "endKey";
                               EvKeyValue (fst kv)] ++ eventsOf numberChunks (snd kv)) fs)
       ++ [EvEndObject])%list
  end.

(** The numbers of a document. *)
Fixpoint numbersOf (j : jsval) : list jsnum :=
  match j with
  | JNum x => [x]
  | JArr l => List.concat (map numbersOf l)
  | JObj fs => List.concat (map (fun kv => numbersOf (snd kv)) fs)
  | _ => []
  end.

(** No number is being read: no context holds a number chunk. *)
Definition ChunkInv (st : CJState) : Prop :=
  match ctx st with Some c => currentNumberChunk c = None | None => True end /\
  Forall (fun c => currentNumberChunk c = None) (contextStack st).

(** Where the uncompressed copy receives a value: not a primitive. *)
Definition NotPrim (p : option hval) : Prop :=
  match p with Some (HPrim _) => False | _ => True end.

(** The contexts saved by [pushContext], innermost first, and the state
    [popContext] leaves. *)
Definition saved (st : CJState) : list CJContext :=
  match ctx st with Some c => c :: contextStack st | None => contextStack st end.

Definition popped (st : CJState) : CJState :=
  match contextStack st with
  | [] => with_ctx None st
  | c :: t => with_stack t (with_ctx (Some c) st)
  end.

(** The chunks [numberChunks x] of each number [x] of a document spell it. *)
Definition NumsOk (numberChunks : jsnum -> list string) (j : jsval) : Prop :=
  Forall (fun x => StringToNumber (fold_left String.append (numberChunks x) "") = x) (numbersOf j).

(** A number event needs an enclosing context to hold its chunk. *)
Definition StartOk (j : jsval) (st : CJState) : Prop :=
  match j with JNum _ => ctx st <> None | _ => True end.

(** The events of [j] drive the stream parser as [process] does. *)
Definition EventsOk (handleRefs : bool) (inferFormat : string -> option string)
    (numberChunks : jsnum -> list string) (j : jsval) : Prop :=
  forall st, Inv st -> ChunkInv st -> StartOk j st -> NumsOk numberChunks j ->
  onEvents handleRefs inferFormat (eventsOf numberChunks j) st = process handleRefs inferFormat j st.

End CompressedJSONRead.

(** ** The uncompressed copy ([getUncompressedObject]) *)

Module CompressedJSONCopy.

Import CompressedJSON CompressedJSONRead.

Fixpoint mapOpt {A B} (g : A -> option B) (l : list A) : option (list B) :=
  match l with
  | [] => Some []
  | x :: t =>
      match g x, mapOpt g t with
      | Some y, Some ys => Some (y :: ys)
      | _, _ => None
      end
  end.

Definition readPairs {B} (g : hval -> option B) (ps : list (string * hval)) : option (list (string * B)) :=
  mapOpt (fun kv => option_map (fun y => (fst kv, y)) (g (snd kv))) ps.

(** The JSON value a heap value stands for: an object by its own properties
    in property order, an array by its items; [fuel] bounds the nesting. *)
Fixpoint readH (fuel : nat) (h : list hcell) (v : hval) : option jsval :=
  match v with
  | HPrim p => Some p
  | HRef l =>
      match fuel with
      | O => None
      | S f =>
          match nth_error h l with
          | Some (HArr xs) => option_map JArr (mapOpt (readH f h) xs)
          | Some (HObj ps _) => option_map JObj (readPairs (readH f h) ps)
          | None => None
          end
      end
  end.

(** [getUncompressedObject()] read as a JSON value. *)
Definition getUncompressedObject (fuel : nat) (st : CJState) : option jsval :=
  readH fuel (heap st) (uncompressedSource st).

(** The keys under which [setUncompressedObjectProperty] adds no own
    property to an object that has not yet received the key: the empty key
    fails its [objectKey] test, and ["__proto__"] reaches the prototype
    setter. *)
Definition droppedKey (k : string) : bool :=
  String.eqb k "" || String.eqb k "__proto__".

(** A document with the properties under dropped keys removed at every
    depth, the others added one by one as [Object.assign] adds them: in
    the order of [js_set], a repeated key keeping its first position and
    its last value. *)
Fixpoint copyOf (j : jsval) : jsval :=
  match j with
  | JArr l => JArr (map copyOf l)
  | JObj fs =>
      JObj (fold_left (fun acc kv =>
                         if droppedKey (fst kv) then acc
                         else js_set (fst kv) (copyOf (snd kv)) acc) fs [])
  | _ => j
  end.

(** One step of [copyOf] on the properties of an object. *)
Definition copyStep (acc : list (string * jsval)) (kv : string * jsval) : list (string * jsval) :=
  if droppedKey (fst kv) then acc else js_set (fst kv) (copyOf (snd kv)) acc.

(** Every object of the document has distinct keys, as every object that
    [JSON.parse] returns has. *)
Fixpoint nodupKeys (j : jsval) : bool :=
  match j with
  | JArr l =>
      (fix all (l : list jsval) : bool :=
         match l with [] => true | x :: t => nodupKeys x && all t end) l
  | JObj fs =>
      nodup_str (map fst fs) &&
      (fix all (fs : list (string * jsval)) : bool :=
         match fs with [] => true | (_, x) :: t => nodupKeys x && all t end) fs
  | _ => true
  end.

(** The cell of a parent after [setUncompressedObjectProperty] stored [x]
    into it under the key [k], when an object parent has not received
    ["__proto__"] before (see [ProtoFreshAt]). *)
Definition attach (k : option string) (x : hval) (c : hcell) : hcell :=
  match c with
  | HArr xs => HArr (xs ++ [x])
  | HObj ps pr =>
      match k with
      | Some k =>
          if String.eqb k "" then HObj ps pr
          else if String.eqb k "__proto__" then HObj ps (setProtoOf x pr)
          else HObj (js_set k x ps) pr
      | None => HObj ps pr
      end
  end.

(** An object parent about to receive the key ["__proto__"] has no own
    property of that name and the prototype it was created with. *)
Definition ProtoFreshAt (h : list hcell) (p : option hval) (k : option string) : Prop :=
  match p, k with
  | Some (HRef l), Some k =>
      String.eqb k "__proto__" = true ->
      forall ps pr, nth_error h l = Some (HObj ps pr) ->
      str_mem "__proto__" (map fst ps) = false /\ pr = PDefault
  | _, _ => True
  end.

(** The state after [setUncompressedObjectProperty x p k]. *)
Definition placeState (p : option hval) (k : option string) (x : hval) (s : CJState) : CJState :=
  match p with
  | None => if typeofObject x then with_source x s else s
  | Some (HRef l) => with_heap (list_update l (attach k x) (heap s)) s
  | Some (HPrim _) => s
  end.

Definition refsL (xs : list hval) : list nat :=
  flat_map (fun v => match v with HRef r => [r] | HPrim _ => [] end) xs.

Definition refsOf (c : hcell) : list nat :=
  match c with HArr xs => refsL xs | HObj ps _ => refsL (map snd ps) end.

(** From cell [b] on, a cell refers only to later cells of the heap. *)
Definition OrdFrom (b : nat) (h : list hcell) : Prop :=
  forall m c r, b <= m -> nth_error h m = Some c -> In r (refsOf c) -> m < r < List.length h.

Definition parentCell (s : CJState) : option nat :=
  match fst (parentOf s) with Some (HRef l) => Some l | _ => None end.

(** [s'] keeps the context stack of [s] and the uncompressed object of its
    context. *)
Definition CtxKeep (s s' : CJState) : Prop :=
  contextStack s' = contextStack s /\
  match ctx s with
  | None => ctx s' = None
  | Some c => exists c', ctx s' = Some c' /\ currentUncompressedObject c' = currentUncompressedObject c
  end.

(** What [process j] does to the heap and the uncompressed source, from
    [s] to [s']: it stores a value [x] standing for the copy of [j] where
    [setUncompressedObjectProperty] puts it, touches no other old cell, and
    keeps the contexts. *)
Definition HeapPost (j : jsval) (s s' : CJState) : Prop :=
  exists x,
    List.length (heap s) <= List.length (heap s') /\
    (forall i, i < List.length (heap s) -> parentCell s <> Some i -> nth_error (heap s') i = nth_error (heap s) i) /\
    match fst (parentOf s) with
    | None => uncompressedSource s' = (if typeofObject x then x else uncompressedSource s)
    | Some (HRef l) =>
        nth_error (heap s') l = option_map (attach (snd (parentOf s)) x) (nth_error (heap s) l) /\
        uncompressedSource s' = uncompressedSource s
    | Some (HPrim _) => False
    end /\
    (forall f, depth j < f -> readH f (heap s') x = Some (copyOf j)) /\
    match x with
    | HRef m => List.length (heap s) <= m < List.length (heap s')
    | HPrim p => p = j
    end /\
    CtxKeep s s'.

Definition ParentIn (b : nat) (s : CJState) : Prop :=
  match fst (parentOf s) with Some (HRef l) => b <= l < List.length (heap s) | _ => True end.

Definition HeapOk (handleRefs : bool) (inferFormat : string -> option string) (j : jsval) : Prop :=
  nodupKeys j = true ->
  forall b s s', CtxOk s -> b <= List.length (heap s) -> OrdFrom b (heap s) -> ParentIn b s ->
    ProtoFreshAt (heap s) (fst (parentOf s)) (snd (parentOf s)) ->
    process handleRefs inferFormat j s = Done (tt, s') -> HeapPost j s s' /\ OrdFrom b (heap s').

End CompressedJSONCopy.

(* END OF DEFINITIONS *)

(** * Proofs about the element resolver *)

(** Two entries of one tag with the same prefix chain clash at every
    prefix index, so no pass of the loop succeeds. *)
Lemma resolveLoop_same_chain : forall fuel key a b pre i,
  resolveLoop fuel key [(a, pre); (b, pre)] i = None.
Proof.
  induction fuel as [|f IH]; intros key a b pre i; [reflexivity|].
  cbn [resolveLoop assignKeys existsb app fst].
  rewrite String.eqb_refl. simpl. apply IH.
Qed.

(** C2: the resolver does not terminate on the type graph of
    [{"x":[{"z":{"p":1}}],"xItem":{"z":{"q":"s"}}}]: the tag [z] is recorded
    with two distinct type references that carry the same prefix chain, so
    no prefix index separates them and [renderElements] exhausts any fuel. *)
Theorem renderElements_item_clash_diverges :
  exists s,
    itemClashLowered = Done s /\
    lookup_str "z" (typeRefsByElementName s) =
      Some [(4, ["xItem"; "RootXItem"]); (5, ["xItem"; "RootXItem"])] /\
    (forall fuel, renderElements fuel s = OutOfFuel).
Proof.
  eexists. split; [vm_compute; reflexivity|].
  split; [reflexivity|].
  intros fuel. unfold renderElements. cbn [typeRefsByElementName renderElementsFrom resolveElement].
  simpl. rewrite resolveLoop_same_chain. reflexivity.
Qed.

(** * The lowerer's invariant *)

Lemma uint_to_string_inj : forall d1 d2, uint_to_string d1 = uint_to_string d2 -> d1 = d2.
Proof.
  induction d1; destruct d2; simpl; intros H; try discriminate;
    try reflexivity; injection H as H; f_equal; auto.
Qed.

Lemma nat_to_string_inj : forall n m, nat_to_string n = nat_to_string m -> n = m.
Proof.
  unfold nat_to_string. intros n m H.
  apply DecimalNat.Unsigned.to_uint_inj, uint_to_string_inj, H.
Qed.

Lemma append_inj_l : forall p a b, (p ++ a)%string = (p ++ b)%string -> a = b.
Proof. induction p as [|c p IH]; simpl; intros a b H; [exact H|injection H; auto]. Qed.

Lemma allocatedNames_S : forall n,
  allocatedNames (S n) = (allocatedNames n ++ [String.append "complexType" (nat_to_string (S n))])%list.
Proof. intros n. unfold allocatedNames. rewrite seq_S, map_app. reflexivity. Qed.

Lemma in_allocatedNames : forall n x,
  In x (allocatedNames n) <-> exists i, i < n /\ x = ("complexType" ++ nat_to_string (S i))%string.
Proof.
  intros n x. unfold allocatedNames. rewrite in_map_iff. split.
  - intros [i [Hx Hi]]. apply in_seq in Hi. exists i. split; [lia|auto].
  - intros [i [Hi Hx]]. exists i. split; [auto|apply in_seq; lia].
Qed.

Lemma allocatedNames_NoDup : forall n, NoDup (allocatedNames n).
Proof.
  intros n. unfold allocatedNames. apply NoDup_map_NoDup_ForallPairs; [|apply seq_NoDup].
  intros a b _ _ H. apply append_inj_l, nat_to_string_inj in H. lia.
Qed.

Lemma newTypeName_fresh : forall s, LowerInv s -> ~ In (newTypeName s) (typeNames s).
Proof.
  intros s [_ [Hn _]] Hin. rewrite Hn in Hin. apply in_allocatedNames in Hin.
  destruct Hin as [i [Hi Heq]]. unfold newTypeName in Heq.
  apply append_inj_l, nat_to_string_inj in Heq. lia.
Qed.

Lemma lookup_str_set_str : forall {A} (l : list (string * A)) k v z,
  lookup_str z (set_str k v l) = if String.eqb z k then Some v else lookup_str z l.
Proof.
  induction l as [|[k' v'] t IH]; intros k v z; simpl.
  - reflexivity.
  - destruct (String.eqb k k') eqn:E1; simpl.
    + apply String.eqb_eq in E1; subst k'.
      destruct (String.eqb z k); reflexivity.
    + destruct (String.eqb z k') eqn:E2.
      * apply String.eqb_eq in E2; subst z.
        rewrite String.eqb_sym, E1. reflexivity.
      * apply IH.
Qed.

Lemma lookup_nat_none_notin : forall {A} (l : list (nat * A)) r,
  lookup_nat r l = None -> ~ In r (List.map fst l).
Proof.
  induction l as [|[k v] t IH]; simpl; intros r H; [auto|].
  destruct (Nat.eqb r k) eqn:E; [discriminate|].
  apply Nat.eqb_neq in E. intros [Hk|Hin]; [congruence|eapply IH; eauto].
Qed.

Lemma lookup_nat_app_some : forall {A} (l ext : list (nat * A)) r x,
  lookup_nat r l = Some x -> lookup_nat r (l ++ ext)%list = Some x.
Proof.
  induction l as [|[k v] t IH]; simpl; intros ext r x H; [discriminate|].
  destruct (Nat.eqb r k); auto.
Qed.

Lemma lookup_nat_app_none : forall {A} (l ext : list (nat * A)) r,
  lookup_nat r l = None -> lookup_nat r (l ++ ext)%list = lookup_nat r ext.
Proof.
  induction l as [|[k v] t IH]; simpl; intros ext r H; [reflexivity|].
  destruct (Nat.eqb r k); [discriminate|auto].
Qed.

(** ** The state operations *)

Lemma bodyOf_emitElement : forall sch a s y,
  bodyOf (emitElement sch a s) y =
  if (match sch with DefSchema z => String.eqb y z | RootSchema => false end)
  then (bodyOf s y ++ [C_element (wrapAttrs a)])%list else bodyOf s y.
Proof.
  intros [|z] a s y; [reflexivity|].
  unfold bodyOf at 1. simpl. rewrite lookup_str_set_str.
  destruct (String.eqb y z) eqn:E; [|reflexivity].
  apply String.eqb_eq in E. subst. reflexivity.
Qed.

Lemma bodyOf_emitElement_other : forall sch a s y,
  sch <> DefSchema y -> bodyOf (emitElement sch a s) y = bodyOf s y.
Proof.
  intros sch a s y H. rewrite bodyOf_emitElement. destruct sch as [|z]; [reflexivity|].
  destruct (String.eqb y z) eqn:E; [|reflexivity].
  apply String.eqb_eq in E. subst. congruence.
Qed.

Lemma bodyOf_emitElement_same : forall a s y,
  bodyOf (emitElement (DefSchema y) a s) y = (bodyOf s y ++ [C_element (wrapAttrs a)])%list.
Proof. intros a s y. rewrite bodyOf_emitElement, String.eqb_refl. reflexivity. Qed.

Lemma LowerInv_emitElement : forall sch a s,
  LowerInv s -> HandleOk s sch -> LowerInv (emitElement sch a s).
Proof.
  intros [|z] a s [H1 [H2 H3]] Hh; [split; [|split]; assumption|].
  split; [|split]; [exact H1|exact H2|].
  intros y Hy. simpl in Hy. rewrite lookup_str_set_str in Hy.
  destruct (String.eqb y z) eqn:E.
  - apply String.eqb_eq in E. subst. exact Hh.
  - apply H3, Hy.
Qed.

Lemma recordElement_same : forall r pre key ce pt s,
  processedCustomTypes (recordElement r pre key ce pt s) = processedCustomTypes s /\
  defBodies (recordElement r pre key ce pt s) = defBodies s /\
  rootNodes (recordElement r pre key ce pt s) = rootNodes s.
Proof. intros. unfold recordElement. destruct (_ && _); repeat split. Qed.

Lemma LowerInv_recordElement : forall r pre key ce pt s,
  LowerInv s -> LowerInv (recordElement r pre key ce pt s).
Proof.
  intros r pre key ce pt s H. destruct (recordElement_same r pre key ce pt s) as [E1 [E2 _]].
  unfold LowerInv, typeNames in *. rewrite E1, E2. exact H.
Qed.

(** The prologue changes nothing but the element record and the one
    referencing element it emits into [sch]. *)
Lemma customPrologue_spec : forall r pre sch key attrs ce s,
  LowerInv s -> HandleOk s sch ->
  let s1 := customPrologue r pre sch key attrs ce s in
  processedCustomTypes s1 = processedCustomTypes s /\ LowerInv s1 /\
  (exists more, rootNodes s1 = (rootNodes s ++ more)%list) /\
  (forall y, sch <> DefSchema y -> bodyOf s1 y = bodyOf s y) /\
  (forall y, sch = DefSchema y ->
     bodyOf s1 y = (bodyOf s y ++ [C_element (wrapAttrs (attrs ++
        [("name", key); ("type", default (newTypeName s) (lookup_nat r (processedCustomTypes s)))]))])%list).
Proof.
  intros r pre sch key attrs ce s Hinv Hh s1.
  destruct (recordElement_same r pre key ce (lookup_nat r (processedCustomTypes s)) s) as [E1 [E2 E3]].
  assert (Hb : forall y, bodyOf (recordElement r pre key ce (lookup_nat r (processedCustomTypes s)) s) y = bodyOf s y)
    by (intros y; unfold bodyOf; rewrite E2; reflexivity).
  assert (Hi := LowerInv_recordElement r pre key ce (lookup_nat r (processedCustomTypes s)) s Hinv).
  unfold s1, customPrologue. destruct sch as [|z].
  - split; [exact E1|split; [exact Hi|split; [exists []; rewrite app_nil_r; exact E3|split]]].
    + intros y _. apply Hb.
    + intros y H; discriminate.
  - split; [destruct (recordElement _ _ _ _ _ _); exact E1|split; [|split; [|split]]].
    + apply LowerInv_emitElement; [exact Hi|]. simpl in *. unfold typeNames in *. rewrite E1. exact Hh.
    + simpl. rewrite E3. exists []. rewrite app_nil_r. reflexivity.
    + intros y Hy. rewrite bodyOf_emitElement_other by exact Hy. apply Hb.
    + intros y Hy. injection Hy as <-. rewrite bodyOf_emitElement_same, Hb. reflexivity.
Qed.

(** Allocating [newType] for an unprocessed reference keeps the invariant. *)
Lemma allocate_spec : forall sort r s,
  LowerInv s -> lookup_nat r (processedCustomTypes s) = None ->
  let s2 := emitDef sort (newTypeName s) (setProcessed r (newTypeName s) s) in
  processedCustomTypes s2 = (processedCustomTypes s ++ [(r, newTypeName s)])%list /\
  defBodies s2 = defBodies s /\ LowerInv s2 /\ In (newTypeName s) (typeNames s2).
Proof.
  intros sort r s [H1 [H2 H3]] Hl s2. simpl.
  assert (Hn : typeNames s2 = (typeNames s ++ [newTypeName s])%list)
    by (unfold typeNames; simpl; rewrite map_app; reflexivity).
  split; [reflexivity|split; [reflexivity|split]].
  - split; [|split].
    + simpl. rewrite map_app. apply NoDup_app; [exact H1|constructor; [auto|constructor]|].
      intros x Hx Hx'. simpl in Hx'. destruct Hx' as [<-|[]].
      apply (lookup_nat_none_notin _ _ Hl), Hx.
    + rewrite Hn, H2. simpl. rewrite length_app, Nat.add_comm. simpl.
      rewrite allocatedNames_S. reflexivity.
    + intros y Hy. rewrite Hn. apply in_or_app. left. apply H3, Hy.
  - rewrite Hn. apply in_or_app. right. left. reflexivity.
Qed.

Lemma typeNames_ext : forall s s' ext,
  processedCustomTypes s' = (processedCustomTypes s ++ ext)%list ->
  forall y, In y (typeNames s) -> In y (typeNames s').
Proof.
  intros s s' ext E y Hy. unfold typeNames in *. rewrite E, map_app. apply in_or_app. left. exact Hy.
Qed.

Lemma renderUnionMembers_spec : forall G nm ms s s',
  renderUnionMembers G nm ms s = Done s' ->
  processedCustomTypes s' = processedCustomTypes s /\
  (forall y, y <> nm -> bodyOf s' y = bodyOf s y) /\
  (LowerInv s -> In nm (typeNames s) -> LowerInv s') /\
  rootNodes s' = rootNodes s.
Proof.
  intros G nm ms. induction ms as [|m ms IH]; intros s s' H; simpl in H.
  - injection H as <-. split; [reflexivity|split; [|split]; auto].
  - destruct (tyKind (G m)); try discriminate.
    destruct (mapPrimitiveKindToXSDTypes p) as [x|]; [|discriminate].
    destruct (IH _ _ H) as [E1 [E2 [E3 E4]]]. simpl in E1, E4.
    split; [exact E1|split; [|split; [|exact E4]]].
    + intros y Hy. rewrite E2 by exact Hy. unfold bodyOf at 1. simpl.
      rewrite lookup_str_set_str. apply String.eqb_neq in Hy. rewrite Hy. reflexivity.
    + intros [I1 [I2 I3]] Hin. apply E3; [|exact Hin].
      split; [exact I1|split; [exact I2|]].
      intros y Hy. simpl in Hy. rewrite lookup_str_set_str in Hy.
      destruct (String.eqb y nm) eqn:E.
      * apply String.eqb_eq in E. subst. exact Hin.
      * apply I3, Hy.
Qed.

Lemma renderPrimitive_spec : forall p sch key attrs s s',
  renderPrimitive p sch key attrs s = Done s' ->
  (lowersToElement (T_prim p) = false /\ s' = s) \/
  (lowersToElement (T_prim p) = true /\
   exists T, s' = emitElement sch (attrs ++ [("name", key); ("type", T)])%list s).
Proof.
  intros p sch key attrs s s' H.
  destruct p; simpl in H; try (injection H as <-); try discriminate;
    first [left; split; reflexivity | right; split; [reflexivity|eexists; reflexivity]].
Qed.

Lemma emitElement_processed : forall sch a s,
  processedCustomTypes (emitElement sch a s) = processedCustomTypes s.
Proof. intros [|z] a s; reflexivity. Qed.

Lemma custom_lowers : forall t, isCustom t = true -> lowersToElement t = true.
Proof. intros [p| | | | | |] H; try reflexivity; discriminate. Qed.

Lemma prologue_allocate_spec : forall sort r pre sch key attrs ce s,
  LowerInv s -> HandleOk s sch -> lookup_nat r (processedCustomTypes s) = None ->
  let s1 := customPrologue r pre sch key attrs ce s in
  let s2 := emitDef sort (newTypeName s) (setProcessed r (newTypeName s) s1) in
  LowerInv s2 /\ In (newTypeName s) (typeNames s2) /\
  processedCustomTypes s2 = (processedCustomTypes s ++ [(r, newTypeName s)])%list.
Proof.
  intros sort r pre sch key attrs ce s Hinv Hh Hl s1 s2.
  destruct (customPrologue_spec r pre sch key attrs ce s Hinv Hh) as [P1 [P2 _]].
  fold s1 in P1, P2.
  assert (Hnt : newTypeName s1 = newTypeName s) by (unfold newTypeName; rewrite P1; reflexivity).
  rewrite <- P1 in Hl.
  destruct (allocate_spec sort r s1 P2 Hl) as [A1 [_ [A3 A4]]].
  rewrite Hnt in A1, A3, A4. unfold s2.
  split; [exact A3|split; [exact A4|rewrite A1, P1; reflexivity]].
Qed.

(** The common end of [renderArray], [renderClass] and [renderUnion] on a
    first visit: the new definition is the only body the descent may touch
    besides those it allocates. *)
Lemma custom_post : forall G r sch pre key attrs ce s s' sort,
  LowerInv s -> HandleOk s sch -> isCustom (G r) = true ->
  lookup_nat r (processedCustomTypes s) = None ->
  let s1 := customPrologue r pre sch key attrs ce s in
  let s2 := emitDef sort (newTypeName s) (setProcessed r (newTypeName s) s1) in
  LowerInv s' ->
  (exists ext, processedCustomTypes s' = (processedCustomTypes s2 ++ ext)%list) ->
  (forall y, In y (typeNames s2) -> y <> newTypeName s -> bodyOf s' y = bodyOf s2 y) ->
  (exists more, rootNodes s' = (rootNodes s2 ++ more)%list) ->
  RenderPost G r sch key attrs s s'.
Proof.
  intros G r sch pre key attrs ce s s' sort Hinv Hh Hc Hl s1 s2 I' [ext X'] F' [more R'].
  destruct (customPrologue_spec r pre sch key attrs ce s Hinv Hh) as [P1 [P2 [[m1 P5] [P3 P4]]]].
  fold s1 in P1, P2, P3, P4, P5.
  destruct (prologue_allocate_spec sort r pre sch key attrs ce s Hinv Hh Hl) as [A1 [A2 A3]].
  fold s1 s2 in A1, A2, A3.
  assert (Hb : forall y, bodyOf s2 y = bodyOf s1 y) by (intros y; reflexivity).
  assert (Hfresh := newTypeName_fresh s Hinv).
  assert (Hsub : forall y, In y (typeNames s) -> In y (typeNames s2))
    by (intros y; apply typeNames_ext with (ext := [(r, newTypeName s)]); exact A3).
  assert (Hne : forall y, In y (typeNames s) -> y <> newTypeName s)
    by (intros y Hy E; subst; contradiction).
  split; [exact I'|split; [|split; [|split; [|split]]]].
  - exists ((r, newTypeName s) :: ext). rewrite X', A3, <- app_assoc. reflexivity.
  - intros _. rewrite X', A3, <- app_assoc, lookup_nat_app_none by exact Hl.
    simpl. rewrite Nat.eqb_refl. discriminate.
  - intros y Hy Hsch. rewrite F' by auto. rewrite Hb. apply P3, Hsch.
  - intros y Hsch. rewrite (custom_lowers _ Hc). subst sch.
    exists (newTypeName s). simpl in Hh.
    rewrite F' by auto. rewrite Hb, P4 by reflexivity. rewrite Hl. reflexivity.
  - exists ((m1 ++ [N_def sort (newTypeName s)]) ++ more)%list.
    rewrite R'. unfold s2. simpl. rewrite P5, !app_assoc. reflexivity.
Qed.

(** On a hit of the processed map the call is its prologue. *)
Lemma hit_post : forall G r sch pre key attrs ce s nm,
  LowerInv s -> HandleOk s sch -> isCustom (G r) = true ->
  lookup_nat r (processedCustomTypes s) = Some nm ->
  RenderPost G r sch key attrs s (customPrologue r pre sch key attrs ce s).
Proof.
  intros G r sch pre key attrs ce s nm Hinv Hh Hc Hl.
  destruct (customPrologue_spec r pre sch key attrs ce s Hinv Hh) as [P1 [P2 [P5 [P3 P4]]]].
  split; [exact P2|split; [|split; [|split; [|split]]]].
  - exists []. rewrite app_nil_r. exact P1.
  - intros _. rewrite P1, Hl. discriminate.
  - intros y _ Hsch. apply P3, Hsch.
  - intros y Hsch. rewrite (custom_lowers _ Hc). exists nm. rewrite P4 by exact Hsch. rewrite Hl. reflexivity.
  - exact P5.
Qed.

Lemma renderClassProps_spec : forall G rt newT pre, RenderSpec G rt ->
  forall ps st st', LowerInv st -> In newT (typeNames st) ->
  renderClassProps rt newT pre ps st = Done st' ->
  LowerInv st' /\
  (exists ext, processedCustomTypes st' = (processedCustomTypes st ++ ext)%list) /\
  (forall y, In y (typeNames st) -> y <> newT -> bodyOf st' y = bodyOf st y) /\
  (exists cs, bodyOf st' newT = (bodyOf st newT ++ cs)%list /\
     Forall2 (fun p c => exists T, c = propElement (fst p) (snd p) T)
       (filter (fun p => lowersToElement (G (cp_type (snd p)))) ps) cs) /\
  (exists more, rootNodes st' = (rootNodes st ++ more)%list).
Proof.
  intros G rt newT pre Hrt. induction ps as [|[k cp] ps IH]; intros st st' Hinv Hin H; simpl in H.
  - injection H as <-. split; [exact Hinv|split; [exists []; rewrite app_nil_r; reflexivity|split; [|split]]].
    + reflexivity.
    + exists []. split; [rewrite app_nil_r; reflexivity|constructor].
    + exists []. rewrite app_nil_r. reflexivity.
  - destruct (rt (cp_type cp) (DefSchema newT) pre k (classPropAttrs cp) true st) as [st1| |] eqn:E;
      simpl in H; try discriminate.
    destruct (Hrt (cp_type cp) (DefSchema newT) pre k (classPropAttrs cp) true st st1 Hinv Hin E)
      as [I1 [[ext1 X1] [_ [F1 [D1 [m1 R1]]]]]].
    assert (Hin1 : In newT (typeNames st1)) by (eapply typeNames_ext; eauto).
    destruct (IH _ _ I1 Hin1 H) as [I2 [[ext2 X2] [F2 [[cs [B2 C2]] [m2 R2]]]]].
    split; [exact I2|split; [|split; [|split]]].
    + exists (ext1 ++ ext2)%list. rewrite X2, X1, app_assoc. reflexivity.
    + intros y Hy Hne. rewrite F2 by (eauto using typeNames_ext). apply F1; [exact Hy|congruence].
    + specialize (D1 newT eq_refl). simpl. destruct (lowersToElement (G (cp_type cp))).
      * destruct D1 as [T HT]. exists (propElement k cp T :: cs).
        rewrite B2, HT, <- app_assoc. split; [reflexivity|].
        constructor; [exists T; reflexivity|exact C2].
      * exists cs. rewrite B2, D1. split; [reflexivity|exact C2].
    + exists (m1 ++ m2)%list. rewrite R2, R1, app_assoc. reflexivity.
Qed.

(** Every [renderTypes] call that succeeds satisfies [RenderPost]. *)
Lemma renderTypes_spec : forall G fuel, RenderSpec G (renderTypes G fuel).
Proof.
  intros G fuel. induction fuel as [|f IH]; intros r sch pre key attrs ce s s' Hinv Hh H;
    [discriminate|].
  cbn [renderTypes] in H.
  destruct (G r) as [p|items|props|v| |cs|ms] eqn:HG.
  - destruct (renderPrimitive_spec p sch key attrs s s' H) as [[Hl ->]|[Hl [T ->]]].
    + split; [exact Hinv|split; [exists []; symmetry; apply app_nil_r|split; [|split; [|split]]]].
      * rewrite HG. discriminate.
      * reflexivity.
      * intros y _. rewrite HG, Hl. reflexivity.
      * exists []. symmetry. apply app_nil_r.
    + split; [apply LowerInv_emitElement; assumption|split; [|split; [|split; [|split]]]].
      * exists []. rewrite app_nil_r. apply emitElement_processed.
      * rewrite HG. discriminate.
      * intros y _ Hsch. apply bodyOf_emitElement_other, Hsch.
      * intros y Hsch. rewrite HG, Hl. subst sch. exists T. apply bodyOf_emitElement_same.
      * destruct sch; simpl; [eexists; reflexivity|exists []; symmetry; apply app_nil_r].
  - destruct (lookup_nat r (processedCustomTypes s)) as [nm|] eqn:Hl.
    + injection H as <-. apply (hit_post G r sch pre key attrs ce s nm); auto. rewrite HG. reflexivity.
    + destruct (prologue_allocate_spec Sort_sequence r pre sch key attrs ce s Hinv Hh Hl) as [A1 [A2 A3]].
      apply IH in H; [|exact A1|exact A2]. destruct H as [I' [[ext X'] [_ [F' [_ R']]]]].
      apply (custom_post G r sch pre key attrs ce s s' Sort_sequence); auto.
      * rewrite HG. reflexivity.
      * exists ext. exact X'.
      * intros y Hy Hne. apply F'; [exact Hy|congruence].
  - destruct (lookup_nat r (processedCustomTypes s)) as [nm|] eqn:Hl.
    + injection H as <-. apply (hit_post G r sch pre key attrs ce s nm); auto. rewrite HG. reflexivity.
    + destruct (prologue_allocate_spec Sort_all r pre sch key attrs ce s Hinv Hh Hl) as [A1 [A2 A3]].
      destruct (renderClassProps_spec G (renderTypes G f) (newTypeName s) (classPrefixes pre key) IH
                  props _ _ A1 A2 H) as [I' [[ext X'] [F' [_ R']]]].
      apply (custom_post G r sch pre key attrs ce s s' Sort_all); auto.
      * rewrite HG. reflexivity.
      * exists ext. exact X'.
  - injection H as <-.
    split; [exact Hinv|split; [exists []; symmetry; apply app_nil_r|split; [|split; [|split]]]];
      [rewrite HG; discriminate|reflexivity|intros y _; rewrite HG; reflexivity
      |exists []; symmetry; apply app_nil_r].
  - injection H as <-.
    split; [exact Hinv|split; [exists []; symmetry; apply app_nil_r|split; [|split; [|split]]]];
      [rewrite HG; discriminate|reflexivity|intros y _; rewrite HG; reflexivity
      |exists []; symmetry; apply app_nil_r].
  - injection H as <-.
    split; [exact Hinv|split; [exists []; symmetry; apply app_nil_r|split; [|split; [|split]]]];
      [rewrite HG; discriminate|reflexivity|intros y _; rewrite HG; reflexivity
      |exists []; symmetry; apply app_nil_r].
  - destruct (lookup_nat r (processedCustomTypes s)) as [nm|] eqn:Hl.
    + injection H as <-. apply (hit_post G r sch pre key attrs ce s nm); auto. rewrite HG. reflexivity.
    + destruct (prologue_allocate_spec Sort_union r pre sch key attrs ce s Hinv Hh Hl) as [A1 [A2 A3]].
      destruct (renderUnionMembers_spec G _ _ _ _ H) as [U1 [U2 [U3 U4]]].
      apply (custom_post G r sch pre key attrs ce s s' Sort_union); auto.
      * rewrite HG. reflexivity.
      * exists []. rewrite app_nil_r. exact U1.
      * exists []. rewrite app_nil_r. exact U4.
Qed.

(** ** Names of the complex types *)

Lemma lookup_nat_in : forall {A} (l : list (nat * A)) r x,
  lookup_nat r l = Some x -> In (r, x) l.
Proof.
  induction l as [|[k v] t IH]; simpl; intros r x H; [discriminate|].
  destruct (Nat.eqb r k) eqn:E.
  - apply Nat.eqb_eq in E. injection H as <-. subst. left. reflexivity.
  - right. apply IH, H.
Qed.

Lemma NoDup_snd_inj : forall {A B} (l : list (A * B)) a b c,
  NoDup (List.map snd l) -> In (a, b) l -> In (c, b) l -> a = c.
Proof.
  induction l as [|[x y] t IH]; simpl; intros a b c Hn Ha Hc; [contradiction|].
  apply NoDup_cons_iff in Hn. destruct Hn as [Hy Hn].
  destruct Ha as [Ea|Ha]; destruct Hc as [Ec|Hc].
  - congruence.
  - injection Ea as -> ->. exfalso. apply Hy. apply (in_map snd) in Hc. exact Hc.
  - injection Ec as -> ->. exfalso. apply Hy. apply (in_map snd) in Ha. exact Ha.
  - eapply IH; eauto.
Qed.

Lemma LowerInv_initialState : LowerInv initialState.
Proof. split; [constructor|split; [reflexivity|intros y H; simpl in H; congruence]]. Qed.

(** C3: every reference of kind class, array or primitive union that
    [renderTypes] visits receives exactly one name [complexType<i>], the
    names are [complexType1], [complexType2], ... in the order the
    references are first visited, an entry of the processed map is never
    rewritten, and distinct references receive distinct names. *)
Theorem renderTypes_type_names : forall G fuel r sch pre key attrs ce s s',
  LowerInv s -> HandleOk s sch ->
  renderTypes G fuel r sch pre key attrs ce s = Done s' ->
  (forall k nm, lookup_nat k (processedCustomTypes s) = Some nm ->
     lookup_nat k (processedCustomTypes s') = Some nm) /\
  NoDup (List.map fst (processedCustomTypes s')) /\
  typeNames s' = allocatedNames (List.length (processedCustomTypes s')) /\
  (isCustom (G r) = true -> exists i, i < List.length (processedCustomTypes s') /\
     lookup_nat r (processedCustomTypes s') = Some ("complexType" ++ nat_to_string (S i))%string) /\
  (forall r1 r2 n1 n2, lookup_nat r1 (processedCustomTypes s') = Some n1 ->
     lookup_nat r2 (processedCustomTypes s') = Some n2 -> r1 <> r2 -> n1 <> n2).
Proof.
  intros G fuel r sch pre key attrs ce s s' Hinv Hh H.
  destruct (renderTypes_spec G fuel r sch pre key attrs ce s s' Hinv Hh H)
    as [[N1 [N2 N3]] [[ext X] [Hc _]]].
  split; [|split; [exact N1|split; [exact N2|split]]].
  - intros k nm Hk. rewrite X. apply lookup_nat_app_some, Hk.
  - intros Hcu. specialize (Hc Hcu).
    destruct (lookup_nat r (processedCustomTypes s')) as [nm|] eqn:E; [|congruence].
    apply lookup_nat_in in E.
    assert (Hn : In nm (typeNames s')) by (apply (in_map snd) in E; exact E).
    rewrite N2 in Hn. apply in_allocatedNames in Hn. destruct Hn as [i [Hi ->]].
    exists i. split; [exact Hi|reflexivity].
  - intros r1 r2 n1 n2 E1 E2 Hne Heq. subst n2.
    apply lookup_nat_in in E1, E2. apply Hne.
    apply (NoDup_snd_inj (processedCustomTypes s') r1 n1 r2); [|exact E1|exact E2].
    unfold typeNames in N2. rewrite N2. apply allocatedNames_NoDup.
Qed.

(** Lowering the cyclic [Node] graph from the initial schema. *)
Lemma renderTypes_type_names_witness :
  (forall k nm, lookup_nat k (processedCustomTypes initialState) = Some nm ->
     lookup_nat k (processedCustomTypes cyclicLowered) = Some nm) /\
  NoDup (List.map fst (processedCustomTypes cyclicLowered)) /\
  typeNames cyclicLowered = allocatedNames (List.length (processedCustomTypes cyclicLowered)) /\
  (isCustom (cyclicGraph 0) = true -> exists i, i < List.length (processedCustomTypes cyclicLowered) /\
     lookup_nat 0 (processedCustomTypes cyclicLowered) = Some ("complexType" ++ nat_to_string (S i))%string) /\
  (forall r1 r2 n1 n2, lookup_nat r1 (processedCustomTypes cyclicLowered) = Some n1 ->
     lookup_nat r2 (processedCustomTypes cyclicLowered) = Some n2 -> r1 <> r2 -> n1 <> n2).
Proof.
  apply (renderTypes_type_names cyclicGraph 4 0 RootSchema [] "Node" [] true initialState cyclicLowered).
  - split; [constructor|split; [reflexivity|intros y H; simpl in H; congruence]].
  - simpl. exact I.
  - vm_compute. reflexivity.
Defined.

(** ** Termination of the lowering *)

Lemma closedGraphb_spec : forall G N, closedGraphb G N = true -> closedGraph G N.
Proof.
  intros G N H r Hr. unfold closedGraphb in H. rewrite forallb_forall in H.
  specialize (H r (proj2 (in_seq N 0 r) (conj (Nat.le_0_l r) Hr))).
  rewrite forallb_forall in H. apply Forall_forall. intros c Hc.
  apply Nat.ltb_lt, H, Hc.
Qed.

Lemma unprocessedBelow_ext : forall N s s' ext,
  processedCustomTypes s' = (processedCustomTypes s ++ ext)%list ->
  unprocessedBelow N s' <= unprocessedBelow N s.
Proof.
  intros N s s' ext E. unfold unprocessedBelow. rewrite E, map_app, filter_app, length_app.
  apply Nat.sub_le_mono_l, Nat.le_add_r.
Qed.

Lemma unprocessedBelow_alloc : forall N s s' r nm,
  LowerInv s -> r < N -> lookup_nat r (processedCustomTypes s) = None ->
  processedCustomTypes s' = (processedCustomTypes s ++ [(r, nm)])%list ->
  S (unprocessedBelow N s') = unprocessedBelow N s.
Proof.
  intros N s s' r nm [Hnd _] Hr Hl E. unfold unprocessedBelow.
  rewrite E, map_app, filter_app, length_app. simpl. unfold TypeRef in *.
  assert (Hlt : Nat.ltb r N = true) by (apply Nat.ltb_lt, Hr). rewrite Hlt. simpl.
  set (ks := filter (fun k => Nat.ltb k N) (List.map fst (processedCustomTypes s))).
  assert (Hnd' : NoDup (r :: ks)).
  { constructor.
    - intros Hin. apply filter_In in Hin. apply (lookup_nat_none_notin _ _ Hl), Hin.
    - apply NoDup_filter, Hnd. }
  assert (Hinc : incl (r :: ks) (seq 0 N)).
  { intros x [<-|Hx]; apply in_seq.
    - lia.
    - apply filter_In in Hx. destruct Hx as [_ Hx]. apply Nat.ltb_lt in Hx. lia. }
  pose proof (NoDup_incl_length Hnd' Hinc) as Hlen. rewrite length_seq in Hlen. simpl in Hlen.
  replace (List.length (filter _ (List.map fst (processedCustomTypes s)))) with (List.length ks)
    by reflexivity.
  lia.
Qed.

Lemma renderPrimitive_not_out : forall p sch key attrs s,
  renderPrimitive p sch key attrs s <> OutOfFuel.
Proof. intros p sch key attrs s. destruct p; simpl; discriminate. Qed.

Lemma renderUnionMembers_not_out : forall G nm ms s,
  renderUnionMembers G nm ms s <> OutOfFuel.
Proof.
  intros G nm ms. induction ms as [|m ms IH]; intros s; simpl; [discriminate|].
  destruct (tyKind (G m)); try discriminate.
  destruct (mapPrimitiveKindToXSDTypes p); [apply IH|discriminate].
Qed.

Lemma renderClassProps_not_out : forall G rt newT pre N k, RenderSpec G rt ->
  (forall r sch pre key attrs ce s, r < N -> LowerInv s -> HandleOk s sch ->
     unprocessedBelow N s < k -> rt r sch pre key attrs ce s <> OutOfFuel) ->
  forall ps st, Forall (fun p => cp_type (snd p) < N) ps -> LowerInv st ->
  In newT (typeNames st) -> unprocessedBelow N st < k ->
  renderClassProps rt newT pre ps st <> OutOfFuel.
Proof.
  intros G rt newT pre N k Hrt Hk. induction ps as [|[key cp] ps IH];
    intros st Hps Hinv Hin Hu; simpl; [discriminate|].
  inversion Hps as [|? ? Hp Hps']; subst. simpl in Hp.
  destruct (rt (cp_type cp) (DefSchema newT) pre key (classPropAttrs cp) true st) as [st1| |] eqn:E;
    simpl.
  - destruct (Hrt (cp_type cp) (DefSchema newT) pre key (classPropAttrs cp) true st st1 Hinv Hin E)
      as [I1 [[ext X] _]].
    apply IH; [exact Hps'|exact I1|eapply typeNames_ext; eauto|].
    pose proof (unprocessedBelow_ext N st st1 ext X). lia.
  - discriminate.
  - exfalso. apply (Hk (cp_type cp) (DefSchema newT) pre key (classPropAttrs cp) true st Hp Hinv Hin Hu E).
Qed.

Lemma renderTypes_not_out : forall G N, closedGraph G N ->
  forall fuel r sch pre key attrs ce s, r < N -> LowerInv s -> HandleOk s sch ->
  unprocessedBelow N s < fuel -> renderTypes G fuel r sch pre key attrs ce s <> OutOfFuel.
Proof.
  intros G N Hcl fuel. induction fuel as [|f IH]; intros r sch pre key attrs ce s Hr Hinv Hh Hu;
    [lia|].
  cbn [renderTypes]. pose proof (Hcl r Hr) as Hch.
  destruct (G r) as [p|items|props|v| |cs|ms] eqn:HG; simpl in Hch.
  - apply renderPrimitive_not_out.
  - destruct (lookup_nat r (processedCustomTypes s)) as [nm|] eqn:Hl; [discriminate|].
    destruct (prologue_allocate_spec Sort_sequence r pre sch key attrs ce s Hinv Hh Hl) as [A1 [A2 A3]].
    apply IH; [inversion Hch; assumption|exact A1|exact A2|].
    pose proof (unprocessedBelow_alloc N s _ r _ Hinv Hr Hl A3). lia.
  - destruct (lookup_nat r (processedCustomTypes s)) as [nm|] eqn:Hl; [discriminate|].
    destruct (prologue_allocate_spec Sort_all r pre sch key attrs ce s Hinv Hh Hl) as [A1 [A2 A3]].
    apply (renderClassProps_not_out G (renderTypes G f) _ _ N f (renderTypes_spec G f) IH);
      [apply Forall_map in Hch; exact Hch|exact A1|exact A2|].
    pose proof (unprocessedBelow_alloc N s _ r _ Hinv Hr Hl A3). lia.
  - discriminate.
  - discriminate.
  - discriminate.
  - destruct (lookup_nat r (processedCustomTypes s)); [discriminate|].
    apply renderUnionMembers_not_out.
Qed.

(** C4: on a finite type graph closed under its edges, cyclic or not,
    lowering from the initial schema with one unit of fuel more than there
    are references never runs out of fuel, nor does any call from a state
    satisfying the invariant with more fuel than unprocessed references;
    and on a hit of the processed map the call adds nothing but the
    referencing [<element>] typed with the existing name, without
    descending into the type. *)
Theorem renderTypes_terminates : forall G N, closedGraphb G N = true ->
  (forall top topName, top < N -> lowerTopLevel G (S N) top topName <> OutOfFuel) /\
  (forall fuel r sch pre key attrs ce s, r < N -> LowerInv s -> HandleOk s sch ->
     unprocessedBelow N s < fuel -> renderTypes G fuel r sch pre key attrs ce s <> OutOfFuel) /\
  (forall f r sch pre key attrs ce s nm, isCustom (G r) = true ->
     lookup_nat r (processedCustomTypes s) = Some nm ->
     exists s', renderTypes G (S f) r sch pre key attrs ce s = Done s' /\
       processedCustomTypes s' = processedCustomTypes s /\ rootNodes s' = rootNodes s /\
       (forall y, sch <> DefSchema y -> bodyOf s' y = bodyOf s y) /\
       (forall y, sch = DefSchema y -> bodyOf s' y =
          (bodyOf s y ++ [C_element (wrapAttrs (attrs ++ [("name", key); ("type", nm)]))])%list)).
Proof.
  intros G N Hb. apply closedGraphb_spec in Hb.
  split; [|split].
  - intros top topName Htop. unfold lowerTopLevel.
    apply (renderTypes_not_out G N Hb); [exact Htop|apply LowerInv_initialState|exact I|].
    unfold unprocessedBelow. simpl. lia.
  - apply (renderTypes_not_out G N Hb).
  - intros f r sch pre key attrs ce s nm Hc Hl.
    destruct (recordElement_same r pre key ce (Some nm) s) as [E1 [E2 E3]].
    assert (Hb' : forall y, bodyOf (recordElement r pre key ce (Some nm) s) y = bodyOf s y)
      by (intros y; unfold bodyOf; rewrite E2; reflexivity).
    exists (customPrologue r pre sch key attrs ce s). split.
    + cbn [renderTypes]. destruct (G r); try discriminate; rewrite Hl; reflexivity.
    + unfold customPrologue. rewrite Hl. destruct sch as [|z]; cbv zeta.
      * split; [exact E1|split; [exact E3|split]].
        -- intros y _. apply Hb'.
        -- intros y H; discriminate.
      * split; [exact E1|split; [exact E3|split]].
        -- intros y Hy. rewrite bodyOf_emitElement_other by exact Hy. apply Hb'.
        -- intros y Hy. injection Hy as <-. rewrite bodyOf_emitElement_same, Hb'. reflexivity.
Qed.

(** The cyclic [Node] graph, once from the initial schema, once hitting
    [Node] again at the [next] property of [complexType1]. *)
Lemma renderTypes_terminates_witness :
  closedGraphb cyclicGraph 3 = true /\
  lowerTopLevel cyclicGraph 4 0 "Node" <> OutOfFuel /\
  renderTypes cyclicGraph 4 1 RootSchema [] "items" [] true initialState <> OutOfFuel /\
  exists s', renderTypes cyclicGraph 1 0 (DefSchema "complexType1") ["Node"] "next"
               [("minOccurs", "0")] true cyclicLowered = Done s' /\
    processedCustomTypes s' = processedCustomTypes cyclicLowered /\
    rootNodes s' = rootNodes cyclicLowered /\
    (forall y, DefSchema "complexType1" <> DefSchema y -> bodyOf s' y = bodyOf cyclicLowered y) /\
    (forall y, DefSchema "complexType1" = DefSchema y -> bodyOf s' y =
       (bodyOf cyclicLowered y ++ [C_element (wrapAttrs ([("minOccurs", "0")] ++
          [("name", "next"); ("type", "complexType1")]))])%list).
Proof.
  assert (Hb : closedGraphb cyclicGraph 3 = true) by reflexivity.
  split; [exact Hb|split; [|split]].
  - apply (proj1 (renderTypes_terminates cyclicGraph 3 Hb) 0 "Node"). lia.
  - apply (proj1 (proj2 (renderTypes_terminates cyclicGraph 3 Hb)) 4 1 RootSchema [] "items" [] true
             initialState); [lia|apply LowerInv_initialState|exact I|vm_compute; lia].
  - apply (proj2 (proj2 (renderTypes_terminates cyclicGraph 3 Hb)) 0 0 (DefSchema "complexType1")
             ["Node"] "next" [("minOccurs", "0")] true cyclicLowered "complexType1");
      [reflexivity|vm_compute; reflexivity].
Defined.

(** ** The body of a class definition *)

Lemma lookup_wrapAttrs : forall k l, k <> "type" -> k <> "base" ->
  lookup_str k (wrapAttrs l) = lookup_str k l.
Proof.
  intros k l Ht Hb. induction l as [|[k' v] t IH]; [reflexivity|].
  cbn [wrapAttrs map lookup_str rewriteAttr].
  destruct ((String.eqb k' "base" || String.eqb k' "type") && existsb (String.eqb v) supportedBaseTypes)
    eqn:E.
  - destruct (String.eqb k k') eqn:Ek; [|apply IH].
    exfalso. apply String.eqb_eq in Ek. subst k'.
    apply andb_true_iff in E. destruct E as [E _]. apply orb_true_iff in E.
    destruct E as [E|E]; apply String.eqb_eq in E; contradiction.
  - destruct (String.eqb k k'); [reflexivity|apply IH].
Qed.

Lemma bodyOf_unallocated : forall s y, LowerInv s -> ~ In y (typeNames s) -> bodyOf s y = [].
Proof.
  intros s y [_ [_ H3]] Hy. unfold bodyOf.
  destruct (lookup_str y (defBodies s)) eqn:E; [|reflexivity].
  exfalso. apply Hy, H3. rewrite E. discriminate.
Qed.

(** C5 (amended): the first visit of a class allocates [newType], emits the
    [<all>] definition named [newType] into the schema, and the body of that
    definition holds exactly one [<element>] per property whose kind is
    lowered (every kind but [none], [any], map, free-form object and enum), in
    declaration order, with [@name] the property's name and [@minOccurs="0"]
    present iff the property is optional; with no such property the body is
    empty. *)
Theorem renderClass_all_elements : forall G fuel r sch pre key attrs ce s s' props,
  LowerInv s -> HandleOk s sch -> G r = T_class props ->
  lookup_nat r (processedCustomTypes s) = None ->
  renderTypes G fuel r sch pre key attrs ce s = Done s' ->
  lookup_nat r (processedCustomTypes s') = Some (newTypeName s) /\
  In (N_def Sort_all (newTypeName s)) (rootNodes s') /\
  Forall2 (fun p c => exists a T, c = C_element a /\
              a = wrapAttrs (classPropAttrs (snd p) ++ [("name", fst p); ("type", T)])%list /\
              lookup_str "name" a = Some (fst p) /\
              lookup_str "minOccurs" a = (if cp_isOptional (snd p) then Some "0" else None))
    (filter (fun p => lowersToElement (G (cp_type (snd p)))) props)
    (bodyOf s' (newTypeName s)).
Proof.
  intros G fuel r sch pre key attrs ce s s' props Hinv Hh HG Hl H.
  destruct fuel as [|f]; [discriminate|].
  cbn [renderTypes] in H. rewrite HG, Hl in H.
  destruct (customPrologue_spec r pre sch key attrs ce s Hinv Hh) as [P1 [P2 _]].
  destruct (prologue_allocate_spec Sort_all r pre sch key attrs ce s Hinv Hh Hl) as [A1 [A2 A3]].
  destruct (renderClassProps_spec G (renderTypes G f) (newTypeName s) (classPrefixes pre key)
              (renderTypes_spec G f) props _ _ A1 A2 H) as [_ [[ext X] [_ [[cs [B C]] [more R]]]]].
  split; [|split].
  - rewrite X, A3, <- app_assoc, lookup_nat_app_none by exact Hl.
    simpl. rewrite Nat.eqb_refl. reflexivity.
  - rewrite R. apply in_or_app. left. simpl. apply in_or_app. right. left. reflexivity.
  - rewrite B.
    assert (E0 : bodyOf (customPrologue r pre sch key attrs ce s) (newTypeName s) = []).
    { apply bodyOf_unallocated; [exact P2|]. unfold typeNames. rewrite P1.
      apply newTypeName_fresh, Hinv. }
    assert (E1 : bodyOf (emitDef Sort_all (newTypeName s)
                   (setProcessed r (newTypeName s) (customPrologue r pre sch key attrs ce s)))
                   (newTypeName s) = []) by exact E0.
    rewrite E1. simpl.
    revert C. apply Forall2_impl. intros [n cp] c [T ->]. simpl.
    exists (wrapAttrs (classPropAttrs cp ++ [("name", n); ("type", T)])%list), T.
    split; [reflexivity|split; [reflexivity|]].
    rewrite !lookup_wrapAttrs by discriminate.
    unfold classPropAttrs. destruct (cp_isOptional cp); split; reflexivity.
Qed.

(** The first visit of [Node] from the initial schema. *)
Lemma renderClass_all_elements_witness :
  lookup_nat 0 (processedCustomTypes cyclicLowered) = Some (newTypeName initialState) /\
  In (N_def Sort_all (newTypeName initialState)) (rootNodes cyclicLowered) /\
  Forall2 (fun p c => exists a T, c = C_element a /\
              a = wrapAttrs (classPropAttrs (snd p) ++ [("name", fst p); ("type", T)])%list /\
              lookup_str "name" a = Some (fst p) /\
              lookup_str "minOccurs" a = (if cp_isOptional (snd p) then Some "0" else None))
    (filter (fun p => lowersToElement (cyclicGraph (cp_type (snd p)))) nodeProps)
    (bodyOf cyclicLowered (newTypeName initialState)).
Proof.
  apply (renderClass_all_elements cyclicGraph 4 0 RootSchema [] "Node" [] true initialState
           cyclicLowered nodeProps).
  - apply LowerInv_initialState.
  - simpl. exact I.
  - reflexivity.
  - reflexivity.
  - vm_compute. reflexivity.
Defined.

(** C5, as the spec states it: [Root { a: integer, m: map }] has two
    properties, but its [<all>] holds one element, for [a] only. *)
Lemma renderClass_map_property_counterexample :
  (exists props, mapPropGraph 0 = T_class props /\ List.length props = 2) /\
  exists s, lowerTopLevel mapPropGraph 5 0 "Root" = Done s /\
    bodyOf s "complexType1" = [C_element [("name", "a"); ("type", "xsd:integer")]].
Proof.
  split.
  - eexists. split; reflexivity.
  - exists (match lowerTopLevel mapPropGraph 5 0 "Root" with Done s => s | _ => initialState end).
    split; vm_compute; reflexivity.
Qed.

(** * Proofs about the converter *)

Lemma sapp_assoc : forall a b c : string, (a ++ b) ++ c = a ++ (b ++ c).
Proof. induction a; intros; simpl; [reflexivity | now rewrite IHa]. Qed.

Lemma sapp_nil_r : forall a : string, a ++ "" = a.
Proof. induction a; simpl; [reflexivity | now rewrite IHa]. Qed.

Lemma slength_app : forall a b : string, String.length (a ++ b) = String.length a + String.length b.
Proof. induction a; intros; simpl; [reflexivity | now rewrite IHa]. Qed.

Lemma all_chars_app : forall p a b, all_chars p (a ++ b) = all_chars p a && all_chars p b.
Proof. induction a; intros; simpl; [reflexivity | rewrite IHa; apply andb_assoc]. Qed.

Lemma digits_acc_app : forall s t acc, digits_acc (s ++ t) acc = digits_acc t (digits_acc s acc).
Proof. induction s; intros; simpl; auto. Qed.

Lemma digits_acc_uint_pos : forall u p,
  digits_acc (uint_to_string u) (N.pos p) = N.pos (Pos.of_uint_acc u p).
Proof.
  induction u; intros p; cbn [uint_to_string digits_acc Pos.of_uint_acc];
    try reflexivity; rewrite <- IHu; f_equal;
    match goal with |- context [digit_val ?c] =>
      let v := eval vm_compute in (digit_val c) in change (digit_val c) with v end;
    lia.
Qed.

Lemma digits_acc_uint0 : forall u, digits_acc (uint_to_string u) 0 = N.of_uint u.
Proof.
  unfold N.of_uint; induction u; cbn [uint_to_string digits_acc N.of_uint Pos.of_uint]; try reflexivity;
    match goal with |- context [digit_val ?c] =>
      let v := eval vm_compute in (digit_val c) in change (digit_val c) with v end;
    [rewrite <- IHu; reflexivity|..]; rewrite <- digits_acc_uint_pos; reflexivity.
Qed.

Lemma digits_value_N_to_string : forall a, digits_value (N_to_string a) = a.
Proof.
  intros a. unfold digits_value, N_to_string. rewrite digits_acc_uint0.
  apply DecimalN.Unsigned.of_to.
Qed.

Lemma uint_digits : forall u, all_chars is_digit (uint_to_string u) = true.
Proof. induction u; simpl; auto. Qed.

Lemma N_to_string_digits : forall a, all_chars is_digit (N_to_string a) = true.
Proof. intros; apply uint_digits. Qed.

Lemma N_to_string_nonempty : forall a, N_to_string a <> "".
Proof.
  intros [|p] E; [discriminate|].
  pose proof (digits_value_N_to_string (N.pos p)) as H. rewrite E in H. discriminate.
Qed.

Lemma digits_acc_zeros : forall k x, digits_acc (zeros k) x = (x * 10 ^ N.of_nat k)%N.
Proof.
  induction k; intros; cbn [zeros digits_acc]; [simpl; lia|].
  rewrite IHk, Nat2N.inj_succ, N.pow_succ_r'. change (digit_val "0"%char) with 0%N.
  rewrite N.add_0_r. ring.
Qed.

Lemma strip_zeros_spec : forall s s' k, strip_zeros s = (s', k) ->
  s = s' ++ zeros k /\ (s' = "" \/ exists p c, s' = p ++ String c "" /\ c <> "0"%char).
Proof.
  induction s as [|c r IH]; intros s' k E; simpl in E.
  - inversion E; subst; simpl; auto.
  - destruct (strip_zeros r) as [r' k'] eqn:Er.
    destruct (IH _ _ eq_refl) as [H1 H2].
    destruct (String.eqb r' "" && Ascii.eqb c "0"%char) eqn:C.
    + inversion E; subst. apply andb_true_iff in C as [C1 C2].
      apply String.eqb_eq in C1. apply Ascii.eqb_eq in C2. subst. simpl. auto.
    + inversion E; subst. split; [reflexivity|]. right.
      destruct H2 as [->|(p & c' & -> & Hc)].
      * exists "", c. split; [reflexivity|]. intros ->.
        rewrite String.eqb_refl in C. simpl in C. discriminate.
      * exists (String c p), c'. auto.
Qed.

Lemma strip_zeros_app_zeros : forall s j,
  strip_zeros (s ++ zeros j) = (fst (strip_zeros s), snd (strip_zeros s) + j).
Proof.
  induction s as [|c r IH]; intros j; simpl.
  - induction j; simpl; [reflexivity|]. rewrite IHj. reflexivity.
  - rewrite IH. destruct (strip_zeros r) as [r' k]. simpl.
    destruct (String.eqb r' "" && Ascii.eqb c "0"%char); reflexivity.
Qed.

Lemma strip_zeros_prefix : forall p s s' k, strip_zeros s = (s', k) -> s' <> "" ->
  strip_zeros (p ++ s) = (p ++ s', k).
Proof.
  induction p as [|c p IH]; intros s s' k E N; simpl; [assumption|].
  rewrite (IH _ _ _ E N).
  destruct (String.eqb (p ++ s') "") eqn:Z.
  - apply String.eqb_eq in Z. destruct p; [simpl in Z; congruence| discriminate].
  - reflexivity.
Qed.

Lemma digit_val_lt : forall c, is_digit c = true -> (digit_val c < 10)%N.
Proof.
  intros c H. unfold is_digit in H. apply andb_true_iff in H as [H1 H2].
  apply Nat.leb_le in H1, H2. unfold digit_val. lia.
Qed.

Lemma digit_val_pos : forall c, is_digit c = true -> c <> "0"%char -> (0 < digit_val c)%N.
Proof.
  intros c H Hc. unfold is_digit in H. apply andb_true_iff in H as [H1 H2].
  apply Nat.leb_le in H1, H2. unfold digit_val.
  assert (nat_of_ascii c <> 48).
  { intros E. apply Hc. rewrite <- (ascii_nat_embedding c), E. reflexivity. }
  lia.
Qed.

Lemma canonical_strip : forall a, (a mod 10 <> 0)%N ->
  strip_zeros (N_to_string a) = (N_to_string a, 0).
Proof.
  intros a Ha. destruct (strip_zeros (N_to_string a)) as [s' k] eqn:E.
  destruct (strip_zeros_spec _ _ _ E) as [H1 _].
  destruct k as [|k].
  - simpl in H1. rewrite sapp_nil_r in H1. now rewrite H1.
  - exfalso. apply Ha. pose proof (digits_value_N_to_string a) as V.
    rewrite H1 in V. unfold digits_value in V. rewrite digits_acc_app, digits_acc_zeros in V.
    rewrite <- V. rewrite Nat2N.inj_succ, N.pow_succ_r'.
    rewrite N.mul_assoc, (N.mul_comm _ 10), <- N.mul_assoc, N.mul_comm.
    apply N.Div0.mod_mul.
Qed.

(** mkFin yields canonical numbers on digit strings. *)
Lemma mkFin_canonical : forall neg ds e, all_chars is_digit ds = true ->
  canonical (mkFin neg ds e) = true.
Proof.
  intros neg ds e D. unfold mkFin.
  destruct (strip_zeros ds) as [s' k] eqn:E.
  destruct (strip_zeros_spec _ _ _ E) as [H1 H2].
  destruct (N.eqb (digits_value s') 0) eqn:Z; [reflexivity|].
  apply N.eqb_neq in Z. simpl.
  destruct H2 as [->|(p & c & -> & Hc)]; [exfalso; apply Z; reflexivity|].
  subst ds. rewrite !all_chars_app in D. simpl in D.
  apply andb_true_iff in D as [D _]. apply andb_true_iff in D as [Dp D]. apply andb_true_iff in D as [Dc _].
  unfold digits_value in *. rewrite digits_acc_app in *. simpl in *.
  pose proof (digit_val_lt c Dc). pose proof (digit_val_pos c Dc Hc).
  set (q := digits_acc p 0) in *.
  assert (R : Z.rem (Z.of_N (q * 10 + digit_val c)) 10 = Z.of_N (digit_val c)).
  { change 10%Z with (Z.of_N 10). rewrite <- N2Z.inj_rem.  f_equal. rewrite N.add_comm, N.Div0.mod_add.
    apply N.mod_small; lia. }
  destruct neg.
  - rewrite (proj2 (Z.eqb_neq _ _)) by lia.
    rewrite Z.rem_opp_l', R. apply negb_true_iff, Z.eqb_neq. lia.
  - rewrite (proj2 (Z.eqb_neq _ _)) by lia.
    rewrite R. apply negb_true_iff, Z.eqb_neq. lia.
Qed.

Lemma span_digits_app : forall d r, all_chars is_digit d = true ->
  span_digits (d ++ r) = (d ++ fst (span_digits r), snd (span_digits r)).
Proof.
  induction d as [|c d IH]; intros r H; simpl.
  - destruct (span_digits r); reflexivity.
  - simpl in H. apply andb_true_iff in H as [H1 H2]. rewrite H1, (IH r H2). reflexivity.
Qed.

Lemma span_digits_fst : forall s, all_chars is_digit (fst (span_digits s)) = true.
Proof.
  induction s as [|c s IH]; simpl; [reflexivity|].
  destruct (is_digit c) eqn:D; [|reflexivity].
  destruct (span_digits s) as [d t]. simpl in *. now rewrite D, IH.
Qed.

Lemma str_take_drop : forall n s, str_take n s ++ str_drop n s = s.
Proof. induction n; intros [|c s]; simpl; auto. now rewrite IHn. Qed.

Lemma all_chars_take : forall p n s, all_chars p s = true -> all_chars p (str_take n s) = true.
Proof.
  induction n; intros [|c s] H; simpl in *; auto.
  apply andb_true_iff in H as [H1 H2]. now rewrite H1, IHn.
Qed.

Lemma all_chars_drop : forall p n s, all_chars p s = true -> all_chars p (str_drop n s) = true.
Proof.
  induction n; intros [|c s] H; simpl in *; auto.
  apply andb_true_iff in H as [H1 H2]. auto.
Qed.

Lemma length_drop : forall n s, String.length (str_drop n s) = String.length s - n.
Proof. induction n; intros [|c s]; simpl; auto. Qed.

Lemma all_chars_impl : forall (p q : ascii -> bool) s, (forall c, p c = true -> q c = true) ->
  all_chars p s = true -> all_chars q s = true.
Proof.
  induction s as [|c s IH]; intros Hpq H; simpl in *; auto.
  apply andb_true_iff in H as [H1 H2]. now rewrite (Hpq c H1), IH.
Qed.

Lemma zeros_digits : forall j, all_chars is_digit (zeros j) = true.
Proof. induction j; simpl; auto. Qed.

Lemma zeros_length : forall j, String.length (zeros j) = j.
Proof. induction j; simpl; auto. Qed.

Lemma digits_acc_zeros0 : forall z s, digits_acc (zeros z ++ s) 0 = digits_acc s 0.
Proof. intros. rewrite digits_acc_app, digits_acc_zeros. reflexivity. Qed.

Lemma radixLiteral_canonical : forall r s, canonical (radixLiteral r s) = true.
Proof.
  intros r [|c s]; [reflexivity|]. unfold radixLiteral.
  destruct (radix_acc r (String c s) 0); [apply mkFin_canonical, N_to_string_digits|reflexivity].
Qed.

Lemma unsignedDecimal_canonical : forall neg u, canonical (unsignedDecimal neg u) = true.
Proof.
  intros neg u. unfold unsignedDecimal.
  pose proof (span_digits_fst u) as D1.
  destruct (span_digits u) as [d1 r1]. simpl in D1.
  assert (D2 : forall d2 r2, (match r1 with
                              | String c r => if Ascii.eqb c "."%char then span_digits r else ("", r1)
                              | EmptyString => ("", "")
                              end) = (d2, r2) -> all_chars is_digit d2 = true).
  { intros d2 r2 E. destruct r1 as [|c r]; [now inversion E|].
    destruct (Ascii.eqb c "."%char); [|now inversion E].
    pose proof (span_digits_fst r) as F. rewrite E in F. exact F. }
  destruct (match r1 with
            | String c r => if Ascii.eqb c "."%char then span_digits r else ("", r1)
            | EmptyString => ("", "")
            end) as [d2 r2] eqn:E2.
  specialize (D2 _ _ eq_refl).
  destruct (String.eqb (d1 ++ d2) ""); [reflexivity|].
  destruct (exponentPart r2); [|reflexivity].
  apply mkFin_canonical. rewrite all_chars_app, D1, D2. reflexivity.
Qed.

Lemma decimalLiteral_canonical : forall t, canonical (decimalLiteral t) = true.
Proof.
  intros t. unfold decimalLiteral. destruct (splitSign t) as [neg u].
  destruct (String.eqb u "Infinity"); [reflexivity|apply unsignedDecimal_canonical].
Qed.

(** [StringToNumber] yields canonical numbers. *)
Lemma StringToNumber_canonical : forall s, canonical (StringToNumber s) = true.
Proof.
  intros s. unfold StringToNumber.
  destruct (trim_end (trim_start s)) as [|c0 [|c r]]; [reflexivity|apply decimalLiteral_canonical|].
  repeat match goal with |- context [if ?b then _ else _] => destruct b end;
    (apply radixLiteral_canonical || apply decimalLiteral_canonical).
Qed.


Lemma plain_not_ws : forall c, plain_char c = true -> is_ws c = false.
Proof.
  intros c H. unfold plain_char in H.
  repeat (apply orb_true_iff in H as [H|H]);
    try (apply Ascii.eqb_eq in H; subst; reflexivity).
  unfold is_digit in H. apply andb_true_iff in H as [H1 H2]. apply Nat.leb_le in H1, H2.
  unfold is_ws. apply orb_false_iff; split; [apply orb_false_iff; split|].
  - apply andb_false_iff. right. apply Nat.leb_gt. lia.
  - apply Nat.eqb_neq. lia.
  - apply Nat.eqb_neq. lia.
Qed.

Lemma trim_plain : forall t, all_chars plain_char t = true -> trim_end (trim_start t) = t.
Proof.
  assert (E : forall t, all_chars plain_char t = true -> trim_end t = t).
  { induction t as [|c t IH]; intros H; simpl in *; [reflexivity|].
    apply andb_true_iff in H as [H1 H2]. rewrite (IH H2), (plain_not_ws c H1).
    rewrite andb_false_r. reflexivity. }
  intros [|c t] H; [reflexivity|]. simpl. simpl in H. apply andb_true_iff in H as [H1 H2].
  rewrite (plain_not_ws c H1). apply E. simpl. now rewrite H1, H2.
Qed.

Lemma StringToNumber_plain : forall t, t <> "" -> all_chars plain_char t = true ->
  StringToNumber t = decimalLiteral t.
Proof.
  intros t Ne H. unfold StringToNumber. rewrite (trim_plain t H).
  destruct t as [|c0 [|c r]]; [congruence|reflexivity|].
  simpl in H. apply andb_true_iff in H as [_ H]. apply andb_true_iff in H as [Hc _].
  destruct (Ascii.eqb c0 "0"%char); [|reflexivity].
  assert (F : forall d, plain_char d = false -> Ascii.eqb c d = false).
  { intros d Hd. destruct (Ascii.eqb c d) eqn:E; [|reflexivity].
    apply Ascii.eqb_eq in E. subst. congruence. }
  rewrite !F by reflexivity. reflexivity.
Qed.

Lemma signedInteger_N : forall b (neg : bool),
  signedInteger ((if neg then "-" else "+") ++ N_to_string b) =
  Some (if neg then (- Z.of_N b)%Z else Z.of_N b).
Proof.
  intros b neg. unfold signedInteger.
  assert (S : splitSign ((if neg then "-" else "+") ++ N_to_string b) = (neg, N_to_string b))
    by (destruct neg; reflexivity).
  rewrite S. pose proof (span_digits_app (N_to_string b) "" (N_to_string_digits b)) as E.
  rewrite sapp_nil_r in E. rewrite E. simpl. rewrite sapp_nil_r.
  destruct (String.eqb (N_to_string b) "") eqn:Z.
  - apply String.eqb_eq in Z. exfalso. exact (N_to_string_nonempty b Z).
  - simpl. rewrite digits_value_N_to_string. reflexivity.
Qed.

Lemma span_stop : forall c r, is_digit c = false -> span_digits (String c r) = ("", String c r).
Proof. intros c r H. simpl. now rewrite H. Qed.

Lemma ud_int : forall neg ds, all_chars is_digit ds = true -> ds <> "" ->
  unsignedDecimal neg ds = mkFin neg ds 0.
Proof.
  intros neg ds D Ne. unfold unsignedDecimal.
  pose proof (span_digits_app ds "" D) as E. rewrite sapp_nil_r in E. rewrite E. simpl.
  rewrite !sapp_nil_r. destruct (String.eqb ds "") eqn:Z; [apply String.eqb_eq in Z; congruence|].
  reflexivity.
Qed.

Lemma ud_frac : forall neg p q r, all_chars is_digit p = true -> all_chars is_digit q = true ->
  p <> "" -> exponentPart r = Some 0%Z -> (r = "" \/ exists c t, r = String c t /\ is_digit c = false) ->
  unsignedDecimal neg (p ++ String "." (q ++ r)) = mkFin neg (p ++ q) (- Z.of_nat (String.length q)).
Proof.
  intros neg p q r Dp Dq Ne Ex Hr. unfold unsignedDecimal.
  rewrite (span_digits_app p _ Dp), span_stop by reflexivity. simpl.
  rewrite !sapp_nil_r, (span_digits_app q r Dq).
  assert (Sr : span_digits r = ("", r)) by (destruct Hr as [->|(c & t & -> & Hc)];
                                             [reflexivity|now apply span_stop]).
  rewrite Sr. simpl. rewrite !sapp_nil_r.
  destruct (String.eqb (p ++ q) "") eqn:Z.
  - apply String.eqb_eq in Z. destruct p; [congruence|discriminate].
  - rewrite Ex. reflexivity.
Qed.

Lemma ud_exp1 : forall neg p (neg' : bool) b, all_chars is_digit p = true -> p <> "" ->
  unsignedDecimal neg (p ++ "e" ++ ((if neg' then "-" else "+") ++ N_to_string b)) =
  mkFin neg p (if neg' then (- Z.of_N b)%Z else Z.of_N b).
Proof.
  intros neg p neg' b Dp Ne. unfold unsignedDecimal.
  rewrite (span_digits_app p _ Dp). cbn [String.append].
  rewrite span_stop by reflexivity. simpl.
  rewrite !sapp_nil_r.
  destruct (String.eqb p "") eqn:Z; [apply String.eqb_eq in Z; congruence|].
  simpl exponentPart. rewrite signedInteger_N. f_equal. lia.
Qed.

Lemma ud_exp2 : forall neg p q (neg' : bool) b, all_chars is_digit p = true -> all_chars is_digit q = true ->
  p <> "" ->
  unsignedDecimal neg (p ++ String "." (q ++ String "e" ((if neg' then "-" else "+") ++ N_to_string b))) =
  mkFin neg (p ++ q) ((if neg' then (- Z.of_N b)%Z else Z.of_N b) - Z.of_nat (String.length q)).
Proof.
  intros neg p q neg' b Dp Dq Ne. unfold unsignedDecimal.
  rewrite (span_digits_app p _ Dp), span_stop by reflexivity. simpl.
  rewrite !sapp_nil_r, (span_digits_app q _ Dq). cbn [String.append].
  rewrite span_stop by reflexivity. simpl.
  rewrite !sapp_nil_r.
  destruct (String.eqb (p ++ q) "") eqn:Z.
  - apply String.eqb_eq in Z. destruct p; [congruence|discriminate].
  - simpl exponentPart. rewrite signedInteger_N. reflexivity.
Qed.

Lemma plain_digits : forall s, all_chars is_digit s = true -> all_chars plain_char s = true.
Proof. intros s. apply all_chars_impl. intros c H. unfold plain_char. now rewrite H. Qed.

Lemma decimalLiteral_sign : forall (neg : bool) d r, is_digit d = true ->
  decimalLiteral ((if neg then "-" else "") ++ String d r) = unsignedDecimal neg (String d r).
Proof.
  intros neg d r D. unfold decimalLiteral.
  assert (S : splitSign ((if neg then "-" else "") ++ String d r) = (neg, String d r)).
  { destruct neg; simpl; [reflexivity|].
    destruct (Ascii.eqb d "+"%char) eqn:E1; [apply Ascii.eqb_eq in E1; subst; discriminate|].
    destruct (Ascii.eqb d "-"%char) eqn:E2; [apply Ascii.eqb_eq in E2; subst; discriminate|].
    reflexivity. }
  rewrite S.
  destruct (String.eqb (String d r) "Infinity") eqn:E; [|reflexivity].
  apply String.eqb_eq in E. inversion E; subst. discriminate.
Qed.

(** [Number(x.toString())] is [x] on canonical numbers. *)
Lemma NumberToString_roundtrip : forall x, canonical x = true -> isNaN x = false ->
  StringToNumber (NumberToString x) = x.
Proof.
  intros [| [|] | m e] Hc Hn; try reflexivity; try discriminate.
  unfold NumberToString. destruct (Z.eqb_spec m 0) as [->|Hm].
  { simpl in Hc. apply Z.eqb_eq in Hc. subst. reflexivity. }
  simpl in Hc. rewrite (proj2 (Z.eqb_neq _ _) Hm) in Hc. apply negb_true_iff, Z.eqb_neq in Hc.
  set (a := Z.abs_N m).
  assert (Ha0 : a <> 0%N) by lia.
  assert (Ham : (a mod 10 <> 0)%N).
  { intros E. apply Hc.
    assert (Z.abs (Z.rem m 10) = 0)%Z.
    { rewrite <- Z.rem_abs_l by lia. replace (Z.abs m) with (Z.of_N a) by (unfold a; lia).
      change 10%Z with (Z.of_N 10). rewrite <- N2Z.inj_rem, E. reflexivity. }
    lia. }
  set (ds := N_to_string a).
  assert (Dd : all_chars is_digit ds = true) by apply N_to_string_digits.
  assert (Dv : digits_value ds = a) by apply digits_value_N_to_string.
  assert (Ds : strip_zeros ds = (ds, 0)) by (apply canonical_strip; exact Ham).
  assert (Dne : ds <> "") by apply N_to_string_nonempty.
  assert (Hmk : forall s s' j ex, strip_zeros s = (s', j) -> digits_value s' = a ->
                 mkFin (Z.ltb m 0) s ex = Fin m (ex + Z.of_nat j)).
  { intros s s' j ex E V. unfold mkFin. rewrite E, V, (proj2 (N.eqb_neq _ _) Ha0).
    f_equal. unfold a. destruct (Z.ltb_spec m 0); lia. }
  assert (Hsg : forall body, body <> "" -> all_chars plain_char body = true ->
            (exists d r, body = String d r /\ is_digit d = true) ->
            StringToNumber ((if Z.ltb m 0 then "-" else "") ++ body) = unsignedDecimal (Z.ltb m 0) body).
  { intros body Ne P (d & r & -> & D).
    rewrite StringToNumber_plain.
    - apply decimalLiteral_sign; exact D.
    - destruct (Z.ltb m 0); discriminate.
    - rewrite all_chars_app, P, andb_true_r. destruct (Z.ltb m 0); reflexivity. }
  destruct ds as [|d0 r0] eqn:Eds; [congruence|].
  assert (D0 : is_digit d0 = true) by (simpl in Dd; apply andb_true_iff in Dd; apply Dd).
  rewrite <- Eds in *.
  set (k := Z.of_nat (String.length ds)).
  assert (Hk : (1 <= k)%Z) by (unfold k; rewrite Eds; simpl; lia).
  set (n := (e + k)%Z).
  assert (Pe : forall b : Z, all_chars plain_char ((if Z.ltb b 0 then "-" else "+") ++ N_to_string (Z.abs_N b)) = true).
  { intros b. rewrite all_chars_app, (plain_digits (N_to_string _) (N_to_string_digits _)).
    destruct (Z.ltb b 0); reflexivity. }
  assert (Ve : forall b : Z, (if Z.ltb b 0 then (- Z.of_N (Z.abs_N b))%Z else Z.of_N (Z.abs_N b)) = b).
  { intros b. destruct (Z.ltb_spec b 0); lia. }
  assert (Pds : all_chars plain_char ds = true) by (apply plain_digits; exact Dd).
  destruct (Z.leb k n && Z.leb n 21)%Z eqn:C1.
  { (* integer form *)
    apply andb_true_iff in C1 as [C1 _]. apply Z.leb_le in C1.
    rewrite Hsg.
    - rewrite ud_int.
      + rewrite (Hmk _ ds (Z.to_nat (n - k))); [f_equal; lia| |exact Dv].
        rewrite strip_zeros_app_zeros, Ds. reflexivity.
      + rewrite all_chars_app, Dd, zeros_digits. reflexivity.
      + rewrite Eds. discriminate.
    - rewrite Eds. discriminate.
    - rewrite all_chars_app, Pds, plain_digits by apply zeros_digits. reflexivity.
    - rewrite Eds. eexists _, _. split; [reflexivity|exact D0]. }
  destruct (Z.ltb 0 n && Z.leb n 21)%Z eqn:C2.
  { (* fixed-point form *)
    apply andb_true_iff in C2 as [C2 C3]. apply Z.ltb_lt in C2. apply Z.leb_le in C3.
    assert (Hnk : (n < k)%Z).
    { destruct (Z.leb_spec k n); [|lia]. rewrite (proj2 (Z.leb_le _ _) C3) in C1.
      simpl in C1. discriminate. }
    destruct (Z.to_nat n) as [|N] eqn:En; [lia|].
    cbn [String.append].
    assert (Tk : str_take (S N) ds = String d0 (str_take N r0)) by (rewrite Eds; reflexivity).
    rewrite Hsg.
    - pose proof (ud_frac (Z.ltb m 0) (str_take (S N) ds) (str_drop (S N) ds) "") as U.
      rewrite sapp_nil_r in U. rewrite U; clear U.
      + rewrite str_take_drop, (Hmk _ ds 0); [|exact Ds|exact Dv].
        f_equal. rewrite length_drop. fold k. lia.
      + apply all_chars_take, Dd.
      + apply all_chars_drop, Dd.
      + rewrite Tk. discriminate.
      + reflexivity.
      + auto.
    - rewrite Tk. discriminate.
    - rewrite all_chars_app, all_chars_take by exact Pds. cbn [all_chars]. rewrite all_chars_drop by exact Pds. reflexivity.
    - rewrite Tk. eexists _, _. split; [reflexivity|exact D0]. }
  destruct (Z.ltb (-6) n && Z.leb n 0)%Z eqn:C3.
  { (* 0.00ddd form *)
    apply andb_true_iff in C3 as [_ C3]. apply Z.leb_le in C3.
    cbn [String.append].
    rewrite Hsg.
    - pose proof (ud_frac (Z.ltb m 0) "0" (zeros (Z.to_nat (- n)) ++ ds) "") as U.
      rewrite sapp_nil_r in U. cbn [String.append] in U. rewrite U; clear U.
      + rewrite (Hmk _ ("0" ++ zeros (Z.to_nat (- n)) ++ ds) 0).
        * f_equal. rewrite slength_app, zeros_length. fold k. lia.
        * apply (strip_zeros_prefix ("0" ++ zeros (Z.to_nat (- n))) ds ds 0) in Ds; [|exact Dne].
          rewrite !sapp_assoc in Ds. exact Ds.
        * change ("0" ++ (zeros (Z.to_nat (- n)) ++ ds))%string with (zeros (S (Z.to_nat (- n))) ++ ds).
          unfold digits_value. rewrite digits_acc_zeros0. exact Dv.
      + reflexivity.
      + rewrite all_chars_app, zeros_digits, Dd. reflexivity.
      + discriminate.
      + reflexivity.
      + auto.
    - discriminate.
    - simpl. rewrite all_chars_app, plain_digits, Pds by apply zeros_digits. reflexivity.
    - eexists _, _. split; [reflexivity|reflexivity]. }
  assert (Hpe := Pe (n - 1)%Z). assert (Hve := Ve (n - 1)%Z).
  destruct (Z.eqb_spec k 1) as [K1|K1].
  { (* d e+x form *)
    rewrite Hsg.
    - rewrite ud_exp1; [|exact Dd|exact Dne].
      rewrite Hve, (Hmk _ ds 0); [|exact Ds|exact Dv]. f_equal. lia.
    - rewrite Eds. discriminate.
    - rewrite all_chars_app, Pds. simpl. exact Hpe.
    - rewrite Eds. eexists _, _. split; [reflexivity|exact D0]. }
  { (* d.ddd e+x form *)
    cbn [String.append].
    assert (Tk : str_take 1 ds = String d0 "") by (rewrite Eds; reflexivity).
    rewrite Hsg.
    - rewrite ud_exp2; [| apply all_chars_take, Dd | apply all_chars_drop, Dd | rewrite Tk; discriminate].
      rewrite str_take_drop, Hve, (Hmk _ ds 0); [|exact Ds|exact Dv].
      f_equal. rewrite length_drop. fold k. lia.
    - rewrite Tk. discriminate.
    - rewrite all_chars_app, all_chars_take by exact Pds. cbn [all_chars].
      rewrite all_chars_app, all_chars_drop by exact Pds. cbn [all_chars]. exact Hpe.
    - rewrite Tk. eexists _, _. split; [reflexivity|exact D0]. }
Qed.

Section Unfold.
Variables isDate isTime isDateTime isURI : jsval -> bool.
Local Notation PJN := (parseJSONNode isDate isTime isDateTime isURI).
Local Notation PXN := (parseXMLNode isDate isTime isDateTime isURI).

Lemma PJN_array : forall X l tag path,
  PJN X (JArr l) tag K_array path =
  match getArrayType X (childPath path tag) with
  | None => Panic "Array with path not found"
  | Some ai => rs <- jsonItems isDate isTime isDateTime isURI X ai l (childPath path tag) ;;
               Done (XElem tag [] (fst rs), parentPath (snd rs))
  end.
Proof. intros. exact eq_refl. Qed.

Lemma PJN_class : forall X fs tag path,
  PJN X (JObj fs) tag K_class path =
  match getClassType X (childPath path tag) with
  | None => Panic "Object with path not found"
  | Some cps => rs <- jsonFields isDate isTime isDateTime isURI X cps fs (childPath path tag) ;;
               Done (XElem tag [] (fst rs), parentPath (snd rs))
  end.
Proof. intros. exact eq_refl. Qed.

Lemma PXN_class_obj : forall X fs tag path,
  PXN X (JObj fs) tag (Some K_class) path =
  match getClassType X (childPath path tag) with
  | None => Panic "Failed to parse class by path"
  | Some cps =>
      ok <- isValidClassPropsInXMLObject X (JObj fs) (childPath path tag) ;;
      if negb ok then Panic "Failed to parse class by path" else
      rs <- xmlFields isDate isTime isDateTime isURI X cps fs [] (childPath path tag) ;;
      Done (JObj (fst rs), parentPath (snd rs))
  end.
Proof. intros. exact eq_refl. Qed.

Lemma PXN_class_arr : forall X l tag path,
  PXN X (JArr l) tag (Some K_class) path =
  match getClassType X (childPath path tag) with
  | None => Panic "Failed to parse class by path"
  | Some cps =>
      ok <- isValidClassPropsInXMLObject X (JArr l) (childPath path tag) ;;
      if negb ok then Panic "Failed to parse class by path" else
      rs <- xmlIndexed isDate isTime isDateTime isURI X cps l 0 [] (childPath path tag) ;;
      Done (JObj (fst rs), parentPath (snd rs))
  end.
Proof. intros. exact eq_refl. Qed.

Lemma PXN_array_obj : forall X fs tag path,
  PXN X (JObj fs) tag (Some K_array) path =
  match getArrayType X (childPath path tag) with
  | None => Panic "Failed to parse array by path"
  | Some ai => xmlFind isDate isTime isDateTime isURI X ai (childPath path tag) fs
  end.
Proof. intros. exact eq_refl. Qed.

End Unfold.

Section Unfold2.
Variables isDate isTime isDateTime isURI : jsval -> bool.
Local Notation PJN := (parseJSONNode isDate isTime isDateTime isURI).

Lemma PJN_class_arr : forall X l tag path,
  PJN X (JArr l) tag K_class path =
  match getClassType X (childPath path tag) with
  | None => Panic "Object with path not found"
  | Some cps => rs <- jsonIndexed isDate isTime isDateTime isURI X cps l 0 (childPath path tag) ;;
               Done (XElem tag [] (fst rs), parentPath (snd rs))
  end.
Proof. intros. exact eq_refl. Qed.

Lemma isValid_every : forall X obj path,
  isValidClassPropsInXMLObject X obj path =
  match getClassType X path with
  | None => Done false
  | Some cps => classPropsEvery X obj path cps
  end.
Proof. intros. exact eq_refl. Qed.
End Unfold2.

(** C6: the coercions are not total.  The JSON coercion of [null] to the
    kind [string] throws (from [Object.keys(null)]) instead of returning
    [undefined], and so does [parsePrimitiveKind] on it, while the XML
    coercion of [null] to [string] returns [undefined]. *)
Theorem getPrimitiveKindJSONValue_null_string_throws :
  forall isDate isTime isDateTime isURI,
  getPrimitiveKindJSONValue isDate isTime isDateTime isURI JNull PK_string = Panic TypeErrorNull /\
  parsePrimitiveKind isDate isTime isDateTime isURI JNull PK_string Fmt_JSON = Panic TypeErrorNull /\
  getPrimitiveKindXMLValue isDate isTime isDateTime isURI JNull PK_string = None.
Proof. intros. repeat split. Qed.

(** C7: [parseUnion] does not always select the first accepting member
    kind.  At the union of [string] then [null], the [null] coercion accepts
    [null], but the [string] coercion, tried first, throws on it, so the
    conversion of [null] throws. *)
Theorem parseUnion_null_string_null_throws :
  forall isDate isTime isDateTime isURI,
  getUnionType unionIndex_string_null "Root.u" = Some [PK_string; PK_null] /\
  getPrimitiveKindJSONValue isDate isTime isDateTime isURI JNull PK_null = Done (Some JNull) /\
  parseUnion isDate isTime isDateTime isURI unionIndex_string_null JNull "Root.u" Fmt_JSON
    = Panic TypeErrorNull.
Proof. intros. repeat split. Qed.

(** C8: for the kinds [integer], [double] and [integer-string], the XML
    coercion accepts exactly the values whose numeric coercion is not NaN,
    giving the printed number; [null] and the empty string give ["0"], [true]
    gives ["1"] and [false] gives ["0"]. *)
Theorem numeric_kinds_accept_non_NaN :
  forall isDate isTime isDateTime isURI,
  Forall (fun k =>
    (forall v, getPrimitiveKindXMLValue isDate isTime isDateTime isURI v k =
               if isNaN (ToNumber v) then None
               else Some (JStr (NumberToString (ToNumber v)))) /\
    getPrimitiveKindXMLValue isDate isTime isDateTime isURI JNull k = Some (JStr "0") /\
    getPrimitiveKindXMLValue isDate isTime isDateTime isURI (JStr "") k = Some (JStr "0") /\
    getPrimitiveKindXMLValue isDate isTime isDateTime isURI (JBool true) k = Some (JStr "1") /\
    getPrimitiveKindXMLValue isDate isTime isDateTime isURI (JBool false) k = Some (JStr "0"))
    [PK_integer; PK_double; PK_integer_string].
Proof.
  intros. repeat constructor; intros; simpl; destruct (isNaN (ToNumber v)); reflexivity.
Qed.

Lemma set_str_keys : forall {A} (l : list (string * A)) k v x,
  In x (map fst (set_str k v l)) -> x = k \/ In x (map fst l).
Proof.
  induction l as [|[k' v'] t IH]; simpl; intros k v x H.
  - intuition.
  - destruct (String.eqb k k'); simpl in H.
    + destruct H; [left; auto | right; right; auto].
    + destruct H; [right; left; auto|]. destruct (IH _ _ _ H); [left|right; right]; auto.
Qed.

Lemma Forall_keys_set_str : forall {A} (P : string -> Prop) (l : list (string * A)) k v,
  Forall P (map fst l) -> P k -> Forall P (map fst (set_str k v l)).
Proof.
  intros A P l k v H Hk. rewrite Forall_forall in *. intros x Hx.
  destruct (set_str_keys _ _ _ _ Hx); subst; auto.
Qed.

Lemma insertIndexKey_keys : forall {A} (l : list (string * A)) k n v x,
  In x (map fst (insertIndexKey k n v l)) -> x = k \/ In x (map fst l).
Proof.
  induction l as [|[k' v'] t IH]; simpl; intros k n v x H.
  - intuition.
  - destruct (arrayIndexOf k') as [n'|]; [destruct (N.ltb n' n)|]; simpl in H.
    + destruct H; [right; left; auto|]. destruct (IH _ _ _ _ H); [left|right; right]; auto.
    + destruct H; [left; auto|right; exact H].
    + destruct H; [left; auto|right; exact H].
Qed.

Lemma js_set_keys : forall {A} (l : list (string * A)) k v x,
  In x (map fst (js_set k v l)) -> x = k \/ In x (map fst l).
Proof.
  intros A l k v x H. unfold js_set in H. destruct (str_mem k (map fst l)).
  - exact (set_str_keys _ _ _ _ H).
  - destruct (arrayIndexOf k) as [n|].
    + exact (insertIndexKey_keys _ _ _ _ _ H).
    + rewrite map_app, in_app_iff in H. simpl in H. intuition.
Qed.

Lemma Forall_keys_js_set : forall {A} (P : string -> Prop) (l : list (string * A)) k v,
  Forall P (map fst l) -> P k -> Forall P (map fst (js_set k v l)).
Proof.
  intros A P l k v H Hk. rewrite Forall_forall in *. intros x Hx.
  destruct (js_set_keys _ _ _ _ Hx); subst; auto.
Qed.

Section Keys.
Variables isDate isTime isDateTime isURI : jsval -> bool.
Variable X : XSDTypes.
Variable cps : list (string * ClassProp).
Let declared (k : string) : Prop := lookup_str k cps <> None /\ startsWithAt k = false.

Lemma xmlStep_keys : forall k res p rec out,
  xmlStep cps k res p rec = Done out ->
  Forall declared (map fst res) -> Forall declared (map fst (fst out)).
Proof.
  unfold xmlStep. intros k res p rec out H F.
  destruct (startsWithAt k) eqn:E.
  - injection H as <-. exact F.
  - destruct (lookup_str k cps) as [ps|] eqn:L.
    + destruct (rec (cpr_kind ps)) as [r| |]; simpl in H; try discriminate.
      injection H as <-. simpl. destruct (String.eqb k "__proto__"); [exact F|].
      apply Forall_keys_js_set; auto. split; congruence.
    + injection H as <-. exact F.
Qed.

Lemma xmlFields_keys : forall fs res p out,
  xmlFields isDate isTime isDateTime isURI X cps fs res p = Done out ->
  Forall declared (map fst res) -> Forall declared (map fst (fst out)).
Proof.
  induction fs as [|[k pv] t IH]; simpl; intros res p out H F.
  - injection H as <-. exact F.
  - destruct (xmlStep cps k res p _) as [r| |] eqn:S; simpl in H; try discriminate.
    apply (IH _ _ _ H). exact (xmlStep_keys _ _ _ _ _ S F).
Qed.

Lemma xmlIndexed_keys : forall l i res p out,
  xmlIndexed isDate isTime isDateTime isURI X cps l i res p = Done out ->
  Forall declared (map fst res) -> Forall declared (map fst (fst out)).
Proof.
  induction l as [|x t IH]; simpl; intros i res p out H F.
  - injection H as <-. exact F.
  - destruct (xmlStep cps _ res p _) as [r| |] eqn:S; simpl in H; try discriminate.
    apply (IH _ _ _ _ H). exact (xmlStep_keys _ _ _ _ _ S F).
Qed.
End Keys.

Section ClassKeys.
Variables isDate isTime isDateTime isURI : jsval -> bool.
Local Notation PXN := (parseXMLNode isDate isTime isDateTime isURI).

Theorem parseXMLtoJSON_class_declared_keys : forall X v tag path r p',
  PXN X v tag (Some K_class) path = Done (r, p') ->
  exists cps rs,
    getClassType X (childPath path tag) = Some cps /\ r = JObj rs /\
    Forall (fun k => lookup_str k cps <> None /\ startsWithAt k = false) (map fst rs).
Proof.
  intros X v tag path r p' H.
  destruct v as [| b | x | s | l | fs].
  - simpl in H. destruct (getClassType X (childPath path tag)); try discriminate.
    destruct (isValidClassPropsInXMLObject X JNull _) as [[|]| |]; simpl in H; discriminate.
  - discriminate.
  - discriminate.
  - discriminate.
  - rewrite PXN_class_arr in H.
    destruct (getClassType X (childPath path tag)) as [cps|] eqn:G; try discriminate.
    destruct (isValidClassPropsInXMLObject X (JArr l) _) as [[|]| |]; simpl in H; try discriminate.
    destruct (xmlIndexed _ _ _ _ X cps l 0 [] _) as [out| |] eqn:E; simpl in H; try discriminate.
    injection H as <- _. exists cps, (fst out). repeat split; auto.
    exact (xmlIndexed_keys _ _ _ _ _ _ _ _ _ _ _ E (Forall_nil _)).
  - rewrite PXN_class_obj in H.
    destruct (getClassType X (childPath path tag)) as [cps|] eqn:G; try discriminate.
    destruct (isValidClassPropsInXMLObject X (JObj fs) _) as [[|]| |]; simpl in H; try discriminate.
    destruct (xmlFields _ _ _ _ X cps fs [] _) as [out| |] eqn:E; simpl in H; try discriminate.
    injection H as <- _. exists cps, (fst out). repeat split; auto.
    exact (xmlFields_keys _ _ _ _ _ _ _ _ _ _ E (Forall_nil _)).
Qed.
End ClassKeys.

Lemma str_mem_filter_declared : forall {A B} (cps : list (string * A)) (fs : list (string * B)) n,
  isSome (lookup_str n cps) = true ->
  str_mem n (map fst (filter (fun kv => isSome (lookup_str (fst kv) cps)) fs)) =
  str_mem n (map fst fs).
Proof.
  induction fs as [|[k v] t IH]; simpl; intros n Hn; [reflexivity|].
  destruct (isSome (lookup_str k cps)) eqn:D; simpl; rewrite IH by exact Hn; [reflexivity|].
  destruct (String.eqb n k) eqn:E; [|reflexivity].
  apply String.eqb_eq in E; subst. congruence.
Qed.

Lemma classPropsEvery_filter : forall X path (cps : list (string * ClassProp)) fs l,
  Forall (fun np => isSome (lookup_str (fst np) cps) = true) l ->
  classPropsEvery X (JObj (filter (fun kv => isSome (lookup_str (fst kv) cps)) fs)) path l =
  classPropsEvery X (JObj fs) path l.
Proof.
  induction l as [|[n pd] t IH]; intros F; [reflexivity|].
  inversion F as [|? ? Fn Ft]; subst. simpl in Fn. simpl.
  rewrite (str_mem_filter_declared cps fs n Fn). rewrite IH by exact Ft. reflexivity.
Qed.

Lemma lookup_str_declared_self : forall {A} (cps : list (string * A)),
  Forall (fun np => isSome (lookup_str (fst np) cps) = true) cps.
Proof.
  intros A cps. apply Forall_forall. intros [n pd] Hin. simpl.
  induction cps as [|[k v] t IH]; [destruct Hin|]. simpl.
  destruct (String.eqb n k) eqn:E; [reflexivity|].
  destruct Hin as [Heq|Hin]; [injection Heq as -> _; rewrite String.eqb_refl in E; discriminate|].
  exact (IH Hin).
Qed.

Section ClassFilter.
Variables isDate isTime isDateTime isURI : jsval -> bool.
Local Notation PXN := (parseXMLNode isDate isTime isDateTime isURI).

Lemma xmlFields_filter : forall X cps fs res p,
  xmlFields isDate isTime isDateTime isURI X cps fs res p =
  xmlFields isDate isTime isDateTime isURI X cps
    (filter (fun kv => isSome (lookup_str (fst kv) cps)) fs) res p.
Proof.
  induction fs as [|[k pv] t IH]; intros res p; [reflexivity|].
  simpl. destruct (lookup_str k cps) as [ps|] eqn:L; simpl.
  - destruct (xmlStep cps k res p _) as [r| |]; simpl; [apply IH|reflexivity|reflexivity].
  - unfold xmlStep at 1. rewrite L. destruct (startsWithAt k); simpl; apply IH.
Qed.

Theorem parseXMLtoJSON_class_omits_undeclared : forall X fs tag path cps,
  getClassType X (childPath path tag) = Some cps ->
  PXN X (JObj fs) tag (Some K_class) path =
  PXN X (JObj (filter (fun kv => isSome (lookup_str (fst kv) cps)) fs)) tag (Some K_class) path.
Proof.
  intros X fs tag path cps G.
  rewrite !PXN_class_obj, G, !isValid_every, G.
  rewrite classPropsEvery_filter by apply lookup_str_declared_self.
  destruct (classPropsEvery X (JObj fs) _ cps) as [[|]| |]; simpl; try reflexivity.
  rewrite <- xmlFields_filter. reflexivity.
Qed.
End ClassFilter.


Lemma getClassType_setOptional : forall b X p,
  getClassType (setOptional b X) p = option_map (optAll b) (getClassType X p).
Proof.
  intros b [objs arrs uns] p. unfold getClassType, setOptional; simpl.
  induction objs as [|[q cps] t IH]; simpl; [reflexivity|].
  destruct (String.eqb p q); [reflexivity | exact IH].
Qed.

Lemma jsonProp_optAll : forall b cps n,
  jsonProp (optAll b cps) n =
  match jsonProp cps n with
  | Done ps => Done (mkClassProp b (cpr_kind ps) (cpr_type ps))
  | Panic m => Panic m
  | OutOfFuel => OutOfFuel
  end.
Proof.
  intros b cps n. unfold jsonProp.
  induction cps as [|[k cp] t IH]; simpl; [reflexivity|].
  destruct (String.eqb n k); [reflexivity | exact IH].
Qed.

Section Presence.
Variables isDate isTime isDateTime isURI : jsval -> bool.
Local Notation PJN := (parseJSONNode isDate isTime isDateTime isURI).

Lemma parseJSONNode_setOptional : forall b X v tag kind path,
  PJN (setOptional b X) v tag kind path = PJN X v tag kind path.
Proof.
  intros b X v. induction v as [| bb | x | s | l IHl | fs IHfs] using jsval_ind';
    intros tag kind path; destruct kind; try reflexivity.
  - simpl. rewrite getClassType_setOptional.
    destruct (getClassType X _); reflexivity.
  - rewrite !PJN_array. change (getArrayType (setOptional b X)) with (getArrayType X).
    destruct (getArrayType X (childPath path tag)) as [ai|]; [|reflexivity].
    assert (E : forall p, jsonItems isDate isTime isDateTime isURI (setOptional b X) ai l p =
                          jsonItems isDate isTime isDateTime isURI X ai l p).
    { induction IHl as [|x t Hx Ht IH]; intros p; [reflexivity|]. simpl.
      rewrite Hx. destruct (PJN X x _ _ p); simpl; [rewrite IH|..]; reflexivity. }
    rewrite E. reflexivity.
  - rewrite !PJN_class_arr, getClassType_setOptional.
    destruct (getClassType X (childPath path tag)) as [cps|]; simpl; [|reflexivity].
    assert (E : forall i p, jsonIndexed isDate isTime isDateTime isURI (setOptional b X) (optAll b cps) l i p =
                            jsonIndexed isDate isTime isDateTime isURI X cps l i p).
    { induction IHl as [|x t Hx Ht IH]; intros i p; [reflexivity|]. simpl.
      rewrite jsonProp_optAll. destruct (jsonProp cps _) as [ps| |]; simpl; try reflexivity.
      rewrite Hx. destruct (PJN X x _ _ p); simpl; [rewrite IH|..]; reflexivity. }
    rewrite E. reflexivity.
  - rewrite !PJN_class, getClassType_setOptional.
    destruct (getClassType X (childPath path tag)) as [cps|]; simpl; [|reflexivity].
    assert (E : forall p, jsonFields isDate isTime isDateTime isURI (setOptional b X) (optAll b cps) fs p =
                          jsonFields isDate isTime isDateTime isURI X cps fs p).
    { induction IHfs as [|[n x] t Hx Ht IH]; intros p; [reflexivity|]. simpl in Hx |- *.
      rewrite jsonProp_optAll. destruct (jsonProp cps n) as [ps| |]; simpl; try reflexivity.
      rewrite Hx. destruct (PJN X x _ _ p); simpl; [rewrite IH|..]; reflexivity. }
    rewrite E. reflexivity.
Qed.

Lemma parseJSON_setOptional : forall b X j top file,
  parseJSON isDate isTime isDateTime isURI (setOptional b X) j top file =
  parseJSON isDate isTime isDateTime isURI X j top file.
Proof. intros. unfold parseJSON. rewrite parseJSONNode_setOptional. reflexivity. Qed.

Lemma jsonFields_undeclared : forall X cps fs n pv,
  In (n, pv) fs -> lookup_str n cps = None ->
  forall p out, jsonFields isDate isTime isDateTime isURI X cps fs p <> Done out.
Proof.
  intros X cps fs n pv Hin L. induction fs as [|[k x] t IH]; [destruct Hin|].
  intros p out. simpl. destruct Hin as [Heq|Hin].
  - injection Heq as -> ->. unfold jsonProp. rewrite L. discriminate.
  - destruct (jsonProp cps k) as [ps| |]; simpl; try discriminate.
    destruct (PJN X x k (cpr_kind ps) p) as [r| |]; simpl; try discriminate.
    destruct (jsonFields _ _ _ _ X cps t (snd r)) as [rs| |] eqn:E; simpl; try discriminate.
    intros Hd. exact (IH Hin _ _ E).
Qed.

Lemma parseJSONNode_undeclared : forall X fs tag path cps n pv,
  getClassType X (childPath path tag) = Some cps ->
  In (n, pv) fs -> lookup_str n cps = None ->
  forall r, PJN X (JObj fs) tag K_class path <> Done r.
Proof.
  intros X fs tag path cps n pv G Hin L r. rewrite PJN_class, G.
  destruct (jsonFields _ _ _ _ X cps fs _) as [rs| |] eqn:E; simpl; try discriminate.
  intros _. exact (jsonFields_undeclared _ _ _ _ _ Hin L _ _ E).
Qed.
End Presence.

Lemma parseJSON_empty_object : forall isDate isTime isDateTime isURI X top file cps,
  getClassType X top = Some cps ->
  parseJSON isDate isTime isDateTime isURI X (JObj []) top file =
  Done (XElem top [("xmlns:xsd", String.append BASE_XMLNS "-instance");
                   ("xsd:noNamespaceSchemaLocation", file)] []).
Proof.
  intros isDate isTime isDateTime isURI X top file cps G. unfold parseJSON. simpl.
  change (childPath "" top) with top. rewrite G. reflexivity.
Qed.

Lemma classPropsEvery_missing : forall X fs path l n pd,
  In (n, pd) l -> cpr_isOptional pd = false ->
  str_mem n (map fst fs) = false -> str_mem n objectPrototypeKeys = false ->
  classPropsEvery X (JObj fs) path l = Done false.
Proof.
  intros X fs path l n pd Hin Opt M P.
  induction l as [|[k q] t IH]; [destruct Hin|]. cbn -[str_mem objectPrototypeKeys].
  destruct Hin as [Heq|Hin].
  - injection Heq as -> ->. rewrite M, P, Opt. reflexivity.
  - destruct (negb (str_mem k (map fst fs) || str_mem k objectPrototypeKeys) && negb (cpr_isOptional q));
      [reflexivity|].
    destruct (propKindOk _ _ _); [exact (IH Hin)|reflexivity].
Qed.

Lemma isValid_missing_required : forall X fs path cps n pd,
  getClassType X path = Some cps -> In (n, pd) cps -> cpr_isOptional pd = false ->
  str_mem n (map fst fs) = false -> str_mem n objectPrototypeKeys = false ->
  isValidClassPropsInXMLObject X (JObj fs) path = Done false.
Proof.
  intros. rewrite isValid_every, H. eapply classPropsEvery_missing; eauto.
Qed.

Section ConvUnfold.
Variables isDate isTime isDateTime isURI : jsval -> bool.
Lemma conforms_array : forall X path l,
  conforms isDate isTime isDateTime isURI X path K_array (JArr l) =
  match getArrayType X path with
  | Some ai => plainTag (ai_itemTag ai) && Nat.leb 2 (List.length l) &&
               conformsItems isDate isTime isDateTime isURI X path ai l
  | None => false
  end.
Proof. intros. exact eq_refl. Qed.
Lemma conforms_class : forall X path fs,
  conforms isDate isTime isDateTime isURI X path K_class (JObj fs) =
  match getClassType X path with
  | Some cps =>
      nodup_str (map fst fs) &&
      forallb (fun '(n, pd) => (cpr_isOptional pd || str_mem n (map fst fs))
                               && propKindOk X (childPath path n) (cpr_kind pd)) cps &&
      conformsFields isDate isTime isDateTime isURI X path cps fs
  | None => false
  end.
Proof. intros. exact eq_refl. Qed.
Lemma retype_array : forall X path l,
  retype isDate isTime isDateTime isURI X path K_array (JArr l) =
  match getArrayType X path with
  | Some ai => JArr (retypeItems isDate isTime isDateTime isURI X path ai l)
  | None => JArr l
  end.
Proof. intros. exact eq_refl. Qed.
Lemma retype_class : forall X path fs,
  retype isDate isTime isDateTime isURI X path K_class (JObj fs) =
  match getClassType X path with
  | Some cps => JObj (retypeFields isDate isTime isDateTime isURI X path cps fs)
  | None => JObj fs
  end.
Proof. intros. exact eq_refl. Qed.
End ConvUnfold.
Lemma xml_content_elem : forall tag atts kids,
  xml_content (XElem tag atts kids) =
  let es := xmlEntries kids in
  let attrs := map (fun '(k, v) => ("@" ++ k, JStr v)) atts in
  match atts, es with
  | [], [("#", JStr s)] => JStr s
  | _, _ =>
      let rs := runs es in
      if nodup_str (map fst rs) then JObj (attrs ++ map (fun '(k, vs) => (k, runValue vs)) rs)
      else JObj (attrs ++ [("#", JArr (map (fun '(k, vs) => JObj [(k, runValue vs)]) rs))])
  end.
Proof. intros. exact eq_refl. Qed.

(** Paths *)

Lemma lastIndexOf_from_app : forall c a b i best,
  lastIndexOf_from c (a ++ b) i best =
  lastIndexOf_from c b (i + Z.of_nat (String.length a)) (lastIndexOf_from c a i best).
Proof.
  induction a as [|d r IH]; intros b i best; simpl.
  - rewrite Z.add_0_r. reflexivity.
  - rewrite IH. f_equal. lia.
Qed.

Lemma lastIndexOf_from_none : forall c s i best,
  all_chars (fun d => negb (Ascii.eqb d c)) s = true -> lastIndexOf_from c s i best = best.
Proof.
  induction s as [|d r IH]; intros i best H; simpl in *; [reflexivity|].
  apply andb_prop in H as [H1 H2]. rewrite Ascii.eqb_sym in H1.
  destruct (Ascii.eqb c d); [discriminate|]. apply IH; exact H2.
Qed.

Lemma str_take_app : forall a b, str_take (String.length a) (a ++ b) = a.
Proof. induction a; intros; simpl; [reflexivity | now rewrite IHa]. Qed.

Lemma plainTag_ne : forall n, plainTag n = true -> n <> "".
Proof. intros n H E; subst; discriminate. Qed.

Lemma plainTag_nodot : forall n, plainTag n = true ->
  all_chars (fun d => negb (Ascii.eqb d "."%char)) n = true.
Proof. unfold plainTag; intros n H. repeat (apply andb_prop in H as [H ?]). assumption. Qed.

Lemma plainTag_at : forall n, plainTag n = true -> startsWithAt n = false.
Proof. unfold plainTag; intros n H. repeat (apply andb_prop in H as [H ?]). now apply negb_true_iff. Qed.

Lemma plainTag_hash : forall n, plainTag n = true -> n <> "#".
Proof. unfold plainTag; intros n H. repeat (apply andb_prop in H as [H ?]). intros ->. discriminate. Qed.

Lemma plainTag_proto : forall n, plainTag n = true -> String.eqb n "__proto__" = false.
Proof. unfold plainTag; intros n H. repeat (apply andb_prop in H as [H ?]). now apply negb_true_iff. Qed.

Lemma plainTag_index : forall n, plainTag n = true -> arrayIndexOf n = None.
Proof.
  unfold plainTag, arrayIndexOf; intros n H. repeat (apply andb_prop in H as [H ?]).
  destruct n as [|c r]; [discriminate|]. apply negb_true_iff in H0.
  simpl. rewrite H0. reflexivity.
Qed.

Lemma js_set_plain_fresh : forall {A} (l : list (string * A)) k v,
  plainTag k = true -> str_mem k (map fst l) = false -> js_set k v l = (l ++ [(k, v)])%list.
Proof. intros A l k v P F. unfold js_set. rewrite F, (plainTag_index _ P). reflexivity. Qed.

Lemma childPath_ne : forall c n, n <> "" -> childPath c n <> "".
Proof.
  unfold childPath; intros c n Hn. destruct (String.eqb c "") eqn:E; [exact Hn|].
  destruct c; [discriminate | discriminate].
Qed.

Lemma childPath_nonempty : forall c n, c <> "" -> childPath c n = c ++ "." ++ n.
Proof.
  unfold childPath; intros c n Hc. destruct (String.eqb c "") eqn:E; [|reflexivity].
  apply String.eqb_eq in E. contradiction.
Qed.

Lemma parentPath_childPath : forall c n, c <> "" ->
  all_chars (fun d => negb (Ascii.eqb d "."%char)) n = true ->
  parentPath (childPath c n) = c.
Proof.
  intros c n Hc Hn. rewrite childPath_nonempty by exact Hc.
  unfold parentPath, lastIndexOfDot. rewrite lastIndexOf_from_app. simpl.
  rewrite lastIndexOf_from_none by exact Hn.
  unfold slice0. rewrite slength_app. simpl.
  replace (Z.ltb (Z.of_nat (String.length c)) 0) with false by (symmetry; apply Z.ltb_ge; lia).
  rewrite Z.min_l by lia. rewrite Nat2Z.id. apply str_take_app.
Qed.

Lemma parentPath_child_tag : forall c n, c <> "" -> plainTag n = true ->
  parentPath (childPath c n) = c.
Proof. intros. apply parentPath_childPath; [assumption | now apply plainTag_nodot]. Qed.

(** Whitespace *)

Lemma trim_start_ws : forall s, ws_only s = true -> trim_start s = "".
Proof.
  unfold ws_only; induction s as [|c r IH]; simpl; intros H; [reflexivity|].
  apply andb_prop in H as [H1 H2]. rewrite H1. exact (IH H2).
Qed.

Lemma StringToNumber_ws : forall s, ws_only s = true -> StringToNumber s = Fin 0 0.
Proof. intros s H. unfold StringToNumber. rewrite trim_start_ws by exact H. reflexivity. Qed.

Lemma NumberToString_not_ws : forall x, canonical x = true -> isNaN x = false ->
  ws_only (NumberToString x) = false.
Proof.
  intros x C N. destruct (ws_only (NumberToString x)) eqn:W; [|reflexivity].
  pose proof (NumberToString_roundtrip x C N) as R. rewrite StringToNumber_ws in R by exact W.
  subst x. discriminate.
Qed.

Lemma textValue_not_null : forall s, textValue s <> JNull.
Proof. unfold textValue; intros s. destruct (ws_only s); discriminate. Qed.

Section Prim.
Variables isDate isTime isDateTime isURI : jsval -> bool.
Local Notation XV := (getPrimitiveKindXMLValue isDate isTime isDateTime isURI).
Local Notation JV := (getPrimitiveKindJSONValue isDate isTime isDateTime isURI).

Lemma textValue_str : forall s, ws_only s = false -> textValue s = JStr s.
Proof. unfold textValue; intros s H; rewrite H; reflexivity. Qed.

Lemma number_text : forall x, canonical x = true -> isNaN x = false ->
  textValue (NumberToString x) = JStr (NumberToString x) /\
  ToNumber (JStr (NumberToString x)) = x.
Proof.
  intros x C N. split.
  - apply textValue_str, NumberToString_not_ws; assumption.
  - simpl. apply NumberToString_roundtrip; assumption.
Qed.

Lemma prim_roundtrip : forall p v,
  primConforms isDate isTime isDateTime isURI p v = true ->
  exists t, XV v p = Some t /\
            JV (textValue (txt_of t)) p = Done (Some (retypePrim p v)).
Proof.
  intros p v H.
  destruct p; destruct v as [| b | x | s | l | fs]; simpl in H; try discriminate.
  - (* none, null *) exists (JStr ""). split; reflexivity.
  - (* none, {} *) destruct fs; [|discriminate]. exists (JStr ""). split; reflexivity.
  - (* null *) exists (JStr ""). split; reflexivity.
  - (* bool *) exists (JStr (if b then "true" else "false")). split; [reflexivity|].
    destruct b; reflexivity.
  - (* integer *) apply andb_prop in H as [N C]. apply negb_true_iff in N.
    exists (JStr (NumberToString x)). simpl. rewrite N. split; [reflexivity|].
    destruct (number_text x C N) as [T R]. simpl in T. rewrite T.
    cbn -[NumberToString ToNumber]. rewrite R, N. reflexivity.
  - (* double *) apply andb_prop in H as [N C]. apply negb_true_iff in N.
    exists (JStr (NumberToString x)). simpl. rewrite N. split; [reflexivity|].
    destruct (number_text x C N) as [T R]. simpl in T. rewrite T.
    cbn -[NumberToString ToNumber]. rewrite R, N. reflexivity.
  - (* string *) exists (JStr s). split; [reflexivity|]. simpl.
    unfold textValue. destruct (ws_only s); reflexivity.
  - (* date *) apply andb_prop in H as [D W]. apply negb_true_iff in W.
    exists (JStr s). simpl. rewrite D. split; [reflexivity|].
    rewrite textValue_str by exact W. simpl. rewrite D. reflexivity.
  - (* time *) apply andb_prop in H as [D W]. apply negb_true_iff in W.
    exists (JStr s). simpl. rewrite D. split; [reflexivity|].
    rewrite textValue_str by exact W. simpl. rewrite D. reflexivity.
  - (* date_time *) apply andb_prop in H as [D W]. apply negb_true_iff in W.
    exists (JStr s). simpl. rewrite D. split; [reflexivity|].
    rewrite textValue_str by exact W. simpl. rewrite D. reflexivity.
  - (* uri *) apply andb_prop in H as [D W]. apply negb_true_iff in W.
    exists (JStr s). simpl. rewrite D. split; [reflexivity|].
    rewrite textValue_str by exact W. simpl. rewrite D. reflexivity.
  - (* integer string *) apply negb_true_iff in H.
    exists (JStr (NumberToString (StringToNumber s))). simpl. rewrite H. split; [reflexivity|].
    destruct (number_text (StringToNumber s) (StringToNumber_canonical s) H) as [T R].
    simpl in T. rewrite T. cbn -[NumberToString ToNumber]. rewrite R, H. reflexivity.
  - (* bool string *) apply orb_prop in H as [E|E]; apply String.eqb_eq in E; subst s;
      [exists (JStr "true") | exists (JStr "false")]; split; reflexivity.
Qed.

(** The coercions of the JSON direction throw only on [null]. *)
Lemma JV_total : forall v k, v <> JNull -> exists o, JV v k = Done o.
Proof.
  intros v k Hv. destruct k; simpl; try (eexists; reflexivity);
    destruct v; try (exfalso; apply Hv; reflexivity); simpl; eexists; reflexivity.
Qed.

Lemma findKind_first : forall fmt v ms,
  (forall k, exists o, getPrimitiveKindValue isDate isTime isDateTime isURI fmt v k = Done o) ->
  exists r, findKind isDate isTime isDateTime isURI fmt v ms = Done r /\
  match r with
  | Some k => exists t, getPrimitiveKindValue isDate isTime isDateTime isURI fmt v k = Done (Some t) /\
              firstAccepting (fun k => match getPrimitiveKindValue isDate isTime isDateTime isURI fmt v k
                                       with Done o => o | _ => None end) ms = Some t
  | None => firstAccepting (fun k => match getPrimitiveKindValue isDate isTime isDateTime isURI fmt v k
                                       with Done o => o | _ => None end) ms = None
  end.
Proof.
  intros fmt v ms T. induction ms as [|k t IH]; [exists None; split; reflexivity|].
  destruct (T k) as [[o|] E]; simpl; rewrite E; simpl.
  - exists (Some k). split; [reflexivity|]. exists o. split; [exact E | reflexivity].
  - exact IH.
Qed.

(** [parseUnion] when no coercion throws: the result of the first member
    kind that accepts. *)
Lemma parseUnion_first : forall X v P fmt ms,
  getUnionType X P = Some ms ->
  (forall k, exists o, getPrimitiveKindValue isDate isTime isDateTime isURI fmt v k = Done o) ->
  parseUnion isDate isTime isDateTime isURI X v P fmt =
  match firstAccepting (fun k => match getPrimitiveKindValue isDate isTime isDateTime isURI fmt v k
                                 with Done o => o | _ => None end) ms with
  | Some t => Done t
  | None => Panic "Failed parse to XML with type union"
  end.
Proof.
  intros X v P fmt ms G T. unfold parseUnion. rewrite G.
  destruct (findKind_first fmt v ms T) as [[k|] [E F]]; rewrite E; simpl.
  - destruct F as [t [E2 F]]. rewrite F. unfold parsePrimitiveKind. rewrite E2. reflexivity.
  - rewrite F. reflexivity.
Qed.

Lemma parseUnion_XML : forall X v P ms,
  getUnionType X P = Some ms ->
  parseUnion isDate isTime isDateTime isURI X v P Fmt_XML =
  match firstAccepting (XV v) ms with
  | Some t => Done t
  | None => Panic "Failed parse to XML with type union"
  end.
Proof.
  intros X v P ms G. rewrite (parseUnion_first X v P Fmt_XML ms G) by (intros k; eexists; reflexivity).
  reflexivity.
Qed.

Lemma parseUnion_JSON_text : forall X s P ms,
  getUnionType X P = Some ms ->
  parseUnion isDate isTime isDateTime isURI X (textValue s) P Fmt_JSON =
  match firstAccepting (jsonCo isDate isTime isDateTime isURI (textValue s)) ms with
  | Some t => Done t
  | None => Panic "Failed parse to XML with type union"
  end.
Proof.
  intros X s P ms G. rewrite (parseUnion_first X (textValue s) P Fmt_JSON ms G).
  - reflexivity.
  - intros k. apply JV_total, textValue_not_null.
Qed.
End Prim.

Lemma runs_distinct : forall es, nodup_str (map fst es) = true ->
  runs es = map (fun '(k, v) => (k, [v])) es.
Proof.
  induction es as [|[k v] t IH]; simpl; intros H; [reflexivity|].
  apply andb_prop in H as [H1 H2]. rewrite (IH H2).
  destruct t as [|[k' v'] t']; simpl; [reflexivity|].
  simpl in H1. destruct (String.eqb k k'); [discriminate|reflexivity].
Qed.

Lemma runs_same : forall (k : string) (vs : list jsval), vs <> [] -> runs (map (fun v => (k, v)) vs) = [(k, vs)].
Proof.
  intros k vs. induction vs as [|v t IH]; intros H; [contradiction|].
  destruct t as [|v' t']; [reflexivity|].
  simpl map. simpl runs. simpl map in IH. simpl runs in IH. rewrite IH by discriminate.
  rewrite String.eqb_refl. reflexivity.
Qed.

Lemma map_runs_distinct : forall (es : list (string * jsval)),
  map (fun '(k, vs) => (k, runValue vs)) (map (fun '(k, v) => (k, [v])) es) = es.
Proof. induction es as [|[k v] t IH]; simpl; [reflexivity | now rewrite IH]. Qed.

Lemma map_fst_runs_distinct : forall (es : list (string * jsval)),
  map fst (map (fun '(k, v) => (k, [v])) es) = map fst es.
Proof. induction es as [|[k v] t IH]; simpl; [reflexivity | now rewrite IH]. Qed.

(** The single-text form of [xml_content] applies only to a [#] entry. *)
Lemma xml_content_default : forall tag atts kids,
  (atts <> [] \/ forall s, xmlEntries kids <> [("#", JStr s)]) ->
  xml_content (XElem tag atts kids) =
  let rs := runs (xmlEntries kids) in
  if nodup_str (map fst rs) then JObj (attrEntries atts ++ map (fun '(k, vs) => (k, runValue vs)) rs)
  else JObj (attrEntries atts ++ [("#", JArr (map (fun '(k, vs) => JObj [(k, runValue vs)]) rs))]).
Proof.
  intros tag atts kids H. rewrite xml_content_elem. unfold attrEntries. cbv zeta.
  destruct atts as [|a atts]; [|reflexivity].
  destruct H as [H|H]; [contradiction|].
  destruct (xmlEntries kids) as [|[k v] t]; [reflexivity|].
  destruct k as [|c r]; [reflexivity|].
  destruct c as [b0 b1 b2 b3 b4 b5 b6 b7].
  destruct b0, b1, b2, b3, b4, b5, b6, b7; try reflexivity.
  destruct r; [|reflexivity]. destruct v; try reflexivity. destruct t; [|reflexivity]. exfalso. eapply H. reflexivity.
Qed.


Lemma xmlEntries_elems : forall nks, xmlEntries (map mkElem nks) = map mkEntry nks.
Proof. induction nks as [|nk t IH]; simpl; [reflexivity | now rewrite IH]. Qed.

Lemma class_content : forall tag atts nks,
  nodup_str (map fst nks) = true -> Forall (fun n => n <> "#") (map fst nks) ->
  xml_content (XElem tag atts (map mkElem nks)) = JObj (attrEntries atts ++ map mkEntry nks).
Proof.
  intros tag atts nks N F. rewrite xml_content_default.
  - cbv zeta. rewrite xmlEntries_elems.
    assert (K : map fst (map mkEntry nks) = map fst nks)
      by (rewrite map_map; reflexivity).
    rewrite runs_distinct by (rewrite K; exact N).
    rewrite map_fst_runs_distinct, K, N, map_runs_distinct. reflexivity.
  - right. intros s E. rewrite xmlEntries_elems in E.
    destruct nks as [|[n ks] [|]]; try discriminate. simpl in E. injection E as E _.
    inversion F; subst. contradiction.
Qed.

Lemma array_content : forall tag atts itag kss,
  2 <= List.length kss ->
  xml_content (XElem tag atts (map (fun ks => XElem itag [] ks) kss)) =
  JObj (attrEntries atts ++ [(itag, JArr (map (fun ks => xml_content (XElem itag [] ks)) kss))]).
Proof.
  intros tag atts itag kss L.
  assert (E : xmlEntries (map (fun ks => XElem itag [] ks) kss) =
              map (fun v => (itag, v)) (map (fun ks => xml_content (XElem itag [] ks)) kss)).
  { clear L. induction kss as [|ks t IH]; simpl; [reflexivity | now rewrite IH]. }
  rewrite xml_content_default.
  - cbv zeta. rewrite E, runs_same.
    + simpl. destruct kss as [|k1 [|k2 t]]; simpl in L; try lia. reflexivity.
    + destruct kss; simpl in L; [lia | discriminate].
  - right. intros s H. rewrite E in H. destruct kss as [|k1 [|k2 t]]; simpl in L; try lia.
    discriminate.
Qed.

Lemma text_content : forall tag s, xml_content (XElem tag [] [XText s]) = textValue s.
Proof.
  intros tag s. unfold textValue. rewrite xml_content_elem. cbv zeta. simpl.
  destruct (ws_only s); reflexivity.
Qed.

Lemma set_str_fresh : forall {A} (l : list (string * A)) k v,
  str_mem k (map fst l) = false -> set_str k v l = (l ++ [(k, v)])%list.
Proof.
  induction l as [|[k' v'] t IH]; simpl; intros k v H; [reflexivity|].
  unfold str_mem in H. simpl in H. apply orb_false_iff in H as [H1 H2].
  rewrite H1. f_equal. apply IH. exact H2.
Qed.

Lemma str_mem_app : forall n a b, str_mem n (a ++ b)%list = str_mem n a || str_mem n b.
Proof. intros. unfold str_mem. apply existsb_app. Qed.

Lemma attr_keys_at : forall atts,
  Forall (fun kv => startsWithAt (fst kv) = true) (attrEntries atts).
Proof. induction atts as [|[k v] t IH]; simpl; constructor; auto. Qed.

Lemma startsWithAt_eqb : forall k n, startsWithAt k = true -> startsWithAt n = false ->
  String.eqb k n = false.
Proof.
  intros k n H1 H2. destruct (String.eqb k n) eqn:E; [|reflexivity].
  apply String.eqb_eq in E. subst. congruence.
Qed.

Lemma classPropsEvery_true : forall X cur (fs fs' : list (string * jsval)) l,
  cur <> "" ->
  forallb (fun '(n, pd) => (cpr_isOptional pd || str_mem n (map fst fs))
                           && propKindOk X (childPath cur n) (cpr_kind pd)) l = true ->
  (forall n, str_mem n (map fst fs) = true -> str_mem n (map fst fs') = true) ->
  classPropsEvery X (JObj fs') cur l = Done true.
Proof.
  intros X cur fs fs' l Hc H Sub. induction l as [|[n pd] t IH]; [reflexivity|].
  simpl in H. apply andb_prop in H as [H1 H2]. apply andb_prop in H1 as [H1 H3].
  cbn -[str_mem objectPrototypeKeys].
  rewrite childPath_nonempty in H3 by exact Hc. cbn [String.append] in H3.
  destruct (cpr_isOptional pd) eqn:O.
  - rewrite andb_false_r. rewrite H3. exact (IH H2).
  - simpl in H1. rewrite (Sub n H1). simpl. rewrite H3. exact (IH H2).
Qed.

Section Loops.
Variables isDate isTime isDateTime isURI : jsval -> bool.
Local Notation PJN := (parseJSONNode isDate isTime isDateTime isURI).
Local Notation PXN := (parseXMLNode isDate isTime isDateTime isURI).

Lemma xmlFields_attrs : forall X cps pre l res p,
  Forall (fun kv => startsWithAt (fst kv) = true) pre ->
  xmlFields isDate isTime isDateTime isURI X cps (pre ++ l) res p =
  xmlFields isDate isTime isDateTime isURI X cps l res p.
Proof.
  intros X cps pre l res p F. induction F as [|[k v] t Hk Ft IH]; [reflexivity|].
  simpl in Hk |- *. unfold xmlStep at 1. rewrite Hk. simpl. exact IH.
Qed.

Lemma xmlFind_attrs : forall X ai cur pre l,
  Forall (fun kv => startsWithAt (fst kv) = true) pre ->
  startsWithAt (ai_itemTag ai) = false ->
  xmlFind isDate isTime isDateTime isURI X ai cur (pre ++ l) =
  xmlFind isDate isTime isDateTime isURI X ai cur l.
Proof.
  intros X ai cur pre l F Ht. induction F as [|[k v] t Hk Ft IH]; [reflexivity|].
  simpl in Hk |- *. rewrite (startsWithAt_eqb _ _ Hk Ht). exact IH.
Qed.

Lemma PJN_prim : forall X v tag p path,
  PJN X v tag (K_prim p) path =
  t <- parsePrimitiveKind isDate isTime isDateTime isURI v p Fmt_XML ;;
  Done (XElem tag [] [XText (txt_of t)], parentPath (childPath path tag)).
Proof. intros. destruct v; reflexivity. Qed.

Lemma PJN_union : forall X v tag path,
  PJN X v tag K_union path =
  t <- parseUnion isDate isTime isDateTime isURI X v (childPath path tag) Fmt_XML ;;
  Done (XElem tag [] [XText (txt_of t)], parentPath (childPath path tag)).
Proof. intros. destruct v; reflexivity. Qed.

Lemma PXN_prim : forall X v tag p path,
  PXN X v tag (Some (K_prim p)) path =
  r <- parsePrimitiveKind isDate isTime isDateTime isURI v p Fmt_JSON ;;
  Done (r, parentPath (childPath path tag)).
Proof. intros. destruct v; reflexivity. Qed.

Lemma PXN_union : forall X v tag path,
  PXN X v tag (Some K_union) path =
  r <- parseUnion isDate isTime isDateTime isURI X v (childPath path tag) Fmt_JSON ;;
  Done (r, parentPath (childPath path tag)).
Proof. intros. destruct v; reflexivity. Qed.
End Loops.


Section Node.
Variables isDate isTime isDateTime isURI : jsval -> bool.
Local Notation PJN := (parseJSONNode isDate isTime isDateTime isURI).
Local Notation PXN := (parseXMLNode isDate isTime isDateTime isURI).
Local Notation conforms := (conforms isDate isTime isDateTime isURI).
Local Notation retype := (retype isDate isTime isDateTime isURI).
Local Notation NodeRT := (NodeRT isDate isTime isDateTime isURI).


Lemma conforms_prim : forall X path p v,
  conforms X path (K_prim p) v = primConforms isDate isTime isDateTime isURI p v.
Proof. intros. destruct v; reflexivity. Qed.

Lemma conforms_union : forall X path v,
  conforms X path K_union v =
  match getUnionType X path with
  | Some ms => isSome (unionRetype isDate isTime isDateTime isURI ms v)
  | None => false
  end.
Proof. intros. destruct v; reflexivity. Qed.

Lemma retype_prim : forall X path p v,
  retype X path (K_prim p) v = retypePrim p v.
Proof. intros. destruct v; reflexivity. Qed.

Lemma retype_union : forall X path v,
  retype X path K_union v =
  match getUnionType X path with
  | Some ms => default v (unionRetype isDate isTime isDateTime isURI ms v)
  | None => v
  end.
Proof. intros. destruct v; reflexivity. Qed.

Lemma node_prim : forall X path tag p v,
  conforms X (childPath path tag) (K_prim p) v = true -> NodeRT X path tag (K_prim p) v.
Proof.
  intros X path tag p v H. rewrite conforms_prim in H.
  destruct (prim_roundtrip isDate isTime isDateTime isURI p v H) as [t [E1 E2]].
  exists [XText (txt_of t)]. split; [|split].
  - rewrite PJN_prim. unfold parsePrimitiveKind. simpl. rewrite E1. reflexivity.
  - intros atts [->|C]; [|discriminate].
    rewrite text_content, PXN_prim. unfold parsePrimitiveKind. simpl. rewrite E2, retype_prim. reflexivity.
  - discriminate.
Qed.

Lemma node_union : forall X path tag v,
  conforms X (childPath path tag) K_union v = true -> NodeRT X path tag K_union v.
Proof.
  intros X path tag v H. rewrite conforms_union in H.
  destruct (getUnionType X (childPath path tag)) as [ms|] eqn:G; [|discriminate].
  unfold unionRetype in H.
  destruct (firstAccepting (getPrimitiveKindXMLValue isDate isTime isDateTime isURI v) ms)
    as [t|] eqn:F1; [|discriminate].
  destruct (firstAccepting (jsonCo isDate isTime isDateTime isURI (textValue (txt_of t))) ms)
    as [r|] eqn:F2; [|discriminate].
  exists [XText (txt_of t)]. split; [|split].
  - rewrite PJN_union, (parseUnion_XML _ _ _ _ X v _ ms G), F1. reflexivity.
  - intros atts [->|C]; [|discriminate].
    rewrite text_content, PXN_union, (parseUnion_JSON_text _ _ _ _ X _ _ ms G), F2.
    simpl. rewrite retype_union, G. unfold unionRetype. rewrite F1, F2. reflexivity.
  - discriminate.
Qed.

Lemma xmlItems_cons : forall X ai x t p,
  xmlItems isDate isTime isDateTime isURI X ai (x :: t) p =
  r <- PXN X x (ai_itemTag ai) (Some (ai_kind ai)) p ;;
  rs <- xmlItems isDate isTime isDateTime isURI X ai t (snd r) ;;
  Done (fst r :: fst rs, snd rs).
Proof. reflexivity. Qed.

Lemma retypeItems_cons : forall X cur ai x t,
  retypeItems isDate isTime isDateTime isURI X cur ai (x :: t) =
  retype X (childPath cur (ai_itemTag ai)) (ai_kind ai) x ::
  retypeItems isDate isTime isDateTime isURI X cur ai t.
Proof. reflexivity. Qed.

Lemma xmlFields_cons : forall X cps k pv t res p,
  xmlFields isDate isTime isDateTime isURI X cps ((k, pv) :: t) res p =
  r <- xmlStep cps k res p (fun kd => PXN X pv k (Some kd) p) ;;
  xmlFields isDate isTime isDateTime isURI X cps t (fst r) (snd r).
Proof. reflexivity. Qed.

Lemma retypeFields_cons : forall X cur cps n pv t,
  retypeFields isDate isTime isDateTime isURI X cur cps ((n, pv) :: t) =
  (n, match lookup_str n cps with
      | Some pd => retype X (childPath cur n) (cpr_kind pd) pv
      | None => pv
      end) :: retypeFields isDate isTime isDateTime isURI X cur cps t.
Proof. reflexivity. Qed.

Lemma items_rt : forall X cur ai l,
  Forall (fun x => forall X path tag kind, plainTag tag = true ->
            conforms X (childPath path tag) kind x = true -> NodeRT X path tag kind x) l ->
  cur <> "" -> plainTag (ai_itemTag ai) = true ->
  conformsItems isDate isTime isDateTime isURI X cur ai l = true ->
  exists kss, List.length kss = List.length l /\
    jsonItems isDate isTime isDateTime isURI X ai l cur =
      Done (map (fun ks => XElem (ai_itemTag ai) [] ks) kss, cur) /\
    xmlItems isDate isTime isDateTime isURI X ai
      (map (fun ks => xml_content (XElem (ai_itemTag ai) [] ks)) kss) cur =
      Done (retypeItems isDate isTime isDateTime isURI X cur ai l, cur).
Proof.
  intros X cur ai l IH Hc Ht. induction IH as [|x t Hx Ht' IHt]; intros C.
  - exists []. repeat split.
  - simpl in C. apply andb_prop in C as [C1 C2].
    destruct (Hx X cur (ai_itemTag ai) (ai_kind ai) Ht C1) as [kids [J [P _]]].
    rewrite parentPath_child_tag in J, P by assumption.
    destruct (IHt C2) as [kss [L [J2 P2]]].
    exists (kids :: kss). split; [simpl; rewrite L; reflexivity|]. split.
    + simpl. rewrite J. simpl. rewrite J2. reflexivity.
    + cbn [map]. rewrite xmlItems_cons, (P [] (or_introl eq_refl)). cbn [obind fst snd].
      rewrite P2. cbn [obind fst snd]. rewrite retypeItems_cons. reflexivity.
Qed.

Lemma fields_rt : forall X cur cps fs,
  Forall (fun kv => forall X path tag kind, plainTag tag = true ->
            conforms X (childPath path tag) kind (snd kv) = true ->
            NodeRT X path tag kind (snd kv)) fs ->
  cur <> "" ->
  conformsFields isDate isTime isDateTime isURI X cur cps fs = true ->
  exists nks, map fst nks = map fst fs /\
    jsonFields isDate isTime isDateTime isURI X cps fs cur = Done (map mkElem nks, cur) /\
    forall res, nodup_str (map fst fs) = true ->
      Forall (fun n => str_mem n (map fst res) = false) (map fst fs) ->
      xmlFields isDate isTime isDateTime isURI X cps (map mkEntry nks) res cur =
      Done ((res ++ retypeFields isDate isTime isDateTime isURI X cur cps fs)%list, cur).
Proof.
  intros X cur cps fs IH Hc. induction IH as [|[n pv] t Hx Ht' IHt]; intros C.
  - exists []. split; [reflexivity|]. split; [reflexivity|].
    intros res _ _. simpl. rewrite app_nil_r. reflexivity.
  - simpl in C. apply andb_prop in C as [C1 C2]. apply andb_prop in C1 as [Pn C1].
    destruct (lookup_str n cps) as [pd|] eqn:L; [|discriminate].
    simpl in Hx. destruct (Hx X cur n (cpr_kind pd) Pn C1) as [kids [J [P _]]].
    rewrite parentPath_child_tag in J, P by assumption.
    destruct (IHt C2) as [nks [K [J2 P2]]].
    exists ((n, kids) :: nks). split; [simpl; rewrite K; reflexivity|]. split.
    + simpl. unfold jsonProp. rewrite L. simpl. rewrite J. simpl. rewrite J2. reflexivity.
    + intros res N F. simpl in N. apply andb_prop in N as [N1 N2].
      inversion F as [|? ? F1 F2]; subst.
      cbn [map]. unfold mkEntry at 1. cbn [fst snd]. rewrite xmlFields_cons.
      unfold xmlStep at 1. rewrite (plainTag_at _ Pn), L.
      rewrite (P [] (or_introl eq_refl)). simpl obind. cbn [fst snd].
      rewrite retypeFields_cons, L.
      rewrite (plainTag_proto _ Pn), (js_set_plain_fresh _ _ _ Pn F1).
      rewrite P2; [rewrite <- app_assoc; reflexivity | exact N2 |].
      apply Forall_forall. intros m Hm. rewrite map_app, str_mem_app.
      rewrite (proj1 (Forall_forall _ _) F2 m Hm).
      unfold str_mem; simpl. rewrite orb_false_r.
      destruct (String.eqb m n) eqn:E; [|reflexivity].
      apply String.eqb_eq in E. subst m. exfalso.
      apply negb_true_iff in N1. unfold str_mem in N1.
      assert (existsb (String.eqb n) (map fst t) = true)
        by (apply existsb_exists; exists n; split; [exact Hm | apply String.eqb_refl]).
      congruence.
Qed.
Lemma fields_plain : forall X cur cps fs,
  conformsFields isDate isTime isDateTime isURI X cur cps fs = true ->
  Forall (fun n => n <> "#") (map fst fs).
Proof.
  intros X cur cps fs. induction fs as [|[n pv] t IH]; simpl; intros C; constructor.
  - apply andb_prop in C as [C _]. apply andb_prop in C as [C _]. now apply plainTag_hash.
  - apply andb_prop in C as [_ C]. exact (IH C).
Qed.


Lemma js_in_last : forall k pre w, js_in k (JObj (pre ++ [(k, w)])%list) = Done true.
Proof.
  intros k pre w. unfold js_in. rewrite map_app, str_mem_app.
  unfold str_mem at 2. cbn [map fst existsb]. rewrite String.eqb_refl, orb_true_r. reflexivity.
Qed.

Lemma xmlFind_found : forall X ai cur cs,
  xmlFind isDate isTime isDateTime isURI X ai cur [(ai_itemTag ai, JArr cs)] =
  rs <- xmlItems isDate isTime isDateTime isURI X ai cs cur ;;
  Done (JArr (fst rs), parentPath (snd rs)).
Proof. intros. unfold xmlFind. cbv beta fix iota. rewrite String.eqb_refl. reflexivity. Qed.

Lemma node_rt : forall v X path tag kind,
  plainTag tag = true -> conforms X (childPath path tag) kind v = true ->
  NodeRT X path tag kind v.
Proof.
  intros v. induction v as [| b | x | s | l IHl | fs IHfs] using jsval_ind';
    intros X path tag kind Ht Hc;
    (assert (Hcur : childPath path tag <> "") by (apply childPath_ne, plainTag_ne; exact Ht));
    destruct kind as [p| | | | | |];
    try (apply node_prim; exact Hc); try (apply node_union; exact Hc);
    try (simpl in Hc; discriminate).
  - (* array *)
    rewrite conforms_array in Hc.
    destruct (getArrayType X (childPath path tag)) as [ai|] eqn:G; [|discriminate].
    apply andb_prop in Hc as [Hc C]. apply andb_prop in Hc as [Pi Len]. apply Nat.leb_le in Len.
    destruct (items_rt X (childPath path tag) ai l IHl Hcur Pi C) as [kss [L [J P]]].
    exists (map (fun ks => XElem (ai_itemTag ai) [] ks) kss). split; [|split].
    + rewrite PJN_array, G, J. reflexivity.
    + intros atts _. rewrite array_content by lia. rewrite PXN_array_obj, G.
      rewrite xmlFind_attrs by (apply attr_keys_at || (apply plainTag_at; exact Pi)).
      rewrite xmlFind_found, P. cbn [obind fst snd]. rewrite retype_array, G. reflexivity.
    + intros _ U _ atts. rewrite array_content by lia. unfold getXMLObjectKind.
      rewrite U, G. cbn [isSome]. rewrite js_in_last. reflexivity.
  - (* class *)
    rewrite conforms_class in Hc.
    destruct (getClassType X (childPath path tag)) as [cps|] eqn:G; [|discriminate].
    apply andb_prop in Hc as [Hc C]. apply andb_prop in Hc as [N Props].
    destruct (fields_rt X (childPath path tag) cps fs IHfs Hcur C) as [nks [K [J P]]].
    assert (CC : forall atts, xml_content (XElem tag atts (map mkElem nks)) =
                              JObj (attrEntries atts ++ map mkEntry nks)).
    { intros atts. apply class_content; rewrite K; [exact N | exact (fields_plain _ _ _ _ C)]. }
    assert (V : forall atts, isValidClassPropsInXMLObject X
                  (JObj (attrEntries atts ++ map mkEntry nks)) (childPath path tag) = Done true).
    { intros atts. rewrite isValid_every, G. apply (classPropsEvery_true X _ fs); [exact Hcur | exact Props|].
      intros n Hn. rewrite map_app, str_mem_app.
      replace (map fst (map mkEntry nks)) with (map fst fs)
        by (rewrite <- K, map_map; reflexivity).
      rewrite Hn, orb_true_r. reflexivity. }
    exists (map mkElem nks). split; [|split].
    + rewrite PJN_class, G, J. reflexivity.
    + intros atts _. rewrite CC, PXN_class_obj, G, V. simpl obind. cbv iota beta.
      rewrite xmlFields_attrs by apply attr_keys_at.
      rewrite P; [| exact N | apply Forall_forall; reflexivity].
      rewrite retype_class, G. reflexivity.
    + intros _ U A atts. specialize (A eq_refl). rewrite CC. unfold getXMLObjectKind.
      rewrite U, A. simpl. rewrite G, V. reflexivity.
Qed.

End Node.

(** C1 (code bug): a document of the schema [X_arr], the class
    [Root{xs: array<integer>}], whose array [xs] has no item or one item
    converts to XML, and [parseXMLtoJSON]
    throws 'Failed to parse array by path' on the result: xmlbuilder2 reads
    the element [xs] with no child, or with a single [item] child, as an
    object without an array under [item]. With two items the same document
    comes back unchanged. *)
Theorem parseJSON_parseXMLtoJSON_short_array_panics :
  forall isDate isTime isDateTime isURI,
  (exists x,
     parseJSON isDate isTime isDateTime isURI X_arr (JObj [("xs", JArr [])]) "Root" "arr.xsd" = Done x /\
     parseXMLtoJSON isDate isTime isDateTime isURI X_arr (xml_document_object x) =
     Panic "Failed to parse array by path") /\
  (exists x,
     parseJSON isDate isTime isDateTime isURI X_arr
       (JObj [("xs", JArr [JNum (Fin 5 0)])]) "Root" "arr.xsd" = Done x /\
     parseXMLtoJSON isDate isTime isDateTime isURI X_arr (xml_document_object x) =
     Panic "Failed to parse array by path") /\
  (exists x,
     parseJSON isDate isTime isDateTime isURI X_arr
       (JObj [("xs", JArr [JNum (Fin 5 0); JNum (Fin 6 0)])]) "Root" "arr.xsd" = Done x /\
     parseXMLtoJSON isDate isTime isDateTime isURI X_arr (xml_document_object x) =
     Done (JObj [("xs", JArr [JNum (Fin 5 0); JNum (Fin 6 0)])])).
Proof.
  intros isDate isTime isDateTime isURI.
  split; [|split]; (eexists; split; [reflexivity|]); vm_compute; reflexivity.
Qed.



(** [j_ids] conforms to [X_ids], which has no integer-string and no
    [none] kind, yet its round trip turns the string
    ["7"] of the union array into the number [7] and the string [" "] into
    the empty string. *)
Lemma parseJSON_parseXMLtoJSON_union_whitespace_counterexample :
  conformsTop (fun _ => false) (fun _ => false) (fun _ => false) (fun _ => false) X_ids "Root" j_ids = true /\
  match parseJSON (fun _ => false) (fun _ => false) (fun _ => false) (fun _ => false) X_ids j_ids "Root" "ids.xsd" with
  | Done x => parseXMLtoJSON (fun _ => false) (fun _ => false) (fun _ => false) (fun _ => false) X_ids (xml_document_object x)
  | Panic m => Panic m
  | OutOfFuel => OutOfFuel
  end = Done (JObj [("ids", JArr [JNum (Fin 7 0); JStr "x"]); ("s", JStr "")]) /\
  JObj [("ids", JArr [JNum (Fin 7 0); JStr "x"]); ("s", JStr "")] <> j_ids.
Proof.
  split; [vm_compute; reflexivity|]. split; [vm_compute; reflexivity|].
  discriminate.
Qed.



(** C10: the XML-to-JSON conversion of a class element keeps only the
    entries whose name is a declared property of the class at its path: it
    gives the same result as on the object with the undeclared entries
    (attributes included) removed, and every key of its result is a declared
    property and not an attribute name. *)
Theorem parseXMLtoJSON_class_only_declared : forall isDate isTime isDateTime isURI,
  (forall X fs tag path cps,
     getClassType X (childPath path tag) = Some cps ->
     parseXMLNode isDate isTime isDateTime isURI X (JObj fs) tag (Some K_class) path =
     parseXMLNode isDate isTime isDateTime isURI X
       (JObj (filter (fun kv => isSome (lookup_str (fst kv) cps)) fs)) tag (Some K_class) path) /\
  (forall X v tag path r p',
     parseXMLNode isDate isTime isDateTime isURI X v tag (Some K_class) path = Done (r, p') ->
     exists cps rs,
       getClassType X (childPath path tag) = Some cps /\ r = JObj rs /\
       Forall (fun k => lookup_str k cps <> None /\ startsWithAt k = false) (map fst rs)).
Proof.
  intros isDate isTime isDateTime isURI. split.
  - apply parseXMLtoJSON_class_omits_undeclared.
  - apply parseXMLtoJSON_class_declared_keys.
Qed.

(** C10 (witness): under [X_req] the element [xml_c10] converts as its
    declared child [a] alone, to the object with the single key [a]. *)
Lemma parseXMLtoJSON_class_only_declared_witness :
  parseXMLNode (fun _ => false) (fun _ => false) (fun _ => false) (fun _ => false)
    X_req xml_c10 "Root" (Some K_class) "" =
  parseXMLNode (fun _ => false) (fun _ => false) (fun _ => false) (fun _ => false)
    X_req (JObj [("a", JStr "1")]) "Root" (Some K_class) "" /\
  exists cps rs,
    getClassType X_req "Root" = Some cps /\ JObj [("a", JNum (Fin 1 0))] = JObj rs /\
    Forall (fun k => lookup_str k cps <> None /\ startsWithAt k = false) (map fst rs).
Proof.
  destruct (parseXMLtoJSON_class_only_declared (fun _ => false) (fun _ => false) (fun _ => false) (fun _ => false))
    as [P1 P2].
  split.
  - unfold xml_c10. rewrite (P1 X_req [("@x", JStr "y"); ("a", JStr "1"); ("b", JStr "2")] "Root" ""
               [("a", mkClassProp false (K_prim PK_integer) "integer")]) by (vm_compute; reflexivity).
    vm_compute. reflexivity.
  - apply (P2 X_req xml_c10 "Root" "" (JObj [("a", JNum (Fin 1 0))]) (parentPath "Root")).
    vm_compute. reflexivity.
Defined.

(** X1: when no member coercion throws, [parseUnion] gives the result of
    the first member kind, in the order stored for the path, whose coercion
    accepts the value, and fails when none does. *)
Theorem parseUnion_selects_first_accepting : forall isDate isTime isDateTime isURI X v P fmt ms,
  getUnionType X P = Some ms ->
  (forall k, exists o, getPrimitiveKindValue isDate isTime isDateTime isURI fmt v k = Done o) ->
  parseUnion isDate isTime isDateTime isURI X v P fmt =
  match firstAccepting (fun k => match getPrimitiveKindValue isDate isTime isDateTime isURI fmt v k
                                 with Done o => o | _ => None end) ms with
  | Some t => Done t
  | None => Panic "Failed parse to XML with type union"
  end.
Proof. intros isDate isTime isDateTime isURI. apply parseUnion_first. Qed.

(** X1 (witness): the string ["7"] at the union of [integer] and [string]
    of [X_ids] becomes the number [7] in the JSON direction. *)
Lemma parseUnion_selects_first_accepting_witness :
  getUnionType X_ids "Root.ids.idsItem" = Some [PK_integer; PK_string] /\
  parseUnion (fun _ => false) (fun _ => false) (fun _ => false) (fun _ => false)
    X_ids (JStr "7") "Root.ids.idsItem" Fmt_JSON = Done (JNum (Fin 7 0)).
Proof.
  split; [reflexivity|].
  etransitivity.
  - apply (parseUnion_selects_first_accepting (fun _ => false) (fun _ => false) (fun _ => false)
             (fun _ => false) X_ids (JStr "7") "Root.ids.idsItem" Fmt_JSON [PK_integer; PK_string]).
    + reflexivity.
    + intros k. destruct k; eexists; reflexivity.
  - vm_compute. reflexivity.
Defined.

(** * Proofs about the compressed JSON store *)

Module CompressedJSONProofs.

Import CompressedJSON CompressedJSONRead.
Local Open Scope Z_scope.

Lemma ToInt32_id z : - 2 ^ 31 <= z < 2 ^ 31 -> ToInt32 z = z.
Proof.
  intros H. unfold ToInt32.
  destruct (Z_lt_le_dec z 0).
  - replace (z mod 2 ^ 32) with (z + 2 ^ 32).
    + destruct (Z.ltb_spec (z + 2 ^ 32) (2 ^ 31)); lia.
    + apply Z.mod_unique with (-1); lia.
  - rewrite Z.mod_small by lia. destruct (Z.ltb_spec z (2 ^ 31)); lia.
Qed.

Lemma ToInt32_mod z : exists k, ToInt32 z = z - 2 ^ 32 * k /\ - 2 ^ 31 <= ToInt32 z < 2 ^ 31.
Proof.
  unfold ToInt32.
  pose proof (Z.div_mod z (2 ^ 32)) as Hd.
  pose proof (Z.mod_pos_bound z (2 ^ 32)) as Hb.
  destruct (Z.ltb_spec (z mod 2 ^ 32) (2 ^ 31)).
  - exists (z / 2 ^ 32). lia.
  - exists (z / 2 ^ 32 + 1). lia.
Qed.

Lemma lor_small_add t w : 0 <= t < 16 -> w mod 16 = 0 -> Z.lor t w = t + w.
Proof.
  intros Ht Hw.
  assert (Hl : Z.land t w = 0).
  { assert (Et : t = Z.land t (Z.ones 4)).
    { rewrite Z.land_ones by lia. rewrite Z.mod_small; lia. }
    rewrite Et, <- Z.land_assoc, (Z.land_comm (Z.ones 4) w), Z.land_ones by lia.
    change (2 ^ 4) with 16. rewrite Hw. apply Z.land_0_r. }
  rewrite <- Z.lxor_lor by exact Hl. symmetry. apply Z.add_nocarry_lxor. exact Hl.
Qed.

Lemma tagNumber_range t : 0 <= tagNumber t < 16.
Proof. destruct t; simpl; lia. Qed.

Lemma shifted_index i :
  js_shl i TAG_BITS = 16 * sext28 i.
Proof.
  unfold js_shl, TAG_BITS, shiftCount. change (Z.land 4 31) with 4.
  rewrite Z.shiftl_mul_pow2 by lia. change (2 ^ 4) with 16.
  destruct (ToInt32_mod i) as [k [Hk _]]. rewrite Hk.
  unfold ToInt32, sext28.
  replace ((i - 2 ^ 32 * k) * 16) with (16 * i + (- 16 * k) * 2 ^ 32) by lia.
  rewrite Z.mod_add by lia.
  change (2 ^ 32) with (16 * 2 ^ 28). rewrite Z.mul_mod_distr_l by lia.
  change (16 * 2 ^ 28) with (2 ^ 32).
  pose proof (Z.mod_pos_bound i (2 ^ 28)).
  destruct (Z.ltb_spec (i mod 2 ^ 28) (2 ^ 27));
  destruct (Z.ltb_spec (16 * (i mod 2 ^ 28)) (2 ^ 31)); lia.
Qed.

Lemma sext28_range i : - 2 ^ 27 <= sext28 i < 2 ^ 27.
Proof.
  unfold sext28. pose proof (Z.mod_pos_bound i (2 ^ 28)).
  destruct (Z.ltb_spec (i mod 2 ^ 28) (2 ^ 27)); lia.
Qed.

Lemma sext28_small i : 0 <= i < 2 ^ 27 -> sext28 i = i.
Proof.
  intros H. unfold sext28. rewrite Z.mod_small by lia.
  destruct (Z.ltb_spec i (2 ^ 27)); lia.
Qed.

Lemma makeValue_eq t i : makeValue t i = tagNumber t + 16 * sext28 i.
Proof.
  unfold makeValue, js_or. rewrite shifted_index.
  pose proof (tagNumber_range t). pose proof (sext28_range i).
  rewrite (ToInt32_id (tagNumber t)) by lia.
  rewrite (ToInt32_id (16 * sext28 i)) by lia.
  apply lor_small_add; [lia |].
  rewrite Z.mul_comm. apply Z.mod_mul. lia.
Qed.

Lemma TAG_MASK_eq : TAG_MASK = Z.ones 4.
Proof. vm_compute. reflexivity. Qed.

Lemma valueTag_makeValue t i : valueTag (makeValue t i) = tagNumber t.
Proof.
  unfold valueTag, js_and. rewrite makeValue_eq, TAG_MASK_eq.
  pose proof (tagNumber_range t). pose proof (sext28_range i).
  rewrite ToInt32_id by lia. change (ToInt32 (Z.ones 4)) with (Z.ones 4).
  rewrite Z.land_ones by lia. change (2 ^ 4) with 16.
  rewrite (Z.mul_comm 16), Z.mod_add, Z.mod_small; lia.
Qed.

Lemma js_sar_makeValue t i : js_sar (makeValue t i) TAG_BITS = sext28 i.
Proof.
  unfold js_sar. rewrite makeValue_eq.
  pose proof (tagNumber_range t). pose proof (sext28_range i).
  rewrite ToInt32_id by lia. change (shiftCount TAG_BITS) with 4.
  rewrite Z.shiftr_div_pow2 by lia. change (2 ^ 4) with 16.
  rewrite (Z.mul_comm 16), Z.div_add by lia. rewrite Z.div_small by lia. lia.
Qed.

Lemma tagNumber_inj t t' : tagNumber t = tagNumber t' -> t = t'.
Proof. destruct t, t'; simpl; congruence. Qed.

Lemma getIndex_makeValue t t' i :
  getIndex (makeValue t i) t' =
  if Z.eqb (tagNumber t) (tagNumber t') then Done (sext28 i)
  else Panic "Trying to get index for value with invalid tag".
Proof. unfold getIndex. rewrite valueTag_makeValue, js_sar_makeValue. reflexivity. Qed.

(** candidate extras *)
Lemma getIndex_makeValue_wraps (t : Tag) (i : Z) :
  getIndex (makeValue t i) t = Done (let m := i mod 2 ^ 28 in if m <? 2 ^ 27 then m else m - 2 ^ 28).
Proof. rewrite getIndex_makeValue, Z.eqb_refl. reflexivity. Qed.

Lemma getIndex_makeValue_other_tag (t t' : Tag) (i : Z) :
  t <> t' -> getIndex (makeValue t i) t' = Panic "Trying to get index for value with invalid tag".
Proof.
  intros H. rewrite getIndex_makeValue.
  destruct (Z.eqb_spec (tagNumber t) (tagNumber t')) as [E|E]; [|reflexivity].
  apply tagNumber_inj in E. contradiction.
Qed.

Lemma cbind_done {A B} (m : CM A) (k : A -> CM B) st a st' :
  m st = Done (a, st') -> cbind m k st = k a st'.
Proof. unfold cbind. intros H. rewrite H. reflexivity. Qed.

Lemma js_index_app {A} (l l' : list A) i x :
  js_index l i = Some x -> js_index (l ++ l')%list i = Some x.
Proof.
  unfold js_index. destruct (0 <=? i); [|discriminate].
  intros H. rewrite nth_error_app1; [exact H|].
  apply nth_error_Some. congruence.
Qed.

Lemma js_index_last {A} (l : list A) x :
  js_index (l ++ [x])%list (Z.of_nat (List.length l)) = Some x.
Proof.
  unfold js_index. rewrite (proj2 (Z.leb_le _ _)) by lia.
  rewrite Nat2Z.id, nth_error_app2, Nat.sub_diag by lia. reflexivity.
Qed.

Lemma js_index_bound {A} (l : list A) i x :
  js_index l i = Some x -> 0 <= i < Z.of_nat (List.length l).
Proof.
  unfold js_index. destruct (Z.leb_spec 0 i); [|discriminate].
  intros H1. assert (Z.to_nat i < List.length l)%nat by (apply nth_error_Some; congruence).
  lia.
Qed.

Lemma StringsInv_initial : StringsInv initialCJ.
Proof. split; [intros k i H; discriminate | reflexivity]. Qed.

(** [internString] on a consistent table. *)
Lemma internString_spec s st :
  StringsInv st ->
  exists i st', internString s st = Done (i, st') /\
    js_index (strings st') i = Some s /\ StringsInv st' /\
    (exists l, strings st' = (strings st ++ l)%list) /\
    (List.length (strings st') <= S (List.length (strings st)))%nat /\
    st' = with_strings (strings st') (stringIndexes st') st.
Proof.
  intros [Hc Hp]. unfold internString.
  destruct (lookup_str s (stringIndexes st)) as [i|] eqn:E.
  - exists i, st. repeat split; auto.
    + exists []. rewrite app_nil_r. reflexivity.
    + destruct st; reflexivity.
  - eexists _, _. split; [reflexivity|]. unfold with_strings. cbn -[set_str setStringIndex lookup_str js_index app].
    split; [apply js_index_last|]. split; [split|].
    + intros k i Hk. simpl in Hk |- *. unfold setStringIndex in Hk.
      destruct (String.eqb s "__proto__"); cbn beta iota in Hk.
      * apply js_index_app. apply Hc. exact Hk.
      * rewrite lookup_str_set_str in Hk.
        destruct (String.eqb_spec k s) as [->|].
        -- injection Hk as <-. apply js_index_last.
        -- apply js_index_app. apply Hc. exact Hk.
    + simpl. unfold setStringIndex. destruct (String.eqb_spec s "__proto__"); [exact Hp|].
      rewrite lookup_str_set_str.
      destruct (String.eqb_spec "__proto__" s); [congruence | exact Hp].
    + split; [eexists; reflexivity |]. split; [simpl; rewrite length_app; simpl; lia | reflexivity].
Qed.

Lemma setUOP_ok u p k st :
  NotPrim p ->
  exists h src, setUncompressedObjectProperty u p k st = Done (u, with_heap h (with_source src st)).
Proof.
  intros Hp. unfold setUncompressedObjectProperty. destruct st.
  destruct p as [[v|l]|]; simpl in Hp; [contradiction| |].
  - destruct (isArray _ (HRef l)).
    + eexists _, _. reflexivity.
    + destruct k as [k|].
      * simpl. destruct (negb (String.eqb k "")).
        -- unfold cbind, assignProperty, cellAt, cret. simpl.
           destruct (nth_error heap0 l) as [[ps pr|xs]|]; simpl;
             [match goal with |- context [if ?b then _ else _] => destruct b end| |];
             eexists _, _; reflexivity.
        -- eexists _, _. reflexivity.
      * eexists _, _. reflexivity.
  - destruct (typeofObject u); [exists heap0, u | exists heap0, uncompressedSource0]; reflexivity.
Qed.

Lemma UOk_NotPrim c : UOk c -> NotPrim (currentUncompressedObject c).
Proof. unfold UOk, NotPrim. destruct (currentUncompressedObject c) as [[]|]; auto. Qed.

Lemma setUOSP_ok v st :
  CtxOk st ->
  exists h src, setUncompressedObjectSimpleProperty v st = Done (HPrim v, with_heap h (with_source src st)).
Proof.
  intros [Hc _]. unfold setUncompressedObjectSimpleProperty. apply setUOP_ok.
  destruct (ctx st) as [c|]; [apply UOk_NotPrim; exact Hc | exact I].
Qed.

Lemma Ext_refl st : Ext st st.
Proof. split; [|split]; exists []; rewrite app_nil_r; reflexivity. Qed.

Lemma Ext_trans a b c : Ext a b -> Ext b c -> Ext a c.
Proof.
  intros [[l1 E1] [[l2 E2] [l3 E3]]] [[m1 F1] [[m2 F2] [m3 F3]]].
  repeat split; [exists (l1 ++ m1)%list | exists (l2 ++ m2)%list | exists (l3 ++ m3)%list].
  - rewrite F1, E1, app_assoc. reflexivity.
  - rewrite F2, E2, app_assoc. reflexivity.
  - rewrite F3, E3, app_assoc. reflexivity.
Qed.

Lemma Repr_mono st st' : Ext st st' -> forall v c, Repr st v c -> Repr st' v c.
Proof.
  intros [[l1 E1] [[l2 E2] [l3 E3]]].
  apply (Repr_mut st (fun v c _ => Repr st' v c) (fun l fs _ => ReprPairs st' l fs)
                  (fun l cs _ => ReprList st' l cs)); intros; try (constructor; fail).
  - constructor. rewrite E1. apply js_index_app. assumption.
  - constructor. rewrite E1. apply js_index_app. assumption.
  - econstructor; [rewrite E2; apply js_index_app; eassumption | assumption].
  - econstructor; [rewrite E3; apply js_index_app; eassumption | assumption].
  - constructor; [rewrite E1; apply js_index_app |..]; assumption.
  - constructor; assumption.
Qed.

Lemma ReprList_mono st st' : Ext st st' -> forall l cs, ReprList st l cs -> ReprList st' l cs.
Proof.
  intros HE l cs H. induction H; constructor; [eapply Repr_mono; eassumption | assumption].
Qed.

Lemma ReprPairs_mono st st' : Ext st st' -> forall l fs, ReprPairs st l fs -> ReprPairs st' l fs.
Proof.
  intros HE l fs H. induction H; [constructor|].
  pose proof HE as [[l1 E1] _].
  constructor; [rewrite E1; apply js_index_app; assumption | eapply Repr_mono; eassumption | assumption].
Qed.

Lemma Ext_heap st h src : Ext st (with_heap h (with_source src st)).
Proof. exact (Ext_refl st). Qed.

Lemma CtxOk_eq a b : ctx a = ctx b -> contextStack a = contextStack b -> CtxOk a -> CtxOk b.
Proof. unfold CtxOk. intros E1 E2. rewrite E1, E2. exact (fun H => H). Qed.

Lemma setUOSP_then {A} v (k : CM A) st :
  CtxOk st ->
  exists h src, cbind (setUncompressedObjectSimpleProperty v) (fun _ => k) st =
                k (with_heap h (with_source src st)).
Proof.
  intros H. destruct (setUOSP_ok v st H) as [h [src E]].
  exists h, src. unfold cbind. rewrite E. reflexivity.
Qed.

Lemma internString_step s st :
  Inv st ->
  exists i st', internString s st = Done (i, st') /\
    js_index (strings st') i = Some s /\ Inv st' /\ Ext st st' /\
    ctx st' = ctx st /\ contextStack st' = contextStack st /\ rootValue st' = rootValue st.
Proof.
  intros [Hs Hc]. destruct (internString_spec s st Hs) as [i [st' [E [Hi [Hs' [[l El] [_ Est]]]]]]].
  exists i, st'.
  assert (Cx : ctx st' = ctx st) by (rewrite Est; reflexivity).
  assert (Cs : contextStack st' = contextStack st) by (rewrite Est; reflexivity).
  assert (Cr : rootValue st' = rootValue st) by (rewrite Est; reflexivity).
  assert (Co : objects st' = objects st) by (rewrite Est; reflexivity).
  assert (Ca : arrays st' = arrays st) by (rewrite Est; reflexivity).
  split; [exact E|]. split; [exact Hi|]. split; [split; [exact Hs'|]|].
  - eapply CtxOk_eq; [symmetry; exact Cx | symmetry; exact Cs | exact Hc].
  - split; [split; [exists l; exact El|split]|].
    + exists []; rewrite app_nil_r; exact Co.
    + exists []; rewrite app_nil_r; exact Ca.
    + auto.
Qed.

Lemma makeString_step s st :
  Inv st ->
  exists i st', makeString s st = Done (makeValue Tag_InternedString i, st') /\
    js_index (strings st') i = Some s /\ Inv st' /\ Ext st st' /\
    ctx st' = ctx st /\ contextStack st' = contextStack st /\ rootValue st' = rootValue st.
Proof.
  intros H. destruct (internString_step s st H) as [i [st' [E R]]].
  exists i, st'. split; [|exact R]. unfold makeString, cbind. rewrite E. reflexivity.
Qed.

Lemma numberTag_cases x : numberTag x = Tag_Integer \/ numberTag x = Tag_Double.
Proof. unfold numberTag. destruct (_ || _); auto. Qed.

Lemma Repr_number st x :
  Repr st (makeValue (numberTag x) 0)
    (match numberTag x with Tag_Integer => CInteger | _ => CDouble end).
Proof. destruct (numberTag_cases x) as [E|E]; rewrite E; constructor. Qed.


Lemma pushArray_spec st :
  CtxOk st ->
  exists n h src, pushArrayContext st =
    Done (tt, mkCJ (rootValue st) (Some (mkContext None (Some []) None None (Some (HRef n))))
                   (saved st) (strings st) (stringIndexes st) (objects st) (arrays st) h src).
Proof.
  intros [Hc _]. destruct st as [r cx stk ss ix os ars hp src]. simpl in Hc.
  unfold pushArrayContext, parentOf, saved.
  destruct cx as [c|]; unfold cbind, pushContext, context, setContext, alloc, cret; simpl.
  - match goal with |- context [setUncompressedObjectProperty ?u ?p ?k ?s] =>
      destruct (setUOP_ok u p k s) as [h [src' E]] end.
    { apply UOk_NotPrim; exact Hc. }
    rewrite E. simpl. eexists _, h, src'. reflexivity.
  - eexists _, _, _. reflexivity.
Qed.

Lemma pushObject_spec st :
  CtxOk st ->
  exists n h src, pushObjectContext st =
    Done (tt, mkCJ (rootValue st) (Some (mkContext (Some []) None None None (Some (HRef n))))
                   (saved st) (strings st) (stringIndexes st) (objects st) (arrays st) h src).
Proof.
  intros [Hc _]. destruct st as [r cx stk ss ix os ars hp src]. simpl in Hc.
  unfold pushObjectContext, parentOf, saved.
  destruct cx as [c|]; unfold cbind, pushContext, context, setContext, alloc, cret; simpl.
  - match goal with |- context [setUncompressedObjectProperty ?u ?p ?k ?s] =>
      destruct (setUOP_ok u p k s) as [h [src' E]] end.
    { apply UOk_NotPrim; exact Hc. }
    rewrite E. simpl. eexists _, h, src'. reflexivity.
  - eexists _, _, _. reflexivity.
Qed.

Lemma finishArray_spec st c arr :
  ctx st = Some c -> currentArray c = Some arr ->
  finishArray st = commitValue (makeValue Tag_Array (Z.of_nat (List.length (arrays st))))
                                (with_arrays (arrays st ++ [arr])%list (popped st)).
Proof.
  intros Hc Ha. unfold finishArray, cbind, context. rewrite Hc. simpl. rewrite Ha.
  unfold popContext, popped. rewrite Hc. simpl.
  destruct (contextStack st); reflexivity.
Qed.

Lemma finishObject_spec st c obj :
  ctx st = Some c -> currentObject c = Some obj ->
  finishObject st = commitValue (makeValue Tag_Object (Z.of_nat (List.length (objects st))))
                                (with_objects (objects st ++ [obj])%list (popped st)).
Proof.
  intros Hc Ha. unfold finishObject, cbind, context. rewrite Hc. simpl. rewrite Ha.
  unfold popContext, popped. rewrite Hc. simpl.
  destruct (contextStack st); reflexivity.
Qed.

Lemma commitValue_array st c arr v :
  ctx st = Some c -> currentObject c = None -> currentArray c = Some arr ->
  commitValue v st = Done (tt, with_ctx (Some (set_currentArray (Some (arr ++ [v])%list) c)) st).
Proof. intros Hc Ho Ha. unfold commitValue. rewrite Hc, Ho, Ha. reflexivity. Qed.

Lemma commitValue_object st c obj k v :
  Inv st -> ctx st = Some c -> currentObject c = Some obj -> currentKey c = Some k ->
  exists i st', commitValue v st =
      Done (tt, with_ctx (Some (set_currentKey None
                                 (set_currentObject (Some (obj ++ [makeValue Tag_InternedString i; v])%list) c))) st') /\
    js_index (strings st') i = Some k /\ Inv st' /\ Ext st st' /\
    ctx st' = ctx st /\ contextStack st' = contextStack st /\ rootValue st' = rootValue st.
Proof.
  intros H Hc Ho Hk. destruct (makeString_step k st H) as [i [st' [E R]]].
  exists i, st'. split; [|exact R].
  unfold commitValue. rewrite Hc, Ho, Hk. unfold cbind. rewrite E. reflexivity.
Qed.

Section Process.

Variable hr : bool.
Variable inf : string -> option string.

Lemma process_JArr l :
  process hr inf (JArr l) = (_ <~ pushArrayContext ;; _ <~ processItems hr inf l ;; finishArray).
Proof. reflexivity. Qed.

Lemma process_JObj fs :
  process hr inf (JObj fs) = (_ <~ pushObjectContext ;; _ <~ processProps hr inf fs ;; finishObject).
Proof. reflexivity. Qed.

Lemma processItems_cons v t :
  processItems hr inf (v :: t) = (_ <~ process hr inf v ;; processItems hr inf t).
Proof. reflexivity. Qed.

Lemma processProps_cons k v t :
  processProps hr inf ((k, v) :: t) =
  (_ <~ setPropertyKey k ;; _ <~ process hr inf v ;; processProps hr inf t).
Proof. reflexivity. Qed.

Lemma set_currentArray_twice a b c :
  set_currentArray a (set_currentArray b c) = set_currentArray a c.
Proof. destruct c; reflexivity. Qed.

Lemma set_currentObject_key c obj key :
  currentKey c = None ->
  set_currentKey None (set_currentObject obj (set_currentKey (Some key) c)) = set_currentObject obj c.
Proof. destruct c; simpl; intros ->; reflexivity. Qed.

Lemma items_spec l :
  Forall (fun j => forall st, Inv st -> ProcessOk hr inf j st) l ->
  forall st c arr, Inv st -> ctx st = Some c -> currentObject c = None ->
    currentArray c = Some arr -> currentKey c = None ->
    exists vs st', processItems hr inf l st = Done (tt, st') /\
      ctx st' = Some (set_currentArray (Some (arr ++ vs)%list) c) /\
      ReprList st' vs (map (expected hr inf false) l) /\ Ext st st' /\ Inv st' /\
      contextStack st' = contextStack st /\ rootValue st' = rootValue st.
Proof.
  induction l as [|j t IHt]; intros HF st c arr H Hc Ho Ha Hk.
  - exists [], st. rewrite app_nil_r. split; [reflexivity|].
    split; [rewrite Hc; destruct c; simpl in Ha; rewrite Ha; reflexivity|].
    split; [constructor|]. split; [apply Ext_refl|]. auto.
  - inversion HF as [|? ? Hj HFt]; subst.
    destruct (Hj st H) as [v [st1 [E1 [R1 [X1 [I1 [C1 [S1 Q1]]]]]]]].
    assert (Er : isExpectingRef st = false) by (unfold isExpectingRef; rewrite Hc, Hk; reflexivity).
    rewrite Er in R1.
    set (c1 := set_currentArray (Some (arr ++ [v])%list) c).
    set (st2 := with_ctx (Some c1) st1).
    assert (E2 : commitValue v st1 = Done (tt, st2)).
    { apply (commitValue_array st1 c arr v); [congruence | exact Ho | exact Ha]. }
    assert (I2 : Inv st2).
    { destruct I1 as [Is Ic]. split; [exact Is|].
      destruct Ic as [_ Ic]. split; [| exact Ic]. simpl.
      destruct H as [_ [Hc0 _]]. rewrite Hc in Hc0. exact Hc0. }
    destruct (IHt HFt st2 c1 (arr ++ [v])%list I2 eq_refl) as [vs [st' [E3 [C3 [R3 [X3 [I3 [S3 Q3]]]]]]]];
      [destruct c; exact Ho | destruct c; reflexivity | destruct c; exact Hk |].
    exists (v :: vs), st'.
    split; [rewrite processItems_cons; unfold cbind; rewrite E1; simpl; unfold cbind in E2; rewrite E2; exact E3|].
    split; [rewrite C3; unfold c1; rewrite set_currentArray_twice, <- app_assoc; reflexivity|].
    split; [simpl; constructor; [eapply Repr_mono; [exact (Ext_trans _ _ _ (Ext_refl st1) X3) | exact R1] | exact R3]|].
    split; [exact (Ext_trans _ _ _ X1 (Ext_trans st1 st2 st' (Ext_refl st1) X3))|].
    split; [exact I3|]. split; [rewrite S3; simpl; exact S1 | rewrite Q3; simpl; exact Q1].
Qed.

Lemma Inv_set_ctx st c c' :
  Inv st -> ctx st = Some c -> (UOk c -> UOk c') -> Inv (with_ctx (Some c') st).
Proof.
  intros [Hs [Hc Hf]] E U. split; [exact Hs|]. split; [|exact Hf].
  simpl. rewrite E in Hc. apply U. exact Hc.
Qed.

Lemma set_currentObject_twice a b c :
  set_currentObject a (set_currentObject b c) = set_currentObject a c.
Proof. destruct c; reflexivity. Qed.

Lemma props_spec fs :
  Forall (fun kv => forall st, Inv st -> ProcessOk hr inf (snd kv) st) fs ->
  forall st c obj, Inv st -> ctx st = Some c -> currentObject c = Some obj -> currentKey c = None ->
    exists flat st', processProps hr inf fs st = Done (tt, st') /\
      ctx st' = Some (set_currentObject (Some (obj ++ flat)%list) c) /\
      ReprPairs st' flat
        (map (fun kv => (fst kv, expected hr inf (String.eqb (fst kv) "$ref") (snd kv))) fs) /\
      Ext st st' /\ Inv st' /\
      contextStack st' = contextStack st /\ rootValue st' = rootValue st.
Proof.
  induction fs as [|[k j] t IHt]; intros HF st c obj H Hc Ho Hk.
  - exists [], st. rewrite app_nil_r. split; [reflexivity|].
    split; [rewrite Hc; destruct c; simpl in Ho; rewrite Ho; reflexivity|].
    split; [constructor|]. split; [apply Ext_refl|]. auto.
  - inversion HF as [|? ? Hj HFt]; subst. simpl in Hj.
    set (ck := set_currentKey (Some k) c).
    set (stk := with_ctx (Some ck) st).
    assert (Ek : setPropertyKey k st = Done (tt, stk)).
    { unfold setPropertyKey, cbind, context. rewrite Hc. reflexivity. }
    assert (Ik : Inv stk) by (apply (Inv_set_ctx st c); [exact H | exact Hc | destruct c; exact (fun x => x)]).
    destruct (Hj stk Ik) as [v [st1 [E1 [R1 [X1 [I1 [C1 [S1 Q1]]]]]]]].
    assert (Er : isExpectingRef stk = String.eqb k "$ref") by reflexivity.
    rewrite Er in R1.
    destruct (commitValue_object st1 ck obj k v I1) as [i [st2 [E2 [Hi [I2 [X2 [C2 [S2 Q2]]]]]]]];
      [rewrite C1; reflexivity | destruct c; exact Ho | reflexivity |].
    unfold ck in E2. rewrite set_currentObject_key in E2 by exact Hk.
    set (c1 := set_currentObject (Some (obj ++ [makeValue Tag_InternedString i; v])%list) c) in E2.
    set (st3 := with_ctx (Some c1) st2) in E2.
    assert (I3 : Inv st3).
    { apply (Inv_set_ctx st2 ck); [exact I2 | rewrite C2, C1; reflexivity | destruct c; exact (fun x => x)]. }
    destruct (IHt HFt st3 c1 (obj ++ [makeValue Tag_InternedString i; v])%list I3 eq_refl)
      as [flat [st' [E4 [C4 [R4 [X4 [I4 [S4 Q4]]]]]]]];
      [destruct c; reflexivity | destruct c; exact Hk |].
    assert (X23 : Ext st2 st3) by exact (Ext_refl st2).
    exists (makeValue Tag_InternedString i :: v :: flat), st'.
    split.
    { rewrite processProps_cons. unfold cbind at 1. rewrite Ek. simpl.
      unfold cbind at 1. rewrite E1. simpl. unfold cbind in E2. rewrite E2. exact E4. }
    split; [rewrite C4; unfold c1; rewrite set_currentObject_twice, <- app_assoc; reflexivity|].
    assert (X2' : Ext st2 st') by exact (Ext_trans _ _ _ X23 X4).
    assert (X1' : Ext st1 st') by exact (Ext_trans _ _ _ X2 X2').
    split.
    { simpl. constructor.
      - destruct X2' as [[l El] _]. rewrite El. apply js_index_app. exact Hi.
      - eapply Repr_mono; [exact X1' | exact R1].
      - exact R4. }
    split; [exact (Ext_trans _ _ _ X1 X1')|].
    split; [exact I4|].
    split; [rewrite S4; simpl; rewrite S2, S1; reflexivity | rewrite Q4; simpl; rewrite Q2, Q1; reflexivity].
Qed.

Lemma popped_saved st s :
  CtxOk st -> contextStack s = saved st ->
  ctx (popped s) = ctx st /\ contextStack (popped s) = contextStack st.
Proof.
  intros [Hc _] E. unfold popped, saved in *.
  destruct (ctx st) as [c|]; rewrite E; [split; reflexivity|].
  rewrite Hc. simpl. split; [reflexivity | rewrite E; exact Hc].
Qed.

Lemma popped_tables s :
  strings (popped s) = strings s /\ stringIndexes (popped s) = stringIndexes s /\
  objects (popped s) = objects s /\ arrays (popped s) = arrays s /\ rootValue (popped s) = rootValue s.
Proof. unfold popped. destruct (contextStack s); repeat split. Qed.

Theorem process_ok : forall j st, Inv st -> ProcessOk hr inf j st.
Proof.
  intros j. induction j as [| b | x | s | l IHl | fs IHfs] using jsval_ind'; intros st H;
    pose proof H as [Hs Hctx].
  - destruct (setUOSP_then JNull (commitValue (makeValue Tag_Null 0)) st Hctx) as [h [src E]].
    exists (makeValue Tag_Null 0), (with_heap h (with_source src st)).
    split; [exact E|]. split; [constructor|]. split; [apply Ext_heap|]. split; [exact H|]. auto.
  - destruct (setUOSP_then (JBool b) (commitValue (makeValue Tag_Boolean 0)) st Hctx) as [h [src E]].
    exists (makeValue Tag_Boolean 0), (with_heap h (with_source src st)).
    split; [exact E|]. split; [constructor|]. split; [apply Ext_heap|]. split; [exact H|]. auto.
  - destruct (setUOSP_then (JNum x) (commitValue (makeValue (numberTag x) 0)) st Hctx) as [h [src E]].
    exists (makeValue (numberTag x) 0), (with_heap h (with_source src st)).
    split; [exact E|]. split; [apply Repr_number|]. split; [apply Ext_heap|]. split; [exact H|]. auto.
  - unfold ProcessOk. change (process hr inf (JStr s)) with (commitString hr inf s). unfold commitString.
    match goal with |- context [cbind (setUncompressedObjectSimpleProperty (JStr s)) (fun _ => ?k) st] =>
      destruct (setUOSP_then (JStr s) k st Hctx) as [h [src E]]; rewrite E; clear E end.
    set (st2 := with_heap h (with_source src st)).
    assert (I2 : Inv st2) by exact H.
    assert (X2 : Ext st st2) by apply Ext_heap.
    simpl expected. unfold cbind at 1.
    replace (isExpectingRef st2) with (isExpectingRef st) by reflexivity.
    destruct (hr && isExpectingRef st) eqn:B.
    + destruct (makeString_step s st2 I2) as [i [st3 [E3 [Hi [I3 [X3 [C3 [S3 Q3]]]]]]]].
      rewrite E3. simpl.
      exists (makeValue Tag_InternedString i), st3. split; [reflexivity|].
      split; [constructor; exact Hi|]. split; [exact (Ext_trans _ _ _ X2 X3)|]. auto.
    + destruct (inf s) as [k|] eqn:F.
      * destruct (internString_step k st2 I2) as [i [st3 [E3 [Hi [I3 [X3 [C3 [S3 Q3]]]]]]]].
        unfold cbind. rewrite E3. simpl.
        exists (makeValue Tag_StringFormat i), st3. split; [reflexivity|].
        split; [constructor; exact Hi|]. split; [exact (Ext_trans _ _ _ X2 X3)|]. auto.
      * destruct (makeString_step s st2 I2) as [i [st3 [E3 [Hi [I3 [X3 [C3 [S3 Q3]]]]]]]].
        rewrite E3. simpl.
        exists (makeValue Tag_InternedString i), st3. split; [reflexivity|].
        split; [constructor; exact Hi|]. split; [exact (Ext_trans _ _ _ X2 X3)|]. auto.
  - unfold ProcessOk. rewrite process_JArr.
    destruct (pushArray_spec st Hctx) as [n [h [src Ep]]].
    set (ac := mkContext None (Some []) None None (Some (HRef n))) in Ep.
    set (stb := mkCJ (rootValue st) (Some ac) (saved st) (strings st) (stringIndexes st)
                     (objects st) (arrays st) h src) in Ep.
    assert (Ib : Inv stb).
    { split; [exact Hs|]. split; [exact I|].
      destruct Hctx as [Hc Hf]. unfold stb, saved; simpl.
      destruct (ctx st); [constructor; assumption | exact Hf]. }
    destruct (items_spec l IHl stb ac [] Ib eq_refl eq_refl eq_refl eq_refl)
      as [vs [stc [E3 [C3 [R3 [X3 [I3 [S3 Q3]]]]]]]].
    rewrite (cbind_done _ _ _ _ _ Ep), (cbind_done _ _ _ _ _ E3).
    rewrite (finishArray_spec stc _ vs C3 eq_refl).
    set (st1 := with_arrays (arrays stc ++ [vs])%list (popped stc)).
    destruct (popped_saved st stc Hctx S3) as [Pc Ps].
    destruct (popped_tables stc) as [Ts [Ti [To [Ta Tr]]]].
    assert (X4 : Ext stc st1).
    { split; [|split]; [exists [] | exists [] | exists [vs]].
      - rewrite app_nil_r. exact Ts.
      - rewrite app_nil_r. exact To.
      - reflexivity. }
    exists (makeValue Tag_Array (Z.of_nat (List.length (arrays stc)))), st1.
    split; [reflexivity|].
    split.
    { simpl. econstructor.
      - apply js_index_last.
      - eapply ReprList_mono; [exact X4 | exact R3]. }
    split; [exact (Ext_trans _ _ _ (Ext_refl st) (Ext_trans _ _ _ X3 X4))|].
    split.
    { destruct I3 as [Is3 _]. split.
      - split; [intros k i Hk; unfold st1 in *; simpl in *; rewrite Ts; apply Is3; rewrite <- Ti; exact Hk|].
        unfold st1; simpl. rewrite Ti. apply Is3.
      - apply (CtxOk_eq st); [exact (eq_sym Pc) | exact (eq_sym Ps) | exact Hctx]. }
    split; [exact Pc|]. split; [exact Ps|]. unfold st1. simpl. rewrite Tr, Q3. reflexivity.
  - unfold ProcessOk. rewrite process_JObj.
    destruct (pushObject_spec st Hctx) as [n [h [src Ep]]].
    set (oc := mkContext (Some []) None None None (Some (HRef n))) in Ep.
    set (stb := mkCJ (rootValue st) (Some oc) (saved st) (strings st) (stringIndexes st)
                     (objects st) (arrays st) h src) in Ep.
    assert (Ib : Inv stb).
    { split; [exact Hs|]. split; [exact I|].
      destruct Hctx as [Hc Hf]. unfold stb, saved; simpl.
      destruct (ctx st); [constructor; assumption | exact Hf]. }
    destruct (props_spec fs IHfs stb oc [] Ib eq_refl eq_refl eq_refl)
      as [flat [stc [E3 [C3 [R3 [X3 [I3 [S3 Q3]]]]]]]].
    rewrite (cbind_done _ _ _ _ _ Ep), (cbind_done _ _ _ _ _ E3).
    rewrite (finishObject_spec stc _ flat C3 eq_refl).
    set (st1 := with_objects (objects stc ++ [flat])%list (popped stc)).
    destruct (popped_saved st stc Hctx S3) as [Pc Ps].
    destruct (popped_tables stc) as [Ts [Ti [To [Ta Tr]]]].
    assert (X4 : Ext stc st1).
    { split; [|split]; [exists [] | exists [flat] | exists []].
      - rewrite app_nil_r. exact Ts.
      - reflexivity.
      - rewrite app_nil_r. exact Ta. }
    exists (makeValue Tag_Object (Z.of_nat (List.length (objects stc)))), st1.
    split; [reflexivity|].
    split.
    { simpl. econstructor.
      - apply js_index_last.
      - eapply ReprPairs_mono; [exact X4 | exact R3]. }
    split; [exact (Ext_trans _ _ _ (Ext_refl st) (Ext_trans _ _ _ X3 X4))|].
    split.
    { destruct I3 as [Is3 _]. split.
      - split; [intros k i Hk; unfold st1 in *; simpl in *; rewrite Ts; apply Is3; rewrite <- Ti; exact Hk|].
        unfold st1; simpl. rewrite Ti. apply Is3.
      - apply (CtxOk_eq st); [exact (eq_sym Pc) | exact (eq_sym Ps) | exact Hctx]. }
    split; [exact Pc|]. split; [exact Ps|]. unfold st1. simpl. rewrite Tr, Q3. reflexivity.
Qed.

End Process.

Lemma getStringForValue_makeValue st i :
  0 <= i < 2 ^ 27 ->
  getStringForValue st (makeValue Tag_InternedString i) = Done (js_index (strings st) i).
Proof.
  intros H. unfold getStringForValue. rewrite valueTag_makeValue. simpl.
  rewrite getIndex_makeValue. simpl. rewrite sext28_small by exact H. reflexivity.
Qed.

Lemma getIndex_makeValue_small t i :
  0 <= i < 2 ^ 27 -> getIndex (makeValue t i) t = Done i.
Proof. intros H. rewrite getIndex_makeValue, Z.eqb_refl, sext28_small by exact H. reflexivity. Qed.

Lemma bounded_index {A} (l : list A) i x :
  js_index l i = Some x -> Z.of_nat (List.length l) <= 2 ^ 27 -> 0 <= i < 2 ^ 27.
Proof. intros H B. apply js_index_bound in H. lia. Qed.

Lemma decode_object f st i :
  decode (S f) st (makeValue Tag_Object i) =
  (o <- getObjectForValue st (makeValue Tag_Object i) ;;
   match o with
   | None => Panic "undefined"
   | Some l => fs <- decodePairs f st l ;; Done (CObject fs)
   end).
Proof. simpl decode. rewrite valueTag_makeValue. reflexivity. Qed.

Lemma decode_array f st i :
  decode (S f) st (makeValue Tag_Array i) =
  (a <- getArrayForValue st (makeValue Tag_Array i) ;;
   match a with
   | None => Panic "undefined"
   | Some l => cs <- decodeItems f st l ;; Done (CArray cs)
   end).
Proof. simpl decode. rewrite valueTag_makeValue. reflexivity. Qed.

Section Decode.

Variable hr : bool.
Variable inf : string -> option string.

Lemma decode_leaf st t i c f :
  t <> Tag_InternedString -> t <> Tag_StringFormat -> t <> Tag_Object -> t <> Tag_Array ->
  c = match t with
      | Tag_Null => CNull | Tag_Boolean => CBool | Tag_Integer => CInteger | _ => CDouble
      end ->
  decode (S f) st (makeValue t i) = Done c.
Proof.
  intros H1 H2 H3 H4 ->. simpl decode. rewrite valueTag_makeValue.
  destruct t; try congruence; reflexivity.
Qed.

Lemma decode_expected :
  forall j b st v, Repr st v (expected hr inf b j) -> Bounded st ->
  forall fuel, (depth j < fuel)%nat -> decode fuel st v = Done (expected hr inf b j).
Proof.
  intros j. induction j as [| bb | x | s | l IHl | fs IHfs] using jsval_ind';
    intros b st v R B fuel Hf; (destruct fuel as [|f]; [lia|]); simpl expected in *.
  - inversion R; subst. apply decode_leaf; congruence.
  - inversion R; subst. apply decode_leaf; congruence.
  - destruct (numberTag_cases x) as [E|E]; rewrite E in *; inversion R; subst;
      apply decode_leaf; congruence.
  - destruct B as [Bs _].
    destruct (hr && b); [|destruct (inf s) as [k|]]; inversion R; subst.
    + simpl decode. rewrite valueTag_makeValue. simpl.
      rewrite getStringForValue_makeValue by (eapply bounded_index; eassumption).
      simpl. match goal with H : js_index _ _ = Some _ |- _ => rewrite H end. reflexivity.
    + simpl decode. rewrite valueTag_makeValue. simpl.
      rewrite getIndex_makeValue_small by (eapply bounded_index; eassumption).
      simpl. match goal with H : js_index _ _ = Some _ |- _ => rewrite H end. reflexivity.
    + simpl decode. rewrite valueTag_makeValue. simpl.
      rewrite getStringForValue_makeValue by (eapply bounded_index; eassumption).
      simpl. match goal with H : js_index _ _ = Some _ |- _ => rewrite H end. reflexivity.
  - inversion R; subst.
    match goal with H : js_index (arrays st) _ = Some ?l0 |- _ => rename H into Hi; rename l0 into l' end.
    match goal with H : ReprList st l' _ |- _ => rename H into RL end.
    pose proof B as [_ [_ Ba]].
    rewrite decode_array. unfold getArrayForValue.
    rewrite getIndex_makeValue_small by (eapply bounded_index; eassumption). simpl.
    rewrite Hi. simpl.
    assert (Hd : decodeItems f st l' = Done (map (expected hr inf false) l)).
    { simpl depth in Hf. clear Hi R.
      revert l' RL. induction l as [|x t IHt]; intros l' RL; inversion RL; subst.
      - reflexivity.
      - inversion IHl as [|? ? Hx Ht]; subst. simpl in Hf.
        simpl. rewrite (Hx false st x0) by (assumption || lia).
        simpl. rewrite (IHt Ht) by (assumption || lia). reflexivity. }
    rewrite Hd. reflexivity.
  - inversion R; subst.
    match goal with H : js_index (objects st) _ = Some ?l0 |- _ => rename H into Hi; rename l0 into l' end.
    match goal with H : ReprPairs st l' _ |- _ => rename H into RP end.
    pose proof B as [Bs [Bo _]].
    rewrite decode_object. unfold getObjectForValue.
    rewrite getIndex_makeValue_small by (eapply bounded_index; eassumption). simpl.
    rewrite Hi. simpl.
    assert (Hd : decodePairs f st l' =
                 Done (map (fun kv => (fst kv, expected hr inf (String.eqb (fst kv) "$ref") (snd kv))) fs)).
    { simpl depth in Hf. clear Hi R.
      revert l' RP. induction fs as [|[k x] t IHt]; intros l' RP; inversion RP; subst.
      - reflexivity.
      - inversion IHfs as [|? ? Hx Ht]; subst. simpl in Hf, Hx.
        simpl. rewrite getStringForValue_makeValue by (eapply bounded_index; eassumption).
        match goal with H : js_index (strings st) _ = Some k |- _ => rewrite H end. simpl.
        rewrite (Hx (String.eqb k "$ref") st x0) by (assumption || lia).
        simpl. rewrite (IHt Ht) by (assumption || lia). reflexivity. }
    rewrite Hd. reflexivity.
Qed.

End Decode.

Lemma allocValue_heap : forall j st, exists x h, allocValue j st = Done (x, with_heap h st).
Proof.
  intros j. induction j as [| b | x | s | l IHl | fs IHfs] using jsval_ind'; intros st.
  - exists (HPrim JNull), (heap st). destruct st; reflexivity.
  - exists (HPrim (JBool b)), (heap st). destruct st; reflexivity.
  - exists (HPrim (JNum x)), (heap st). destruct st; reflexivity.
  - exists (HPrim (JStr s)), (heap st). destruct st; reflexivity.
  - change (allocValue (JArr l)) with (xs <~ allocItems l ;; alloc (HArr xs)).
    assert (Hl : forall st, exists xs h, allocItems l st = Done (xs, with_heap h st)).
    { induction IHl as [|v t Hv Ht IHt]; intros st0.
      - exists [], (heap st0). destruct st0; reflexivity.
      - destruct (Hv st0) as [x [h E]]. destruct (IHt (with_heap h st0)) as [xs [h' E']].
        exists (x :: xs), h'. change (allocItems (v :: t)) with (x <~ allocValue v ;; xs <~ allocItems t ;; cret (x :: xs)).
        unfold cbind at 1. rewrite E. simpl. unfold cbind. rewrite E'. reflexivity. }
    destruct (Hl st) as [xs [h E]]. eexists _, _. unfold cbind. rewrite E. reflexivity.
  - change (allocValue (JObj fs)) with (ps <~ allocProps fs ;; alloc (HObj ps PDefault)).
    assert (Hl : forall st, exists ps h, allocProps fs st = Done (ps, with_heap h st)).
    { induction IHfs as [|[k v] t Hv Ht IHt]; intros st0.
      - exists [], (heap st0). destruct st0; reflexivity.
      - simpl in Hv. destruct (Hv st0) as [x [h E]]. destruct (IHt (with_heap h st0)) as [ps [h' E']].
        exists ((k, x) :: ps), h'.
        change (allocProps ((k, v) :: t)) with (x <~ allocValue v ;; ps <~ allocProps t ;; cret ((k, x) :: ps)).
        unfold cbind at 1. rewrite E. simpl. unfold cbind. rewrite E'. reflexivity. }
    destruct (Hl st) as [ps [h E]]. eexists _, _. unfold cbind. rewrite E. reflexivity.
Qed.

Lemma Inv_start st :
  StringsInv st -> ctx st = None -> contextStack st = [] -> Inv st.
Proof. intros Hs Hc Hk. split; [exact Hs|]. unfold CtxOk. rewrite Hc, Hk. split; [reflexivity | constructor]. Qed.

(** [process] then [finish] from a state with no context and no root. *)
Lemma process_finish hr inf j st :
  Inv st -> ctx st = None -> rootValue st = None ->
  exists v st', (_ <~ process hr inf j ;; finish) st = Done (v, st') /\
    Repr st' v (expected hr inf false j) /\ Ext st st'.
Proof.
  intros H Hc Hr.
  destruct (process_ok hr inf j st H) as [v [st1 [E1 [R1 [X1 [I1 [C1 [S1 Q1]]]]]]]].
  assert (Er : isExpectingRef st = false) by (unfold isExpectingRef; rewrite Hc; reflexivity).
  rewrite Er in R1.
  assert (Hk : contextStack st = []) by (destruct H as [_ [Hk _]]; rewrite Hc in Hk; exact Hk).
  exists v, (with_root None (with_root (Some v) st1)).
  split.
  - unfold cbind. rewrite E1. unfold commitValue. rewrite C1, Hc, Q1, Hr. simpl.
    unfold finish. simpl. rewrite C1, Hc, S1, Hk. reflexivity.
  - split; [exact (Repr_mono st1 (with_root None (with_root (Some v) st1)) (Ext_refl st1) _ _ R1) | exact X1].
Qed.

Section Stream.

Variable hr : bool.
Variable inf : string -> option string.
Variable chunks : jsnum -> list string.

Lemma onEvents_app evs1 evs2 st :
  onEvents hr inf (evs1 ++ evs2) st = cbind (onEvents hr inf evs1) (fun _ => onEvents hr inf evs2) st.
Proof.
  revert st. induction evs1 as [|e t IH]; intros st; [reflexivity|].
  simpl. unfold cbind. destruct (onData hr inf e st) as [[[] s']| |]; simpl; [|reflexivity..].
  rewrite IH. reflexivity.
Qed.

Lemma cbind_unit_r (m : CM unit) (k : CM unit) st :
  (forall s, k s = Done (tt, s)) -> cbind m (fun _ => k) st = m st.
Proof. intros Hk. unfold cbind. destruct (m st) as [[[] s']| |]; simpl; [apply Hk | reflexivity..]. Qed.

Lemma cbind_ext (m1 m2 : CM unit) {B} (k : unit -> CM B) st :
  m1 st = m2 st -> cbind m1 k st = cbind m2 k st.
Proof. intros E. unfold cbind. rewrite E. reflexivity. Qed.

Lemma with_ctx_same st c : ctx st = Some c -> with_ctx (Some c) st = st.
Proof. destruct st; simpl; intros ->; reflexivity. Qed.

Lemma set_chunk_twice a b c :
  set_currentNumberChunk a (set_currentNumberChunk b c) = set_currentNumberChunk a c.
Proof. destruct c; reflexivity. Qed.

Lemma set_chunk_same c : currentNumberChunk c = None -> set_currentNumberChunk None c = c.
Proof. destruct c; simpl; intros ->; reflexivity. Qed.

Lemma chunks_loop chs rest : forall acc st c,
  ctx st = Some c ->
  onEvents hr inf (map EvNumberChunk chs ++ rest) (with_ctx (Some (set_currentNumberChunk (Some acc) c)) st) =
  onEvents hr inf rest (with_ctx (Some (set_currentNumberChunk (Some (fold_left String.append chs acc)) c)) st).
Proof.
  induction chs as [|ch t IH]; intros acc st c Hc; [reflexivity|].
  simpl map. rewrite <- app_comm_cons. simpl onEvents. unfold cbind at 1.
  simpl. rewrite set_chunk_twice.
  specialize (IH (acc ++ ch) (with_ctx (Some c) st) c eq_refl). simpl in IH.
  etransitivity; [|etransitivity; [exact IH|]].
  - destruct st; reflexivity.
  - destruct st; reflexivity.
Qed.


Lemma ChunkInv_set st c c' :
  ChunkInv st -> ctx st = Some c -> currentNumberChunk c' = None -> ChunkInv (with_ctx (Some c') st).
Proof. intros [_ Hf] _ H. split; [exact H | exact Hf]. Qed.

Lemma events_number x st c :
  ctx st = Some c -> currentNumberChunk c = None ->
  StringToNumber (fold_left String.append (chunks x) "") = x ->
  onEvents hr inf (eventsOf chunks (JNum x)) st = commitNumber x st.
Proof.
  intros Hc Hn Hx.
  change (onEvents hr inf (eventsOf chunks (JNum x)) st) with
    (cbind handleStartNumber
       (fun _ => onEvents hr inf (map EvNumberChunk (chunks x) ++ [EvEndNumber; EvOther "numberValue"])%list) st).
  assert (E1 : handleStartNumber st = Done (tt, with_ctx (Some (set_currentNumberChunk (Some "") c)) st)).
  { unfold handleStartNumber, cbind, context. rewrite Hc. reflexivity. }
  rewrite (cbind_done _ _ _ _ _ E1), chunks_loop by exact Hc.
  set (t := fold_left String.append (chunks x) "").
  change (onEvents hr inf [EvEndNumber; EvOther "numberValue"]
            (with_ctx (Some (set_currentNumberChunk (Some t) c)) st))
    with (cbind handleEndNumber (fun _ => onEvents hr inf [EvOther "numberValue"])
            (with_ctx (Some (set_currentNumberChunk (Some t) c)) st)).
  rewrite cbind_unit_r by reflexivity.
  unfold handleEndNumber, cbind, context. simpl.
  rewrite set_chunk_twice, set_chunk_same by exact Hn.
  assert (Ht : StringToNumber t = x) by exact Hx. rewrite Ht.
  replace (with_ctx (Some c) (with_ctx (Some (set_currentNumberChunk (Some t) c)) st)) with st
    by (destruct st; simpl in Hc; rewrite Hc; reflexivity).
  reflexivity.
Qed.

Lemma cbind_ext_r {A B} (m : CM A) (k1 k2 : A -> CM B) st :
  (forall a s, k1 a s = k2 a s) -> cbind m k1 st = cbind m k2 st.
Proof. intros H. unfold cbind. destruct (m st) as [[a s']| |]; simpl; [apply H | reflexivity..]. Qed.

Lemma ChunkInv_eq a b : ctx a = ctx b -> contextStack a = contextStack b -> ChunkInv a -> ChunkInv b.
Proof. unfold ChunkInv. intros E1 E2. rewrite E1, E2. exact (fun H => H). Qed.

Lemma NumsOk_cons_arr x t : NumsOk chunks (JArr (x :: t)) -> NumsOk chunks x /\ NumsOk chunks (JArr t).
Proof. unfold NumsOk. simpl. intros H. apply Forall_app in H. exact H. Qed.

Lemma NumsOk_cons_obj k x t : NumsOk chunks (JObj ((k, x) :: t)) -> NumsOk chunks x /\ NumsOk chunks (JObj t).
Proof. unfold NumsOk. simpl. intros H. apply Forall_app in H. exact H. Qed.

Lemma key_events k st c :
  ctx st = Some c ->
  onEvents hr inf [EvOther "startKey"; EvOther "stringChunk"; EvOther "endKey"; EvKeyValue k] st =
  Done (tt, with_ctx (Some (set_currentKey (Some k) c)) st).
Proof. intros Hc. destruct st; simpl in Hc; subst; reflexivity. Qed.


Lemma StartOk_inner j s c : ctx s = Some c -> StartOk j s.
Proof. intros Hc. destruct j; simpl; try exact I; congruence. Qed.


Lemma items_events l :
  Forall (EventsOk hr inf chunks) l ->
  forall s c arr, Inv s -> ChunkInv s -> ctx s = Some c -> currentObject c = None ->
    currentArray c = Some arr -> currentKey c = None -> NumsOk chunks (JArr l) ->
    onEvents hr inf (List.concat (map (eventsOf chunks) l)) s = processItems hr inf l s.
Proof.
  induction 1 as [|x t Hx Ht IHt]; intros s c arr I0 K0 Hc Ho Ha Hk N; [reflexivity|].
  destruct (NumsOk_cons_arr x t N) as [Nx Nt].
  simpl map. simpl List.concat. rewrite onEvents_app, processItems_cons.
  rewrite (cbind_ext _ _ _ s (Hx s I0 K0 (StartOk_inner x s c Hc) Nx)).
  destruct (process_ok hr inf x s I0) as [v [s1 [E1 [_ [_ [I1 [C1 [S1 _]]]]]]]].
  assert (E2 : commitValue v s1 = Done (tt, with_ctx (Some (set_currentArray (Some (arr ++ [v])%list) c)) s1)).
  { apply commitValue_array; [congruence | exact Ho | exact Ha]. }
  assert (E3 : process hr inf x s = Done (tt, with_ctx (Some (set_currentArray (Some (arr ++ [v])%list) c)) s1))
    by (rewrite E1; exact E2).
  rewrite (cbind_done _ _ _ _ _ E3), (cbind_done _ _ _ _ _ E3).
  apply (IHt _ (set_currentArray (Some (arr ++ [v])%list) c) (arr ++ [v])%list).
  - apply (Inv_set_ctx s1 c); [exact I1 | congruence | destruct c; exact (fun x => x)].
  - apply (ChunkInv_set s1 c); [apply (ChunkInv_eq s); [congruence | congruence | exact K0] | congruence |].
    destruct K0 as [K0 _]. unfold ChunkInv in K0. rewrite Hc in K0. destruct c; exact K0.
  - reflexivity.
  - destruct c; exact Ho.
  - destruct c; reflexivity.
  - destruct c; exact Hk.
  - exact Nt.
Qed.

Lemma props_events fs :
  Forall (fun kv => EventsOk hr inf chunks (snd kv)) fs ->
  forall s c obj, Inv s -> ChunkInv s -> ctx s = Some c -> currentObject c = Some obj ->
    currentKey c = None -> NumsOk chunks (JObj fs) ->
    onEvents hr inf (List.concat (map (fun kv => [EvOther "startKey"; EvOther "stringChunk"; EvOther "endKey";
                               EvKeyValue (fst kv)] ++ eventsOf chunks (snd kv)) fs)%list) s =
    processProps hr inf fs s.
Proof.
  induction 1 as [|[k x] t Hx Ht IHt]; intros s c obj I0 K0 Hc Ho Hk N; [reflexivity|].
  destruct (NumsOk_cons_obj k x t N) as [Nx Nt]. simpl in Hx.
  rewrite map_cons, concat_cons, <- app_assoc, onEvents_app, processProps_cons. cbn [fst snd].
  set (ck := set_currentKey (Some k) c).
  set (stk := with_ctx (Some ck) s).
  assert (Ek : setPropertyKey k s = Done (tt, stk)).
  { unfold setPropertyKey, cbind, context. rewrite Hc. reflexivity. }
  rewrite (cbind_done _ _ _ _ _ (key_events k s c Hc)), (cbind_done _ _ _ _ _ Ek).
  assert (Ik : Inv stk) by (apply (Inv_set_ctx s c); [exact I0 | exact Hc | destruct c; exact (fun x => x)]).
  assert (Kk : ChunkInv stk).
  { apply (ChunkInv_set s c); [exact K0 | exact Hc |].
    destruct K0 as [K0 _]. unfold ChunkInv in K0. rewrite Hc in K0. destruct c; exact K0. }
  rewrite onEvents_app.
  rewrite (cbind_ext _ _ _ stk (Hx stk Ik Kk (StartOk_inner x stk ck eq_refl) Nx)).
  destruct (process_ok hr inf x stk Ik) as [v [s1 [E1 [_ [_ [I1 [C1 [S1 _]]]]]]]].
  destruct (commitValue_object s1 ck obj k v I1) as [i [s2 [E2 [_ [I2 [_ [C2 [S2 _]]]]]]]];
    [rewrite C1; reflexivity | destruct c; exact Ho | reflexivity |].
  unfold ck in E2. rewrite set_currentObject_key in E2 by exact Hk.
  set (c1 := set_currentObject (Some (obj ++ [makeValue Tag_InternedString i; v])%list) c) in E2.
  assert (E3 : process hr inf x stk = Done (tt, with_ctx (Some c1) s2)) by (rewrite E1; exact E2).
  rewrite (cbind_done _ _ _ _ _ E3), (cbind_done _ _ _ _ _ E3).
  apply (IHt _ c1 (obj ++ [makeValue Tag_InternedString i; v])%list).
  - apply (Inv_set_ctx s2 ck); [exact I2 | rewrite C2, C1; reflexivity | destruct c; exact (fun x => x)].
  - apply (ChunkInv_set s2 ck).
    + apply (ChunkInv_eq stk); [rewrite C2, C1; reflexivity | rewrite S2, S1; reflexivity | exact Kk].
    + rewrite C2, C1. reflexivity.
    + destruct K0 as [K0 _]. unfold ChunkInv in K0. rewrite Hc in K0. unfold c1. destruct c; exact K0.
  - reflexivity.
  - unfold c1. destruct c; reflexivity.
  - unfold c1. destruct c; exact Hk.
  - exact Nt.
Qed.

Theorem events_process : forall j, EventsOk hr inf chunks j.
Proof.
  intros j. induction j as [| b | x | s | l IHl | fs IHfs] using jsval_ind';
    intros st H K S N.
  - apply cbind_unit_r. reflexivity.
  - destruct b; apply cbind_unit_r; reflexivity.
  - simpl in S. destruct (ctx st) as [c|] eqn:Hc; [|contradiction].
    apply (events_number x st c Hc); [destruct K as [K _]; unfold ChunkInv in K; rewrite Hc in K; exact K|].
    unfold NumsOk in N. simpl in N. inversion N; assumption.
  - transitivity (cbind (commitString hr inf s) (fun _ => cret tt) st); [reflexivity|].
    apply cbind_unit_r. reflexivity.
  - change (onEvents hr inf (eventsOf chunks (JArr l)) st) with
      (cbind pushArrayContext
         (fun _ => onEvents hr inf (List.concat (map (eventsOf chunks) l) ++ [EvEndArray])%list) st).
    rewrite process_JArr.
    pose proof H as [Hs Hctx].
    destruct (pushArray_spec st Hctx) as [n [h [src Ep]]].
    set (ac := mkContext None (Some []) None None (Some (HRef n))) in Ep.
    set (stb := mkCJ (rootValue st) (Some ac) (saved st) (strings st) (stringIndexes st)
                     (objects st) (arrays st) h src) in Ep.
    rewrite (cbind_done _ _ _ _ _ Ep), (cbind_done _ _ _ _ _ Ep), onEvents_app.
    transitivity (cbind (processItems hr inf l) (fun _ => onEvents hr inf [EvEndArray]) stb).
    2:{ apply cbind_ext_r. intros [] s. apply cbind_unit_r. reflexivity. }
    apply cbind_ext.
    assert (Ib : Inv stb).
    { split; [exact Hs|]. split; [exact I|].
      destruct Hctx as [Hc Hf]. unfold stb, saved; simpl.
      destruct (ctx st); [constructor; assumption | exact Hf]. }
    assert (Kb : ChunkInv stb).
    { split; [reflexivity|]. destruct K as [Kc Kf]. unfold stb, saved; simpl.
      destruct (ctx st); [constructor; assumption | exact Kf]. }
    exact (items_events l IHl stb ac [] Ib Kb eq_refl eq_refl eq_refl eq_refl N).
  - change (onEvents hr inf (eventsOf chunks (JObj fs)) st) with
      (cbind pushObjectContext
         (fun _ => onEvents hr inf
            (List.concat (map (fun kv => [EvOther "startKey"; EvOther "stringChunk"; EvOther "endKey";
                                         EvKeyValue (fst kv)] ++ eventsOf chunks (snd kv)) fs)
             ++ [EvEndObject])%list) st).
    rewrite process_JObj.
    pose proof H as [Hs Hctx].
    destruct (pushObject_spec st Hctx) as [n [h [src Ep]]].
    set (oc := mkContext (Some []) None None None (Some (HRef n))) in Ep.
    set (stb := mkCJ (rootValue st) (Some oc) (saved st) (strings st) (stringIndexes st)
                     (objects st) (arrays st) h src) in Ep.
    rewrite (cbind_done _ _ _ _ _ Ep), (cbind_done _ _ _ _ _ Ep), onEvents_app.
    transitivity (cbind (processProps hr inf fs) (fun _ => onEvents hr inf [EvEndObject]) stb).
    2:{ apply cbind_ext_r. intros [] s. apply cbind_unit_r. reflexivity. }
    apply cbind_ext.
    assert (Ib : Inv stb).
    { split; [exact Hs|]. split; [exact I|].
      destruct Hctx as [Hc Hf]. unfold stb, saved; simpl.
      destruct (ctx st); [constructor; assumption | exact Hf]. }
    assert (Kb : ChunkInv stb).
    { split; [reflexivity|]. destruct K as [Kc Kf]. unfold stb, saved; simpl.
      destruct (ctx st); [constructor; assumption | exact Kf]. }
    exact (props_events fs IHfs stb oc [] Ib Kb eq_refl eq_refl eq_refl N).
Qed.

End Stream.

(** [makeValue] / [valueTag] / [getIndex]: a value packed from a tag and an
    index below 2^27 carries that tag in its low four bits and gives the
    index back. *)
Theorem makeValue_getIndex_roundtrip (t : Tag) (i : Z) :
  0 <= i < 2 ^ 27 ->
  valueTag (makeValue t i) = tagNumber t /\ getIndex (makeValue t i) t = Done i.
Proof. intros H. split; [apply valueTag_makeValue | apply getIndex_makeValue_small; exact H]. Qed.

(** [makeValue] / [getIndex]: the packing keeps 28 bits of the index as a
    signed 32-bit number, so an index from 2^27 to 2^28 - 1 reads back as
    that index minus 2^28, a negative number. *)
Theorem makeValue_index_overflow (t : Tag) (i : Z) :
  2 ^ 27 <= i < 2 ^ 28 -> getIndex (makeValue t i) t = Done (i - 2 ^ 28).
Proof.
  intros H. rewrite getIndex_makeValue, Z.eqb_refl. unfold sext28.
  rewrite Z.mod_small by lia. destruct (Z.ltb_spec i (2 ^ 27)); [lia | reflexivity].
Qed.

(** [getIndex]: asking a packed value for the index of another tag than the
    one it was made with throws. *)
Theorem getIndex_wrong_tag (t t' : Tag) (i : Z) :
  t <> t' -> getIndex (makeValue t i) t' = Panic "Trying to get index for value with invalid tag".
Proof.
  intros H. rewrite getIndex_makeValue.
  destruct (Z.eqb_spec (tagNumber t) (tagNumber t')) as [E|E]; [|reflexivity].
  apply tagNumber_inj in E. contradiction.
Qed.

(** [makeString] / [getStringForValue]: while the string table is
    consistent and holds fewer than 2^27 strings, the value [makeString s]
    returns is read back as [s], and the table stays consistent. *)
Theorem makeString_getStringForValue (s : string) (st : CJState) :
  StringsInv st -> Z.of_nat (List.length (strings st)) < 2 ^ 27 ->
  exists v st', makeString s st = Done (v, st') /\
    getStringForValue st' v = Done (Some s) /\ StringsInv st'.
Proof.
  intros H B. destruct (internString_spec s st H) as [i [st' [E [Hi [H' [_ [Hl _]]]]]]].
  exists (makeValue Tag_InternedString i), st'. split; [unfold makeString, cbind; rewrite E; reflexivity|].
  split; [|exact H'].
  pose proof (js_index_bound _ _ _ Hi).
  rewrite getStringForValue_makeValue by lia. rewrite Hi. reflexivity.
Qed.

(** [internString]: interning a string a second time returns the same index
    and changes nothing (for every string except ["__proto__"]). *)
Theorem internString_dedup (s : string) (st st1 : CJState) (i : Z) :
  StringsInv st -> s <> "__proto__" -> internString s st = Done (i, st1) ->
  internString s st1 = Done (i, st1).
Proof.
  intros H Hp E. unfold internString in *.
  destruct (lookup_str s (stringIndexes st)) as [j|] eqn:L.
  - injection E as <- <-. rewrite L. reflexivity.
  - injection E as <- <-. simpl. unfold setStringIndex.
    destruct (String.eqb_spec s "__proto__"); [contradiction|].
    rewrite lookup_str_set_str, String.eqb_refl. reflexivity.
Qed.

(** [internString]: the string ["__proto__"] is never found in
    [_stringIndexes] (the assignment goes to the prototype setter), so each
    interning of it appends a new copy at the end of [_strings]. *)
Theorem internString_proto_never_shared (st : CJState) :
  lookup_str "__proto__" (stringIndexes st) = None ->
  internString "__proto__" st =
    Done (Z.of_nat (List.length (strings st)),
          with_strings (strings st ++ ["__proto__"])%list (stringIndexes st) st).
Proof. intros H. unfold internString. rewrite H. reflexivity. Qed.

(** [CompressedJSONFromString.parseSync]: every document parses without
    error, and reading the returned value back through [getStringForValue],
    [getObjectForValue] and [getArrayForValue] gives the document, each
    string replaced by its transformed kind where [inferFormat] finds one
    (and kept as a string under a ["$ref"] key when [handleRefs] is set),
    numbers classed as integer or double (provided the tables stay below
    2^27 entries). *)
Theorem parseSync_decode_roundtrip (handleRefs : bool) (inferFormat : string -> option string) (j : jsval) :
  exists v st', parseSync handleRefs inferFormat j initialCJ = Done (v, st') /\
    (Bounded st' -> decode (S (depth j)) st' v = Done (expected handleRefs inferFormat false j)).
Proof.
  destruct (allocValue_heap j initialCJ) as [x [h E]].
  set (st0 := with_source x (with_heap h initialCJ)).
  assert (I0 : Inv st0) by (apply Inv_start; [exact StringsInv_initial | reflexivity | reflexivity]).
  destruct (process_finish handleRefs inferFormat j st0 I0 eq_refl eq_refl) as [v [st' [E1 [R1 _]]]].
  exists v, st'. split.
  - unfold parseSync. rewrite (cbind_done _ _ initialCJ x st0); [exact E1|].
    unfold makeUncompressedSource, cbind. rewrite E. reflexivity.
  - intros B. apply (decode_expected handleRefs inferFormat j false st' v R1 B). lia.
Qed.


(** [CompressedJSONFromStream.handleStartNumber]: a document that is a bare
    number makes the stream parser throw (there is no context to hold the
    chunks), while [parseSync] accepts the same document. *)
Theorem parseStream_number_root_fails (handleRefs : bool) (inferFormat : string -> option string)
    (numberChunks : jsnum -> list string) (x : jsnum) :
  parseStream handleRefs inferFormat (eventsOf numberChunks (JNum x)) initialCJ = Panic "defined" /\
  exists v st', parseSync handleRefs inferFormat (JNum x) initialCJ = Done (v, st').
Proof.
  split; [reflexivity|].
  assert (I0 : Inv (with_source (HPrim (JNum x)) initialCJ))
    by (apply Inv_start; [exact StringsInv_initial | reflexivity | reflexivity]).
  destruct (process_finish handleRefs inferFormat (JNum x) _ I0 eq_refl eq_refl) as [v [st' [E1 _]]].
  exists v, st'. exact E1.
Qed.

Lemma makeValue_getIndex_roundtrip_witness :
  valueTag (makeValue Tag_InternedString 5) = tagNumber Tag_InternedString /\ getIndex (makeValue Tag_InternedString 5) Tag_InternedString = Done 5.
Proof. apply (makeValue_getIndex_roundtrip Tag_InternedString 5). lia. Defined.

Lemma makeValue_index_overflow_witness :
  getIndex (makeValue Tag_Object (2 ^ 27)) Tag_Object = Done (2 ^ 27 - 2 ^ 28).
Proof. apply (makeValue_index_overflow Tag_Object (2 ^ 27)). lia. Defined.

Lemma getIndex_wrong_tag_witness :
  getIndex (makeValue Tag_Object 3) Tag_Array = Panic "Trying to get index for value with invalid tag".
Proof. apply (getIndex_wrong_tag Tag_Object Tag_Array 3). discriminate. Defined.

Lemma makeString_getStringForValue_witness :
  exists v st', makeString "a" initialCJ = Done (v, st') /\
    getStringForValue st' v = Done (Some "a") /\ StringsInv st'.
Proof. apply (makeString_getStringForValue "a" initialCJ); [exact StringsInv_initial | simpl; lia]. Defined.

Lemma internString_dedup_witness :
  internString "a" (with_strings ["a"] [("a", 0)] initialCJ) = Done (0, with_strings ["a"] [("a", 0)] initialCJ).
Proof.
  apply (internString_dedup "a" initialCJ); [exact StringsInv_initial | discriminate | reflexivity].
Defined.

Lemma internString_proto_never_shared_witness :
  internString "__proto__" initialCJ = Done (0, with_strings ["__proto__"] [] initialCJ).
Proof. apply (internString_proto_never_shared initialCJ). reflexivity. Defined.


End CompressedJSONProofs.

(** * Proofs about the uncompressed copy *)

Module CompressedJSONCopyProofs.

Import CompressedJSON CompressedJSONRead CompressedJSONCopy CompressedJSONProofs.

Section HeapCopy.

Local Open Scope list_scope.

Lemma list_update_length {A} n (f : A -> A) l : List.length (list_update n f l) = List.length l.
Proof. revert n; induction l as [|x t IH]; intros [|n]; simpl; auto. Qed.

Lemma nth_error_list_update_eq {A} n (f : A -> A) l :
  nth_error (list_update n f l) n = option_map f (nth_error l n).
Proof. revert n; induction l as [|x t IH]; intros [|n]; simpl; auto. Qed.

Lemma nth_error_list_update_neq {A} n (f : A -> A) l i :
  i <> n -> nth_error (list_update n f l) i = nth_error l i.
Proof.
  revert n i; induction l as [|x t IH]; intros [|n] [|i] H; simpl; auto; try lia.
Qed.

Lemma list_update_ext_at {A} n (f g : A -> A) l c :
  nth_error l n = Some c -> f c = g c -> list_update n f l = list_update n g l.
Proof.
  revert n; induction l as [|x t IH]; intros [|n] E H; simpl in *; try discriminate.
  - injection E as ->. rewrite H. reflexivity.
  - rewrite (IH n E H). reflexivity.
Qed.

Lemma list_update_id_at {A} n (f : A -> A) l c :
  nth_error l n = Some c -> f c = c -> list_update n f l = l.
Proof.
  revert n; induction l as [|x t IH]; intros [|n] E H; simpl in *; try discriminate.
  - injection E as ->. rewrite H. reflexivity.
  - rewrite (IH n E H). reflexivity.
Qed.

Lemma list_update_none {A} n (f : A -> A) l :
  nth_error l n = None -> list_update n f l = l.
Proof.
  revert n; induction l as [|x t IH]; intros [|n] E; simpl in *; try discriminate; auto.
  rewrite (IH n E). reflexivity.
Qed.

Lemma list_update_app_l {A} n (f : A -> A) l t :
  n < List.length l -> list_update n f (l ++ t) = list_update n f l ++ t.
Proof.
  revert n; induction l as [|x r IH]; intros [|n] H; simpl in *; try lia; auto.
  rewrite IH by lia. reflexivity.
Qed.

Lemma with_heap_same s : with_heap (heap s) s = s.
Proof. destruct s; reflexivity. Qed.

Lemma reaches_default f h : reachesProtoSetter f h PDefault = true.
Proof. destruct f; reflexivity. Qed.

Lemma setUOP_ref u l k s :
  ProtoFreshAt (heap s) (Some (HRef l)) k ->
  setUncompressedObjectProperty u (Some (HRef l)) k s =
  Done (u, with_heap (list_update l (attach k u) (heap s)) s).
Proof.
  intros Fr.
  unfold setUncompressedObjectProperty, isArray, cellAt.
  destruct (nth_error (heap s) l) as [[ps pr|xs]|] eqn:E.
  - destruct k as [k|].
    + simpl. unfold cbind, assignProperty, cellAt, cret. rewrite E.
      destruct (String.eqb k "") eqn:Ek; simpl.
      * rewrite (list_update_id_at l _ _ _ E), with_heap_same; [reflexivity|].
        unfold attach. rewrite Ek. reflexivity.
      * destruct (String.eqb k "__proto__") eqn:Ep.
        -- destruct (Fr Ep ps pr E) as [M ->].
           apply String.eqb_eq in Ep. subst k. simpl. rewrite M, reaches_default. simpl.
           f_equal. f_equal. f_equal. apply (list_update_ext_at l _ _ _ _ E). reflexivity.
        -- simpl. f_equal. f_equal. f_equal. apply (list_update_ext_at l _ _ _ _ E).
           unfold attach. rewrite Ek, Ep. reflexivity.
    + rewrite (list_update_id_at l _ _ _ E), with_heap_same; reflexivity.
  - f_equal. f_equal. f_equal. apply (list_update_ext_at l _ _ _ _ E). reflexivity.
  - rewrite (list_update_none l _ _ E), with_heap_same.
    destruct k as [k|]; [|reflexivity]. simpl.
    destruct (negb (String.eqb k "")); [|reflexivity].
    unfold cbind, assignProperty, cellAt, cret. rewrite E. reflexivity.
Qed.

Lemma setUOP_place u p k s :
  NotPrim p -> ProtoFreshAt (heap s) p k ->
  setUncompressedObjectProperty u p k s = Done (u, placeState p k u s).
Proof.
  intros Hp Fr. destruct p as [[v|l]|]; simpl in Hp; [contradiction | apply setUOP_ref; exact Fr |].
  unfold setUncompressedObjectProperty, placeState. destruct (typeofObject u); reflexivity.
Qed.

Lemma CtxOk_parent s : CtxOk s -> NotPrim (fst (parentOf s)).
Proof.
  intros [Hc _]. unfold parentOf. destruct (ctx s) as [c|]; [apply UOk_NotPrim; exact Hc | exact I].
Qed.

Lemma setUOSP_place v s :
  CtxOk s -> ProtoFreshAt (heap s) (fst (parentOf s)) (snd (parentOf s)) ->
  setUncompressedObjectSimpleProperty v s =
  Done (HPrim v, placeState (fst (parentOf s)) (snd (parentOf s)) (HPrim v) s).
Proof.
  intros H Fr. rewrite <- setUOP_place by first [apply CtxOk_parent; exact H | exact Fr].
  unfold setUncompressedObjectSimpleProperty, parentOf. destruct (ctx s); reflexivity.
Qed.

Lemma placeState_ctx p k x s :
  ctx (placeState p k x s) = ctx s /\ contextStack (placeState p k x s) = contextStack s.
Proof. destruct p as [[v|l]|]; simpl; try destruct (typeofObject x); auto. Qed.

Lemma cbind_inv {A B} (m : CM A) (k : A -> CM B) s r :
  cbind m k s = Done r -> exists a s1, m s = Done (a, s1) /\ k a s1 = Done r.
Proof.
  unfold cbind. destruct (m s) as [[a s1]| |]; intros H; try discriminate. exists a, s1. auto.
Qed.

Lemma CtxKeep_refl s : CtxKeep s s.
Proof. split; [reflexivity|]. destruct (ctx s); [eexists; split; reflexivity | reflexivity]. Qed.

Lemma CtxKeep_same s s' : ctx s' = ctx s -> contextStack s' = contextStack s -> CtxKeep s s'.
Proof.
  intros E1 E2. split; [exact E2|]. rewrite E1. destruct (ctx s); [eexists; split; reflexivity | reflexivity].
Qed.

Lemma CtxKeep_trans a b c : CtxKeep a b -> CtxKeep b c -> CtxKeep a c.
Proof.
  intros [Sa Ca] [Sb Cb]. split; [congruence|].
  destruct (ctx a) as [ca|].
  - destruct Ca as [cb [Eb Ub]]. rewrite Eb in Cb. destruct Cb as [cc [Ec Uc]].
    exists cc. split; [exact Ec | congruence].
  - rewrite Ca in Cb. exact Cb.
Qed.

Lemma CtxKeep_congr a a' x :
  ctx a = ctx a' -> contextStack a = contextStack a' -> CtxKeep a x -> CtxKeep a' x.
Proof. intros E1 E2 [S C]. split; [congruence|]. rewrite <- E1. exact C. Qed.

Lemma CtxKeep_CtxOk s s' : CtxKeep s s' -> CtxOk s -> CtxOk s'.
Proof.
  intros [S C] [Hc Hf]. unfold CtxOk. rewrite S. split; [|exact Hf].
  destruct (ctx s) as [c|].
  - destruct C as [c' [E U]]. rewrite E. unfold UOk in *. rewrite U. exact Hc.
  - rewrite C. exact Hc.
Qed.

Lemma CtxKeep_parentCell s s' : CtxKeep s s' -> parentCell s' = parentCell s.
Proof.
  intros [_ C]. unfold parentCell, parentOf. destruct (ctx s) as [c|].
  - destruct C as [c' [E U]]. rewrite E. simpl. rewrite U. reflexivity.
  - rewrite C. reflexivity.
Qed.

Lemma internString_frame s st i st' :
  internString s st = Done (i, st') ->
  heap st' = heap st /\ uncompressedSource st' = uncompressedSource st /\ CtxKeep st st'.
Proof.
  unfold internString. destruct (lookup_str s (stringIndexes st)); intros H; injection H as <- <-;
    (split; [reflexivity| split; [reflexivity | apply CtxKeep_same; reflexivity]]).
Qed.

Lemma makeString_frame s st v st' :
  makeString s st = Done (v, st') ->
  heap st' = heap st /\ uncompressedSource st' = uncompressedSource st /\ CtxKeep st st'.
Proof.
  unfold makeString. intros H. apply cbind_inv in H as [i [s1 [E1 E2]]].
  injection E2 as _ <-. exact (internString_frame _ _ _ _ E1).
Qed.

Lemma commitValue_frame v s s' :
  commitValue v s = Done (tt, s') ->
  heap s' = heap s /\ uncompressedSource s' = uncompressedSource s /\ CtxKeep s s'.
Proof.
  unfold commitValue. destruct (ctx s) as [c|] eqn:Hc.
  - destruct (currentObject c) as [obj|].
    + destruct (currentKey c) as [k|]; [|discriminate].
      intros H. apply cbind_inv in H as [kv [s1 [E1 E2]]].
      destruct (makeString_frame _ _ _ _ E1) as [H1 [S1 [K1 C1]]].
      unfold setContext in E2. injection E2 as <-.
      split; [exact H1|]. split; [exact S1|]. split; [exact K1|].
      rewrite Hc. eexists. split; [reflexivity|]. destruct c; reflexivity.
    + destruct (currentArray c) as [arr|]; [|discriminate].
      unfold setContext. intros H. injection H as <-.
      split; [reflexivity|]. split; [reflexivity|]. split; [reflexivity|].
      rewrite Hc. eexists. split; [reflexivity|]. destruct c; reflexivity.
  - destruct (rootValue s); [discriminate|]. intros H. injection H as <-.
    split; [reflexivity|]. split; [reflexivity|]. split; [reflexivity|]. rewrite Hc. exact Hc.
Qed.

Lemma popped_frame s :
  heap (popped s) = heap s /\ uncompressedSource (popped s) = uncompressedSource s.
Proof. unfold popped. destruct (contextStack s); auto. Qed.

Lemma finishArray_frame s s' :
  finishArray s = Done (tt, s') ->
  heap s' = heap s /\ uncompressedSource s' = uncompressedSource s /\ CtxKeep (popped s) s'.
Proof.
  intros H.
  assert (D : exists c arr, ctx s = Some c /\ currentArray c = Some arr).
  { unfold finishArray, cbind, context in H. simpl in H.
    destruct (ctx s) as [c|] eqn:Hc; [|discriminate H]. simpl in H.
    destruct (currentArray c) as [arr|] eqn:Ha; [exists c, arr; split; [reflexivity | exact Ha] | discriminate H]. }
  destruct D as [c [arr [Hc Ha]]].
  rewrite (finishArray_spec s c arr Hc Ha) in H.
  destruct (commitValue_frame _ _ _ H) as [H1 [S1 K1]].
  destruct (popped_frame s) as [Ph Ps].
  split; [rewrite H1; exact Ph|]. split; [rewrite S1; exact Ps|].
  eapply CtxKeep_congr; [| |exact K1]; reflexivity.
Qed.

Lemma finishObject_frame s s' :
  finishObject s = Done (tt, s') ->
  heap s' = heap s /\ uncompressedSource s' = uncompressedSource s /\ CtxKeep (popped s) s'.
Proof.
  intros H.
  assert (D : exists c obj, ctx s = Some c /\ currentObject c = Some obj).
  { unfold finishObject, cbind, context in H. simpl in H.
    destruct (ctx s) as [c|] eqn:Hc; [|discriminate H]. simpl in H.
    destruct (currentObject c) as [obj|] eqn:Ha; [exists c, obj; split; [reflexivity | exact Ha] | discriminate H]. }
  destruct D as [c [obj [Hc Ho]]].
  rewrite (finishObject_spec s c obj Hc Ho) in H.
  destruct (commitValue_frame _ _ _ H) as [H1 [S1 K1]].
  destruct (popped_frame s) as [Ph Ps].
  split; [rewrite H1; exact Ph|]. split; [rewrite S1; exact Ps|].
  eapply CtxKeep_congr; [| |exact K1]; reflexivity.
Qed.

Lemma ProtoFreshAt_snoc h p k c :
  ProtoFreshAt h p k ->
  (forall ps pr, c = HObj ps pr -> str_mem "__proto__" (map fst ps) = false /\ pr = PDefault) ->
  ProtoFreshAt (h ++ [c]) p k.
Proof.
  intros F Hc. destruct p as [[v|l]|]; [exact I| |exact I]. destruct k as [k|]; [|exact I].
  simpl in F |- *. intros Ek ps pr E.
  destruct (Nat.lt_ge_cases l (List.length h)) as [L|L].
  - rewrite nth_error_app1 in E by exact L. exact (F Ek ps pr E).
  - rewrite nth_error_app2 in E by exact L.
    destruct (l - List.length h) as [|q]; simpl in E.
    + injection E as E. exact (Hc ps pr E).
    + destruct q; discriminate.
Qed.

Lemma pushArray_exact s :
  CtxOk s -> ProtoFreshAt (heap s) (fst (parentOf s)) (snd (parentOf s)) ->
  pushArrayContext s =
  Done (tt, let n := List.length (heap s) in
            let s1 := placeState (fst (parentOf s)) (snd (parentOf s)) (HRef n)
                                 (with_heap (heap s ++ [HArr []]) s) in
            mkCJ (rootValue s) (Some (mkContext None (Some []) None None (Some (HRef n))))
                 (saved s) (strings s) (stringIndexes s) (objects s) (arrays s)
                 (heap s1) (uncompressedSource s1)).
Proof.
  intros [Hc _] Fr. destruct s as [r cx stk ss ix os ars hp src]. simpl in Hc.
  unfold pushArrayContext, parentOf, saved in *.
  destruct cx as [c|]; unfold cbind, pushContext, context, setContext, alloc, cret; simpl in *.
  - rewrite setUOP_place by first [apply UOk_NotPrim; exact Hc |
      apply ProtoFreshAt_snoc; [exact Fr | intros ? ? Ex; discriminate Ex]]. simpl.
    destruct (currentUncompressedObject c) as [[v|l]|]; simpl; reflexivity.
  - reflexivity.
Qed.

Lemma pushObject_exact s :
  CtxOk s -> ProtoFreshAt (heap s) (fst (parentOf s)) (snd (parentOf s)) ->
  pushObjectContext s =
  Done (tt, let n := List.length (heap s) in
            let s1 := placeState (fst (parentOf s)) (snd (parentOf s)) (HRef n)
                                 (with_heap (heap s ++ [HObj [] PDefault]) s) in
            mkCJ (rootValue s) (Some (mkContext (Some []) None None None (Some (HRef n))))
                 (saved s) (strings s) (stringIndexes s) (objects s) (arrays s)
                 (heap s1) (uncompressedSource s1)).
Proof.
  intros [Hc _] Fr. destruct s as [r cx stk ss ix os ars hp src]. simpl in Hc.
  unfold pushObjectContext, parentOf, saved in *.
  destruct cx as [c|]; unfold cbind, pushContext, context, setContext, alloc, cret; simpl in *.
  - rewrite setUOP_place by first [apply UOk_NotPrim; exact Hc |
      apply ProtoFreshAt_snoc; [exact Fr | intros ? ? Ex; injection Ex as <- <-; split; reflexivity]]. simpl.
    destruct (currentUncompressedObject c) as [[v|l]|]; simpl; reflexivity.
  - reflexivity.
Qed.

Lemma copyOf_JObj fs : copyOf (JObj fs) = JObj (fold_left copyStep fs []).
Proof. reflexivity. Qed.

Lemma mapOpt_app {A B} (g : A -> option B) a b ya yb :
  mapOpt g a = Some ya -> mapOpt g b = Some yb -> mapOpt g (a ++ b) = Some (ya ++ yb).
Proof.
  revert ya; induction a as [|x t IH]; intros ya Ha Hb; simpl in *.
  - injection Ha as <-. exact Hb.
  - destruct (g x) eqn:Gx; [|discriminate]. destruct (mapOpt g t) eqn:Gt; [|discriminate].
    injection Ha as <-. rewrite (IH _ eq_refl Hb). reflexivity.
Qed.

Lemma mapOpt_ext_in {A B} (g g' : A -> option B) l :
  (forall x, In x l -> g' x = g x) -> mapOpt g' l = mapOpt g l.
Proof.
  induction l as [|x t IH]; simpl; intros H; [reflexivity|].
  rewrite (H x (or_introl eq_refl)), IH by (intros y Hy; apply H; right; exact Hy). reflexivity.
Qed.

Lemma readPairs_ext_in {B} (g g' : hval -> option B) ps :
  (forall kv, In kv ps -> g' (snd kv) = g (snd kv)) -> readPairs g' ps = readPairs g ps.
Proof.
  unfold readPairs. intros H. apply mapOpt_ext_in. intros kv Hin. rewrite (H kv Hin). reflexivity.
Qed.

Lemma readPairs_set_str {B} (g : hval -> option B) k x y ps acc :
  readPairs g ps = Some acc -> g x = Some y -> readPairs g (set_str k x ps) = Some (set_str k y acc).
Proof.
  revert acc; induction ps as [|[k' v'] t IH]; intros acc Hp Hx; unfold readPairs in *; simpl in *.
  - injection Hp as <-. rewrite Hx. reflexivity.
  - destruct (g v') as [y'|] eqn:Gv; [|discriminate]. simpl in Hp.
    destruct (mapOpt _ t) as [r|] eqn:Gt; [|discriminate]. injection Hp as <-. simpl.
    destruct (String.eqb k k').
    + simpl. rewrite Hx, Gt. reflexivity.
    + simpl. rewrite Gv. simpl. rewrite (IH r eq_refl Hx). reflexivity.
Qed.

Lemma readPairs_keys {B} (g : hval -> option B) ps acc :
  readPairs g ps = Some acc -> map fst acc = map fst ps.
Proof.
  revert acc; induction ps as [|[k v] t IH]; intros acc Hp; unfold readPairs in *; simpl in *.
  - injection Hp as <-. reflexivity.
  - destruct (g v) as [y|]; [|discriminate]. simpl in Hp.
    destruct (mapOpt _ t) as [r|] eqn:Gt; [|discriminate]. injection Hp as <-. simpl.
    f_equal. exact (IH r eq_refl).
Qed.

Lemma readPairs_insertIndexKey {B} (g : hval -> option B) k n x y ps acc :
  readPairs g ps = Some acc -> g x = Some y ->
  readPairs g (insertIndexKey k n x ps) = Some (insertIndexKey k n y acc).
Proof.
  revert acc; induction ps as [|[k' v'] t IH]; intros acc Hp Hx; unfold readPairs in *; simpl in *.
  - injection Hp as <-. rewrite Hx. reflexivity.
  - destruct (g v') as [y'|] eqn:Gv; [|discriminate]. simpl in Hp.
    destruct (mapOpt _ t) as [r|] eqn:Gt; [|discriminate]. injection Hp as <-. simpl.
    destruct (arrayIndexOf k') as [n'|]; [destruct (N.ltb n' n)|]; simpl.
    + rewrite Gv. simpl. rewrite (IH r eq_refl Hx). reflexivity.
    + rewrite Hx. simpl. rewrite Gv. simpl. rewrite Gt. reflexivity.
    + rewrite Hx. simpl. rewrite Gv. simpl. rewrite Gt. reflexivity.
Qed.

Lemma readPairs_js_set {B} (g : hval -> option B) k x y ps acc :
  readPairs g ps = Some acc -> g x = Some y -> readPairs g (js_set k x ps) = Some (js_set k y acc).
Proof.
  intros Hp Hx. unfold js_set. rewrite (readPairs_keys g ps acc Hp).
  destruct (str_mem k (map fst ps)); [apply readPairs_set_str; assumption|].
  destruct (arrayIndexOf k) as [n|]; [apply readPairs_insertIndexKey; assumption|].
  unfold readPairs. apply mapOpt_app; [exact Hp|]. simpl. rewrite Hx. reflexivity.
Qed.

Lemma vals_set_str {A} k (x : A) ps v : In v (map snd (set_str k x ps)) -> v = x \/ In v (map snd ps).
Proof.
  induction ps as [|[k' v'] t IH]; simpl.
  - intros [<-|[]]. left. reflexivity.
  - destruct (String.eqb k k'); simpl; intros [H|H].
    + left. symmetry. exact H.
    + right. right. exact H.
    + right. left. exact H.
    + destruct (IH H) as [H'|H']; [left; exact H' | right; right; exact H'].
Qed.

Lemma vals_insertIndexKey {A} k n (x : A) ps v :
  In v (map snd (insertIndexKey k n x ps)) -> v = x \/ In v (map snd ps).
Proof.
  induction ps as [|[k' v'] t IH]; simpl.
  - intros [<-|[]]. left. reflexivity.
  - destruct (arrayIndexOf k') as [n'|]; [destruct (N.ltb n' n)|]; simpl; intros [H|H].
    + right. left. exact H.
    + destruct (IH H) as [H'|H']; [left; exact H' | right; right; exact H'].
    + left. symmetry. exact H.
    + right. exact H.
    + left. symmetry. exact H.
    + right. exact H.
Qed.

Lemma vals_js_set {A} k (x : A) ps v : In v (map snd (js_set k x ps)) -> v = x \/ In v (map snd ps).
Proof.
  unfold js_set. destruct (str_mem k (map fst ps)); [apply vals_set_str|].
  destruct (arrayIndexOf k) as [n|]; [apply vals_insertIndexKey|].
  rewrite map_app, in_app_iff. simpl. intros [H|[H|[]]]; [right; exact H | left; symmetry; exact H].
Qed.

Lemma refsL_cons v t :
  refsL (v :: t) = (match v with HRef r => [r] | HPrim _ => [] end) ++ refsL t.
Proof. reflexivity. Qed.

Lemma refsL_app a b : refsL (a ++ b) = refsL a ++ refsL b.
Proof. unfold refsL. apply flat_map_app. Qed.

Lemma in_ref1 r v : In r (match v with HRef r' => [r'] | HPrim _ => [] end) -> v = HRef r.
Proof. destruct v; simpl; [contradiction | intros [<-|[]]; reflexivity]. Qed.

Lemma in_refsL r xs : In (HRef r) xs -> In r (refsL xs).
Proof.
  induction xs as [|v t IH]; [intros []|]. rewrite refsL_cons. intros [->|H].
  - simpl. left. reflexivity.
  - apply in_or_app. right. exact (IH H).
Qed.

Lemma in_refsL_inv r xs : In r (refsL xs) -> In (HRef r) xs.
Proof.
  induction xs as [|v t IH]; [intros []|]. rewrite refsL_cons. intros H. apply in_app_or in H as [H|H].
  - left. exact (in_ref1 _ _ H).
  - right. exact (IH H).
Qed.

Lemma refs_js_set k x ps r :
  In r (refsL (map snd (js_set k x ps))) -> In r (refsL (map snd ps)) \/ x = HRef r.
Proof.
  intros H. apply in_refsL_inv in H. destruct (vals_js_set _ _ _ _ H) as [E|H'].
  - right. symmetry. exact E.
  - left. apply in_refsL. exact H'.
Qed.

Lemma refs_set_str k x ps r :
  In r (refsL (map snd (set_str k x ps))) -> In r (refsL (map snd ps)) \/ x = HRef r.
Proof.
  induction ps as [|[k' v'] t IH]; cbn [set_str map snd].
  - rewrite refsL_cons. intros H. apply in_app_or in H as [H|[]]. right. exact (in_ref1 _ _ H).
  - destruct (String.eqb k k'); cbn [map snd]; rewrite !refsL_cons; intros H; apply in_app_or in H as [H|H].
    + right. exact (in_ref1 _ _ H).
    + left. apply in_or_app. right. exact H.
    + left. apply in_or_app. left. exact H.
    + destruct (IH H) as [H'|H']; [left; apply in_or_app; right; exact H' | right; exact H'].
Qed.

Lemma refs_attach k x c r : In r (refsOf (attach k x c)) -> In r (refsOf c) \/ x = HRef r.
Proof.
  destruct c as [ps pr|xs]; simpl.
  - destruct k as [k|]; [|auto]. destruct (String.eqb k ""); [simpl; auto|].
    destruct (String.eqb k "__proto__"); simpl; [auto | apply refs_js_set].
  - rewrite refsL_app. intros H. apply in_app_or in H as [H|H]; [auto|].
    rewrite refsL_cons in H. apply in_app_or in H as [H|[]]. right. exact (in_ref1 _ _ H).
Qed.

Lemma OrdFrom_attach b h l k x :
  OrdFrom b h -> (forall r, x = HRef r -> l < r < List.length h) ->
  OrdFrom b (list_update l (attach k x) h).
Proof.
  intros O Hx m c r Hm E Hr. rewrite list_update_length. destruct (Nat.eq_dec m l) as [->|Ne].
  - rewrite nth_error_list_update_eq in E. destruct (nth_error h l) as [c0|] eqn:E0; [|discriminate].
    simpl in E. injection E as <-.
    destruct (refs_attach _ _ _ _ Hr) as [H|H]; [exact (O l c0 r Hm E0 H) | exact (Hx r H)].
  - rewrite nth_error_list_update_neq in E by exact Ne. exact (O m c r Hm E Hr).
Qed.

Lemma OrdFrom_snoc b h c : OrdFrom b h -> refsOf c = [] -> OrdFrom b (h ++ [c]).
Proof.
  intros O Hc m c' r Hm E Hr. rewrite length_app. simpl.
  destruct (Nat.lt_ge_cases m (List.length h)) as [L|L].
  - rewrite nth_error_app1 in E by exact L. specialize (O m c' r Hm E Hr). lia.
  - rewrite nth_error_app2 in E by exact L.
    destruct (m - List.length h) as [|q]; simpl in E.
    + injection E as <-. rewrite Hc in Hr. contradiction.
    + destruct q; discriminate.
Qed.

Lemma OrdFrom_mono a b h : a <= b -> OrdFrom a h -> OrdFrom b h.
Proof. intros L O m c r Hm. apply O. lia. Qed.

Lemma OrdFrom_beyond b h : List.length h <= b -> OrdFrom b h.
Proof. intros L m c r Hm E. rewrite (proj2 (nth_error_None h m)) in E by lia. discriminate. Qed.

Lemma readH_frame f : forall a h h' v,
  OrdFrom a h -> (forall i, a <= i -> i < List.length h -> nth_error h' i = nth_error h i) ->
  (match v with HRef m => a <= m < List.length h | HPrim _ => True end) ->
  readH f h' v = readH f h v.
Proof.
  induction f as [|f IH]; intros a h h' v O Ag Hv; destruct v as [p|m]; try reflexivity.
  simpl. rewrite (Ag m) by lia.
  destruct (nth_error h m) as [[ps pr|xs]|] eqn:E; [| |reflexivity].
  - f_equal. apply readPairs_ext_in. intros kv Hin. apply (IH a h h' (snd kv) O Ag).
    destruct (snd kv) as [p|r] eqn:Ek; [exact I|].
    assert (Hr : In r (refsOf (HObj ps pr))).
    { simpl. apply in_refsL. rewrite <- Ek. apply in_map. exact Hin. }
    specialize (O m _ r (proj1 Hv) E Hr). lia.
  - f_equal. apply mapOpt_ext_in. intros x Hin. apply (IH a h h' x O Ag).
    destruct x as [p|r]; [exact I|].
    assert (Hr : In r (refsOf (HArr xs))) by (apply in_refsL; exact Hin).
    specialize (O m _ r (proj1 Hv) E Hr). lia.
Qed.

Lemma entry_stable b h h' n c f v :
  OrdFrom b h -> b <= n -> nth_error h n = Some c ->
  (forall i, S n <= i -> i < List.length h -> nth_error h' i = nth_error h i) ->
  (match v with HRef r => In r (refsOf c) | HPrim _ => True end) ->
  readH f h' v = readH f h v.
Proof.
  intros O Hb E Ag Hv. apply (readH_frame f (S n) h h' v); [apply (OrdFrom_mono b); [lia | exact O] | exact Ag|].
  destruct v as [p|r]; [exact I|]. specialize (O n c r Hb E Hv). lia.
Qed.

Lemma arr_stable b h h' n xs f :
  OrdFrom b h -> b <= n -> nth_error h n = Some (HArr xs) ->
  (forall i, S n <= i -> i < List.length h -> nth_error h' i = nth_error h i) ->
  mapOpt (readH f h') xs = mapOpt (readH f h) xs.
Proof.
  intros O Hb E Ag. apply mapOpt_ext_in. intros x Hin. apply (entry_stable b h h' n _ f x O Hb E Ag).
  destruct x as [p|r]; [exact I|]. simpl. apply in_refsL. exact Hin.
Qed.

Lemma obj_stable b h h' n ps pr f :
  OrdFrom b h -> b <= n -> nth_error h n = Some (HObj ps pr) ->
  (forall i, S n <= i -> i < List.length h -> nth_error h' i = nth_error h i) ->
  readPairs (readH f h') ps = readPairs (readH f h) ps.
Proof.
  intros O Hb E Ag. apply readPairs_ext_in. intros kv Hin. apply (entry_stable b h h' n _ f (snd kv) O Hb E Ag).
  destruct (snd kv) as [p|r] eqn:Ek; [exact I|]. simpl. apply in_refsL. rewrite <- Ek. apply in_map. exact Hin.
Qed.

Lemma le_fold_max {A} (g : A -> nat) l x :
  In x l -> g x <= fold_right (fun y m => Nat.max (g y) m) 0 l.
Proof. induction l as [|y t IH]; simpl; [contradiction|]. intros [->|H]; [lia|]. specialize (IH H). lia. Qed.

Lemma depth_items l : Forall (fun j => depth j < depth (JArr l)) l.
Proof.
  apply Forall_forall. intros x Hx. simpl. pose proof (le_fold_max depth l x Hx). lia.
Qed.

Lemma depth_props fs : Forall (fun kv => depth (snd kv) < depth (JObj fs)) fs.
Proof.
  apply Forall_forall. intros x Hx. simpl.
  pose proof (le_fold_max (fun kv => depth (snd kv)) fs x Hx). simpl in H. lia.
Qed.

Lemma readH_prim f h p : readH f h (HPrim p) = Some p.
Proof. destruct f; reflexivity. Qed.

Lemma parentCell_ref s l : fst (parentOf s) = Some (HRef l) -> parentCell s = Some l.
Proof. unfold parentCell. intros ->. reflexivity. Qed.

Lemma prim_heap v (k : CM unit) b s s' :
  copyOf v = v -> CtxOk s -> OrdFrom b (heap s) -> ParentIn b s ->
  ProtoFreshAt (heap s) (fst (parentOf s)) (snd (parentOf s)) ->
  cbind (setUncompressedObjectSimpleProperty v) (fun _ => k) s = Done (tt, s') ->
  (forall s1 s2, k s1 = Done (tt, s2) ->
     heap s2 = heap s1 /\ uncompressedSource s2 = uncompressedSource s1 /\ CtxKeep s1 s2) ->
  HeapPost v s s' /\ OrdFrom b (heap s').
Proof.
  intros Hv Hc O P Fr E Hk.
  rewrite (cbind_done _ _ s _ _ (setUOSP_place v s Hc Fr)) in E.
  destruct (Hk _ _ E) as [H1 [S1 K1]].
  pose proof (placeState_ctx (fst (parentOf s)) (snd (parentOf s)) (HPrim v) s) as [C0 S0].
  assert (K : CtxKeep s s') by exact (CtxKeep_trans _ _ _ (CtxKeep_same _ _ C0 S0) K1).
  pose proof (CtxOk_parent s Hc) as NP. unfold ParentIn in P.
  destruct (fst (parentOf s)) as [[q|l]|] eqn:Ep; [contradiction | |].
  - simpl in H1, S1. split.
    + exists (HPrim v). rewrite Ep, H1. simpl.
      split; [rewrite list_update_length; lia|].
      split; [intros i Hi Hn; apply nth_error_list_update_neq; intros ->;
              apply Hn; apply parentCell_ref; exact Ep|].
      split; [split; [apply nth_error_list_update_eq | exact S1]|].
      split; [intros f _; rewrite Hv; apply readH_prim|]. split; [reflexivity | exact K].
    + rewrite H1. simpl. apply OrdFrom_attach; [exact O | discriminate].
  - simpl in H1, S1.
    assert (H1' : heap s' = heap s) by (rewrite H1; destruct (is_object v); reflexivity).
    split; [|rewrite H1'; exact O].
    exists (HPrim v). rewrite Ep, H1'. split; [lia|]. split; [reflexivity|].
    split; [rewrite S1; simpl; destruct (is_object v); reflexivity|].
    split; [intros f _; rewrite Hv; apply readH_prim|]. split; [reflexivity | exact K].
Qed.

Lemma push_facts b s c0 :
  CtxOk s -> b <= List.length (heap s) -> OrdFrom b (heap s) -> ParentIn b s -> refsOf c0 = [] ->
  let n := List.length (heap s) in
  let s1 := placeState (fst (parentOf s)) (snd (parentOf s)) (HRef n) (with_heap (heap s ++ [c0]) s) in
  List.length (heap s1) = S n /\ nth_error (heap s1) n = Some c0 /\ OrdFrom b (heap s1) /\
  (forall i, i < n -> parentCell s <> Some i -> nth_error (heap s1) i = nth_error (heap s) i) /\
  match fst (parentOf s) with
  | None => uncompressedSource s1 = HRef n
  | Some (HRef l) =>
      nth_error (heap s1) l = option_map (attach (snd (parentOf s)) (HRef n)) (nth_error (heap s) l) /\
      uncompressedSource s1 = uncompressedSource s
  | Some (HPrim _) => False
  end.
Proof.
  intros Hc Hb O P R n s1.
  pose proof (CtxOk_parent s Hc) as NP. unfold ParentIn in P.
  assert (O1 : OrdFrom b (heap s ++ [c0])) by (apply OrdFrom_snoc; assumption).
  assert (N1 : nth_error (heap s ++ [c0]) n = Some c0).
  { unfold n. rewrite nth_error_app2, Nat.sub_diag by lia. reflexivity. }
  unfold s1. clear s1.
  destruct (fst (parentOf s)) as [[q|l]|] eqn:Ep; [contradiction | |].
  - simpl. rewrite list_update_length, length_app. simpl. split; [lia|].
    split; [rewrite nth_error_list_update_neq by lia; exact N1|].
    split; [apply OrdFrom_attach; [exact O1 | intros r Er; injection Er as <-; rewrite length_app; simpl; unfold n; lia]|].
    split.
    + intros i Hi Hn. rewrite nth_error_list_update_neq by (intros ->; apply Hn; apply parentCell_ref; exact Ep).
      apply nth_error_app1. exact Hi.
    + split; [|reflexivity]. rewrite nth_error_list_update_eq, nth_error_app1 by lia. reflexivity.
  - simpl. rewrite length_app. simpl. split; [lia|]. split; [exact N1|]. split; [exact O1|].
    split; [|reflexivity]. intros i Hi _. apply nth_error_app1. exact Hi.
Qed.

Lemma close_container j b s sc s' c0 :
  CtxOk s -> b <= List.length (heap s) -> OrdFrom b (heap s) -> ParentIn b s -> refsOf c0 = [] ->
  let n := List.length (heap s) in
  let s1 := placeState (fst (parentOf s)) (snd (parentOf s)) (HRef n) (with_heap (heap s ++ [c0]) s) in
  List.length (heap s1) <= List.length (heap sc) ->
  (forall i, i < List.length (heap s1) -> i <> n -> nth_error (heap sc) i = nth_error (heap s1) i) ->
  uncompressedSource sc = uncompressedSource s1 ->
  heap s' = heap sc -> uncompressedSource s' = uncompressedSource sc -> CtxKeep s s' ->
  (forall f, depth j < f -> readH f (heap s') (HRef n) = Some (copyOf j)) ->
  HeapPost j s s'.
Proof.
  intros Hc Hb O P R n s1 L Ag Sc H' S' K Rd.
  destruct (push_facts b s c0 Hc Hb O P R) as [L1 [N1 [O1 [A1 Pc]]]]. fold n s1 in L1, N1, O1, A1, Pc.
  exists (HRef n). rewrite H'.
  split; [lia|].
  split; [intros i Hi Hn; rewrite Ag by lia; apply A1; assumption|].
  split.
  - unfold ParentIn in P. destruct (fst (parentOf s)) as [[q|l]|]; [exact Pc | |].
    + destruct Pc as [Pl Ps]. split; [rewrite Ag by lia; exact Pl | rewrite S', Sc; exact Ps].
    + simpl. rewrite S', Sc. exact Pc.
  - split; [rewrite <- H'; exact Rd|]. split; [lia | exact K].
Qed.

Lemma str_mem_In k l : str_mem k l = true <-> In k l.
Proof.
  unfold str_mem. rewrite existsb_exists. split.
  - intros [x [H E]]. apply String.eqb_eq in E. subst x. exact H.
  - intros H. exists k. split; [exact H | apply String.eqb_refl].
Qed.

Lemma str_mem_cons a b l : str_mem a (b :: l) = String.eqb a b || str_mem a l.
Proof. reflexivity. Qed.

Lemma nodupKeys_arr l : nodupKeys (JArr l) = true -> Forall (fun j => nodupKeys j = true) l.
Proof.
  induction l as [|x t IH]; intros H; [constructor|].
  simpl in H. apply andb_prop in H as [H1 H2]. constructor; [exact H1 | apply IH; exact H2].
Qed.

Lemma nodupKeys_obj fs :
  nodupKeys (JObj fs) = true ->
  nodup_str (map fst fs) = true /\ Forall (fun kv => nodupKeys (snd kv) = true) fs.
Proof.
  simpl. intros H. apply andb_prop in H as [H1 H2]. split; [exact H1|]. clear H1.
  induction fs as [|[k x] t IH]; [constructor|].
  apply andb_prop in H2 as [H2 H3]. constructor; [exact H2 | apply IH; exact H3].
Qed.

Lemma ProtoFresh_arr s n xs :
  parentCell s = Some n -> nth_error (heap s) n = Some (HArr xs) ->
  ProtoFreshAt (heap s) (fst (parentOf s)) (snd (parentOf s)).
Proof.
  unfold parentCell. destruct (fst (parentOf s)) as [[v|l]|]; try discriminate.
  intros E Hn. injection E as ->. destruct (snd (parentOf s)) as [k|]; [|exact I].
  simpl. intros _ ps pr E. rewrite Hn in E. discriminate.
Qed.

Section Heap.

Variable hr : bool.
Variable inf : string -> option string.

Lemma items_heap l :
  Forall (HeapOk hr inf) l -> Forall (fun j => nodupKeys j = true) l ->
  forall b s s' n xs acc F,
    CtxOk s -> parentCell s = Some n -> b <= n < List.length (heap s) -> OrdFrom b (heap s) ->
    nth_error (heap s) n = Some (HArr xs) ->
    (forall f, F <= f -> mapOpt (readH f (heap s)) xs = Some acc) ->
    Forall (fun j => depth j < F) l ->
    processItems hr inf l s = Done (tt, s') ->
    exists xs',
      List.length (heap s) <= List.length (heap s') /\
      (forall i, i < List.length (heap s) -> i <> n -> nth_error (heap s') i = nth_error (heap s) i) /\
      nth_error (heap s') n = Some (HArr xs') /\
      (forall f, F <= f -> mapOpt (readH f (heap s')) xs' = Some (acc ++ map copyOf l)) /\
      uncompressedSource s' = uncompressedSource s /\ CtxKeep s s' /\ OrdFrom b (heap s').
Proof.
  induction l as [|j t IHt]; intros HF HN b s s' n xs acc F Hc Pn Hb O Hn Rd D E.
  - injection E as <-. exists xs. rewrite app_nil_r.
    split; [lia|]. split; [reflexivity|]. split; [exact Hn|]. split; [exact Rd|].
    split; [reflexivity|]. split; [apply CtxKeep_refl | exact O].
  - inversion HF as [|? ? Hj HFt]; subst. inversion D as [|? ? Dj Dt]; subst.
    inversion HN as [|? ? Nj HNt]; subst.
    rewrite processItems_cons in E. apply cbind_inv in E as [[] [s1 [E1 E2]]].
    assert (Pi : ParentIn b s).
    { unfold ParentIn. unfold parentCell in Pn. destruct (fst (parentOf s)) as [[q|l]|]; try discriminate.
      injection Pn as ->. exact Hb. }
    destruct (Hj Nj b s s1 Hc ltac:(lia) O Pi (ProtoFresh_arr s n xs Pn Hn) E1)
      as [[x [L1 [A1 [P1 [R1 [X1 K1]]]]]] O1].
    unfold parentCell in Pn.
    destruct (fst (parentOf s)) as [[q|l]|] eqn:Ep; try discriminate. injection Pn as ->.
    destruct P1 as [P1 S1]. rewrite Hn in P1. simpl in P1.
    assert (Pn1 : parentCell s1 = Some n).
    { rewrite (CtxKeep_parentCell s s1 K1). unfold parentCell. rewrite Ep. reflexivity. }
    assert (Ag : forall i, S n <= i -> i < List.length (heap s) -> nth_error (heap s1) i = nth_error (heap s) i).
    { intros i Hi Hl. apply A1; [exact Hl|]. unfold parentCell. rewrite Ep. intros E'. injection E' as E'. lia. }
    assert (Rd1 : forall f, F <= f -> mapOpt (readH f (heap s1)) (xs ++ [x]) = Some (acc ++ [copyOf j])).
    { intros f Hf. apply mapOpt_app.
      - rewrite (arr_stable b (heap s) (heap s1) n xs f O (proj1 Hb) Hn Ag). exact (Rd f Hf).
      - simpl. rewrite (R1 f) by lia. reflexivity. }
    destruct (IHt HFt HNt b s1 s' n (xs ++ [x]) (acc ++ [copyOf j]) F (CtxKeep_CtxOk s s1 K1 Hc) Pn1
                ltac:(lia) O1 P1 Rd1 Dt E2) as [xs' [L2 [A2 [N2 [R2 [S2 [K2 O2]]]]]]].
    exists xs'.
    split; [lia|].
    split; [intros i Hi Hne; rewrite A2 by lia; apply A1; [exact Hi|];
            unfold parentCell; rewrite Ep; intros E'; injection E' as E'; lia|].
    split; [exact N2|].
    split; [intros f Hf; rewrite (R2 f Hf), <- app_assoc; reflexivity|].
    split; [congruence|]. split; [exact (CtxKeep_trans _ _ _ K1 K2) | exact O2].
Qed.

Lemma props_heap fs :
  Forall (fun kv => HeapOk hr inf (snd kv)) fs ->
  Forall (fun kv => nodupKeys (snd kv) = true) fs ->
  nodup_str (map fst fs) = true ->
  forall b s s' n ps pr acc F,
    CtxOk s -> parentCell s = Some n -> b <= n < List.length (heap s) -> OrdFrom b (heap s) ->
    nth_error (heap s) n = Some (HObj ps pr) ->
    str_mem "__proto__" (map fst ps) = false ->
    (str_mem "__proto__" (map fst fs) = true -> pr = PDefault) ->
    (forall f, F <= f -> readPairs (readH f (heap s)) ps = Some acc) ->
    Forall (fun kv => depth (snd kv) < F) fs ->
    processProps hr inf fs s = Done (tt, s') ->
    exists ps' pr',
      List.length (heap s) <= List.length (heap s') /\
      (forall i, i < List.length (heap s) -> i <> n -> nth_error (heap s') i = nth_error (heap s) i) /\
      nth_error (heap s') n = Some (HObj ps' pr') /\
      (forall f, F <= f -> readPairs (readH f (heap s')) ps' = Some (fold_left copyStep fs acc)) /\
      uncompressedSource s' = uncompressedSource s /\ CtxKeep s s' /\ OrdFrom b (heap s').
Proof.
  induction fs as [|[k v] t IHt]; intros HF HN Nd b s s' n ps pr acc F Hc Pn Hb O Hn Mp Dp Rd D E.
  - injection E as <-. exists ps, pr.
    split; [lia|]. split; [reflexivity|]. split; [exact Hn|]. split; [exact Rd|].
    split; [reflexivity|]. split; [apply CtxKeep_refl | exact O].
  - inversion HF as [|? ? Hj HFt]; subst. inversion D as [|? ? Dj Dt]; subst.
    inversion HN as [|? ? Nj HNt]; subst. simpl in Hj, Dj, Nj.
    simpl in Nd. apply andb_prop in Nd as [Nk Nd]. apply negb_true_iff in Nk.
    rewrite processProps_cons in E. apply cbind_inv in E as [[] [sk [Ek E]]].
    apply cbind_inv in E as [[] [s1 [E1 E2]]].
    unfold parentCell, parentOf in Pn. destruct (ctx s) as [c|] eqn:Hcs; [|discriminate].
    simpl in Pn. destruct (currentUncompressedObject c) as [[q|l]|] eqn:Uc; try discriminate.
    injection Pn as ->.
    unfold setPropertyKey, cbind, context, setContext in Ek. rewrite Hcs in Ek. simpl in Ek.
    injection Ek as <-.
    set (ck := set_currentKey (Some k) c).
    assert (Kk : CtxKeep s (with_ctx (Some ck) s)).
    { split; [reflexivity|]. rewrite Hcs. exists ck. split; [reflexivity | unfold ck; destruct c; exact eq_refl]. }
    assert (Uk : currentUncompressedObject ck = Some (HRef n)) by (unfold ck; destruct c; exact Uc).
    assert (Pk : parentOf (with_ctx (Some ck) s) = (Some (HRef n), Some k)).
    { unfold parentOf, ck. simpl. rewrite Uc. reflexivity. }
    assert (Ck : CtxOk (with_ctx (Some ck) s)) by exact (CtxKeep_CtxOk _ _ Kk Hc).
    assert (Pi : ParentIn b (with_ctx (Some ck) s)) by (unfold ParentIn; rewrite Pk; exact Hb).
    assert (Fr : ProtoFreshAt (heap (with_ctx (Some ck) s)) (fst (parentOf (with_ctx (Some ck) s)))
                              (snd (parentOf (with_ctx (Some ck) s)))).
    { rewrite Pk. simpl. intros Ep ps0 pr0 E0. rewrite Hn in E0. injection E0 as <- <-.
      apply String.eqb_eq in Ep. subst k. split; [exact Mp | apply Dp; reflexivity]. }
    destruct (Hj Nj b _ s1 Ck ltac:(simpl; lia) O Pi Fr E1) as [[x [L1 [A1 [P1 [R1 [X1 K1]]]]]] O1].
    rewrite Pk in P1. destruct P1 as [P1 S1]. simpl in P1. rewrite Hn in P1. simpl in P1.
    assert (Pc1 : parentCell (with_ctx (Some ck) s) = Some n) by (unfold parentCell; rewrite Pk; reflexivity).
    assert (K1' : CtxKeep s s1) by exact (CtxKeep_trans _ _ _ Kk K1).
    assert (Pn1 : parentCell s1 = Some n).
    { rewrite (CtxKeep_parentCell _ _ K1). exact Pc1. }
    assert (Ag : forall i, S n <= i -> i < List.length (heap s) -> nth_error (heap s1) i = nth_error (heap s) i).
    { intros i Hi Hl. apply A1; [exact Hl|]. rewrite Pc1. intros E'. injection E' as E'. lia. }
    assert (Rs : forall f, F <= f -> readPairs (readH f (heap s1)) ps = Some acc).
    { intros f Hf. rewrite (obj_stable b (heap s) (heap s1) n ps pr f O (proj1 Hb) Hn Ag). exact (Rd f Hf). }
    assert (C1 : exists ps1 pr1, attach (Some k) x (HObj ps pr) = HObj ps1 pr1 /\
                   str_mem "__proto__" (map fst ps1) = false /\
                   (str_mem "__proto__" (map fst t) = true -> pr1 = PDefault) /\
                   (forall f, F <= f -> readPairs (readH f (heap s1)) ps1 = Some (copyStep acc (k, v)))).
    { assert (Dt' : str_mem "__proto__" (map fst t) = true -> pr = PDefault).
      { intros Mt. apply Dp. change (map fst ((k, v) :: t)) with (k :: map fst t).
        rewrite str_mem_cons, Mt. apply orb_true_r. }
      unfold attach, copyStep, droppedKey. cbn [fst snd].
      destruct (String.eqb k "") eqn:Ek; [|destruct (String.eqb k "__proto__") eqn:Ep]; simpl.
      - exists ps, pr. split; [reflexivity|]. split; [exact Mp|]. split; [exact Dt' | exact Rs].
      - exists ps, (setProtoOf x pr). split; [reflexivity|]. split; [exact Mp|]. split; [|exact Rs].
        apply String.eqb_eq in Ep. subst k. intros Mt. rewrite Nk in Mt. discriminate Mt.
      - exists (js_set k x ps), pr. split; [reflexivity|]. split.
        + destruct (str_mem "__proto__" (map fst (js_set k x ps))) eqn:M; [|reflexivity].
          apply str_mem_In in M. destruct (js_set_keys _ _ _ _ M) as [M'|M'].
          * subst k. rewrite String.eqb_refl in Ep. discriminate Ep.
          * apply str_mem_In in M'. rewrite Mp in M'. discriminate M'.
        + split; [exact Dt'|].
          intros f Hf. apply readPairs_js_set; [exact (Rs f Hf) | apply R1; lia]. }
    destruct C1 as [ps1 [pr1 [Ce [Mp1 [Dp1 Rd1]]]]].
    assert (N1 : nth_error (heap s1) n = Some (HObj ps1 pr1)).
    { rewrite P1. change (Some (attach (Some k) x (HObj ps pr)) = Some (HObj ps1 pr1)). rewrite Ce. reflexivity. }
    destruct (IHt HFt HNt Nd b s1 s' n ps1 pr1 (copyStep acc (k, v)) F (CtxKeep_CtxOk s s1 K1' Hc) Pn1
                ltac:(simpl in L1; lia) O1 N1 Mp1 Dp1 Rd1 Dt E2)
      as [ps' [pr' [L2 [A2 [N2 [R2 [S2 [K2 O2]]]]]]]].
    exists ps', pr'. simpl in L1, A1.
    split; [lia|].
    split; [intros i Hi Hne; rewrite A2 by lia; apply A1; [exact Hi|];
            rewrite Pc1; intros E'; injection E' as E'; lia|].
    split; [exact N2|].
    split; [intros f Hf; rewrite (R2 f Hf); reflexivity|].
    split; [simpl in S1; congruence|]. split; [exact (CtxKeep_trans _ _ _ K1' K2) | exact O2].
Qed.

Lemma CtxOk_pushed s c h u :
  CtxOk s -> UOk c ->
  CtxOk (mkCJ (rootValue s) (Some c) (saved s) (strings s) (stringIndexes s) (objects s) (arrays s) h u).
Proof.
  intros [Hc Hf] U. split; [exact U|]. simpl. unfold saved.
  destruct (ctx s); [constructor; assumption | exact Hf].
Qed.

Theorem heap_ok : forall j, HeapOk hr inf j.
Proof.
  intros j. induction j as [| bb | x | str | l IHl | fs IHfs] using jsval_ind'; intros Nd b s s' Hc Hb O P Fr E.
  - eapply prim_heap; [reflexivity | exact Hc | exact O | exact P | exact Fr | exact E |].
    intros s1 s2 H. exact (commitValue_frame _ _ _ H).
  - eapply prim_heap; [reflexivity | exact Hc | exact O | exact P | exact Fr | exact E |].
    intros s1 s2 H. exact (commitValue_frame _ _ _ H).
  - eapply prim_heap; [reflexivity | exact Hc | exact O | exact P | exact Fr | exact E |].
    intros s1 s2 H. exact (commitValue_frame _ _ _ H).
  - eapply prim_heap; [reflexivity | exact Hc | exact O | exact P | exact Fr | exact E |].
    intros s1 s2 H. apply cbind_inv in H as [v1 [s3 [E3 E4]]].
    destruct (commitValue_frame _ _ _ E4) as [H4 [S4 K4]].
    assert (F3 : heap s3 = heap s1 /\ uncompressedSource s3 = uncompressedSource s1 /\ CtxKeep s1 s3).
    { destruct (hr && isExpectingRef s1); [exact (makeString_frame _ _ _ _ E3)|].
      destruct (inf str) as [fmt|]; [|exact (makeString_frame _ _ _ _ E3)].
      apply cbind_inv in E3 as [i [s4 [E5 E6]]]. injection E6 as _ <-.
      exact (internString_frame _ _ _ _ E5). }
    destruct F3 as [H3 [S3 K3]].
    split; [congruence|]. split; [congruence | exact (CtxKeep_trans _ _ _ K3 K4)].
  - rewrite process_JArr in E. apply cbind_inv in E as [[] [sb [Eb E]]].
    apply cbind_inv in E as [[] [sc [Ec Ef]]].
    rewrite (pushArray_exact s Hc Fr) in Eb. injection Eb as <-.
    destruct (push_facts b s (HArr []) Hc Hb O P eq_refl) as [L1 [N1 [O1 [A1 Pc]]]].
    set (n := List.length (heap s)) in *.
    set (s1 := placeState (fst (parentOf s)) (snd (parentOf s)) (HRef n) (with_heap (heap s ++ [HArr []]) s)) in *.
    assert (Bn : b <= n < List.length (heap s1)) by lia.
    destruct (items_heap l IHl (nodupKeys_arr l Nd) b _ sc n [] [] (depth (JArr l))
                (CtxOk_pushed s (mkContext None (Some []) None None (Some (HRef n))) _ _ Hc I)
                ltac:(reflexivity) Bn O1 N1
                ltac:(intros f _; reflexivity) (depth_items l) Ec)
      as [xs' [L2 [A2 [N2 [R2 [S2 [K2 O2]]]]]]].
    destruct (finishArray_frame sc s' Ef) as [H3 [S3 K3]].
    destruct (popped_saved s sc Hc (proj1 K2)) as [Pc' Ps'].
    assert (K : CtxKeep s s') by exact (CtxKeep_congr _ _ _ Pc' Ps' K3).
    split; [|rewrite H3; exact O2].
    apply (close_container (JArr l) b s sc s' (HArr []) Hc Hb O P eq_refl); fold n s1;
      [exact L2 | exact A2 | exact S2 | exact H3 | exact S3 | exact K |].
    intros f Hf. destruct f as [|f0]; [lia|]. simpl. rewrite H3, N2. simpl.
    rewrite (R2 f0) by (simpl in Hf |- *; lia). reflexivity.
  - rewrite process_JObj in E. apply cbind_inv in E as [[] [sb [Eb E]]].
    apply cbind_inv in E as [[] [sc [Ec Ef]]].
    rewrite (pushObject_exact s Hc Fr) in Eb. injection Eb as <-.
    destruct (nodupKeys_obj fs Nd) as [Nd1 Nd2].
    destruct (push_facts b s (HObj [] PDefault) Hc Hb O P eq_refl) as [L1 [N1 [O1 [A1 Pc]]]].
    set (n := List.length (heap s)) in *.
    set (s1 := placeState (fst (parentOf s)) (snd (parentOf s)) (HRef n) (with_heap (heap s ++ [HObj [] PDefault]) s)) in *.
    assert (Bn : b <= n < List.length (heap s1)) by lia.
    destruct (props_heap fs IHfs Nd2 Nd1 b _ sc n [] PDefault [] (depth (JObj fs))
                (CtxOk_pushed s (mkContext (Some []) None None None (Some (HRef n))) _ _ Hc I)
                ltac:(reflexivity) Bn O1 N1 eq_refl (fun _ => eq_refl)
                ltac:(intros f _; reflexivity) (depth_props fs) Ec)
      as [ps' [pr' [L2 [A2 [N2 [R2 [S2 [K2 O2]]]]]]]].
    destruct (finishObject_frame sc s' Ef) as [H3 [S3 K3]].
    destruct (popped_saved s sc Hc (proj1 K2)) as [Pc' Ps'].
    assert (K : CtxKeep s s') by exact (CtxKeep_congr _ _ _ Pc' Ps' K3).
    split; [|rewrite H3; exact O2].
    apply (close_container (JObj fs) b s sc s' (HObj [] PDefault) Hc Hb O P eq_refl); fold n s1;
      [exact L2 | exact A2 | exact S2 | exact H3 | exact S3 | exact K |].
    intros f Hf. destruct f as [|f0]; [lia|]. simpl. rewrite H3, N2. simpl.
    rewrite (R2 f0) by (simpl in Hf |- *; lia). reflexivity.
Qed.

End Heap.

End HeapCopy.

Lemma readH_ref_shape f h m y :
  readH f h (HRef m) = Some y -> (exists l, y = JArr l) \/ (exists fs, y = JObj fs).
Proof.
  destruct f as [|f]; simpl; [discriminate|].
  destruct (nth_error h m) as [[ps pr|xs]|];
    [destruct (readPairs (readH f h) ps) | destruct (mapOpt (readH f h) xs) | ];
    simpl; intros H; try discriminate H; injection H as <-; eauto.
Qed.

(** [process] then [finish] from a state with no context: for an object,
    array or null the source becomes the copy of [j]; for another value the
    source and the cells that were there stay as they were. *)
Lemma process_finish_copy hr inf j st v st' :
  nodupKeys j = true -> CtxOk st -> ctx st = None ->
  (_ <~ process hr inf j ;; finish) st = Done (v, st') ->
  (is_object j = true -> getUncompressedObject (S (depth j)) st' = Some (copyOf j)) /\
  (is_object j = false -> uncompressedSource st' = uncompressedSource st /\
     forall i, i < List.length (heap st) -> nth_error (heap st') i = nth_error (heap st) i).
Proof.
  intros Nd Hc H0 E. apply cbind_inv in E as [[] [s1 [E1 E2]]].
  assert (Fs : heap st' = heap s1 /\ uncompressedSource st' = uncompressedSource s1).
  { unfold finish in E2. destruct (rootValue s1); [|discriminate].
    destruct (ctx s1), (contextStack s1); try discriminate. injection E2 as _ <-. split; reflexivity. }
  destruct Fs as [Fh Fu].
  assert (O : OrdFrom (List.length (heap st)) (heap st)) by (apply OrdFrom_beyond; lia).
  assert (P : ParentIn (List.length (heap st)) st) by (unfold ParentIn, parentOf; rewrite H0; exact I).
  assert (Pn : parentCell st = None) by (unfold parentCell, parentOf; rewrite H0; reflexivity).
  assert (Fr : ProtoFreshAt (heap st) (fst (parentOf st)) (snd (parentOf st)))
    by (unfold parentOf; rewrite H0; exact I).
  destruct (heap_ok hr inf j Nd _ st s1 Hc (le_n _) O P Fr E1) as [[x [L [A [Pc [R [X K]]]]]] _].
  unfold parentOf in Pc. rewrite H0 in Pc. simpl in Pc.
  unfold getUncompressedObject. rewrite Fh, Fu, Pc.
  destruct x as [p|m].
  - subst p. simpl typeofObject. split.
    + intros Io. rewrite Io. apply R. lia.
    + intros Io. rewrite Io. split; [reflexivity|].
      intros i Hi. apply A; [exact Hi|]. rewrite Pn. discriminate.
  - simpl typeofObject. split.
    + intros _. apply R. lia.
    + intros Io. exfalso. specialize (R (S (depth j)) (le_n _)).
      destruct (readH_ref_shape _ _ _ _ R) as [[l' E']|[fs' E']];
        destruct j; try discriminate Io; discriminate E'.
Qed.

(** [CompressedJSONFromString.parseSync] and [getUncompressedObject]: after
    parsing a document whose objects have distinct keys, as [JSON.parse]
    returns them, the uncompressed source is a copy of the document rebuilt
    by [setUncompressedObjectProperty]: it has the same arrays and values,
    every object loses its properties named [""] or ["__proto__"], and the
    other keys come in the order of [js_set] (array-index keys first, in
    ascending order). A string, boolean or number root is the parsed value
    itself. *)
Theorem parseSync_uncompressed_copy (handleRefs : bool) (inferFormat : string -> option string) (j : jsval) :
  nodupKeys j = true ->
  exists v st', parseSync handleRefs inferFormat j initialCJ = Done (v, st') /\
    getUncompressedObject (S (depth j)) st' = Some (copyOf j).
Proof.
  intros Nd.
  destruct (allocValue_heap j initialCJ) as [x [h E]].
  set (st0 := with_source x (with_heap h initialCJ)).
  assert (I0 : Inv st0) by (apply Inv_start; [exact StringsInv_initial | reflexivity | reflexivity]).
  destruct (process_finish handleRefs inferFormat j st0 I0 eq_refl eq_refl) as [v [st' [E1 _]]].
  exists v, st'. split.
  - unfold parseSync. rewrite (cbind_done _ _ initialCJ x st0); [exact E1|].
    unfold makeUncompressedSource, cbind. rewrite E. reflexivity.
  - destruct (process_finish_copy handleRefs inferFormat j st0 v st' Nd (proj2 I0) eq_refl E1) as [Ho Hn].
    destruct (is_object j) eqn:Io; [exact (Ho eq_refl)|].
    destruct (Hn eq_refl) as [Su _]. unfold getUncompressedObject. rewrite Su.
    change (uncompressedSource st0) with x.
    destruct j; try discriminate Io; simpl in E; injection E as <- _; reflexivity.
Qed.

Lemma parseSync_uncompressed_copy_witness :
  let j := JObj [("1", JNull); ("b", JBool true); ("", JStr "x"); ("__proto__", JNull);
                 ("k", JArr [JBool true])] in
  nodupKeys j = true /\
  copyOf j = JObj [("1", JNull); ("b", JBool true); ("k", JArr [JBool true])] /\
  exists v st', parseSync false (fun _ => None) j initialCJ = Done (v, st') /\
    getUncompressedObject (S (depth j)) st' = Some (copyOf j).
Proof.
  split; [reflexivity|]. split; [vm_compute; reflexivity|].
  apply (parseSync_uncompressed_copy false (fun _ => None)). reflexivity.
Defined.



(** [CompressedJSONFromStream] on [{"__proto__": null, "__proto__": 1}]:
    the first key reaches the prototype setter and gives the uncompressed
    object a [null] prototype; the second then finds no setter on the chain
    and becomes an own property. *)
Theorem parseStream_repeated_proto_own_key :
  let j := JObj [("__proto__", JNull); ("__proto__", JNum (Fin 1 0))] in
  exists v st', parseStream false (fun _ => None) (eventsOf (fun _ => ["1"]) j) initialCJ = Done (v, st') /\
    getUncompressedObject 2 st' = Some (JObj [("__proto__", JNum (Fin 1 0))]).
Proof. eexists _, _. split; [vm_compute; reflexivity | vm_compute; reflexivity]. Qed.

End CompressedJSONCopyProofs.

(** * Proofs about the paths and class checks of the converter *)

Module XSDConverterProofs.

Section XSDPaths.

Lemma parentPath_last_dot : forall pre b,
  all_chars (fun d => negb (Ascii.eqb d "."%char)) b = true ->
  parentPath (pre ++ "." ++ b) = pre.
Proof.
  intros pre b Hb.
  unfold parentPath, lastIndexOfDot. rewrite lastIndexOf_from_app. simpl.
  rewrite lastIndexOf_from_none by exact Hb.
  unfold slice0. rewrite slength_app. simpl.
  replace (Z.ltb (Z.of_nat (String.length pre)) 0) with false by (symmetry; apply Z.ltb_ge; lia).
  rewrite Z.min_l by lia. rewrite Nat2Z.id. apply str_take_app.
Qed.

Lemma parentPath_dotted_child : forall c a b, c <> "" ->
  all_chars (fun d => negb (Ascii.eqb d "."%char)) b = true ->
  parentPath (childPath c (a ++ "." ++ b)) = c ++ "." ++ a.
Proof.
  intros c a b Hc Hb. rewrite childPath_nonempty by exact Hc.
  replace (c ++ "." ++ a ++ "." ++ b) with ((c ++ "." ++ a) ++ "." ++ b)
    by (rewrite !sapp_assoc; reflexivity).
  rewrite parentPath_last_dot by exact Hb. reflexivity.
Qed.

End XSDPaths.

Section ClassProps.

Lemma propKindOk_prim : forall X p k, isPrimitiveTypeKind k = true -> propKindOk X p k = true.
Proof. intros X p k H. destruct k; simpl in *; congruence. Qed.

End ClassProps.

(** [parseCurrentObject] of [parseJSON] and of [parseXMLtoJSON]: a tag that
    contains a dot is not taken off [currentPath] when its element is
    finished. Under a non-empty path [c], after a primitive value under the
    tag [a.b] (with [b] free of dots) the path is [c.a] instead of [c], and
    the next sibling is looked up under that path. *)
Theorem dotted_tag_breaks_path (isDate isTime isDateTime isURI : jsval -> bool) (X : XSDTypes)
    (v : jsval) (c a b : string) (p : PrimitiveTypeKind) (t r : jsval) :
  c <> "" -> all_chars (fun d => negb (Ascii.eqb d "."%char)) b = true ->
  parsePrimitiveKind isDate isTime isDateTime isURI v p Fmt_XML = Done t ->
  parsePrimitiveKind isDate isTime isDateTime isURI v p Fmt_JSON = Done r ->
  parseJSONNode isDate isTime isDateTime isURI X v (a ++ "." ++ b) (K_prim p) c =
    Done (XElem (a ++ "." ++ b) [] [XText (txt_of t)], c ++ "." ++ a) /\
  parseXMLNode isDate isTime isDateTime isURI X v (a ++ "." ++ b) (Some (K_prim p)) c =
    Done (r, c ++ "." ++ a).
Proof.
  intros Hc Hb Et Er. split.
  - rewrite PJN_prim, Et. cbn [obind]. rewrite parentPath_dotted_child by assumption. reflexivity.
  - rewrite PXN_prim, Er. cbn [obind]. rewrite parentPath_dotted_child by assumption. reflexivity.
Qed.

(** [isValidClassPropsInXMLObject]: on an XML object, a required property
    of the class at [path] that is neither an own key of the object nor a
    name inherited from [Object.prototype] makes the check return [false]. *)
Theorem isValidClassProps_missing_required (X : XSDTypes) (fs : list (string * jsval)) (path : string)
    (cps : list (string * ClassProp)) (n : string) (pd : ClassProp) :
  getClassType X path = Some cps -> In (n, pd) cps -> cpr_isOptional pd = false ->
  str_mem n (map fst fs) = false -> str_mem n objectPrototypeKeys = false ->
  isValidClassPropsInXMLObject X (JObj fs) path = Done false.
Proof.
  intros G Hin Ho Hf Hp. unfold isValidClassPropsInXMLObject. rewrite G. clear G.
  induction cps as [|[n' pd'] t IH]; [destruct Hin|].
  destruct Hin as [E|Hin].
  - injection E as -> ->. cbn [js_in obind]. rewrite Hf, Hp, Ho. reflexivity.
  - cbn [js_in obind].
    destruct (negb (str_mem n' (map fst fs) || str_mem n' objectPrototypeKeys) && negb (cpr_isOptional pd'));
      [reflexivity|].
    destruct (propKindOk X (path ++ "." ++ n') (cpr_kind pd')); [exact (IH Hin) | reflexivity].
Qed.

(** [isValidClassPropsInXMLObject]: the presence test is [propName in
    object], so a required primitive property named like a member of
    [Object.prototype] ([toString], [constructor], ...) passes the check
    on every XML object, also one that lacks it. *)
Theorem isValidClassProps_inherited_names (X : XSDTypes) (fs : list (string * jsval)) (path : string)
    (cps : list (string * ClassProp)) :
  getClassType X path = Some cps ->
  Forall (fun np => str_mem (fst np) objectPrototypeKeys = true /\
                    isPrimitiveTypeKind (cpr_kind (snd np)) = true) cps ->
  isValidClassPropsInXMLObject X (JObj fs) path = Done true.
Proof.
  intros G F. unfold isValidClassPropsInXMLObject. rewrite G. clear G.
  induction F as [|[n pd] t [Hp Hk] Ft IH]; [reflexivity|].
  cbn [fst snd] in Hp, Hk. cbn [js_in obind]. rewrite Hp, orb_true_r. cbn [negb andb].
  rewrite (propKindOk_prim X _ _ Hk). exact IH.
Qed.

Lemma dotted_tag_breaks_path_witness :
  parseJSONNode (fun _ => false) (fun _ => false) (fun _ => false) (fun _ => false)
    (mkXSDTypes [] [] []) (JStr "x") ("a" ++ "." ++ "b") (K_prim PK_string) "root" =
    Done (XElem ("a" ++ "." ++ "b") [] [XText (txt_of (JStr "x"))], "root" ++ "." ++ "a") /\
  parseXMLNode (fun _ => false) (fun _ => false) (fun _ => false) (fun _ => false)
    (mkXSDTypes [] [] []) (JStr "x") ("a" ++ "." ++ "b") (Some (K_prim PK_string)) "root" =
    Done (JStr "x", "root" ++ "." ++ "a").
Proof.
  apply (dotted_tag_breaks_path _ _ _ _ (mkXSDTypes [] [] []) (JStr "x") "root" "a" "b" PK_string).
  - discriminate.
  - reflexivity.
  - reflexivity.
  - reflexivity.
Defined.

Lemma isValidClassProps_missing_required_witness :
  isValidClassPropsInXMLObject (mkXSDTypes [("r", [("name", mkClassProp false (K_prim PK_string) "xsd:string")])] [] [])
    (JObj [("other", JStr "x")]) "r" = Done false.
Proof.
  apply (isValidClassProps_missing_required _ _ _ [("name", mkClassProp false (K_prim PK_string) "xsd:string")]
           "name" (mkClassProp false (K_prim PK_string) "xsd:string")).
  - reflexivity.
  - left. reflexivity.
  - reflexivity.
  - reflexivity.
  - reflexivity.
Defined.

Lemma isValidClassProps_inherited_names_witness :
  isValidClassPropsInXMLObject (mkXSDTypes [("r", [("toString", mkClassProp false (K_prim PK_string) "xsd:string")])] [] [])
    (JObj []) "r" = Done true.
Proof.
  apply (isValidClassProps_inherited_names _ _ _ [("toString", mkClassProp false (K_prim PK_string) "xsd:string")]).
  - reflexivity.
  - repeat constructor.
Defined.

End XSDConverterProofs.
